(** * Belief propagation on factor graphs: a shallow embedding

    The development embeds the TypeScript sources of the repository
    (graphs/util.ts, the discrete engine [BeliefPropagation] and
    graphs/gaussian.ts) and proves properties of them.

    Numbers.  A JavaScript number is modelled as an extended real: a finite
    real, one of the two infinities, or NaN.  Arithmetic on finite values is
    exact (no rounding, no overflow, a single zero); the special values follow
    IEEE-754 / ECMAScript.  [Math.log] and [Math.exp] are the real logarithm
    and exponential on finite arguments, with the ECMAScript results at
    0, negative arguments, the infinities and NaN.

    The doubles of the code differ from these numbers in two ways: they
    round, and they leave their range, a positive result below the smallest
    double being flushed to 0 and one above the largest becoming
    [Infinity].  The theorems are read up to rounding.  Leaving the range is
    not rounding: a theorem about sums, products, quotients or exponentials
    that the range could break carries the hypothesis that they stay within
    it ([withinDoubles], [hugeDouble]), or is stated for operands the code
    combines without rounding (the damping factors 0 and 1); and where the
    code does leave the range, the development proves what the code hands
    to [Math.exp] and stops there.

    Objects.  Node objects live in the engine's node array; a reference to a
    node (a member of a [neighbors] list, a key of the evidence map) is
    modelled by the node's position in that array, which is also the [id]
    given to it by [processGraph]. *)

From Stdlib Require Import Reals Lra List String Bool Arith Lia.
From Stdlib Require Import Decimal DecimalString.
Import ListNotations.

Set Implicit Arguments.

(* ================================================================= *)
(** ** JavaScript numbers *)

Module Num.

Inductive num : Type :=
| Fin (r : R)
| PInf
| NInf
| NaN.

Inductive sign : Type := Neg | Zero | Pos.

Definition sgn (x : R) : sign :=
  if Rlt_dec 0 x then Pos else if Rlt_dec x 0 then Neg else Zero.

Definition neg (a : num) : num :=
  match a with
  | Fin x => Fin (- x)
  | PInf => NInf
  | NInf => PInf
  | NaN => NaN
  end.

(** [a + b] *)
Definition add (a b : num) : num :=
  match a, b with
  | NaN, _ | _, NaN => NaN
  | Fin x, Fin y => Fin (x + y)
  | PInf, NInf | NInf, PInf => NaN
  | PInf, _ | _, PInf => PInf
  | NInf, _ | _, NInf => NInf
  end.

(** [a - b] *)
Definition sub (a b : num) : num := add a (neg b).

Definition inf_of (s : sign) : num :=
  match s with Pos => PInf | Neg => NInf | Zero => NaN end.

Definition sign_of (a : num) : sign :=
  match a with
  | Fin x => sgn x
  | PInf => Pos
  | NInf => Neg
  | NaN => Zero
  end.

Definition sign_mul (s t : sign) : sign :=
  match s, t with
  | Zero, _ | _, Zero => Zero
  | Pos, Pos | Neg, Neg => Pos
  | _, _ => Neg
  end.

(** [a * b] *)
Definition mul (a b : num) : num :=
  match a, b with
  | NaN, _ | _, NaN => NaN
  | Fin x, Fin y => Fin (x * y)
  | _, _ => inf_of (sign_mul (sign_of a) (sign_of b))
  end.

(** [a / b]; the only zero of the model is the positive one *)
Definition div (a b : num) : num :=
  match a, b with
  | NaN, _ | _, NaN => NaN
  | Fin x, Fin y =>
      if Req_dec_T y 0 then inf_of (sgn x) else Fin (x / y)
  | Fin _, _ => Fin 0
  | _, Fin y => if Rlt_dec y 0 then neg a else a
  | _, _ => NaN
  end.

(** [a < b] *)
Definition lt (a b : num) : bool :=
  match a, b with
  | NaN, _ | _, NaN => false
  | Fin x, Fin y => if Rlt_dec x y then true else false
  | NInf, NInf => false
  | NInf, _ => true
  | _, PInf => match a with PInf => false | _ => true end
  | _, _ => false
  end.

(** [a > b] *)
Definition gt (a b : num) : bool := lt b a.

(** [a === b] on numbers *)
Definition eqb (a b : num) : bool :=
  match a, b with
  | Fin x, Fin y => if Req_dec_T x y then true else false
  | PInf, PInf | NInf, NInf => true
  | _, _ => false
  end.

(** [isNaN(a)] *)
Definition isNaN (a : num) : bool :=
  match a with NaN => true | _ => false end.

(** Truthiness of a number: [0] and [NaN] are falsy. *)
Definition truthy (a : num) : bool :=
  match a with
  | NaN => false
  | Fin x => if Req_dec_T x 0 then false else true
  | _ => true
  end.

(** [x || d] where [x] is an array element that may be [undefined]. *)
Definition or_else (x : option num) (d : num) : num :=
  match x with
  | Some a => if truthy a then a else d
  | None => d
  end.

(** An [undefined] operand of an arithmetic operator converts to NaN. *)
Definition to_number (x : option num) : num :=
  match x with Some a => a | None => NaN end.

(** [Math.log] *)
Definition log (a : num) : num :=
  match a with
  | NaN | NInf => NaN
  | PInf => PInf
  | Fin x =>
      if Rlt_dec x 0 then NaN
      else if Req_dec_T x 0 then NInf
      else Fin (ln x)
  end.

(** [Math.exp], exact on finite arguments: the real exponential, which is
    never 0 and never infinite *)
Definition exp (a : num) : num :=
  match a with
  | NaN => NaN
  | PInf => PInf
  | NInf => Fin 0
  | Fin x => Fin (Rtrigo_def.exp x)
  end.

(** [Math.abs] *)
Definition abs (a : num) : num :=
  match a with
  | Fin x => Fin (Rabs x)
  | PInf | NInf => PInf
  | NaN => NaN
  end.

(** [Math.max(a, b)]: NaN if either argument is NaN. *)
Definition max2 (a b : num) : num :=
  match a, b with
  | NaN, _ | _, NaN => NaN
  | _, _ => if lt a b then b else a
  end.

(** [Math.max(...l)]: [-Infinity] for no argument. *)
Definition max (l : list num) : num := fold_left max2 l NInf.

(** The number of a non-negative integer (an array length or index). *)
Definition of_nat (n : nat) : num := Fin (INR n).

End Num.

Import Num.

(* ================================================================= *)
(** ** Arrays *)

(** [Array.prototype.map] with the element's index. *)
Fixpoint mapi_from {A B : Type} (f : nat -> A -> B) (i : nat) (l : list A)
  : list B :=
  match l with
  | [] => []
  | x :: t => f i x :: mapi_from f (S i) t
  end.

Definition mapi {A B : Type} (f : nat -> A -> B) (l : list A) : list B :=
  mapi_from f 0 l.

(** [arr[i] = v] for [i] inside the array. *)
Fixpoint set_nth {A : Type} (i : nat) (v : A) (l : list A) : list A :=
  match l, i with
  | [], _ => []
  | _ :: t, O => v :: t
  | x :: t, S j => x :: set_nth j v t
  end.

(** [arr.indexOf(x)] / [arr.findIndex(p)]: [None] stands for [-1]. *)
Fixpoint findIndex_from {A : Type} (p : A -> bool) (i : nat) (l : list A)
  : option nat :=
  match l with
  | [] => None
  | x :: t => if p x then Some i else findIndex_from p (S i) t
  end.

Definition findIndex {A : Type} (p : A -> bool) (l : list A) : option nat :=
  findIndex_from p 0 l.

Definition indexOf (x : nat) (l : list nat) : option nat :=
  findIndex (Nat.eqb x) l.

(** [arr.reduce(f)] without an initial value: a TypeError ([None]) on an
    empty array. *)
Definition reduce1 {A : Type} (f : A -> A -> A) (l : list A) : option A :=
  match l with
  | [] => None
  | x :: t => Some (fold_left f t x)
  end.

(** [arr.reduce((a, b) => a + b, 0)] *)
Definition sum (l : list num) : num := fold_left add l (Fin 0).

(* ================================================================= *)
(** ** graphs/util.ts *)

Inductive GraphType : Type := FACTOR | VARIABLE.

Definition GraphType_eqb (a b : GraphType) : bool :=
  match a, b with
  | FACTOR, FACTOR | VARIABLE, VARIABLE => true
  | _, _ => false
  end.

Definition NodeID := string.

(** [GaussianMessage = { mean: number; precision: number }] *)
Record GaussianMessage : Type := mkGaussianMessage {
  gm_mean : num;
  gm_precision : num
}.

Module BeliefUtils.

Definition LOG_EPSILON : num := Fin (1 / 10000000000).

Definition logSumExp (logValues : list num) : num :=
  if Nat.eqb (List.length logValues) 0 then LOG_EPSILON
  else
    let maxLogValue := Num.max logValues in
    if Num.eqb maxLogValue NInf then LOG_EPSILON
    else
      let sum :=
        fold_left (fun sum logVal => add sum (Num.exp (sub logVal maxLogValue)))
                  logValues (Fin 0) in
      add maxLogValue (Num.log sum).

Definition logNormalize (logValues : list num) : list num :=
  let logSum := logSumExp logValues in
  map (fun lv => sub lv logSum) logValues.

Definition dampMessage (newMsg prevMsg : list num) (dampingFactor : num)
  : list num :=
  let damped :=
    mapi (fun idx val =>
            add (mul dampingFactor val)
                (mul (sub (Fin 1) dampingFactor)
                     (to_number (nth_error prevMsg idx))))
         newMsg in
  let sum := sum damped in
  map (fun x => div x sum) damped.

Definition gaussianDampMessage (newMsg prevMsg : GaussianMessage)
  (dampingFactor : num) : GaussianMessage :=
  {| gm_mean := add (mul dampingFactor (gm_mean newMsg))
                    (mul (sub (Fin 1) dampingFactor) (gm_mean prevMsg));
     gm_precision := add (mul dampingFactor (gm_precision newMsg))
                         (mul (sub (Fin 1) dampingFactor)
                              (gm_precision prevMsg)) |}.

Definition normalize (values : list num) : list num :=
  let sum := sum values in
  map (fun x => div x sum) values.

Definition cartesianProduct {T : Type} (arrays : list (list T))
  : list (list T) :=
  fold_left
    (fun acc arr => flat_map (fun c => map (fun v => c ++ [v]) arr) acc)
    arrays [[]].

End BeliefUtils.

(* ================================================================= *)
(** ** Console, results and plain objects *)

(** The decimal text of a non-negative integer inside a template string. *)
Definition show_nat (n : nat) : string :=
  NilZero.string_of_uint (Nat.to_uint n).

(** How a call ends: it returns a value or throws an [Error]. *)
Inductive Completion (A : Type) : Type :=
| Returned (a : A)
| Thrown (message : string).

Arguments Returned {A} a.
Arguments Thrown {A} message.

(** A call of an engine method: how it ended, the lines it wrote to the
    console, and the engine afterwards. *)
Record Outcome (A S : Type) : Type := mkOutcome {
  completion : Completion A;
  console : list string;
  final : S
}.

(** The property names every plain object inherits from
    [Object.prototype]; the [in] operator finds them too. *)
Definition objectPrototypeKeys : list string :=
  [ "constructor"; "__defineGetter__"; "__defineSetter__"; "hasOwnProperty";
    "__lookupGetter__"; "__lookupSetter__"; "isPrototypeOf";
    "propertyIsEnumerable"; "toString"; "valueOf"; "__proto__";
    "toLocaleString" ]%string.

(** Position of the last entry called [name]: with [id = position], the
    [id] of [Object.fromEntries(nodes)[name]] when [name] is an own key. *)
Fixpoint ownIndex_from (name : string) (i : nat) (names : list string)
  : option nat :=
  match names with
  | [] => None
  | x :: t =>
      match ownIndex_from name (S i) t with
      | Some k => Some k
      | None => if String.eqb x name then Some i else None
      end
  end.

Definition ownIndex (name : string) (names : list string) : option nat :=
  ownIndex_from name 0 names.

(** [name in nodeDict] *)
Definition in_nodeDict (names : list string) (name : string) : bool :=
  match ownIndex name names with
  | Some _ => true
  | None => existsb (String.eqb name) objectPrototypeKeys
  end.

(** [nodeDict[name]?.id || 0]: an inherited property has no [id]. *)
Definition id_or_0 (names : list string) (name : string) : nat :=
  match ownIndex name names with
  | Some k => k
  | None => 0
  end.

(** [FactorGraph<T>]: [nodes] lists the entries of the record in the order
    of [Object.entries]. *)
Record FactorGraph (T : Type) : Type := mkFactorGraph {
  fg_nodes : list (NodeID * T);
  fg_edges : list (NodeID * NodeID)
}.

(** The edge pipeline of [processGraph]: [filter], [map], [flatMap]. *)
Definition normalizeEdges (names : list string)
  (edges : list (NodeID * NodeID)) : list (nat * nat) :=
  flat_map
    (fun e : nat * nat => [(fst e, snd e); (snd e, fst e)])
    (map
       (fun e : NodeID * NodeID =>
          (id_or_0 names (fst e), id_or_0 names (snd e)))
       (filter
          (fun e : NodeID * NodeID =>
             in_nodeDict names (fst e) && in_nodeDict names (snd e))
          edges)).

(** The [forEach] of [processGraph] over the directed edges: [type_of]
    reads a node's [type], [push] is [node.neighbors.push(to)]. *)
Section Adjacency.

Variable Node : Type.
Variable type_of : Node -> GraphType.
Variable push : nat -> Node -> Node.

Definition invalidEdge (from to : nat) : string :=
  ("Invalid edge: (" ++ show_nat from ++ ", " ++ show_nat to ++ ")")%string.

(** [nodesOut[from]?.type == t && nodesOut[to] &&
     nodesOut[from]?.type != nodesOut[to]?.type] *)
Definition edgeTest (nodesOut : list Node) (t : GraphType) (from to : nat)
  : bool :=
  match nth_error nodesOut from, nth_error nodesOut to with
  | Some a, Some b =>
      GraphType_eqb (type_of a) t && negb (GraphType_eqb (type_of a) (type_of b))
  | _, _ => false
  end.

Definition pushNeighbor (nodesOut : list Node) (from to : nat) : list Node :=
  match nth_error nodesOut from with
  | Some a => set_nth from (push to a) nodesOut
  | None => nodesOut
  end.

Definition addEdge (acc : list Node * list string) (e : nat * nat)
  : list Node * list string :=
  let '(nodesOut, errors) := acc in
  let '(from, to) := e in
  if edgeTest nodesOut VARIABLE from to then
    (pushNeighbor nodesOut from to, errors)
  else if edgeTest nodesOut FACTOR from to then
    (pushNeighbor nodesOut from to, errors)
  else (nodesOut, errors ++ [invalidEdge from to]).

Definition buildAdjacency (nodesOut : list Node) (edges : list (nat * nat))
  : list Node * list string :=
  fold_left addEdge edges (nodesOut, []).

End Adjacency.

(** [messages[a][b]] and [messages[a][b] = v] on an array of arrays. *)
Definition mget {A : Type} (d : A) (m : list (list A)) (a b : nat) : A :=
  nth b (nth a m []) d.

Definition mset {A : Type} (m : list (list A)) (a b : nat) (v : A)
  : list (list A) :=
  set_nth a (set_nth b v (nth a m [])) m.

(** [Map.prototype.has] and [Map.prototype.set] on a map keyed by node. *)
Definition map_has {V : Type} (m : list (nat * V)) (k : nat) : bool :=
  existsb (fun e => Nat.eqb (fst e) k) m.

Definition map_get {V : Type} (m : list (nat * V)) (k : nat) : option V :=
  option_map snd (find (fun e => Nat.eqb (fst e) k) m).

Definition map_set {V : Type} (m : list (nat * V)) (k : nat) (v : V)
  : list (nat * V) :=
  if map_has m k
  then map (fun e => if Nat.eqb (fst e) k then (k, v) else e) m
  else m ++ [(k, v)].

(* ================================================================= *)
(** ** The discrete engine: class [BeliefPropagation] *)

Module Discrete.

Import BeliefUtils.

(** [BayesVariableInput] and [BayesFactorInput].  A potential receives the
    assignment array built by the engine: one value index per neighbor, a
    slot never written being [None]. *)
Record BayesVariableInput : Type := mkBayesVariableInput {
  in_possibleValues : list num;
  in_currentBelief : list num
}.

Record BayesFactorInput : Type := mkBayesFactorInput {
  in_potential : list (option nat) -> num
}.

Inductive BayesNodeInput : Type :=
| VariableInput (v : BayesVariableInput)
| FactorInput (f : BayesFactorInput).

(** [BayesVariable] and [BayesFactor]; the [id] of a node is its position
    in [graph.nodes], and [neighbors] holds positions. *)
Record BayesVariable : Type := mkBayesVariable {
  var_name : NodeID;
  possibleValues : list num;
  currentBelief : list num;
  logBelief : list num;
  var_neighbors : list nat
}.

Record BayesFactor : Type := mkBayesFactor {
  fac_name : NodeID;
  potential : list (option nat) -> num;
  logPotential : list (option nat) -> num;
  fac_neighbors : list nat
}.

Inductive BayesNode : Type :=
| Var (v : BayesVariable)
| Fac (f : BayesFactor).

Definition type (n : BayesNode) : GraphType :=
  match n with Var _ => VARIABLE | Fac _ => FACTOR end.

Definition name (n : BayesNode) : NodeID :=
  match n with Var v => var_name v | Fac f => fac_name f end.

Definition neighbors (n : BayesNode) : list nat :=
  match n with Var v => var_neighbors v | Fac f => fac_neighbors f end.

(** [node.neighbors.push(to)] *)
Definition push (to : nat) (n : BayesNode) : BayesNode :=
  match n with
  | Var v =>
      Var (mkBayesVariable (var_name v) (possibleValues v) (currentBelief v)
             (logBelief v) (var_neighbors v ++ [to]))
  | Fac f =>
      Fac (mkBayesFactor (fac_name f) (potential f) (logPotential f)
             (fac_neighbors f ++ [to]))
  end.

Record BayesGraph : Type := mkBayesGraph {
  nodes : list BayesNode;
  edges : list (nat * nat)
}.

Record BeliefPropagation : Type := mkBeliefPropagation {
  graph : BayesGraph;
  messages : list (list (list num));
  nextMessages : list (list (list num));
  variableMarginals : list (list num);
  dampingFactor : num;
  evidence : list (nat * num)
}.

(** The first [map] of [processGraph]: one internal node per entry. *)
Definition internalNode (entry : NodeID * BayesNodeInput) : BayesNode :=
  match snd entry with
  | VariableInput v =>
      Var (mkBayesVariable (fst entry) (in_possibleValues v)
             (in_currentBelief v) [] [])
  | FactorInput f =>
      Fac (mkBayesFactor (fst entry) (in_potential f)
             (fun values =>
                let p := in_potential f values in
                if gt p (Fin 0) then Num.log p else LOG_EPSILON)
             [])
  end.

Definition processGraph (g : FactorGraph BayesNodeInput)
  : BayesGraph * list string :=
  let nodes := map internalNode (fg_nodes g) in
  let edges := normalizeEdges (map fst (fg_nodes g)) (fg_edges g) in
  let '(nodesOut, errors) := buildAdjacency type push nodes edges in
  (mkBayesGraph nodesOut edges, errors).

Definition setBeliefs (n : BayesNode) (belief logB : list num) : BayesNode :=
  match n with
  | Var v =>
      Var (mkBayesVariable (var_name v) (possibleValues v) belief logB
             (var_neighbors v))
  | Fac f => Fac f
  end.

(** The first loop of [initializeMessages]. *)
Definition initNode (n : BayesNode) : BayesNode :=
  match n with
  | Var v =>
      let size := List.length (possibleValues v) in
      let uniformProb := div (Fin 1) (of_nat size) in
      setBeliefs n (repeat uniformProb size)
        (repeat (Num.log uniformProb) size)
  | Fac _ => n
  end.

Definition initMarginal (n : BayesNode) : list num :=
  match n with
  | Var v =>
      let size := List.length (possibleValues v) in
      repeat (div (Fin 1) (of_nat size)) size
  | Fac _ => []
  end.

(** One step of the second loop of [initializeMessages]; [None] is the
    TypeError of assigning into the missing row [messages[from]]. *)
Definition initEdge (nodes : list BayesNode) (marginals : list (list num))
  (msgs : option (list (list (list num)))) (e : nat * nat)
  : option (list (list (list num))) :=
  match msgs with
  | None => None
  | Some m =>
      let '(from, to) := e in
      if Nat.ltb from (List.length m) then
        match nth_error nodes to with
        | Some (Var _) => Some (mset m from to (nth to marginals []))
        | _ => Some (mset m from to [Fin 1])
        end
      else None
  end.

Definition emptyMessages (n : nat) : list (list (list num)) :=
  repeat (repeat [] n) n.

Definition initializeMessages (g : BayesGraph) (damping : num)
  : option BeliefPropagation :=
  let n := List.length (nodes g) in
  let marginals := map initMarginal (nodes g) in
  let nodes' := map initNode (nodes g) in
  match fold_left (initEdge nodes' marginals) (edges g)
          (Some (emptyMessages n)) with
  | Some m =>
      Some (mkBeliefPropagation (mkBayesGraph nodes' (edges g)) m
              (emptyMessages n) marginals damping [])
  | None => None
  end.

(** [new BeliefPropagation(graph, { damping })]; [None] when the
    constructor throws. *)
Definition constructor (g : FactorGraph BayesNodeInput)
  (damping : option num) : option BeliefPropagation :=
  initializeMessages (fst (processGraph g)) (or_else damping (Fin 0)).

Definition withNext (s : BeliefPropagation) (nm : list (list (list num)))
  : BeliefPropagation :=
  mkBeliefPropagation (graph s) (messages s) nm (variableMarginals s)
    (dampingFactor s) (evidence s).

Definition possibleValuesOf (s : BeliefPropagation) (id : nat) : list num :=
  match nth_error (nodes (graph s)) id with
  | Some (Var v) => possibleValues v
  | _ => []
  end.

Definition updateVariableToFactorMessage (s : BeliefPropagation)
  (variable factor : nat) : BeliefPropagation :=
  if map_has (evidence s) variable then
    withNext s (mset (nextMessages s) variable factor
                  (mget [] (messages s) variable factor))
  else
    let marginal := nth variable (variableMarginals s) [] in
    let factorMessage := mget [] (messages s) factor variable in
    let logMessage :=
      mapi (fun i m =>
              let divisor := or_else (nth_error factorMessage i) LOG_EPSILON in
              sub (Num.log m) (Num.log divisor))
           marginal in
    let message := map Num.exp logMessage in
    withNext s (mset (nextMessages s) variable factor (normalize message)).

(** [values[k] = v] on the assignment array; index [-1] ([None]) adds a
    property and leaves the elements alone. *)
Definition assign (k : option nat) (v : nat) (values : list (option nat))
  : list (option nat) :=
  match k with
  | Some i => set_nth i (Some v) values
  | None => values
  end.

Definition indexed {A : Type} (l : list A) : list (nat * A) :=
  combine (seq 0 (List.length l)) l.

Definition updateFactorToVariableMessage (s : BeliefPropagation)
  (fid : nat) (factor : BayesFactor) (variable : nat) : BeliefPropagation :=
  let varIndex := indexOf variable (fac_neighbors factor) in
  let otherVars :=
    filter (fun v => negb (Nat.eqb v variable)) (fac_neighbors factor) in
  let valIndices := seq 0 (List.length (possibleValuesOf s variable)) in
  let logTerms :=
    map (fun w =>
           let marginal := nth w (variableMarginals s) [] in
           let message := mget [] (messages s) w fid in
           mapi (fun i b =>
                   sub (Num.log b)
                       (Num.log (or_else (nth_error message i) LOG_EPSILON)))
                marginal)
        otherVars in
  let logMessages :=
    map (fun valIndex =>
           let valueCombinations :=
             fold_left
               (fun acc vals =>
                  flat_map (fun combo => map (fun v => combo ++ [v]) vals) acc)
               (map (fun w => seq 0 (List.length (possibleValuesOf s w)))
                    otherVars)
               [[]] in
           logSumExp
             (map (fun combo =>
                     let values :=
                       fold_left
                         (fun values iv =>
                            assign
                              (match nth_error otherVars (fst iv) with
                               | Some w => indexOf w (fac_neighbors factor)
                               | None => None
                               end)
                              (snd iv) values)
                         (indexed combo)
                         (assign varIndex valIndex
                            (repeat None (List.length (fac_neighbors factor))))
                     in
                     add (logPotential factor values)
                         (fold_left
                            (fun sum iv =>
                               add sum
                                   (to_number
                                      (match nth_error logTerms (fst iv) with
                                       | Some row => nth_error row (snd iv)
                                       | None => None
                                       end)))
                            (indexed combo) (Fin 0)))
                  valueCombinations))
        valIndices in
  let logZ := logSumExp logMessages in
  withNext s (mset (nextMessages s) fid variable
                (map (fun m => Num.exp (sub m logZ)) logMessages)).

(** The two loops of [updateAllMessages] and the swap of the buffers. *)
Definition variablePhase (s : BeliefPropagation) : BeliefPropagation :=
  fold_left
    (fun s kn =>
       match snd kn with
       | Var v =>
           fold_left (fun s f => updateVariableToFactorMessage s (fst kn) f)
                     (var_neighbors v) s
       | Fac _ => s
       end)
    (indexed (nodes (graph s))) s.

Definition factorPhase (s : BeliefPropagation) : BeliefPropagation :=
  fold_left
    (fun s kn =>
       match snd kn with
       | Fac f =>
           fold_left (fun s v => updateFactorToVariableMessage s (fst kn) f v)
                     (fac_neighbors f) s
       | Var _ => s
       end)
    (indexed (nodes (graph s))) s.

Definition swapMessages (s : BeliefPropagation) : BeliefPropagation :=
  mkBeliefPropagation (graph s) (nextMessages s) (messages s)
    (variableMarginals s) (dampingFactor s) (evidence s).

Definition updateAllMessages (s : BeliefPropagation) : BeliefPropagation :=
  swapMessages (factorPhase (variablePhase s)).

(** The body of the loop of [updateBeliefs] for the node at position [k]. *)
Definition newMarginal (s : BeliefPropagation) (k : nat) (v : BayesVariable)
  : list num :=
  mapi (fun i _ =>
          Num.exp
            (fold_left add
               (map (fun neighbor =>
                       Num.log
                         (or_else
                            (nth_error (mget [] (messages s) neighbor k) i)
                            (Fin 1)))
                    (var_neighbors v))
               (Fin 0)))
       (possibleValues v).

Definition updateBelief (s : BeliefPropagation) (k : nat)
  : BeliefPropagation :=
  match nth_error (nodes (graph s)) k with
  | Some (Var v) =>
      if map_has (evidence s) k then s
      else
        let belief :=
          dampMessage (normalize (newMarginal s k v)) (currentBelief v)
            (dampingFactor s) in
        mkBeliefPropagation
          (mkBayesGraph
             (set_nth k (setBeliefs (Var v) belief (map Num.log belief))
                (nodes (graph s)))
             (edges (graph s)))
          (messages s) (nextMessages s)
          (set_nth k belief (variableMarginals s))
          (dampingFactor s) (evidence s)
  | _ => s
  end.

Definition updateBeliefs (s : BeliefPropagation) : BeliefPropagation :=
  fold_left updateBelief (seq 0 (List.length (nodes (graph s)))) s.

(** The beliefs of the variable nodes, in node order. *)
Definition variableBeliefs (s : BeliefPropagation) : list (list num) :=
  flat_map (fun n => match n with Var v => [currentBelief v] | Fac _ => [] end)
           (nodes (graph s)).

(** The [reduce] of [runIterations] computing [maxDiff]. *)
Definition maxDiff (oldBeliefs : list (list num)) (s : BeliefPropagation)
  : num :=
  fold_left
    (fun maxDiff ib =>
       let diff :=
         Num.max
           (mapi (fun i b =>
                    Num.abs
                      (sub b (to_number
                                (match nth_error oldBeliefs (fst ib) with
                                 | Some old => nth_error old i
                                 | None => None
                                 end))))
                 (snd ib)) in
       max2 maxDiff diff)
    (indexed (variableBeliefs s)) (Fin 0).

Definition sweep (s : BeliefPropagation) : BeliefPropagation :=
  updateBeliefs (updateAllMessages s).

(** The loop of [runIterations]: [i] is the loop counter, [remaining] the
    number of iterations left before [i] reaches [maxIterations]. *)
Fixpoint iterate (maxIterations : nat) (tolerance : num) (remaining i : nat)
  (s : BeliefPropagation) : Outcome unit BeliefPropagation :=
  match remaining with
  | O =>
      mkOutcome (Returned tt)
        [("Did not converge after " ++ show_nat maxIterations
          ++ " iterations")%string] s
  | S r =>
      let oldBeliefs := variableBeliefs s in
      let s' := sweep s in
      if lt (maxDiff oldBeliefs s') tolerance then
        mkOutcome (Returned tt)
          [("Converged after " ++ show_nat (i + 1) ++ " iterations")%string] s'
      else iterate maxIterations tolerance r (S i) s'
  end.

Definition defaultTolerance : num := Fin (1 / 1000000).

Definition runIterations (maxIterations : nat) (tolerance : option num)
  (s : BeliefPropagation) : Outcome unit BeliefPropagation :=
  iterate maxIterations
    (match tolerance with Some t => t | None => defaultTolerance end)
    maxIterations 0 s.

(** [this.graph.nodes.find(n => n.name === nodeId)], with its position. *)
Definition findNode (s : BeliefPropagation) (nodeId : string)
  : option (nat * BayesNode) :=
  find (fun kn => String.eqb (name (snd kn)) nodeId)
       (indexed (nodes (graph s))).

Definition setEvidence (nodeId : string) (value : num)
  (s : BeliefPropagation) : BeliefPropagation :=
  match findNode s nodeId with
  | Some (k, Var v) =>
      let belief :=
        map (fun v => if Num.eqb v value then Fin 1 else Fin 0)
            (possibleValues v) in
      let logB :=
        map (fun v => if Num.eqb v (Fin 1) then Fin 0 else NInf) belief in
      let put m :=
        fold_left (fun m factor => mset m k factor belief)
                  (var_neighbors v) m in
      mkBeliefPropagation
        (mkBayesGraph (set_nth k (setBeliefs (Var v) belief logB)
                         (nodes (graph s)))
                      (edges (graph s)))
        (put (messages s)) (put (nextMessages s))
        (set_nth k belief (variableMarginals s))
        (dampingFactor s)
        (map_set (evidence s) k value)
  | _ => s
  end.

Definition notVariable (nodeId : string) : string :=
  ("Cannot get beliefs from non-variable node: " ++ nodeId)%string.

Definition getBeliefs (nodeId : string) (s : BeliefPropagation)
  : Completion (list num) :=
  match findNode s nodeId with
  | Some (_, Var v) => Returned (currentBelief v)
  | _ => Thrown (notVariable nodeId)
  end.

Definition getLogBeliefs (nodeId : string) (s : BeliefPropagation)
  : Completion (list num) :=
  match findNode s nodeId with
  | Some (_, Var v) => Returned (logBelief v)
  | _ => Thrown (notVariable nodeId)
  end.

End Discrete.

(* ================================================================= *)
(** ** The matrix library used by the Gaussian engine *)

(** Modelled from the spec: the matrix library (mathjs [matrix], [multiply],
    [get]) is an external collaborator of which the engine uses the
    matrix-vector product and element access.  A product of mismatched
    shapes and an access outside the matrix throw ([None]). *)
Module MathJS.

Definition dot (row v : list num) : num :=
  sum (map (fun p => mul (fst p) (snd p)) (combine row v)).

Definition multiply (m : list (list num)) (v : list num)
  : option (list num) :=
  if forallb (fun row => Nat.eqb (List.length row) (List.length v)) m
  then Some (map (fun row => dot row v) m)
  else None.

Definition get2 (m : list (list num)) (i j : nat) : option num :=
  match nth_error m i with
  | Some row => nth_error row j
  | None => None
  end.

Definition get1 (v : list num) (i : nat) : option num := nth_error v i.

End MathJS.

(* ================================================================= *)
(** ** The Gaussian engine: class [GaussianBeliefPropagation] *)

Module Gaussian.

Record GaussianVariableInput : Type := mkGaussianVariableInput {
  in_mean : num;
  in_variance : num
}.

Record GaussianFactorInput : Type := mkGaussianFactorInput {
  in_potentialMean : list num;
  in_potentialPrecision : list (list num)
}.

Inductive GaussianNodeInput : Type :=
| VariableInput (v : GaussianVariableInput)
| FactorInput (f : GaussianFactorInput).

Record GaussianVariable : Type := mkGaussianVariable {
  var_name : NodeID;
  mean : num;
  variance : num;
  var_neighbors : list nat;
  currentMean : num;
  currentVariance : num
}.

Record GaussianFactor : Type := mkGaussianFactor {
  fac_name : NodeID;
  potentialMean : list num;
  potentialPrecision : list (list num);
  fac_neighbors : list nat
}.

Inductive GaussianNode : Type :=
| Var (v : GaussianVariable)
| Fac (f : GaussianFactor).

Definition type (n : GaussianNode) : GraphType :=
  match n with Var _ => VARIABLE | Fac _ => FACTOR end.

Definition name (n : GaussianNode) : NodeID :=
  match n with Var v => var_name v | Fac f => fac_name f end.

Definition neighbors (n : GaussianNode) : list nat :=
  match n with Var v => var_neighbors v | Fac f => fac_neighbors f end.

Definition push (to : nat) (n : GaussianNode) : GaussianNode :=
  match n with
  | Var v =>
      Var (mkGaussianVariable (var_name v) (mean v) (variance v)
             (var_neighbors v ++ [to]) (currentMean v) (currentVariance v))
  | Fac f =>
      Fac (mkGaussianFactor (fac_name f) (potentialMean f)
             (potentialPrecision f) (fac_neighbors f ++ [to]))
  end.

Record GaussianGraph : Type := mkGaussianGraph {
  nodes : list GaussianNode;
  edges : list (nat * nat)
}.

(** [{ mean: number[][]; precision: number[][] }] *)
Record Messages : Type := mkMessages {
  m_mean : list (list num);
  m_precision : list (list num)
}.

Record MeanVariance : Type := mkMeanVariance {
  mv_mean : num;
  mv_variance : num
}.

Record GaussianBeliefPropagation : Type := mkGaussianBeliefPropagation {
  graph : GaussianGraph;
  messages : Messages;
  nextMessages : Messages;
  dampingFactor : num;
  evidence : list (nat * MeanVariance)
}.

Definition internalNode (entry : NodeID * GaussianNodeInput) : GaussianNode :=
  match snd entry with
  | VariableInput v =>
      Var (mkGaussianVariable (fst entry) (in_mean v) (in_variance v) []
             (in_mean v) (in_variance v))
  | FactorInput f =>
      Fac (mkGaussianFactor (fst entry) (in_potentialMean f)
             (in_potentialPrecision f) [])
  end.

Definition processGraph (g : FactorGraph GaussianNodeInput)
  : GaussianGraph * list string :=
  let nodes := map internalNode (fg_nodes g) in
  let edges := normalizeEdges (map fst (fg_nodes g)) (fg_edges g) in
  let '(nodesOut, errors) := buildAdjacency type push nodes edges in
  (mkGaussianGraph nodesOut edges, errors).

Definition zeros (n : nat) : list (list num) := repeat (repeat (Fin 0) n) n.

Definition setMessage (m : Messages) (a b : nat) (mu prec : num) : Messages :=
  mkMessages (mset (m_mean m) a b mu) (mset (m_precision m) a b prec).

Definition initializeMessages (g : GaussianGraph) (damping : num)
  : GaussianBeliefPropagation :=
  let nodeCount := List.length (nodes g) in
  let start := mkMessages (zeros nodeCount) (zeros nodeCount) in
  let msgs :=
    fold_left
      (fun m kn =>
         match snd kn with
         | Var v =>
             fold_left
               (fun m factor =>
                  setMessage m (fst kn) factor (mean v)
                    (div (Fin 1) (variance v)))
               (var_neighbors v) m
         | Fac _ => m
         end)
      (combine (seq 0 nodeCount) (nodes g)) start in
  mkGaussianBeliefPropagation g msgs
    (mkMessages (zeros nodeCount) (zeros nodeCount)) damping [].

Definition constructor (g : FactorGraph GaussianNodeInput)
  (damping : option num) : GaussianBeliefPropagation :=
  initializeMessages (fst (processGraph g)) (or_else damping (Fin 0)).

Definition withNext (s : GaussianBeliefPropagation) (nm : Messages)
  : GaussianBeliefPropagation :=
  mkGaussianBeliefPropagation (graph s) (messages s) nm (dampingFactor s)
    (evidence s).

Definition neighborsOf (s : GaussianBeliefPropagation) (id : nat) : list nat :=
  match nth_error (nodes (graph s)) id with
  | Some n => neighbors n
  | None => []
  end.

(** An element of a message matrix; a missing one reads as [undefined]. *)
Definition entry (m : list (list num)) (a b : nat) : num := mget NaN m a b.

(** [None] is the TypeError of [reduce] on an empty array. *)
Definition updateVariableToFactorMessage (s : GaussianBeliefPropagation)
  (variable factor : nat) : option GaussianBeliefPropagation :=
  match map_get (evidence s) variable with
  | Some ev =>
      Some (withNext s
              (setMessage (nextMessages s) variable factor (mv_mean ev)
                 (div (Fin 1) (mv_variance ev))))
  | None =>
      let otherNeighbors :=
        filter (fun n => negb (Nat.eqb n factor)) (neighborsOf s variable) in
      match
        reduce1 add
          (map (fun n => entry (m_precision (messages s)) n variable)
               otherNeighbors)
      with
      | None => None
      | Some totalPrecision =>
          match
            reduce1 add
              (map (fun n =>
                      mul (entry (m_precision (messages s)) n variable)
                          (entry (m_mean (messages s)) n variable))
                   otherNeighbors)
          with
          | None => None
          | Some weightedMean =>
              Some (withNext s
                      (setMessage (nextMessages s) variable factor
                         (if gt totalPrecision (Fin 0)
                          then div weightedMean totalPrecision
                          else Fin 0)
                         totalPrecision))
          end
      end
  end.

(** The [for] loop of [updateFactorToVariableMessage] accumulating
    [precSum]; [None] when [Lambda.get] throws. *)
Definition precSumLoop (s : GaussianBeliefPropagation) (fid : nat)
  (factor : GaussianFactor) (idx : nat) : option num :=
  fold_left
    (fun acc j =>
       match acc with
       | None => None
       | Some precSum =>
           if Nat.eqb j idx then Some precSum
           else
             match MathJS.get2 (potentialPrecision factor) idx j with
             | Some l =>
                 Some (add precSum
                         (mul l
                            (entry (m_mean (messages s))
                               (nth j (fac_neighbors factor) 0) fid)))
             | None => None
             end
       end)
    (seq 0 (List.length (fac_neighbors factor))) (Some (Fin 0)).

Definition updateFactorToVariableMessage (s : GaussianBeliefPropagation)
  (fid : nat) (factor : GaussianFactor) (variable : nat)
  : option GaussianBeliefPropagation :=
  match MathJS.multiply (potentialPrecision factor) (potentialMean factor) with
  | None => None
  | Some eta =>
      match findIndex (fun v => Nat.eqb v variable) (fac_neighbors factor) with
      | None => None
      | Some idx =>
          match precSumLoop s fid factor idx,
                MathJS.get2 (potentialPrecision factor) idx idx,
                MathJS.get1 eta idx with
          | Some precSum, Some precision, Some etaIdx =>
              let meanNumerator := sub etaIdx precSum in
              Some (withNext s
                      (setMessage (nextMessages s) fid variable
                         (if gt precision (Fin 0)
                          then div meanNumerator precision
                          else Fin 0)
                         precision))
          | _, _, _ => None
          end
      end
  end.

(** A step of a loop that may throw: the engine afterwards, and whether the
    step threw. *)
Inductive Step : Type :=
| Done (s : GaussianBeliefPropagation)
| Raise (message : string) (s : GaussianBeliefPropagation).

Definition stateOf (r : Step) : GaussianBeliefPropagation :=
  match r with Done s | Raise _ s => s end.

Definition andThen (message : string) (r : Step)
  (f : GaussianBeliefPropagation -> option GaussianBeliefPropagation) : Step :=
  match r with
  | Done s => match f s with Some s' => Done s' | None => Raise message s end
  | Raise e s => Raise e s
  end.

Definition reduceError : string :=
  "Reduce of empty array with no initial value"%string.

Definition matrixError : string := "Index out of range"%string.

Definition variablePhase (s : GaussianBeliefPropagation) : Step :=
  fold_left
    (fun r kn =>
       match snd kn with
       | Var v =>
           fold_left
             (fun r f =>
                andThen reduceError r
                  (fun s => updateVariableToFactorMessage s (fst kn) f))
             (var_neighbors v) r
       | Fac _ => r
       end)
    (combine (seq 0 (List.length (nodes (graph s)))) (nodes (graph s)))
    (Done s).

Definition factorPhase (r : Step) : Step :=
  fold_left
    (fun r kn =>
       match snd kn with
       | Fac f =>
           fold_left
             (fun r v =>
                andThen matrixError r
                  (fun s => updateFactorToVariableMessage s (fst kn) f v))
             (fac_neighbors f) r
       | Var _ => r
       end)
    (combine (seq 0 (List.length (nodes (graph (stateOf r)))))
             (nodes (graph (stateOf r))))
    r.

(** The body of the damping loop at [(i, j)]. *)
Definition dampAt (d : num) (old : Messages) (next : Messages) (i j : nat)
  : Messages :=
  if negb (isNaN (entry (m_mean next) i j)) then
    mkMessages
      (mset (m_mean next) i j
         (add (mul d (entry (m_mean old) i j))
              (mul (sub (Fin 1) d) (entry (m_mean next) i j))))
      (mset (m_precision next) i j
         (add (mul d (entry (m_precision old) i j))
              (mul (sub (Fin 1) d) (entry (m_precision next) i j))))
  else next.

Definition applyDamping (s : GaussianBeliefPropagation)
  : GaussianBeliefPropagation :=
  let n := List.length (nodes (graph s)) in
  withNext s
    (fold_left
       (fun next i =>
          fold_left
            (fun next j => dampAt (dampingFactor s) (messages s) next i j)
            (seq 0 n) next)
       (seq 0 n) (nextMessages s)).

Definition swapMessages (s : GaussianBeliefPropagation)
  : GaussianBeliefPropagation :=
  mkGaussianBeliefPropagation (graph s) (nextMessages s) (messages s)
    (dampingFactor s) (evidence s).

Definition updateAllMessages (s : GaussianBeliefPropagation) : Step :=
  match factorPhase (variablePhase s) with
  | Done s' => Done (swapMessages (applyDamping s'))
  | Raise e s' => Raise e s'
  end.

Definition setCurrent (v : GaussianVariable) (mu var : num) : GaussianNode :=
  Var (mkGaussianVariable (var_name v) (mean v) (variance v) (var_neighbors v)
         mu var).

Definition guard : num := Fin (1 / 10000000000).

Definition updateBelief (s : GaussianBeliefPropagation) (k : nat)
  : GaussianBeliefPropagation :=
  match nth_error (nodes (graph s)) k with
  | Some (Var v) =>
      if map_has (evidence s) k then s
      else
        let '(totalPrecision, weightedMean) :=
          fold_left
            (fun acc neighbor =>
               let precision := entry (m_precision (messages s)) neighbor k in
               (add (fst acc) precision,
                add (snd acc)
                    (mul precision (entry (m_mean (messages s)) neighbor k))))
            (var_neighbors v) (Fin 0, Fin 0) in
        let node' :=
          if gt totalPrecision (Fin 0) then
            setCurrent v (div weightedMean (add totalPrecision guard))
              (div (Fin 1) (add totalPrecision guard))
          else setCurrent v (mean v) (variance v) in
        mkGaussianBeliefPropagation
          (mkGaussianGraph (set_nth k node' (nodes (graph s)))
             (edges (graph s)))
          (messages s) (nextMessages s) (dampingFactor s) (evidence s)
  | _ => s
  end.

Definition updateBeliefs (s : GaussianBeliefPropagation)
  : GaussianBeliefPropagation :=
  fold_left updateBelief (seq 0 (List.length (nodes (graph s)))) s.

(** [oldMeans] and [oldVariances], paired. *)
Definition variableBeliefs (s : GaussianBeliefPropagation)
  : list (num * num) :=
  flat_map
    (fun n =>
       match n with
       | Var v => [(currentMean v, currentVariance v)]
       | Fac _ => []
       end)
    (nodes (graph s)).

Definition maxDiff (old : list (num * num)) (s : GaussianBeliefPropagation)
  : num :=
  fold_left
    (fun maxDiff ib =>
       let o := nth_error old (fst ib) in
       let meanDiff :=
         Num.abs (sub (fst (snd ib)) (to_number (option_map fst o))) in
       let varianceDiff :=
         Num.abs (sub (snd (snd ib)) (to_number (option_map snd o))) in
       max2 (max2 maxDiff meanDiff) varianceDiff)
    (combine (seq 0 (List.length (variableBeliefs s))) (variableBeliefs s))
    (Fin 0).

(** The loop of [runIterations]; a throw inside a sweep ends the call. *)
Fixpoint iterate (maxIterations : nat) (tolerance : num) (remaining i : nat)
  (s : GaussianBeliefPropagation) : Outcome unit GaussianBeliefPropagation :=
  match remaining with
  | O =>
      mkOutcome (Returned tt)
        [("Did not converge after " ++ show_nat maxIterations
          ++ " iterations")%string] s
  | S r =>
      let old := variableBeliefs s in
      match updateAllMessages s with
      | Raise e s' => mkOutcome (Thrown e) [] s'
      | Done s1 =>
          let s' := updateBeliefs s1 in
          if lt (maxDiff old s') tolerance then
            mkOutcome (Returned tt)
              [("Converged after " ++ show_nat (i + 1)
                ++ " iterations")%string] s'
          else iterate maxIterations tolerance r (S i) s'
      end
  end.

Definition defaultTolerance : num := Fin (1 / 1000000).

Definition runIterations (maxIterations : nat) (tolerance : option num)
  (s : GaussianBeliefPropagation) : Outcome unit GaussianBeliefPropagation :=
  iterate maxIterations
    (match tolerance with Some t => t | None => defaultTolerance end)
    maxIterations 0 s.

Definition findNode (s : GaussianBeliefPropagation) (nodeId : string)
  : option (nat * GaussianNode) :=
  find (fun kn => String.eqb (name (snd kn)) nodeId)
       (combine (seq 0 (List.length (nodes (graph s)))) (nodes (graph s))).

Definition setEvidence (nodeId : string) (mu var : num)
  (s : GaussianBeliefPropagation) : GaussianBeliefPropagation :=
  match findNode s nodeId with
  | Some (k, Var v) =>
      let put m :=
        fold_left
          (fun m factor => setMessage m k factor mu (div (Fin 1) var))
          (var_neighbors v) m in
      mkGaussianBeliefPropagation
        (mkGaussianGraph (set_nth k (setCurrent v mu var) (nodes (graph s)))
           (edges (graph s)))
        (put (messages s)) (put (nextMessages s))
        (dampingFactor s)
        (map_set (evidence s) k (mkMeanVariance mu var))
  | _ => s
  end.

Definition notVariable (nodeId : string) : string :=
  ("Cannot get beliefs from non-variable node: " ++ nodeId)%string.

Definition getBeliefs (nodeId : string) (s : GaussianBeliefPropagation)
  : Completion MeanVariance :=
  match findNode s nodeId with
  | Some (_, Var v) => Returned (mkMeanVariance (currentMean v) (currentVariance v))
  | _ => Thrown (notVariable nodeId)
  end.

End Gaussian.

(* ================================================================= *)
(** ** The vocabulary of the specification *)

(** The claim that a Gaussian sweep completes only when every variable is
    evidenced or has at least two neighboring factors. *)
Definition sweepNeedsTwoNeighbors : Prop :=
  forall s s', Gaussian.updateAllMessages s = Gaussian.Done s' ->
    forall k v,
      nth_error (Gaussian.nodes (Gaussian.graph s)) k = Some (Gaussian.Var v) ->
      map_has (Gaussian.evidence s) k = true \/
      2 <= List.length (Gaussian.var_neighbors v).

Open Scope R_scope.

(** The sum of a list of reals. *)
Fixpoint Rsum (xs : list R) : R :=
  match xs with
  | [] => 0
  | x :: t => x + Rsum t
  end.

(** [d * a + (1 - d) * b], the convex blend with weight [d] on [a]. *)
Definition blend (d a b : num) : num :=
  add (mul d a) (mul (sub (Fin 1) d) b).

(** The blend of two lists of reals, element by element. *)
Fixpoint Rblend (d : R) (xs ys : list R) : list R :=
  match xs, ys with
  | x :: xs', y :: ys' => (d * x + (1 - d) * y) :: Rblend d xs' ys'
  | _, _ => []
  end.

Close Scope R_scope.

(** The formula of the specification: [max + log(sum(exp(v - max)))]. *)
Definition logSumExp_formula (values : list num) : num :=
  let m := Num.max values in
  add m (Num.log (sum (map (fun v => Num.exp (sub v m)) values))).

Open Scope string_scope.

(** A variable [A] and a factor [F], and one edge whose first endpoint,
    [toString], is not the name of a node. *)
Definition strayEdgeDiscrete : FactorGraph Discrete.BayesNodeInput :=
  mkFactorGraph
    [("A", Discrete.VariableInput
             (Discrete.mkBayesVariableInput [Fin 0; Fin 1] [Fin (1/2); Fin (1/2)]));
     ("F", Discrete.FactorInput (Discrete.mkBayesFactorInput (fun _ => Fin 1)))]
    [("toString", "F")].

Definition strayEdgeGaussian : FactorGraph Gaussian.GaussianNodeInput :=
  mkFactorGraph
    [("A", Gaussian.VariableInput (Gaussian.mkGaussianVariableInput (Fin 0) (Fin 1)));
     ("F", Gaussian.FactorInput (Gaussian.mkGaussianFactorInput [Fin 0] [[Fin 1]]))]
    [("toString", "F")].
Close Scope string_scope.

(** Repeated calls of [runIterations], each with its own [maxIterations]
    and [tolerance]; the caller goes on after a call that threw. *)
Definition discreteRuns (calls : list (nat * option num))
  (s : Discrete.BeliefPropagation) : Discrete.BeliefPropagation :=
  fold_left (fun s c => final (Discrete.runIterations (fst c) (snd c) s))
            calls s.

Definition gaussianRuns (calls : list (nat * option num))
  (s : Gaussian.GaussianBeliefPropagation) : Gaussian.GaussianBeliefPropagation :=
  fold_left (fun s c => final (Gaussian.runIterations (fst c) (snd c) s))
            calls s.

(** What the loop of [runIterations] decided. *)
Inductive Status : Type :=
| Converged (iteration : nat)
| Exhausted.

(** The console line [runIterations] writes for a status. *)
Definition statusLine (maxIterations : nat) (st : Status) : string :=
  match st with
  | Converged k => ("Converged after " ++ show_nat k ++ " iterations")%string
  | Exhausted =>
      ("Did not converge after " ++ show_nat maxIterations
       ++ " iterations")%string
  end.


(** The engine built from the graph without nodes and edges. *)
Definition emptyDiscrete : Discrete.BeliefPropagation :=
  Discrete.mkBeliefPropagation (Discrete.mkBayesGraph [] []) [] [] [] (Fin 0) [].

(** The call [updateVariableToFactorMessage(variable, factor)] finds the
    variable without evidence and without a neighbor other than [factor]:
    it reduces an empty array. *)
Definition reducesEmpty (s : Gaussian.GaussianBeliefPropagation)
  (variable factor : nat) : Prop :=
  map_get (Gaussian.evidence s) variable = None /\
  filter (fun n => negb (Nat.eqb n factor)) (Gaussian.neighborsOf s variable)
  = [].

(** The factor-to-variable message of the specification, for the factor
    [f] at position [fid] and the target at neighbor index [i]:
    [Lambda] is the precision matrix, [eta = Lambda . potentialMean], and
    [incomingMean j] is the mean of the current message from the [j]-th
    neighbor to the factor. *)
Module FactorMessageSpec.

Import Gaussian.

Definition Lambda (f : GaussianFactor) (i j : nat) : num :=
  to_number (MathJS.get2 (potentialPrecision f) i j).

Definition eta (f : GaussianFactor) (i : nat) : num :=
  to_number
    (match MathJS.multiply (potentialPrecision f) (potentialMean f) with
     | Some e => MathJS.get1 e i
     | None => None
     end).

Definition incomingMean (s : GaussianBeliefPropagation) (fid : nat)
  (f : GaussianFactor) (j : nat) : num :=
  entry (m_mean (messages s)) (nth j (fac_neighbors f) 0) fid.

(** [sum over j <> i of Lambda[i,j] * incomingMean[j]] *)
Definition others (s : GaussianBeliefPropagation) (fid : nat)
  (f : GaussianFactor) (i : nat) : num :=
  sum (map (fun j => mul (Lambda f i j) (incomingMean s fid f j))
           (filter (fun j => negb (Nat.eqb j i))
                   (seq 0 (List.length (fac_neighbors f))))).

Definition outPrecision (f : GaussianFactor) (i : nat) : num := Lambda f i i.

Definition outMean (s : GaussianBeliefPropagation) (fid : nat)
  (f : GaussianFactor) (i : nat) : num :=
  if gt (Lambda f i i) (Fin 0)
  then div (sub (eta f i) (others s fid f i)) (Lambda f i i)
  else Fin 0.

(** The factor has an [n] by [n] precision matrix and a mean vector of
    length [n], for its [n] neighbors. *)
Definition wellShaped (f : GaussianFactor) : Prop :=
  List.length (potentialPrecision f) = List.length (fac_neighbors f) /\
  (forall row, In row (potentialPrecision f) ->
               List.length row = List.length (fac_neighbors f)) /\
  List.length (potentialMean f) = List.length (fac_neighbors f).

End FactorMessageSpec.

(** An [n] by [n] array of arrays. *)
Definition shaped {A : Type} (n : nat) (m : list (list A)) : Prop :=
  List.length m = n /\ Forall (fun row => List.length row = n) m.

Definition shapedMessages (n : nat) (m : Gaussian.Messages) : Prop :=
  shaped n (Gaussian.m_mean m) /\ shaped n (Gaussian.m_precision m).

(** The mean and precision of the message from [i] to [j]. *)
Definition messageAt (m : Gaussian.Messages) (i j : nat) : num * num :=
  (Gaussian.entry (Gaussian.m_mean m) i j,
   Gaussian.entry (Gaussian.m_precision m) i j).

(** What the damping loop of the Gaussian sweep leaves at one entry: the
    old message [o] weighs [d], the freshly computed message [n] weighs
    [1 - d]; an entry whose fresh mean is NaN is not touched. *)
Definition dampPair (d : num) (o n : num * num) : num * num :=
  if negb (isNaN (fst n))
  then (blend d (fst o) (fst n), blend d (snd o) (snd n))
  else n.

Open Scope string_scope.
(** A Gaussian variable [A] observed through one factor [F]. *)
Definition observedGaussian : FactorGraph Gaussian.GaussianNodeInput :=
  mkFactorGraph
    [("A", Gaussian.VariableInput (Gaussian.mkGaussianVariableInput (Fin 0) (Fin 1)));
     ("F", Gaussian.FactorInput (Gaussian.mkGaussianFactorInput [Fin 3] [[Fin 2]]))]
    [("A", "F")].

(** The engine of [observedGaussian] with damping factor 1, after the
    evidence [A = 5] with variance [1]. *)
Definition clampedGaussian : Gaussian.GaussianBeliefPropagation :=
  Gaussian.setEvidence "A" (Fin 5) (Fin 1)
    (Gaussian.constructor observedGaussian (Some (Fin 1))).
Close Scope string_scope.

Open Scope R_scope.

(** A message component the belief update can digest: NaN (read as 1 by
    [|| 1]) or a finite number that is not negative. *)
Definition okmsg (x : num) : Prop :=
  x = NaN \/ exists r, x = Fin r /\ 0 <= r.

(** A value [Math.exp] can return. *)
Definition expval (x : num) : Prop :=
  x = NaN \/ x = PInf \/ exists r, x = Fin r /\ 0 <= r.

Close Scope R_scope.

(** What a finite maximum says about the arguments of [Math.max]. *)
Definition below (a : R) (v : num) : Prop :=
  v = NInf \/ exists b, v = Fin b /\ (b <= a)%R.

(** The engines a caller can hold: built by the constructor and then driven
    through [setEvidence] and [runIterations].  [allowed] restricts the
    [setEvidence] calls considered. *)
Inductive reachable
  (allowed : Discrete.BeliefPropagation -> string -> num -> Prop)
  (g : FactorGraph Discrete.BayesNodeInput) (damping : option num)
  : Discrete.BeliefPropagation -> Prop :=
| reach_constructor s :
    Discrete.constructor g damping = Some s -> reachable allowed g damping s
| reach_setEvidence s nodeId value :
    reachable allowed g damping s -> allowed s nodeId value ->
    reachable allowed g damping (Discrete.setEvidence nodeId value s)
| reach_runIterations s maxIterations tolerance :
    reachable allowed g damping s ->
    reachable allowed g damping
      (final (Discrete.runIterations maxIterations tolerance s)).

Definition anyEvidence (s : Discrete.BeliefPropagation) (nodeId : string)
  (value : num) : Prop := True.

(** The log-belief of a variable node is the logarithm of its belief,
    component by component. *)
Definition logConsistent (n : Discrete.BayesNode) : Prop :=
  match n with
  | Discrete.Var v =>
      Discrete.logBelief v = map Num.log (Discrete.currentBelief v)
  | Discrete.Fac _ => True
  end.

Open Scope R_scope.

(** A probability distribution in exact arithmetic: finite entries, none
    negative, summing to 1. *)
Definition distribution (l : list num) : Prop :=
  exists rs, l = map Fin rs /\ Forall (fun r => 0 <= r) rs /\ Rsum rs = 1.

(** The wording of the specification: entries at least 0, and a sum within
    [1e-9] of 1. *)
Definition withinTolerance (l : list num) : Prop :=
  (forall x, In x l -> exists r, x = Fin r /\ 0 <= r) /\
  exists total, sum l = Fin total /\ Rabs (total - 1) <= 1 / 1000000000.

Definition okMatrix (m : list (list (list num))) : Prop :=
  Forall (Forall (Forall okmsg)) m.

Close Scope R_scope.

(** The observed value occurs exactly once among the possible values of
    the variable named. *)
Definition evidenceInDomain (s : Discrete.BeliefPropagation)
  (nodeId : string) (value : num) : Prop :=
  forall k v, Discrete.findNode s nodeId = Some (k, Discrete.Var v) ->
    List.length (filter (fun x => Num.eqb x value) (Discrete.possibleValues v))
    = 1.

(** Every variable of the input graph has a possible value. *)
Definition nonEmptyDomains (g : FactorGraph Discrete.BayesNodeInput) : Prop :=
  forall name v, In (name, Discrete.VariableInput v) (fg_nodes g) ->
                 Discrete.in_possibleValues v <> [].

(** No damping option, or a damping factor between 0 and 1. *)
Definition dampingInRange (damping : option num) : Prop :=
  damping = None \/ exists d, damping = Some (Fin d) /\ (0 <= d <= 1)%R.

(** A variable node with a possible value, whose belief is a distribution
    over its possible values. *)
Definition validNode (n : Discrete.BayesNode) : Prop :=
  match n with
  | Discrete.Var v =>
      Discrete.possibleValues v <> [] /\
      distribution (Discrete.currentBelief v) /\
      List.length (Discrete.currentBelief v)
      = List.length (Discrete.possibleValues v)
  | Discrete.Fac _ => True
  end.

Open Scope string_scope.
(** One binary variable [A] with the possible values 0 and 1. *)
Definition coin : FactorGraph Discrete.BayesNodeInput :=
  mkFactorGraph
    [("A", Discrete.VariableInput
             (Discrete.mkBayesVariableInput [Fin 0; Fin 1]
                [Fin (1 / 2); Fin (1 / 2)]))]
    [].
Close Scope string_scope.

(** The one-hot vector of [setEvidence]. *)
Definition oneHot (value : num) (possibleValues : list num) : list num :=
  map (fun x => if Num.eqb x value then Fin 1 else Fin 0) possibleValues.

(** The uniform vector of [initializeMessages]. *)
Definition uniform (size : nat) : list num :=
  repeat (Fin (1 / INR size)) size.

(* ================================================================= *)
(** ** Example graphs and engines *)

Open Scope string_scope.

(** Two binary variables [A] and [B] and a factor [F] that wants them
    equal: [psi(a, b)] is 0.99 when [a = b] and 0.01 otherwise. *)
Definition agreement : FactorGraph Discrete.BayesNodeInput :=
  mkFactorGraph
    [("A", Discrete.VariableInput
             (Discrete.mkBayesVariableInput [Fin 0; Fin 1]
                [Fin (1 / 2); Fin (1 / 2)]));
     ("B", Discrete.VariableInput
             (Discrete.mkBayesVariableInput [Fin 0; Fin 1]
                [Fin (1 / 2); Fin (1 / 2)]));
     ("F", Discrete.FactorInput
             (Discrete.mkBayesFactorInput
                (fun values =>
                   match values with
                   | [Some a; Some b] =>
                       if Nat.eqb a b then Fin (99 / 100) else Fin (1 / 100)
                   | _ => Fin 0
                   end)))]
    [("A", "F"); ("B", "F")].

(** The engine the constructor returns; the engine of the empty graph
    stands in where the constructor throws. *)
Definition built (g : FactorGraph Discrete.BayesNodeInput)
  (damping : option num) : Discrete.BeliefPropagation :=
  match Discrete.constructor g damping with
  | Some s => s
  | None => emptyDiscrete
  end.

(** The variable [A] of [agreement] as the constructor leaves it. *)
Definition agreementA : Discrete.BayesVariable :=
  Discrete.mkBayesVariable "A" [Fin 0; Fin 1]
    (repeat (div (Fin 1) (of_nat 2)) 2)
    (repeat (Num.log (div (Fin 1) (of_nat 2))) 2)
    [2].

(** The variable [A] of [observedGaussian] as the constructor leaves it. *)
Definition observedA : Gaussian.GaussianVariable :=
  Gaussian.mkGaussianVariable "A" (Fin 0) (Fin 1) [1] (Fin 0) (Fin 1).

(** One Gaussian variable [X] without any factor. *)
Definition isolatedGaussian : FactorGraph Gaussian.GaussianNodeInput :=
  mkFactorGraph
    [("X", Gaussian.VariableInput
             (Gaussian.mkGaussianVariableInput (Fin 0) (Fin 1)))]
    [].

(** The variable [X] of [isolatedGaussian] as the constructor leaves it. *)
Definition isolatedX : Gaussian.GaussianVariable :=
  Gaussian.mkGaussianVariable "X" (Fin 0) (Fin 1) [] (Fin 0) (Fin 1).

(** The factor [F] of [observedGaussian] as the constructor leaves it. *)
Definition observedF : Gaussian.GaussianFactor :=
  Gaussian.mkGaussianFactor "F" [Fin 3] [[Fin 2]] [0].

(** The engine of [agreement] after the evidence [A = 1] and a call of
    [runIterations] with a budget of three sweeps. *)
Definition agreementClamped : Discrete.BeliefPropagation :=
  discreteRuns [(3, None)]
    (Discrete.setEvidence "A" (Fin 1) (built agreement None)).

Close Scope string_scope.

(* ================================================================= *)
(** ** Invariants of the two engines *)

Module DiscreteInv.

Import Discrete.

(** Two engines that differ at most in the next-message buffer. *)
Definition sameButNext (s0 s : BeliefPropagation) : Prop :=
  graph s = graph s0 /\ messages s = messages s0 /\
  variableMarginals s = variableMarginals s0 /\
  dampingFactor s = dampingFactor s0 /\ evidence s = evidence s0.

(** The part of the engine a belief update at another position keeps. *)
Definition keeps (k : nat) (s0 s : BeliefPropagation) : Prop :=
  nth_error (nodes (graph s)) k = nth_error (nodes (graph s0)) k /\
  evidence s = evidence s0 /\
  map name (nodes (graph s)) = map name (nodes (graph s0)).

(** Every variable node is log-consistent. *)
Definition logInv (s : BeliefPropagation) : Prop :=
  Forall logConsistent (nodes (graph s)).

(** A variable node with a possible value. *)
Definition hasDomain (n : BayesNode) : Prop :=
  match n with Var v => possibleValues v <> [] | Fac _ => True end.

(** The invariant of the discrete engine behind valid beliefs: valid
    nodes, digestible messages in both buffers, a damping factor between 0
    and 1. *)
Definition validInv (s : BeliefPropagation) : Prop :=
  Forall validNode (nodes (graph s)) /\
  okMatrix (messages s) /\ okMatrix (nextMessages s) /\
  exists d, dampingFactor s = Fin d /\ (0 <= d <= 1)%R.

(** A message update seen from the start of the sweep. *)
Definition step (s0 s : BeliefPropagation) : Prop :=
  sameButNext s0 s /\ okMatrix (nextMessages s).

End DiscreteInv.

Module GaussianInv.

Import Gaussian.

(** Two engines that differ at most in the next-message buffer. *)
Definition sameButNext (s0 s : GaussianBeliefPropagation) : Prop :=
  graph s = graph s0 /\ messages s = messages s0 /\
  dampingFactor s = dampingFactor s0 /\ evidence s = evidence s0.

(** The part of the engine a belief update at another position keeps. *)
Definition keeps (k : nat) (s0 s : GaussianBeliefPropagation) : Prop :=
  nth_error (nodes (graph s)) k = nth_error (nodes (graph s0)) k /\
  evidence s = evidence s0 /\
  map name (nodes (graph s)) = map name (nodes (graph s0)).

(** A step that has not thrown anything but the error of [reduce], and
    whose engine differs from [s0] in the next messages at most. *)
Definition fine (s0 : GaussianBeliefPropagation) (r : Step) : Prop :=
  sameButNext s0 (stateOf r) /\
  forall e s, r = Raise e s -> e = reduceError.

(** The body of the first loop of [updateAllMessages]. *)
Definition variableStep (r : Step) (kn : nat * GaussianNode) : Step :=
  match snd kn with
  | Var v =>
      fold_left
        (fun r f =>
           andThen reduceError r
             (fun s => updateVariableToFactorMessage s (fst kn) f))
        (var_neighbors v) r
  | Fac _ => r
  end.

(** The next-message buffer keeps its shape. *)
Definition shapedNext (n : nat) (r : Step) : Prop :=
  shapedMessages n (nextMessages (stateOf r)).

End GaussianInv.

(** Evaluation of a closed term: the engine's own definitions are unfolded,
    the real numbers are left alone, and the comparisons of real constants
    met on the way are settled by linear arithmetic. *)
Ltac settle_reals :=
  repeat match goal with
  | |- context [Rlt_dec ?a ?b] =>
      destruct (Rlt_dec a b); [try (exfalso; lra) | try (exfalso; lra)]
  | |- context [Req_dec_T ?a ?b] =>
      destruct (Req_dec_T a b); [try (exfalso; lra) | try (exfalso; lra)]
  end.

Ltac evaluate :=
  cbv -[Rplus Rmult Rminus Rdiv Rinv Ropp IZR Rabs ln Rtrigo_def.exp
        Rlt_dec Req_dec_T Rlt Rle];
  settle_reals.

(* ================================================================= *)
(** ** More vocabulary: utilities and message passing *)

(** The product of the lengths of the arrays. *)
Fixpoint productOfLengths {T : Type} (arrays : list (list T)) : nat :=
  match arrays with
  | [] => 1
  | arr :: rest => List.length arr * productOfLengths rest
  end.

(** The largest of a non-empty list of reals, read from the left. *)
Definition Rmaximum (x : R) (xs : list R) : R := fold_left Rmax xs x.

(** [processGraph] accepts the directed edge from [a] to [b] when both
    positions hold a node and the two nodes are of different kinds. *)
Definition kindsDiffer (kinds : list GraphType) (a b : nat) : bool :=
  match nth_error kinds a, nth_error kinds b with
  | Some x, Some y => negb (GraphType_eqb x y)
  | _, _ => false
  end.

(** The targets of the accepted directed edges that leave [a], in the
    order of the edge list. *)
Definition acceptedTargets (kinds : list GraphType) (edges : list (nat * nat))
  (a : nat) : list nat :=
  map snd
    (filter (fun e => Nat.eqb (fst e) a && kindsDiffer kinds (fst e) (snd e))
            edges).

(** The console lines for the directed edges that are not accepted. *)
Definition rejectedEdges (kinds : list GraphType) (edges : list (nat * nat))
  : list string :=
  map (fun e => invalidEdge (fst e) (snd e))
      (filter (fun e => negb (kindsDiffer kinds (fst e) (snd e))) edges).

(** The kind of each entry of the input graph. *)
Definition discreteKinds (g : FactorGraph Discrete.BayesNodeInput)
  : list GraphType :=
  map (fun e => match snd e with
                | Discrete.VariableInput _ => VARIABLE
                | Discrete.FactorInput _ => FACTOR
                end) (fg_nodes g).

Definition gaussianKinds (g : FactorGraph Gaussian.GaussianNodeInput)
  : list GraphType :=
  map (fun e => match snd e with
                | Gaussian.VariableInput _ => VARIABLE
                | Gaussian.FactorInput _ => FACTOR
                end) (fg_nodes g).

(** The message the discrete constructor stores for a directed edge into
    the node at position [to]: uniform over the values of a variable, the
    one-element array [[1]] for a factor. *)
Definition initialMessage (nodes : list Discrete.BayesNode) (to : nat)
  : list num :=
  match nth_error nodes to with
  | Some (Discrete.Var v) =>
      repeat (div (Fin 1) (of_nat (List.length (Discrete.possibleValues v))))
             (List.length (Discrete.possibleValues v))
  | _ => [Fin 1]
  end.

(** The marginal stored for a variable is its current belief. *)
Definition marginalsMatch (s : Discrete.BeliefPropagation) : Prop :=
  forall k v,
    nth_error (Discrete.nodes (Discrete.graph s)) k = Some (Discrete.Var v) ->
    nth_error (Discrete.variableMarginals s) k
    = Some (Discrete.currentBelief v).

(** The invariant of a discrete engine whose damping factor is 0. *)
Definition undamped (s : Discrete.BeliefPropagation) : Prop :=
  DiscreteInv.validInv s /\ DiscreteInv.logInv s /\
  Discrete.dampingFactor s = Fin 0 /\ marginalsMatch s.

(** The precisions and the precision-weighted means of the current
    messages from the nodes [ns] to the variable at position [k], added
    up. *)
Definition totalPrecision (s : Gaussian.GaussianBeliefPropagation)
  (ns : list nat) (k : nat) : num :=
  sum (map (fun n => Gaussian.entry (Gaussian.m_precision (Gaussian.messages s)) n k)
           ns).

Definition weightedMean (s : Gaussian.GaussianBeliefPropagation)
  (ns : list nat) (k : nat) : num :=
  sum (map (fun n =>
              mul (Gaussian.entry (Gaussian.m_precision (Gaussian.messages s)) n k)
                  (Gaussian.entry (Gaussian.m_mean (Gaussian.messages s)) n k))
           ns).

(** The belief [updateBeliefs] gives a variable without evidence: the
    product of the incoming Gaussian messages, or the prior when their
    total precision is not positive. *)
Definition posterior (s : Gaussian.GaussianBeliefPropagation) (k : nat)
  (v : Gaussian.GaussianVariable) : Gaussian.GaussianNode :=
  let p := totalPrecision s (Gaussian.var_neighbors v) k in
  let w := weightedMean s (Gaussian.var_neighbors v) k in
  if gt p (Fin 0)
  then Gaussian.setCurrent v (div w (add p Gaussian.guard))
         (div (Fin 1) (add p Gaussian.guard))
  else Gaussian.setCurrent v (Gaussian.mean v) (Gaussian.variance v).

(** What [updateBeliefs] leaves at a node. *)
Definition gaussianBeliefAt (s : Gaussian.GaussianBeliefPropagation) (k : nat)
  (n : Gaussian.GaussianNode) : Gaussian.GaussianNode :=
  match n with
  | Gaussian.Var v =>
      if map_has (Gaussian.evidence s) k then n else posterior s k v
  | Gaussian.Fac _ => n
  end.

Open Scope R_scope.

(** The product of a list of reals. *)
Fixpoint Rprod (xs : list R) : R :=
  match xs with
  | [] => 1
  | x :: t => x * Rprod t
  end.

(** How the belief update reads a message entry, [m[i] || 1]: a missing
    entry, NaN and 0 all count as 1. *)
Definition incomingWeight (x : option num) : R :=
  match x with
  | Some (Fin r) => if Req_dec_T r 0 then 1 else r
  | _ => 1
  end.

(** How the message updates read the entry they divide by,
    [m[i] || LOG_EPSILON]: a missing entry, NaN and 0 count as [1e-10]. *)
Definition divisorWeight (x : option num) : R :=
  match x with
  | Some (Fin r) => if Req_dec_T r 0 then 1 / 10000000000 else r
  | _ => 1 / 10000000000
  end.

Close Scope R_scope.

(** The product of the messages the neighbors [nbrs] send to the variable
    at position [k], for the value of index [i]. *)
Definition incomingProduct (s : Discrete.BeliefPropagation) (k : nat)
  (nbrs : list nat) (i : nat) : R :=
  Rprod
    (map (fun f =>
            incomingWeight (nth_error (mget [] (Discrete.messages s) f k) i))
         nbrs).

(** The marginal [ms] of the variable divided, entry by entry, by the
    current message of the factor. *)
Definition dividedOut (s : Discrete.BeliefPropagation) (variable factor : nat)
  (ms : list R) : list R :=
  mapi (fun i m =>
          (m / divisorWeight
                 (nth_error (mget [] (Discrete.messages s) factor variable) i))%R)
       ms.

(** A log-value that is finite or [-Infinity]. *)
Definition finiteOrNInf (x : num) : Prop := x = NInf \/ exists b, x = Fin b.

(** The log-potential of the factor is finite on every assignment. *)
Definition finiteLogPotential (f : Discrete.BayesFactor) : Prop :=
  forall values, exists r, Discrete.logPotential f values = Fin r.

(** The shape of a discrete engine: with [n] nodes, both message buffers
    are [n] by [n] and every neighbor is the position of a node. *)
Definition structured (s : Discrete.BeliefPropagation) : Prop :=
  let n := List.length (Discrete.nodes (Discrete.graph s)) in
  shaped n (Discrete.messages s) /\ shaped n (Discrete.nextMessages s) /\
  forall k nd f,
    nth_error (Discrete.nodes (Discrete.graph s)) k = Some nd ->
    In f (Discrete.neighbors nd) -> f < n.

(** A message update of the discrete engine seen from the start of the
    sweep, the next-message buffer keeping its shape. *)
Definition during (s0 s : Discrete.BeliefPropagation) : Prop :=
  DiscreteInv.sameButNext s0 s /\
  shaped (List.length (Discrete.nodes (Discrete.graph s0)))
         (Discrete.nextMessages s).

(** The variable at position [k] is observed, has the neighbors [nbrs], and
    its current message to [f] is [msg]. *)
Definition clampedMessage (k f : nat) (nbrs : list nat) (msg : list num)
  (s : Discrete.BeliefPropagation) : Prop :=
  structured s /\
  map_has (Discrete.evidence s) k = true /\
  (exists v, nth_error (Discrete.nodes (Discrete.graph s)) k
             = Some (Discrete.Var v) /\ Discrete.var_neighbors v = nbrs) /\
  mget [] (Discrete.messages s) k f = msg.

(** The message the Gaussian constructor stores from the node at position
    [a] to the node at position [b]: the prior of a variable towards each of
    its neighbors, zero elsewhere. *)
Definition gaussianInitialMessage (nodes : list Gaussian.GaussianNode)
  (a b : nat) : num * num :=
  match nth_error nodes a with
  | Some (Gaussian.Var v) =>
      if existsb (Nat.eqb b) (Gaussian.var_neighbors v)
      then (Gaussian.mean v, div (Fin 1) (Gaussian.variance v))
      else (Fin 0, Fin 0)
  | _ => (Fin 0, Fin 0)
  end.

(** The shape of a Gaussian engine: with [n] nodes, the four message
    matrices are [n] by [n] and every neighbor is the position of a node. *)
Definition gaussianStructured (s : Gaussian.GaussianBeliefPropagation) : Prop :=
  let n := List.length (Gaussian.nodes (Gaussian.graph s)) in
  shapedMessages n (Gaussian.messages s) /\
  shapedMessages n (Gaussian.nextMessages s) /\
  forall k nd f,
    nth_error (Gaussian.nodes (Gaussian.graph s)) k = Some nd ->
    In f (Gaussian.neighbors nd) -> f < n.

(** The Gaussian engines a caller can hold: built by the constructor and
    then driven through [setEvidence] and [runIterations]. *)
Inductive gaussianReachable (g : FactorGraph Gaussian.GaussianNodeInput)
  (damping : option num) : Gaussian.GaussianBeliefPropagation -> Prop :=
| greach_constructor :
    gaussianReachable g damping (Gaussian.constructor g damping)
| greach_setEvidence s nodeId mu var :
    gaussianReachable g damping s ->
    gaussianReachable g damping (Gaussian.setEvidence nodeId mu var s)
| greach_runIterations s maxIterations tolerance :
    gaussianReachable g damping s ->
    gaussianReachable g damping
      (final (Gaussian.runIterations maxIterations tolerance s)).

(** The variable at position [k] is observed with mean [m] and precision
    [p], has the neighbors [nbrs], and its current message to [f] carries
    this mean and precision; the damping factor is 0 or 1, where the blend
    of the damping loop returns one of its two arguments as it is. *)
Definition gaussianClamped (k f : nat) (nbrs : list nat) (ev : Gaussian.MeanVariance)
  (m p : R) (s : Gaussian.GaussianBeliefPropagation) : Prop :=
  gaussianStructured s /\
  map_get (Gaussian.evidence s) k = Some ev /\
  (exists v, nth_error (Gaussian.nodes (Gaussian.graph s)) k
             = Some (Gaussian.Var v) /\ Gaussian.var_neighbors v = nbrs) /\
  (Gaussian.dampingFactor s = Fin 0 \/ Gaussian.dampingFactor s = Fin 1) /\
  messageAt (Gaussian.messages s) k f = (Fin m, Fin p).

Open Scope string_scope.
(** The factor [F] of [agreement] as the constructor leaves it. *)
Definition agreementF : Discrete.BayesFactor :=
  let potential := fun values : list (option nat) =>
    match values with
    | [Some a; Some b] =>
        if Nat.eqb a b then Fin (99 / 100) else Fin (1 / 100)
    | _ => Fin 0
    end in
  Discrete.mkBayesFactor "F" potential
    (fun values =>
       let p := potential values in
       if gt p (Fin 0) then Num.log p else BeliefUtils.LOG_EPSILON)
    [0; 1].
Close Scope string_scope.

(** A tolerance no difference of beliefs is smaller than: zero, a negative
    number, [-Infinity] or NaN. *)
Definition neverBelow (tolerance : num) : Prop :=
  tolerance = NaN \/ tolerance = NInf \/
  exists t, tolerance = Fin t /\ (t <= 0)%R.

(** What a maximum of absolute differences started at 0 can be. *)
Definition nonNegative (x : num) : Prop :=
  x = NaN \/ x = PInf \/ exists r, x = Fin r /\ (0 <= r)%R.






(** The message [updateVariableToFactorMessage(variable, factor)] computes,
    before it is stored: the current message of an observed variable, and
    otherwise the stored marginal divided by the current message of the
    factor in log space, exponentiated and normalized. *)
Definition discreteVariableMessage (s : Discrete.BeliefPropagation)
  (variable factor : nat) : list num :=
  if map_has (Discrete.evidence s) variable then
    mget [] (Discrete.messages s) variable factor
  else
    let marginal := nth variable (Discrete.variableMarginals s) [] in
    let factorMessage := mget [] (Discrete.messages s) factor variable in
    let logMessage :=
      mapi (fun i m =>
              let divisor :=
                or_else (nth_error factorMessage i) BeliefUtils.LOG_EPSILON in
              sub (Num.log m) (Num.log divisor))
           marginal in
    BeliefUtils.normalize (map Num.exp logMessage).

(** The message [updateFactorToVariableMessage(factor, variable)] computes,
    before it is stored: for each value of the target, the log-sum-exp over
    the assignments of the other neighbors of the log-potential plus their
    log-terms, normalized in log space and exponentiated. *)
Definition discreteFactorMessage (s : Discrete.BeliefPropagation)
  (fid : nat) (factor : Discrete.BayesFactor) (variable : nat) : list num :=
  let varIndex := indexOf variable (Discrete.fac_neighbors factor) in
  let otherVars :=
    filter (fun v => negb (Nat.eqb v variable))
           (Discrete.fac_neighbors factor) in
  let valIndices :=
    seq 0 (List.length (Discrete.possibleValuesOf s variable)) in
  let logTerms :=
    map (fun w =>
           let marginal := nth w (Discrete.variableMarginals s) [] in
           let message := mget [] (Discrete.messages s) w fid in
           mapi (fun i b =>
                   sub (Num.log b)
                       (Num.log (or_else (nth_error message i)
                                         BeliefUtils.LOG_EPSILON)))
                marginal)
        otherVars in
  let logMessages :=
    map (fun valIndex =>
           let valueCombinations :=
             fold_left
               (fun acc vals =>
                  flat_map (fun combo => map (fun v => combo ++ [v]) vals) acc)
               (map (fun w => seq 0 (List.length (Discrete.possibleValuesOf s w)))
                    otherVars)
               [[]] in
           BeliefUtils.logSumExp
             (map (fun combo =>
                     let values :=
                       fold_left
                         (fun values iv =>
                            Discrete.assign
                              (match nth_error otherVars (fst iv) with
                               | Some w =>
                                   indexOf w (Discrete.fac_neighbors factor)
                               | None => None
                               end)
                              (snd iv) values)
                         (Discrete.indexed combo)
                         (Discrete.assign varIndex valIndex
                            (repeat None
                               (List.length (Discrete.fac_neighbors factor))))
                     in
                     add (Discrete.logPotential factor values)
                         (fold_left
                            (fun sum iv =>
                               add sum
                                   (to_number
                                      (match nth_error logTerms (fst iv) with
                                       | Some row => nth_error row (snd iv)
                                       | None => None
                                       end)))
                            (Discrete.indexed combo) (Fin 0)))
                  valueCombinations))
        valIndices in
  let logZ := BeliefUtils.logSumExp logMessages in
  map (fun m => Num.exp (sub m logZ)) logMessages.

(** The argument [updateBeliefs] hands to [Math.exp] for the value of index
    [i] of the variable at position [k]: the sum over the neighbors [nbrs]
    of the logarithms of their current messages. *)
Definition logMarginal (s : Discrete.BeliefPropagation) (k : nat)
  (nbrs : list nat) (i : nat) : num :=
  fold_left add
    (map (fun neighbor =>
            Num.log
              (or_else (nth_error (mget [] (Discrete.messages s) neighbor k) i)
                       (Fin 1)))
         nbrs)
    (Fin 0).

Open Scope string_scope.

(** The potential [1e-200]. *)
Definition tiny : R := (/ 10 ^ 200)%R.

(** A potential of one binary variable that all but rules out its value of
    index [i]: [values[0] === i ? 1e-200 : 1]. *)
Definition against (i : nat) (values : list (option nat)) : num :=
  match values with
  | Some a :: _ => if Nat.eqb a i then Fin tiny else Fin 1
  | _ => Fin 1
  end.

(** One binary variable [X] between two pairs of factors that contradict
    each other: [F1] and [F2] all but rule out its first value, [F3] and
    [F4] its second. *)
Definition opposed : FactorGraph Discrete.BayesNodeInput :=
  mkFactorGraph
    [("X", Discrete.VariableInput
             (Discrete.mkBayesVariableInput [Fin 0; Fin 1]
                [Fin (1 / 2); Fin (1 / 2)]));
     ("F1", Discrete.FactorInput (Discrete.mkBayesFactorInput (against 0)));
     ("F2", Discrete.FactorInput (Discrete.mkBayesFactorInput (against 0)));
     ("F3", Discrete.FactorInput (Discrete.mkBayesFactorInput (against 1)));
     ("F4", Discrete.FactorInput (Discrete.mkBayesFactorInput (against 1)))]
    [("X", "F1"); ("X", "F2"); ("X", "F3"); ("X", "F4")].

(** The variable and the factors of [opposed] as the constructor leaves
    them. *)
Definition opposedX : Discrete.BayesVariable :=
  Discrete.mkBayesVariable "X" [Fin 0; Fin 1]
    (repeat (div (Fin 1) (of_nat 2)) 2)
    (repeat (Num.log (div (Fin 1) (of_nat 2))) 2)
    [1; 2; 3; 4].

Definition opposedFactor (name : string) (i : nat) : Discrete.BayesFactor :=
  Discrete.mkBayesFactor name (against i)
    (fun values =>
       let p := against i values in
       if gt p (Fin 0) then Num.log p else BeliefUtils.LOG_EPSILON)
    [0].

Close Scope string_scope.

(** The weight of the value of index [i] in the message of a factor that
    all but rules out the value of index [a]. *)
Definition opposedWeight (a i : nat) : R :=
  ((if Nat.eqb i a then tiny else 1) / (tiny + 1))%R.

(** The message the Gaussian [updateVariableToFactorMessage(variable,
    factor)] computes, before it is stored: the observation of an observed
    variable, and otherwise the product of the current messages of the
    other neighbors. *)
Definition gaussianVariableMessage (s : Gaussian.GaussianBeliefPropagation)
  (variable factor : nat) : num * num :=
  match map_get (Gaussian.evidence s) variable with
  | Some ev =>
      (Gaussian.mv_mean ev, div (Fin 1) (Gaussian.mv_variance ev))
  | None =>
      let others :=
        filter (fun n => negb (Nat.eqb n factor))
               (Gaussian.neighborsOf s variable) in
      let p := totalPrecision s others variable in
      let w := weightedMean s others variable in
      (if gt p (Fin 0) then div w p else Fin 0, p)
  end.

Open Scope string_scope.

(** Two Gaussian variables [A] and [B] coupled by one factor [F]. *)
Definition pairGaussian : FactorGraph Gaussian.GaussianNodeInput :=
  mkFactorGraph
    [("A", Gaussian.VariableInput (Gaussian.mkGaussianVariableInput (Fin 0) (Fin 1)));
     ("B", Gaussian.VariableInput (Gaussian.mkGaussianVariableInput (Fin 0) (Fin 1)));
     ("F", Gaussian.FactorInput
             (Gaussian.mkGaussianFactorInput [Fin 1; Fin 2]
                [[Fin 2; Fin 1]; [Fin 1; Fin 3]]))]
    [("A", "F"); ("B", "F")].

(** The factor [F] of [pairGaussian] as the constructor leaves it. *)
Definition pairF : Gaussian.GaussianFactor :=
  Gaussian.mkGaussianFactor "F" [Fin 1; Fin 2]
    [[Fin 2; Fin 1]; [Fin 1; Fin 3]] [0; 1].

(** The engine of [pairGaussian] after the evidence [A = 5] and [B = 6],
    both with variance 1. *)
Definition pairClamped : Gaussian.GaussianBeliefPropagation :=
  Gaussian.setEvidence "B" (Fin 6) (Fin 1)
    (Gaussian.setEvidence "A" (Fin 5) (Fin 1)
       (Gaussian.constructor pairGaussian None)).

(** One Gaussian variable [A] between two factors [F] and [G]. *)
Definition forkGaussian : FactorGraph Gaussian.GaussianNodeInput :=
  mkFactorGraph
    [("A", Gaussian.VariableInput (Gaussian.mkGaussianVariableInput (Fin 0) (Fin 1)));
     ("F", Gaussian.FactorInput (Gaussian.mkGaussianFactorInput [Fin 3] [[Fin 2]]));
     ("G", Gaussian.FactorInput (Gaussian.mkGaussianFactorInput [Fin 1] [[Fin 4]]))]
    [("A", "F"); ("A", "G")].

(** The variable [A] of [forkGaussian] as the constructor leaves it. *)
Definition forkA : Gaussian.GaussianVariable :=
  Gaussian.mkGaussianVariable "A" (Fin 0) (Fin 1) [1; 2] (Fin 0) (Fin 1).

Close Scope string_scope.

Open Scope R_scope.

(** The range in which a positive real is held by a double up to rounding:
    from the smallest normal double, [2^-1022], to [2^1023], which is below
    [Number.MAX_VALUE].  Outside of it a result of the engine is flushed to
    0 or becomes [Infinity], which the exact numbers of this development do
    not follow. *)
Definition smallDouble : R := / 2 ^ 1022.
Definition hugeDouble : R := 2 ^ 1023.

Definition withinDoubles (x : R) : Prop := smallDouble <= x <= hugeDouble.

(** Zero, or within the range of the doubles. *)
Definition zeroOrWithinDoubles (x : R) : Prop := x = 0 \/ withinDoubles x.

Close Scope R_scope.

(** Every variable node holds a belief as long as its list of values. *)
Definition beliefsSized (s : Discrete.BeliefPropagation) : Prop :=
  forall k v,
    nth_error (Discrete.nodes (Discrete.graph s)) k = Some (Discrete.Var v) ->
    List.length (Discrete.currentBelief v)
    = List.length (Discrete.possibleValues v).

(* ================================================================= *)
(** ** Arrays: reading after writing *)

Section ArrayFacts.

Variable A : Type.

Lemma length_set_nth (i : nat) (v : A) (l : list A) :
  List.length (set_nth i v l) = List.length l.
Proof.
  revert i; induction l as [|x t IH]; intros [|i]; simpl; auto.
Qed.

Lemma nth_error_set_nth_same (i : nat) (v : A) (l : list A) :
  i < List.length l -> nth_error (set_nth i v l) i = Some v.
Proof.
  revert i; induction l as [|x t IH]; intros [|i] H; simpl in *; try lia; auto.
  apply IH; lia.
Qed.

Lemma nth_error_set_nth_other (i j : nat) (v : A) (l : list A) :
  i <> j -> nth_error (set_nth i v l) j = nth_error l j.
Proof.
  revert i j; induction l as [|x t IH]; intros [|i] [|j] H; simpl; auto.
  congruence.
Qed.

Lemma nth_set_nth_other (i j : nat) (v d : A) (l : list A) :
  i <> j -> nth j (set_nth i v l) d = nth j l d.
Proof.
  revert i j; induction l as [|x t IH]; intros [|i] [|j] H; simpl; auto.
  congruence.
Qed.

Lemma nth_set_nth_same (i : nat) (v d : A) (l : list A) :
  i < List.length l -> nth i (set_nth i v l) d = v.
Proof.
  revert i; induction l as [|x t IH]; intros [|i] H; simpl in *; try lia; auto.
  apply IH; lia.
Qed.

Lemma find_some_in_combine (B : Type) (p : B * A -> bool) (ks : list B)
  (l : list A) (k : B) (x : A) :
  find p (combine ks l) = Some (k, x) -> In x l /\ p (k, x) = true.
Proof.
  intros H. apply find_some in H. destruct H as [Hin Hp]. split; auto.
  eapply in_combine_r; eauto.
Qed.

End ArrayFacts.

(* ================================================================= *)
(** ** Lookup errors *)

Lemma discrete_findNode_not_variable (s : Discrete.BeliefPropagation)
  (nodeId : string) :
  (forall n, In n (Discrete.nodes (Discrete.graph s)) ->
             Discrete.name n = nodeId -> Discrete.type n = FACTOR) ->
  Discrete.findNode s nodeId = None \/
  exists k f, Discrete.findNode s nodeId = Some (k, Discrete.Fac f).
Proof.
  intros H. unfold Discrete.findNode, Discrete.indexed.
  destruct (find _ _) as [[k n]|] eqn:E; auto.
  right. apply find_some_in_combine in E. destruct E as [Hin Hp]. simpl in Hp.
  apply String.eqb_eq in Hp. specialize (H n Hin Hp).
  destruct n as [v|f]; [discriminate | eauto].
Qed.

Lemma gaussian_findNode_not_variable (s : Gaussian.GaussianBeliefPropagation)
  (nodeId : string) :
  (forall n, In n (Gaussian.nodes (Gaussian.graph s)) ->
             Gaussian.name n = nodeId -> Gaussian.type n = FACTOR) ->
  Gaussian.findNode s nodeId = None \/
  exists k f, Gaussian.findNode s nodeId = Some (k, Gaussian.Fac f).
Proof.
  intros H. unfold Gaussian.findNode.
  destruct (find _ _) as [[k n]|] eqn:E; auto.
  right. apply find_some_in_combine in E. destruct E as [Hin Hp]. simpl in Hp.
  apply String.eqb_eq in Hp. specialize (H n Hin Hp).
  destruct n as [v|f]; [discriminate | eauto].
Qed.

(** C7.  A name that no variable node carries (it is unknown, or it is the
    name of a factor) makes [getBeliefs] and [getLogBeliefs] throw an error
    whose message ends with that name, in both engines, while [setEvidence]
    returns the engine exactly as it was: beliefs, messages and evidence map
    are untouched. *)
Theorem lookup_errors
  (d : Discrete.BeliefPropagation) (g : Gaussian.GaussianBeliefPropagation)
  (nodeId : string) (value mu var : num) :
  (forall n, In n (Discrete.nodes (Discrete.graph d)) ->
             Discrete.name n = nodeId -> Discrete.type n = FACTOR) ->
  (forall n, In n (Gaussian.nodes (Gaussian.graph g)) ->
             Gaussian.name n = nodeId -> Gaussian.type n = FACTOR) ->
  (exists prefix,
      Discrete.getBeliefs nodeId d = Thrown (prefix ++ nodeId)%string /\
      Discrete.getLogBeliefs nodeId d = Thrown (prefix ++ nodeId)%string /\
      Gaussian.getBeliefs nodeId g = Thrown (prefix ++ nodeId)%string) /\
  Discrete.setEvidence nodeId value d = d /\
  Gaussian.setEvidence nodeId mu var g = g.
Proof.
  intros Hd Hg.
  apply discrete_findNode_not_variable in Hd.
  apply gaussian_findNode_not_variable in Hg.
  unfold Discrete.getBeliefs, Discrete.getLogBeliefs, Discrete.setEvidence,
    Gaussian.getBeliefs, Gaussian.setEvidence,
    Discrete.notVariable, Gaussian.notVariable.
  split; [exists "Cannot get beliefs from non-variable node: "%string|].
  - destruct Hd as [-> | (k & f & ->)], Hg as [-> | (k' & f' & ->)]; auto.
  - destruct Hd as [-> | (k & f & ->)], Hg as [-> | (k' & f' & ->)]; auto.
Qed.

(* ================================================================= *)
(** ** Facts about numbers *)

Lemma eqb_NInf (a : num) : Num.eqb a NInf = true <-> a = NInf.
Proof. destruct a; simpl; split; intros H; congruence. Qed.

Lemma max2_NaN_l (b : num) : max2 NaN b = NaN.
Proof. reflexivity. Qed.

Lemma fold_max2_NaN (l : list num) : fold_left max2 l NaN = NaN.
Proof. induction l as [|x t IH]; simpl; auto. Qed.

Lemma max2_NInf_l (b : num) : max2 NInf b = b.
Proof. destruct b; reflexivity. Qed.

(** The running maximum never decreases below a finite or infinite value
    already seen: from a start other than [-Infinity] it cannot come back
    to [-Infinity]. *)
Lemma fold_max2_not_NInf (l : list num) (a : num) :
  a <> NInf -> fold_left max2 l a <> NInf.
Proof.
  revert a; induction l as [|x t IH]; intros a Ha; simpl; auto.
  apply IH. destruct a, x; simpl; try congruence;
    try (destruct (Rlt_dec _ _); congruence).
Qed.

Lemma max_NInf_iff (l : list num) :
  Num.max l = NInf <-> Forall (eq NInf) l.
Proof.
  unfold Num.max. induction l as [|x t IH]; cbn [fold_left].
  - split; auto.
  - rewrite max2_NInf_l. split.
    + intros H. destruct x; try (exfalso; revert H;
        apply fold_max2_not_NInf; congruence).
      constructor; auto. apply IH; auto.
    + intros H. inversion H; subst. apply IH; auto.
Qed.

Lemma fold_add_map (f : num -> num) (l : list num) (a : num) :
  fold_left (fun s v => add s (f v)) l a = fold_left add (map f l) a.
Proof. revert a; induction l as [|x t IH]; intros a; simpl; auto. Qed.

(* ================================================================= *)
(** ** [logSumExp] *)

(** C9.  [logSumExp] returns [LOG_EPSILON = 1e-10] for the empty list and
    whenever the maximum of the inputs is [-Infinity], which happens exactly
    when every input is [-Infinity], and the result is then not NaN; on every
    other list it returns [max + log(sum(exp(v - max)))]. *)
Theorem logSumExp_cases (values : list num) :
  BeliefUtils.LOG_EPSILON = Fin (1 / 10000000000) /\
  (values = [] -> BeliefUtils.logSumExp values = BeliefUtils.LOG_EPSILON) /\
  (Num.max values = NInf ->
     BeliefUtils.logSumExp values = BeliefUtils.LOG_EPSILON /\
     BeliefUtils.logSumExp values <> NaN /\
     Forall (eq NInf) values) /\
  (values <> [] -> Num.max values <> NInf ->
     BeliefUtils.logSumExp values = logSumExp_formula values).
Proof.
  split; [reflexivity|]. split; [|split].
  - intros ->. reflexivity.
  - intros H. unfold BeliefUtils.logSumExp.
    rewrite H. simpl. destruct (Nat.eqb _ _);
      (split; [reflexivity | split; [discriminate | now apply max_NInf_iff]]).
  - intros Hne Hmax. unfold BeliefUtils.logSumExp, logSumExp_formula.
    destruct values as [|x t]; [congruence|]. simpl List.length. simpl Nat.eqb.
    destruct (Num.eqb (Num.max (x :: t)) NInf) eqn:E.
    + apply eqb_NInf in E. congruence.
    + cbv zeta. unfold sum. now rewrite fold_add_map.
Qed.

(* ================================================================= *)
(** ** Graph normalization *)

(** Which directed edges the pipeline produces: the two directions of every
    input edge both of whose names pass the [in] test. *)
Lemma normalizeEdges_spec (names : list string) (edges : list (NodeID * NodeID))
  (a b : nat) :
  In (a, b) (normalizeEdges names edges) <->
  exists x y, In (x, y) edges /\
    in_nodeDict names x = true /\ in_nodeDict names y = true /\
    ((a, b) = (id_or_0 names x, id_or_0 names y) \/
     (a, b) = (id_or_0 names y, id_or_0 names x)).
Proof.
  unfold normalizeEdges. rewrite in_flat_map. split.
  - intros [[p q] [Hin Hab]]. apply in_map_iff in Hin.
    destruct Hin as [[x y] [Heq Hin]]. apply filter_In in Hin.
    destruct Hin as [Hin Hf]. apply andb_true_iff in Hf. simpl in *.
    inversion Heq; subst. exists x, y. intuition congruence.
  - intros (x & y & Hin & Hx & Hy & Hab).
    exists (id_or_0 names x, id_or_0 names y). split.
    + apply in_map_iff. exists (x, y). split; auto.
      apply filter_In. simpl. rewrite Hx, Hy. auto.
    + simpl. intuition congruence.
Qed.

(** An input edge is dropped when one of its names is neither the name of a
    node nor a property inherited from [Object.prototype]. *)
Lemma normalizeEdges_drops (names : list string) (x y : NodeID)
  (rest : list (NodeID * NodeID)) :
  ~ In x names -> ~ In x objectPrototypeKeys ->
  normalizeEdges names ((x, y) :: rest) = normalizeEdges names rest.
Proof.
  intros Hn Hp. unfold normalizeEdges. simpl.
  assert (E : in_nodeDict names x = false).
  { unfold in_nodeDict.
    assert (O : ownIndex x names = None).
    { unfold ownIndex. generalize 0. induction names as [|z t IH]; intros i; simpl; auto.
      rewrite IH by (intros H; apply Hn; right; auto).
      destruct (String.eqb z x) eqn:Ez; auto. apply String.eqb_eq in Ez.
      exfalso. apply Hn. left; auto. }
    rewrite O. destruct (existsb _ _) eqn:Ex; auto.
    apply existsb_exists in Ex. destruct Ex as [k [Hk Hkx]].
    apply String.eqb_eq in Hkx. subst. contradiction. }
  rewrite E. reflexivity.
Qed.

Section AdjacencyFacts.

Variable Node : Type.
Variable type_of : Node -> GraphType.
Variable push : nat -> Node -> Node.

(** A directed edge appends [to] to the neighbors of [from] if and only if
    both nodes exist and their kinds differ; otherwise the node list is left
    alone and the edge is reported. *)
Lemma addEdge_spec (nodesOut : list Node) (errors : list string)
  (from to : nat) :
  (exists a b, nth_error nodesOut from = Some a /\
               nth_error nodesOut to = Some b /\ type_of a <> type_of b) /\
  addEdge type_of push (nodesOut, errors) (from, to) =
    (pushNeighbor push nodesOut from to, errors)
  \/
  ~ (exists a b, nth_error nodesOut from = Some a /\
                 nth_error nodesOut to = Some b /\ type_of a <> type_of b) /\
  addEdge type_of push (nodesOut, errors) (from, to) =
    (nodesOut, (errors ++ [invalidEdge from to])%list).
Proof.
  unfold addEdge, edgeTest.
  destruct (nth_error nodesOut from) as [a|] eqn:Ea;
    [destruct (nth_error nodesOut to) as [b|] eqn:Eb|].
  - destruct (type_of a) eqn:Ta, (type_of b) eqn:Tb; simpl.
    + right. split; auto. intros (a' & b' & Ha & Hb & Hne).
      inversion Ha; inversion Hb; subst. congruence.
    + left. split; auto. exists a, b. repeat split; auto. congruence.
    + left. split; auto. exists a, b. repeat split; auto. congruence.
    + right. split; auto. intros (a' & b' & Ha & Hb & Hne).
      inversion Ha; inversion Hb; subst. congruence.
  - right. split; auto. intros (a' & b' & Ha & Hb & Hne). discriminate.
  - right. split; auto. intros (a' & b' & Ha & Hb & Hne). discriminate.
Qed.

End AdjacencyFacts.

(** C10, at the failing input.  The edge [("toString", "F")] names no node,
    yet both engines keep it: [toString] is found by the [in] test as an
    inherited property, its missing [id] becomes [0], and the edge is
    expanded to [(0, 1)] and [(1, 0)], which makes the variable [A] and the
    factor [F] neighbors of each other.  No edge is reported. *)
Theorem processGraph_keeps_inherited_name :
  ~ In "toString"%string (map fst (fg_nodes strayEdgeDiscrete)) /\
  Discrete.edges (fst (Discrete.processGraph strayEdgeDiscrete))
    = [(0, 1); (1, 0)] /\
  map Discrete.neighbors
      (Discrete.nodes (fst (Discrete.processGraph strayEdgeDiscrete)))
    = [[1]; [0]] /\
  snd (Discrete.processGraph strayEdgeDiscrete) = [] /\
  Gaussian.edges (fst (Gaussian.processGraph strayEdgeGaussian))
    = [(0, 1); (1, 0)] /\
  map Gaussian.neighbors
      (Gaussian.nodes (fst (Gaussian.processGraph strayEdgeGaussian)))
    = [[1]; [0]] /\
  snd (Gaussian.processGraph strayEdgeGaussian) = [].
Proof.
  split.
  - simpl. intros [H|[H|[]]]; discriminate.
  - repeat split; vm_compute; reflexivity.
Qed.

(* ================================================================= *)
(** ** What a sweep leaves alone *)

Lemma fold_left_preserves (A B : Type) (f : A -> B -> A) (P : A -> Prop) :
  (forall a b, P a -> P (f a b)) ->
  forall l a, P a -> P (fold_left f l a).
Proof.
  intros H l; induction l as [|x t IH]; intros a Ha; simpl; auto.
Qed.

Module DiscreteFrame.

Import Discrete DiscreteInv.

Lemma sameButNext_refl s : sameButNext s s.
Proof. repeat split. Qed.

Lemma sameButNext_withNext s0 s nm :
  sameButNext s0 s -> sameButNext s0 (withNext s nm).
Proof. intros H; exact H. Qed.

Lemma updateVariableToFactorMessage_frame s0 s v f :
  sameButNext s0 s -> sameButNext s0 (updateVariableToFactorMessage s v f).
Proof.
  intros H. unfold updateVariableToFactorMessage.
  destruct (map_has _ _); apply sameButNext_withNext; exact H.
Qed.

Lemma updateFactorToVariableMessage_frame s0 s fid f v :
  sameButNext s0 s -> sameButNext s0 (updateFactorToVariableMessage s fid f v).
Proof. intros H. exact H. Qed.

Lemma variablePhase_frame s : sameButNext s (variablePhase s).
Proof.
  unfold variablePhase. apply fold_left_preserves; [|apply sameButNext_refl].
  intros a [k [v|f]] Ha; simpl; auto.
  apply fold_left_preserves; auto.
  intros; now apply updateVariableToFactorMessage_frame.
Qed.

Lemma factorPhase_frame s : sameButNext s (factorPhase s).
Proof.
  unfold factorPhase. apply fold_left_preserves; [|apply sameButNext_refl].
  intros a [k [v|f]] Ha; simpl; auto.
  apply fold_left_preserves; auto.
Qed.

Lemma updateAllMessages_frame s :
  graph (updateAllMessages s) = graph s /\
  evidence (updateAllMessages s) = evidence s /\
  variableMarginals (updateAllMessages s) = variableMarginals s /\
  dampingFactor (updateAllMessages s) = dampingFactor s /\
  nextMessages (updateAllMessages s) = messages s.
Proof.
  unfold updateAllMessages, swapMessages; simpl.
  destruct (factorPhase_frame (variablePhase s)) as (G1 & M1 & V1 & D1 & E1).
  destruct (variablePhase_frame s) as (G0 & M0 & V0 & D0 & E0).
  repeat split; congruence.
Qed.

Lemma map_set_nth (A B : Type) (f : A -> B) (k : nat) (x y : A) (l : list A) :
  nth_error l k = Some x -> f y = f x -> map f (set_nth k y l) = map f l.
Proof.
  revert k; induction l as [|z t IH]; intros [|k] H E; simpl in *;
    try discriminate; auto.
  - inversion H; subst. now rewrite E.
  - f_equal. now apply IH.
Qed.

Lemma updateBelief_keeps k s0 s j :
  map_has (evidence s0) k = true ->
  keeps k s0 s -> keeps k s0 (updateBelief s j).
Proof.
  intros Hev (N & E & M). unfold updateBelief.
  destruct (nth_error (nodes (graph s)) j) as [[v|f]|] eqn:Ej;
    try (repeat split; assumption).
  destruct (map_has (evidence s) j) eqn:Hj; [repeat split; assumption|].
  assert (j <> k) by (intros ->; congruence).
  repeat split; simpl; auto.
  - rewrite nth_error_set_nth_other; auto.
  - rewrite <- M. eapply map_set_nth; eauto.
Qed.

Lemma updateBeliefs_keeps k s :
  map_has (evidence s) k = true -> keeps k s (updateBeliefs s).
Proof.
  intros H. unfold updateBeliefs. apply fold_left_preserves.
  - intros; now apply updateBelief_keeps.
  - repeat split.
Qed.

Lemma sweep_keeps k s :
  map_has (evidence s) k = true -> keeps k s (sweep s).
Proof.
  intros H. unfold sweep.
  destruct (updateAllMessages_frame s) as (G & E & _).
  assert (H' : map_has (evidence (updateAllMessages s)) k = true)
    by now rewrite E.
  destruct (@updateBeliefs_keeps k (updateAllMessages s) H') as (N1 & E1 & M1).
  repeat split; congruence.
Qed.

Lemma iterate_keeps k maxIterations tolerance remaining :
  forall i s, map_has (evidence s) k = true ->
    keeps k s (final (iterate maxIterations tolerance remaining i s)).
Proof.
  induction remaining as [|r IH]; intros i s H; cbn [iterate].
  - repeat split.
  - destruct (@sweep_keeps k s H) as (N & E & M).
    destruct (lt _ _); cbn [final]; [repeat split; assumption|].
    assert (H' : map_has (evidence (sweep s)) k = true) by now rewrite E.
    destruct (IH (S i) (sweep s) H') as (N1 & E1 & M1).
    repeat split; congruence.
Qed.

Lemma runs_keep k calls :
  forall s, map_has (evidence s) k = true -> keeps k s (discreteRuns calls s).
Proof.
  induction calls as [|c t IH]; intros s H; simpl.
  - repeat split.
  - destruct (@iterate_keeps k (fst c)
                (match snd c with Some t => t | None => defaultTolerance end)
                (fst c) 0 s H) as (N & E & M).
    fold (runIterations (fst c) (snd c) s) in N, E, M.
    assert (H' : map_has (evidence (final (runIterations (fst c) (snd c) s))) k
                 = true) by now rewrite E.
    destruct (IH _ H') as (N1 & E1 & M1).
    repeat split; congruence.
Qed.

End DiscreteFrame.

Module GaussianFrame.

Import Gaussian GaussianInv.

Lemma gaussian_sameButNext_refl s : sameButNext s s.
Proof. repeat split. Qed.

Lemma andThen_preserves (P : GaussianBeliefPropagation -> Prop) e r f :
  (forall s s', P s -> f s = Some s' -> P s') ->
  P (stateOf r) -> P (stateOf (andThen e r f)).
Proof.
  intros Hf Hr. destruct r as [s|e' s]; simpl in *; auto.
  destruct (f s) eqn:E; simpl; eauto.
Qed.

Lemma gaussian_updateVariableToFactorMessage_frame s0 s v f s' :
  sameButNext s0 s -> updateVariableToFactorMessage s v f = Some s' ->
  sameButNext s0 s'.
Proof.
  intros H. unfold updateVariableToFactorMessage.
  destruct (map_get _ _); [intros E; inversion E; subst; exact H|].
  destruct (reduce1 _ _); [|discriminate].
  destruct (reduce1 _ _); [|discriminate].
  intros E; inversion E; subst; exact H.
Qed.

Lemma gaussian_updateFactorToVariableMessage_frame s0 s fid f v s' :
  sameButNext s0 s -> updateFactorToVariableMessage s fid f v = Some s' ->
  sameButNext s0 s'.
Proof.
  intros H. unfold updateFactorToVariableMessage.
  destruct (MathJS.multiply _ _); [|discriminate].
  destruct (findIndex _ _); [|discriminate].
  destruct (precSumLoop _ _ _ _); [|discriminate].
  destruct (MathJS.get2 _ _ _); [|discriminate].
  destruct (MathJS.get1 _ _); [|discriminate].
  intros E; inversion E; subst; exact H.
Qed.

Lemma gaussian_variablePhase_frame s : sameButNext s (stateOf (variablePhase s)).
Proof.
  unfold variablePhase.
  apply (@fold_left_preserves _ _ _ (fun r => sameButNext s (stateOf r)));
    [|apply gaussian_sameButNext_refl].
  intros a [k [v|f]] Ha; simpl; auto.
  apply (@fold_left_preserves _ _ _ (fun r => sameButNext s (stateOf r))); auto.
  intros r f Hr. apply andThen_preserves; auto.
  intros; eapply gaussian_updateVariableToFactorMessage_frame; eauto.
Qed.

Lemma gaussian_factorPhase_frame r :
  sameButNext (stateOf r) (stateOf (factorPhase r)).
Proof.
  unfold factorPhase.
  apply (@fold_left_preserves _ _ _
           (fun r' => sameButNext (stateOf r) (stateOf r')));
    [|apply gaussian_sameButNext_refl].
  intros a [k [v|f]] Ha; simpl; auto.
  apply (@fold_left_preserves _ _ _
           (fun r' => sameButNext (stateOf r) (stateOf r'))); auto.
  intros r' x Hr. apply andThen_preserves; auto.
  intros; eapply gaussian_updateFactorToVariableMessage_frame; eauto.
Qed.

Lemma gaussian_updateAllMessages_frame s :
  graph (stateOf (updateAllMessages s)) = graph s /\
  evidence (stateOf (updateAllMessages s)) = evidence s /\
  dampingFactor (stateOf (updateAllMessages s)) = dampingFactor s.
Proof.
  unfold updateAllMessages.
  destruct (gaussian_factorPhase_frame (variablePhase s)) as (G1 & M1 & D1 & E1).
  destruct (gaussian_variablePhase_frame s) as (G0 & M0 & D0 & E0).
  destruct (factorPhase (variablePhase s)) as [s'|e s']; simpl in *;
    repeat split; congruence.
Qed.





End GaussianFrame.

(* ================================================================= *)
(** ** Finding a node by name *)

Section FindByName.

Variable Node : Type.
Variable name : Node -> NodeID.
Variable nodeId : string.

Let hit (kn : nat * Node) : bool := String.eqb (name (snd kn)) nodeId.

(** The node found under a name sits at the position found, and an array
    with the same names finds the same position. *)
Lemma find_by_name (l l' : list Node) :
  map name l = map name l' ->
  forall a k n,
    find hit (combine (seq a (List.length l)) l) = Some (k, n) ->
    a <= k /\ nth_error l (k - a) = Some n /\
    forall n', nth_error l' (k - a) = Some n' ->
      find hit (combine (seq a (List.length l')) l') = Some (k, n').
Proof.
  revert l'; induction l as [|x t IH]; intros [|x' t'] Hm a k n;
    simpl in *; try discriminate.
  inversion Hm as [[Hx Ht]]. unfold hit at 1 3. simpl. rewrite <- Hx.
  destruct (String.eqb (name x) nodeId) eqn:E.
  - intros H; inversion H; subst. rewrite Nat.sub_diag. simpl.
    repeat split; auto. intros n' Hn'; inversion Hn'; auto.
  - intros H. destruct (IH t' Ht (S a) k n H) as (Hle & Hn & Hf).
    replace (k - a) with (S (k - S a)) by lia. simpl.
    repeat split; auto; lia.
Qed.

End FindByName.

Lemma map_has_map_set (V : Type) (m : list (nat * V)) (k : nat) (v : V) :
  map_has (map_set m k v) k = true.
Proof.
  unfold map_set. destruct (map_has m k) eqn:E.
  - unfold map_has in *. apply existsb_exists in E.
    destruct E as [[k' v'] [Hin Hk]]. apply existsb_exists.
    exists (k, v). split; [|simpl; apply Nat.eqb_refl].
    apply in_map_iff. exists (k', v'). simpl in *. rewrite Hk. auto.
  - unfold map_has. rewrite existsb_app. simpl. rewrite Nat.eqb_refl.
    now rewrite orb_true_r.
Qed.

Lemma discrete_evidence_fixed
  (d : Discrete.BeliefPropagation) (nodeId : string) (value : num)
  (k : nat) (v : Discrete.BayesVariable) (calls : list (nat * option num)) :
  Discrete.findNode d nodeId = Some (k, Discrete.Var v) ->
  Discrete.getBeliefs nodeId
    (discreteRuns calls (Discrete.setEvidence nodeId value d))
  = Returned (map (fun x => if Num.eqb x value then Fin 1 else Fin 0)
                  (Discrete.possibleValues v)).
Proof.
  intros Hd.
  pose proof Hd as Hd0. unfold Discrete.findNode, Discrete.indexed in Hd0.
  destruct (@find_by_name _ Discrete.name nodeId (Discrete.nodes (Discrete.graph d))
              (Discrete.nodes (Discrete.graph d)) eq_refl 0 _ _ Hd0)
    as (_ & Hk & _).
  rewrite Nat.sub_0_r in Hk.
  assert (Hlen : k < List.length (Discrete.nodes (Discrete.graph d)))
    by (apply nth_error_Some; congruence).
  set (d1 := Discrete.setEvidence nodeId value d).
  assert (E1 : map_has (Discrete.evidence d1) k = true).
  { unfold d1, Discrete.setEvidence. rewrite Hd. simpl.
    apply map_has_map_set. }
  destruct (@DiscreteFrame.runs_keep k calls d1 E1) as (N & _ & M).
  assert (N1 : nth_error (Discrete.nodes (Discrete.graph d1)) k
               = Some (Discrete.setBeliefs (Discrete.Var v)
                   (map (fun x => if Num.eqb x value then Fin 1 else Fin 0)
                        (Discrete.possibleValues v))
                   (map (fun x => if Num.eqb x (Fin 1) then Fin 0 else NInf)
                        (map (fun x => if Num.eqb x value then Fin 1 else Fin 0)
                             (Discrete.possibleValues v))))).
  { unfold d1, Discrete.setEvidence. rewrite Hd. simpl.
    now apply nth_error_set_nth_same. }
  assert (M1 : map Discrete.name (Discrete.nodes (Discrete.graph d))
               = map Discrete.name
                   (Discrete.nodes (Discrete.graph (discreteRuns calls d1)))).
  { rewrite M. unfold d1, Discrete.setEvidence. rewrite Hd. simpl.
    symmetry. eapply DiscreteFrame.map_set_nth; eauto. }
  destruct (@find_by_name _ Discrete.name nodeId _ _ M1 0 _ _ Hd0)
    as (_ & _ & Hf).
  rewrite Nat.sub_0_r in Hf. rewrite N, N1 in Hf.
  specialize (Hf _ eq_refl).
  unfold Discrete.getBeliefs, Discrete.findNode, Discrete.indexed.
  rewrite Hf. reflexivity.
Qed.



(* ================================================================= *)
(** ** The status of [runIterations] *)

Lemma emptyDiscrete_constructed :
  Discrete.constructor (mkFactorGraph [] []) None = Some emptyDiscrete.
Proof. reflexivity. Qed.






(* ================================================================= *)
(** ** Where the Gaussian sweep throws *)

Lemma map_get_None_iff (V : Type) (m : list (nat * V)) (k : nat) :
  map_get m k = None <-> map_has m k = false.
Proof.
  unfold map_get, map_has. induction m as [|[k' v] t IH]; simpl.
  - tauto.
  - destruct (Nat.eqb k' k); simpl; [split; discriminate | exact IH].
Qed.

Lemma in_indexed (A : Type) (l : list A) :
  forall a k x, nth_error l k = Some x ->
    In (a + k, x) (combine (seq a (List.length l)) l).
Proof.
  induction l as [|y t IH]; intros a [|k] x H; simpl in *; try discriminate.
  - inversion H; subst. left. f_equal. lia.
  - right. replace (a + S k) with (S a + k) by lia. now apply IH.
Qed.

Lemma filter_only (f : nat) (l : list nat) :
  (forall n, In n l -> n = f) ->
  filter (fun n => negb (Nat.eqb n f)) l = [].
Proof.
  induction l as [|x t IH]; intros H; simpl; auto.
  rewrite (H x (or_introl eq_refl)), Nat.eqb_refl. simpl.
  apply IH. intros n Hn. apply H. now right.
Qed.

Module GaussianThrow.

Import Gaussian GaussianInv GaussianFrame.

Lemma update_None_iff s k f :
  updateVariableToFactorMessage s k f = None <-> reducesEmpty s k f.
Proof.
  unfold updateVariableToFactorMessage, reducesEmpty.
  destruct (map_get (evidence s) k) as [ev|].
  - split; [discriminate | intros [H _]; discriminate].
  - destruct (filter _ (neighborsOf s k)) as [|x t]; simpl.
    + split; auto.
    + split; [discriminate | intros [_ H]; discriminate].
Qed.

Lemma reducesEmpty_frame s0 s k f :
  sameButNext s0 s -> reducesEmpty s k f <-> reducesEmpty s0 k f.
Proof.
  intros (G & _ & _ & E). unfold reducesEmpty, neighborsOf.
  rewrite G, E. tauto.
Qed.

Lemma fine_andThen s0 r k f :
  fine s0 r ->
  fine s0 (andThen reduceError r
             (fun s => updateVariableToFactorMessage s k f)).
Proof.
  intros [F R]. destruct r as [s|e s]; simpl in *.
  - destruct (updateVariableToFactorMessage s k f) eqn:E; split; simpl; auto.
    + eapply gaussian_updateVariableToFactorMessage_frame; eauto.
    + discriminate.
    + intros e s' H; inversion H; auto.
  - split; auto.
Qed.

Lemma fine_inner s0 k nbrs :
  forall r, fine s0 r ->
    fine s0 (fold_left
               (fun r f =>
                  andThen reduceError r
                    (fun s => updateVariableToFactorMessage s k f))
               nbrs r).
Proof.
  induction nbrs as [|x t IH]; intros r H; simpl; auto.
  apply IH. now apply fine_andThen.
Qed.

Lemma inner_raised k nbrs e s :
  fold_left
    (fun r f =>
       andThen reduceError r (fun s => updateVariableToFactorMessage s k f))
    nbrs (Raise e s) = Raise e s.
Proof. induction nbrs as [|x t IH]; simpl; auto. Qed.

Lemma inner_throws s0 k f nbrs :
  In f nbrs -> reducesEmpty s0 k f ->
  forall r, fine s0 r ->
    exists s', fold_left
      (fun r f =>
         andThen reduceError r (fun s => updateVariableToFactorMessage s k f))
      nbrs r = Raise reduceError s'.
Proof.
  intros Hin Hred. induction nbrs as [|x t IH]; intros r H; [destruct Hin|].
  simpl. destruct r as [s|e s].
  - simpl. destruct H as [F _]. simpl in F.
    destruct (updateVariableToFactorMessage s k x) as [s'|] eqn:E.
    + destruct Hin as [->|Hin].
      * exfalso. assert (N : updateVariableToFactorMessage s k f = None)
          by (apply update_None_iff; now apply (@reducesEmpty_frame s0 s k f F)).
        congruence.
      * apply IH; auto. split; simpl.
        -- eapply gaussian_updateVariableToFactorMessage_frame; eauto.
        -- discriminate.
    + rewrite inner_raised. eauto.
  - simpl. rewrite inner_raised. destruct H as [_ R].
    rewrite (R e s eq_refl). eauto.
Qed.

Lemma outer_raised l e s : fold_left variableStep l (Raise e s) = Raise e s.
Proof.
  induction l as [|[k [v|f]] t IH]; simpl; auto.
  unfold variableStep at 2. simpl. now rewrite inner_raised.
Qed.

Lemma outer_throws s0 k v f l :
  In (k, Var v) l -> In f (var_neighbors v) -> reducesEmpty s0 k f ->
  forall r, fine s0 r ->
    exists s', fold_left variableStep l r = Raise reduceError s'.
Proof.
  intros Hin Hf Hred. induction l as [|[k' n] t IH]; intros r H;
    [destruct Hin|].
  simpl. destruct Hin as [E|Hin].
  - inversion E; subst. unfold variableStep at 2. simpl.
    destruct (@inner_throws s0 k f (var_neighbors v) Hf Hred r H) as [s' ->].
    rewrite outer_raised. eauto.
  - apply IH; auto. unfold variableStep. destruct n as [v'|f']; simpl; auto.
    now apply fine_inner.
Qed.

Lemma variablePhase_throws s k v f :
  nth_error (nodes (graph s)) k = Some (Var v) ->
  In f (var_neighbors v) -> reducesEmpty s k f ->
  exists s', variablePhase s = Raise reduceError s'.
Proof.
  intros Hk Hf Hred. unfold variablePhase.
  change (exists s',
    fold_left variableStep
      (combine (seq 0 (List.length (nodes (graph s)))) (nodes (graph s)))
      (Done s) = Raise reduceError s').
  eapply outer_throws; eauto.
  - apply (@in_indexed _ (nodes (graph s)) 0 k _ Hk).
  - split; [apply gaussian_sameButNext_refl | discriminate].
Qed.

Lemma factorPhase_raised e s : factorPhase (Raise e s) = Raise e s.
Proof.
  unfold factorPhase. simpl stateOf.
  generalize (combine (seq 0 (List.length (nodes (graph s))))
                      (nodes (graph s))).
  intros l. induction l as [|[k [v|f]] t IH]; simpl; auto.
  assert (E : forall nbrs,
    fold_left
      (fun r v =>
         andThen matrixError r
           (fun s => updateFactorToVariableMessage s k f v))
      nbrs (Raise e s) = Raise e s)
    by (intros nbrs; induction nbrs; simpl; auto).
  now rewrite E.
Qed.

Lemma updateAllMessages_throws s k v f :
  nth_error (nodes (graph s)) k = Some (Var v) ->
  In f (var_neighbors v) -> reducesEmpty s k f ->
  exists s', updateAllMessages s = Raise reduceError s'.
Proof.
  intros Hk Hf Hred.
  destruct (@variablePhase_throws s k v f Hk Hf Hred) as [s' E].
  unfold updateAllMessages. rewrite E, factorPhase_raised. eauto.
Qed.

End GaussianThrow.

(** C6, refuted on the code.  The engine of one Gaussian variable without
    any factor has no evidence, and its variable has no neighbor; yet the
    sweep completes and [runIterations] returns. *)
Lemma isolated_variable_sweeps :
  nth_error
    (Gaussian.nodes (Gaussian.graph (Gaussian.constructor isolatedGaussian None)))
    0 = Some (Gaussian.Var isolatedX) /\
  map_has (Gaussian.evidence (Gaussian.constructor isolatedGaussian None)) 0
  = false /\
  Gaussian.var_neighbors isolatedX = [] /\
  (exists s',
     Gaussian.updateAllMessages (Gaussian.constructor isolatedGaussian None)
     = Gaussian.Done s') /\
  completion
    (Gaussian.runIterations 1 None (Gaussian.constructor isolatedGaussian None))
  = Returned tt /\
  ~ sweepNeedsTwoNeighbors.
Proof.
  assert (D : exists s',
             Gaussian.updateAllMessages
               (Gaussian.constructor isolatedGaussian None)
             = Gaussian.Done s') by (eexists; reflexivity).
  split; [reflexivity|]. split; [reflexivity|]. split; [reflexivity|].
  split; [exact D|]. split.
  - unfold Gaussian.runIterations. cbn [Gaussian.iterate].
    destruct D as [s' ->]. destruct (lt _ _); reflexivity.
  - intros H. destruct D as [s' E].
    destruct (H _ _ E 0 isolatedX eq_refl) as [C|C].
    + discriminate C.
    + simpl in C. lia.
Qed.

(** C6, as the code has it.  When a variable without evidence has a
    neighboring factor and no neighbor other than it, the message to that
    factor reduces an empty array without an initial element, and every
    [runIterations] call with [maxIterations >= 1] throws.  A sweep that
    completes therefore finds every variable evidenced, or without any
    neighbor, or with two different neighbors. *)
Theorem gaussian_sweep_partial (s : Gaussian.GaussianBeliefPropagation) :
  (forall k v f maxIterations tolerance,
      nth_error (Gaussian.nodes (Gaussian.graph s)) k = Some (Gaussian.Var v) ->
      map_has (Gaussian.evidence s) k = false ->
      In f (Gaussian.var_neighbors v) ->
      (forall n, In n (Gaussian.var_neighbors v) -> n = f) ->
      completion (Gaussian.runIterations (S maxIterations) tolerance s)
      = Thrown Gaussian.reduceError) /\
  (forall s', Gaussian.updateAllMessages s = Gaussian.Done s' ->
     forall k v,
       nth_error (Gaussian.nodes (Gaussian.graph s)) k = Some (Gaussian.Var v) ->
       map_has (Gaussian.evidence s) k = true \/
       Gaussian.var_neighbors v = [] \/
       exists f f', In f (Gaussian.var_neighbors v) /\
                    In f' (Gaussian.var_neighbors v) /\ f <> f').
Proof.
  split.
  - intros k v f maxIterations tolerance Hk Hev Hf Honly.
    assert (Hred : reducesEmpty s k f).
    { split; [now apply map_get_None_iff|].
      unfold Gaussian.neighborsOf. rewrite Hk. simpl.
      now apply filter_only. }
    destruct (@GaussianThrow.updateAllMessages_throws s k v f Hk Hf Hred)
      as [s' E].
    unfold Gaussian.runIterations. simpl. rewrite E. reflexivity.
  - intros s' Hdone k v Hk.
    destruct (map_has (Gaussian.evidence s) k) eqn:Hev; auto. right.
    destruct (Gaussian.var_neighbors v) as [|f t] eqn:Hn; auto. right.
    destruct (filter (fun n => negb (Nat.eqb n f)) (f :: t)) as [|f' t'] eqn:Hfil.
    + exfalso.
      assert (Hred : reducesEmpty s k f).
      { split; [now apply map_get_None_iff|].
        unfold Gaussian.neighborsOf. rewrite Hk. simpl Gaussian.neighbors.
        now rewrite Hn. }
      assert (Hf : In f (Gaussian.var_neighbors v)) by (rewrite Hn; now left).
      destruct (@GaussianThrow.updateAllMessages_throws s k v f Hk Hf Hred)
        as [s'' E].
      congruence.
    + assert (Hin : In f' (filter (fun n => negb (Nat.eqb n f)) (f :: t)))
        by (rewrite Hfil; now left).
      apply filter_In in Hin. destruct Hin as [Hin Hne].
      apply negb_true_iff, Nat.eqb_neq in Hne.
      exists f, f'. repeat split; auto. now left.
Qed.

(* ================================================================= *)
(** ** The Gaussian factor-to-variable message *)

Module FactorMessage.

Import Gaussian FactorMessageSpec.

Lemma get2_in_range (f : GaussianFactor) (i j : nat) :
  wellShaped f ->
  i < List.length (fac_neighbors f) -> j < List.length (fac_neighbors f) ->
  exists l, MathJS.get2 (potentialPrecision f) i j = Some l /\
            Lambda f i j = l.
Proof.
  intros (Hr & Hc & _) Hi Hj. unfold Lambda, MathJS.get2.
  destruct (nth_error (potentialPrecision f) i) as [row|] eqn:Er.
  - assert (Hlen : List.length row = List.length (fac_neighbors f))
      by (apply Hc; eapply nth_error_In; eauto).
    destruct (nth_error row j) as [l|] eqn:El; [eauto|].
    apply nth_error_None in El. lia.
  - apply nth_error_None in Er. lia.
Qed.

Lemma multiply_in_range (f : GaussianFactor) (i : nat) :
  wellShaped f -> i < List.length (fac_neighbors f) ->
  exists e x, MathJS.multiply (potentialPrecision f) (potentialMean f) = Some e
              /\ MathJS.get1 e i = Some x /\ eta f i = x.
Proof.
  intros (Hr & Hc & Hm) Hi. unfold eta, MathJS.multiply.
  assert (E : forallb
                (fun row => Nat.eqb (List.length row)
                                    (List.length (potentialMean f)))
                (potentialPrecision f) = true).
  { apply forallb_forall. intros row Hrow. apply Nat.eqb_eq.
    rewrite Hm. now apply Hc. }
  rewrite E. unfold MathJS.get1.
  destruct (nth_error (map _ (potentialPrecision f)) i) as [x|] eqn:Ex.
  - eauto.
  - apply nth_error_None in Ex. rewrite length_map in Ex. lia.
Qed.

(** The loop with [continue] adds the terms of the indices other than
    [idx], in order. *)
Lemma precSum_fold (s : GaussianBeliefPropagation) (fid : nat)
  (f : GaussianFactor) (idx : nat) :
  wellShaped f -> idx < List.length (fac_neighbors f) ->
  forall js acc,
    (forall j, In j js -> j < List.length (fac_neighbors f)) ->
    fold_left
      (fun acc j =>
         match acc with
         | None => None
         | Some precSum =>
             if Nat.eqb j idx then Some precSum
             else
               match MathJS.get2 (potentialPrecision f) idx j with
               | Some l =>
                   Some (add precSum
                           (mul l
                              (entry (m_mean (messages s))
                                 (nth j (fac_neighbors f) 0) fid)))
               | None => None
               end
         end)
      js (Some acc)
    = Some (fold_left add
              (map (fun j => mul (Lambda f idx j) (incomingMean s fid f j))
                   (filter (fun j => negb (Nat.eqb j idx)) js))
              acc).
Proof.
  intros Hs Hi js. induction js as [|j t IH]; intros acc Hjs; simpl; auto.
  destruct (Nat.eqb j idx) eqn:E; simpl.
  - apply IH. intros j' Hj'. apply Hjs. now right.
  - destruct (@get2_in_range f idx j Hs Hi (Hjs j (or_introl eq_refl)))
      as (l & -> & <-).
    apply IH. intros j' Hj'. apply Hjs. now right.
Qed.

Lemma findIndex_from_bound (A : Type) (p : A -> bool) (l : list A) :
  forall a i, findIndex_from p a l = Some i -> a <= i < a + List.length l.
Proof.
  induction l as [|x t IH]; intros a i H; simpl in *; [discriminate|].
  destruct (p x).
  - inversion H; lia.
  - apply IH in H. lia.
Qed.

Lemma findIndex_from_found (A : Type) (p : A -> bool) (l : list A) :
  forall a i, findIndex_from p a l = Some i ->
    exists x, nth_error l (i - a) = Some x /\ p x = true.
Proof.
  induction l as [|x t IH]; intros a i H; simpl in *; [discriminate|].
  destruct (p x) eqn:E.
  - injection H as <-. rewrite Nat.sub_diag. exists x. split; [reflexivity|exact E].
  - pose proof (findIndex_from_bound _ _ _ H) as Hb.
    destruct (IH _ _ H) as (y & Hy & Py).
    replace (i - a) with (S (i - S a)) by lia. eauto.
Qed.

End FactorMessage.

(** The call [updateFactorToVariableMessage(factor, variable)] on a factor
    with an [n] by [n] precision matrix and a mean vector of length [n]
    writes the message of the specification into the next-message buffer. *)
Lemma factorUpdate_call
  (s : Gaussian.GaussianBeliefPropagation) (fid : nat)
  (f : Gaussian.GaussianFactor) (variable i : nat) :
  FactorMessageSpec.wellShaped f ->
  findIndex (fun v => Nat.eqb v variable) (Gaussian.fac_neighbors f) = Some i ->
  Gaussian.updateFactorToVariableMessage s fid f variable
  = Some (Gaussian.withNext s
            (Gaussian.setMessage (Gaussian.nextMessages s) fid variable
               (FactorMessageSpec.outMean s fid f i)
               (FactorMessageSpec.outPrecision f i))).
Proof.
  intros Hs Hidx.
  assert (Hi : i < List.length (Gaussian.fac_neighbors f)).
  { unfold findIndex in Hidx.
    apply FactorMessage.findIndex_from_bound in Hidx. lia. }
  unfold Gaussian.updateFactorToVariableMessage.
  destruct (@FactorMessage.multiply_in_range f i Hs Hi) as (e & x & -> & Hx & He).
  rewrite Hidx, Hx.
  destruct (@FactorMessage.get2_in_range f i i Hs Hi Hi) as (l & -> & Hl).
  unfold Gaussian.precSumLoop.
  rewrite (@FactorMessage.precSum_fold s fid f i Hs Hi)
    by (intros j Hj; apply in_seq in Hj; lia).
  unfold FactorMessageSpec.outMean, FactorMessageSpec.outPrecision,
    FactorMessageSpec.others, sum.
  rewrite Hl, He. reflexivity.
Qed.

(* ================================================================= *)
(** ** Lists of finite numbers *)

Section FiniteLists.

Open Scope R_scope.

Lemma fold_add_Fin (xs : list R) (a : R) :
  fold_left add (map Fin xs) (Fin a) = Fin (a + Rsum xs).
Proof.
  revert a; induction xs as [|x t IH]; intros a; simpl.
  - f_equal; lra.
  - rewrite IH. f_equal; lra.
Qed.

Lemma sum_Fin (xs : list R) : sum (map Fin xs) = Fin (Rsum xs).
Proof. unfold sum. rewrite fold_add_Fin. f_equal; lra. Qed.

Lemma div_Fin (x y : R) : y <> 0 -> div (Fin x) (Fin y) = Fin (x / y).
Proof.
  intros H. unfold div. destruct (Req_dec_T y 0); [contradiction | reflexivity].
Qed.

Lemma normalize_Fin (xs : list R) :
  Rsum xs <> 0 ->
  BeliefUtils.normalize (map Fin xs)
  = map Fin (map (fun x => x / Rsum xs) xs).
Proof.
  intros H. unfold BeliefUtils.normalize. rewrite sum_Fin.
  rewrite !map_map. apply map_ext. intros x. now apply div_Fin.
Qed.

Lemma Rsum_scale (c : R) (xs : list R) :
  Rsum (map (fun x => x / c) xs) = Rsum xs / c.
Proof.
  induction xs as [|x t IH]; simpl; [|rewrite IH]; unfold Rdiv; lra.
Qed.

Lemma map_div_one (xs : list R) : map (fun x => x / 1) xs = xs.
Proof.
  induction xs as [|x t IH]; simpl; auto. rewrite IH.
  replace (x / 1) with x by lra. reflexivity.
Qed.

Lemma blend_Fin (d x y : R) :
  blend (Fin d) (Fin x) (Fin y) = Fin (d * x + (1 - d) * y).
Proof. reflexivity. Qed.

(** The element-wise blend of [dampMessage] on two finite lists of the same
    length. *)
Lemma damped_Fin (d : R) (xs : list R) :
  forall (a : nat) (before ys : list R),
    List.length before = a -> List.length ys = List.length xs ->
    mapi_from
      (fun idx val =>
         add (mul (Fin d) val)
             (mul (sub (Fin 1) (Fin d))
                  (to_number (nth_error (map Fin (before ++ ys)) idx))))
      a (map Fin xs)
    = map Fin (Rblend d xs ys).
Proof.
  induction xs as [|x t IH]; intros a before [|y ys] Ha Hl; simpl in *;
    try discriminate; auto.
  f_equal.
  - rewrite map_app, nth_error_app2 by (rewrite length_map; lia).
    rewrite length_map, Ha, Nat.sub_diag. reflexivity.
  - replace (before ++ y :: ys) with ((before ++ [y]) ++ ys)
      by (rewrite <- app_assoc; reflexivity).
    apply IH; [rewrite length_app; simpl; lia | lia].
Qed.

Lemma dampMessage_Fin (d : R) (xs ys : list R) :
  List.length ys = List.length xs -> Rsum (Rblend d xs ys) <> 0 ->
  BeliefUtils.dampMessage (map Fin xs) (map Fin ys) (Fin d)
  = map Fin (map (fun x => x / Rsum (Rblend d xs ys)) (Rblend d xs ys)).
Proof.
  intros Hl Hs. unfold BeliefUtils.dampMessage, mapi.
  pose proof (@damped_Fin d xs 0 [] ys eq_refl Hl) as E.
  change ([] ++ ys) with ys in E.
  cbv zeta. rewrite E. now apply normalize_Fin.
Qed.

Lemma Rblend_one (xs ys : list R) :
  List.length ys = List.length xs -> Rblend 1 xs ys = xs.
Proof.
  revert ys; induction xs as [|x t IH]; intros [|y ys] H; simpl in *;
    try discriminate; auto.
  rewrite IH by lia. f_equal. lra.
Qed.

Lemma Rblend_zero (xs ys : list R) :
  List.length ys = List.length xs -> Rblend 0 xs ys = ys.
Proof.
  revert ys; induction xs as [|x t IH]; intros [|y ys] H; simpl in *;
    try discriminate; auto.
  rewrite IH by lia. f_equal. lra.
Qed.

Lemma Rsum_Rblend (d : R) (xs ys : list R) :
  List.length ys = List.length xs ->
  Rsum (Rblend d xs ys) = d * Rsum xs + (1 - d) * Rsum ys.
Proof.
  revert ys; induction xs as [|x t IH]; intros [|y ys] H; simpl in *;
    try discriminate; [lra|].
  rewrite IH by lia. lra.
Qed.

Lemma length_Rblend (d : R) (xs ys : list R) :
  List.length ys = List.length xs ->
  List.length (Rblend d xs ys) = List.length xs.
Proof.
  revert ys; induction xs as [|x t IH]; intros [|y ys] H; simpl in *;
    try discriminate; auto.
Qed.

End FiniteLists.

(* ================================================================= *)
(** ** Arrays of arrays *)

Section SetNthFacts.

Variable A : Type.

Lemma set_nth_beyond (i : nat) (v : A) (l : list A) :
  List.length l <= i -> set_nth i v l = l.
Proof.
  revert i; induction l as [|x t IH]; intros [|i] H; simpl in *; auto; try lia.
  f_equal. apply IH. lia.
Qed.

Lemma in_set_nth (i : nat) (v x : A) (l : list A) :
  In x (set_nth i v l) -> x = v \/ In x l.
Proof.
  revert i; induction l as [|y t IH]; intros [|i] H; simpl in *; auto.
  - destruct H; auto.
  - destruct H as [H|H]; auto. apply IH in H. tauto.
Qed.

End SetNthFacts.

Section MatrixFacts.

Variable A : Type.


Lemma mget_mset_same (d v : A) (m : list (list A)) (a b : nat) (n : nat) :
  shaped n m -> a < n -> b < n -> mget d (mset m a b v) a b = v.
Proof.
  intros [Hl Hr] Ha Hb. unfold mget, mset.
  rewrite nth_set_nth_same by lia.
  apply nth_set_nth_same.
  rewrite Forall_forall in Hr. rewrite (Hr (nth a m [])); auto.
  apply nth_In. lia.
Qed.

Lemma mget_mset_other (d v : A) (m : list (list A)) (a b a' b' : nat) :
  (a, b) <> (a', b') -> mget d (mset m a b v) a' b' = mget d m a' b'.
Proof.
  intros H. unfold mget, mset.
  destruct (Nat.eq_dec a a') as [<-|Ha].
  - destruct (Nat.lt_ge_cases a (List.length m)) as [Hlt|Hge].
    + rewrite nth_set_nth_same by exact Hlt.
      apply nth_set_nth_other. congruence.
    + rewrite (@set_nth_beyond _ a _ m Hge). reflexivity.
  - rewrite nth_set_nth_other by exact Ha. reflexivity.
Qed.


Lemma shaped_mset (n : nat) (m : list (list A)) (a b : nat) (v : A) :
  shaped n m -> shaped n (mset m a b v).
Proof.
  intros [Hl Hr]. unfold mset.
  destruct (Nat.lt_ge_cases a (List.length m)) as [Hlt|Hge].
  - split; [now rewrite length_set_nth|].
    rewrite Forall_forall in *. intros row Hin.
    apply in_set_nth in Hin. destruct Hin as [->|Hin]; auto.
    rewrite length_set_nth. apply Hr, nth_In, Hlt.
  - rewrite (@set_nth_beyond _ a _ m Hge). now split.
Qed.

End MatrixFacts.

(* ================================================================= *)
(** ** Damping *)

Module GaussianDamping.

Import Gaussian GaussianInv.

Lemma shaped_setMessage n m a b mu prec :
  shapedMessages n m -> shapedMessages n (setMessage m a b mu prec).
Proof.
  intros [Hm Hp]. split; simpl; now apply shaped_mset.
Qed.

Lemma messageAt_setMessage_same n m a b mu prec :
  shapedMessages n m -> a < n -> b < n ->
  messageAt (setMessage m a b mu prec) a b = (mu, prec).
Proof.
  intros [Hm Hp] Ha Hb. unfold messageAt, entry. simpl.
  now rewrite (@mget_mset_same _ NaN mu _ a b n Hm Ha Hb),
              (@mget_mset_same _ NaN prec _ a b n Hp Ha Hb).
Qed.

Lemma messageAt_setMessage_other m a b a' b' mu prec :
  (a, b) <> (a', b') ->
  messageAt (setMessage m a b mu prec) a' b' = messageAt m a' b'.
Proof.
  intros H. unfold messageAt, entry. simpl.
  now rewrite !mget_mset_other.
Qed.

Lemma dampAt_setMessage d old next i j :
  dampAt d old next i j
  = if negb (isNaN (fst (messageAt next i j)))
    then setMessage next i j
           (fst (dampPair d (messageAt old i j) (messageAt next i j)))
           (snd (dampPair d (messageAt old i j) (messageAt next i j)))
    else next.
Proof.
  unfold dampAt, dampPair, messageAt. simpl.
  destruct (negb (isNaN (entry (m_mean next) i j))); reflexivity.
Qed.

Lemma shaped_dampAt n d old next i j :
  shapedMessages n next -> shapedMessages n (dampAt d old next i j).
Proof.
  intros H. rewrite dampAt_setMessage.
  destruct (negb _); auto. now apply shaped_setMessage.
Qed.

Lemma messageAt_dampAt_same n d old next i j :
  shapedMessages n next -> i < n -> j < n ->
  messageAt (dampAt d old next i j) i j
  = dampPair d (messageAt old i j) (messageAt next i j).
Proof.
  intros H Hi Hj. rewrite dampAt_setMessage. unfold dampPair at 3.
  destruct (negb (isNaN (fst (messageAt next i j)))) eqn:E.
  - rewrite (@messageAt_setMessage_same n next i j _ _ H Hi Hj).
    unfold dampPair. rewrite E. reflexivity.
  - reflexivity.
Qed.

Lemma messageAt_dampAt_other d old next i j i' j' :
  (i, j) <> (i', j') ->
  messageAt (dampAt d old next i j) i' j' = messageAt next i' j'.
Proof.
  intros H. rewrite dampAt_setMessage.
  destruct (negb _); auto. now apply messageAt_setMessage_other.
Qed.

(** The inner loop, over the columns [js] of row [i]. *)
Lemma dampRow n d old i (Hi : i < n) :
  forall js next,
    NoDup js -> (forall j, In j js -> j < n) -> shapedMessages n next ->
    let r := fold_left (fun next j => dampAt d old next i j) js next in
    shapedMessages n r /\
    forall i' j',
      messageAt r i' j'
      = if Nat.eqb i' i && existsb (Nat.eqb j') js
        then dampPair d (messageAt old i' j') (messageAt next i' j')
        else messageAt next i' j'.
Proof.
  induction js as [|j t IH]; intros next Hnd Hjs Hs; simpl.
  - split; auto. intros i' j'. now rewrite andb_false_r.
  - inversion Hnd as [|? ? Hnot Hnd']; subst.
    assert (Hj : j < n) by (apply Hjs; now left).
    destruct (IH (dampAt d old next i j) Hnd'
                 (fun j' H => Hjs j' (or_intror H))
                 (@shaped_dampAt n d old next i j Hs)) as [Hs' Hr].
    split; auto. intros i' j'. rewrite Hr.
    destruct (Nat.eqb i' i) eqn:Ei; simpl.
    + apply Nat.eqb_eq in Ei. subst i'.
      destruct (Nat.eqb j' j) eqn:Ej; simpl.
      * apply Nat.eqb_eq in Ej. subst j'.
        assert (E : existsb (Nat.eqb j) t = false).
        { destruct (existsb (Nat.eqb j) t) eqn:E; auto.
          apply existsb_exists in E. destruct E as [x [Hx Hjx]].
          apply Nat.eqb_eq in Hjx. subst. contradiction. }
        rewrite E. now apply (@messageAt_dampAt_same n).
      * apply Nat.eqb_neq in Ej.
        rewrite messageAt_dampAt_other by congruence. reflexivity.
    + apply Nat.eqb_neq in Ei.
      rewrite messageAt_dampAt_other by congruence. reflexivity.
Qed.

(** The two nested loops, over the rows [is] and the columns [js]. *)
Lemma dampRows n d old js :
  NoDup js -> (forall j, In j js -> j < n) ->
  forall rows next,
    NoDup rows -> (forall i, In i rows -> i < n) -> shapedMessages n next ->
    let r :=
      fold_left
        (fun next i => fold_left (fun next j => dampAt d old next i j) js next)
        rows next in
    shapedMessages n r /\
    forall i' j',
      messageAt r i' j'
      = if existsb (Nat.eqb i') rows && existsb (Nat.eqb j') js
        then dampPair d (messageAt old i' j') (messageAt next i' j')
        else messageAt next i' j'.
Proof.
  intros Hndj Hjs. induction rows as [|i t IH]; intros next Hnd Hrows Hs; simpl.
  - split; auto.
  - inversion Hnd as [|? ? Hnot Hnd']; subst.
    assert (Hi : i < n) by (apply Hrows; now left).
    destruct (@dampRow n d old i Hi js next Hndj Hjs Hs) as [Hs1 Hr1].
    destruct (IH _ Hnd' (fun i' H => Hrows i' (or_intror H)) Hs1) as [Hs' Hr].
    split; auto. intros i' j'. rewrite Hr, Hr1.
    destruct (Nat.eqb i' i) eqn:Ei; simpl; auto.
    apply Nat.eqb_eq in Ei. subst i'.
    assert (E : existsb (Nat.eqb i) t = false).
    { destruct (existsb (Nat.eqb i) t) eqn:E; auto.
      apply existsb_exists in E. destruct E as [x [Hx Hix]].
      apply Nat.eqb_eq in Hix. subst. contradiction. }
    rewrite E. reflexivity.
Qed.

Lemma existsb_seq n i : i < n -> existsb (Nat.eqb i) (seq 0 n) = true.
Proof.
  intros H. apply existsb_exists. exists i. split.
  - apply in_seq. lia.
  - apply Nat.eqb_refl.
Qed.

(** Every message of the next buffer is blended with the old message at
    the same place. *)
Lemma applyDamping_messageAt s i j :
  shapedMessages (List.length (nodes (graph s))) (nextMessages s) ->
  i < List.length (nodes (graph s)) -> j < List.length (nodes (graph s)) ->
  messageAt (nextMessages (applyDamping s)) i j
  = dampPair (dampingFactor s) (messageAt (messages s) i j)
             (messageAt (nextMessages s) i j).
Proof.
  intros Hs Hi Hj. unfold applyDamping. simpl.
  set (n := List.length (nodes (graph s))) in *.
  destruct (@dampRows n (dampingFactor s) (messages s) (seq 0 n)
              (seq_NoDup n 0) (fun j H => proj2 (proj1 (in_seq n 0 j) H))
              (seq 0 n) (nextMessages s)
              (seq_NoDup n 0) (fun j H => proj2 (proj1 (in_seq n 0 j) H)) Hs)
    as [_ Hr].
  rewrite Hr, !existsb_seq by assumption. reflexivity.
Qed.

Lemma shaped_updateVariableToFactorMessage n s v f s' :
  shapedMessages n (nextMessages s) ->
  updateVariableToFactorMessage s v f = Some s' ->
  shapedMessages n (nextMessages s').
Proof.
  intros H. unfold updateVariableToFactorMessage.
  destruct (map_get _ _);
    [intros E; inversion E; subst; simpl; now apply shaped_setMessage|].
  destruct (reduce1 _ _); [|discriminate].
  destruct (reduce1 _ _); [|discriminate].
  intros E; inversion E; subst; simpl; now apply shaped_setMessage.
Qed.

Lemma shaped_updateFactorToVariableMessage n s fid f v s' :
  shapedMessages n (nextMessages s) ->
  updateFactorToVariableMessage s fid f v = Some s' ->
  shapedMessages n (nextMessages s').
Proof.
  intros H. unfold updateFactorToVariableMessage.
  destruct (MathJS.multiply _ _); [|discriminate].
  destruct (findIndex _ _); [|discriminate].
  destruct (precSumLoop _ _ _ _); [|discriminate].
  destruct (MathJS.get2 _ _ _); [|discriminate].
  destruct (MathJS.get1 _ _); [|discriminate].
  intros E; inversion E; subst; simpl; now apply shaped_setMessage.
Qed.

Lemma shaped_variablePhase n s :
  shapedMessages n (nextMessages s) -> shapedNext n (variablePhase s).
Proof.
  intros H. unfold variablePhase.
  apply (@fold_left_preserves _ _ _ (shapedNext n)); [|exact H].
  intros a [k [v|f]] Ha; simpl; auto.
  apply (@fold_left_preserves _ _ _ (shapedNext n)); auto.
  intros r f Hr. unfold shapedNext.
  apply GaussianFrame.andThen_preserves; auto.
  intros; eapply shaped_updateVariableToFactorMessage; eauto.
Qed.

Lemma shaped_factorPhase n r :
  shapedNext n r -> shapedNext n (factorPhase r).
Proof.
  intros H. unfold factorPhase.
  apply (@fold_left_preserves _ _ _ (shapedNext n)); [|exact H].
  intros a [k [v|f]] Ha; simpl; auto.
  apply (@fold_left_preserves _ _ _ (shapedNext n)); auto.
  intros r' x Hr. unfold shapedNext.
  apply GaussianFrame.andThen_preserves; auto.
  intros; eapply shaped_updateFactorToVariableMessage; eauto.
Qed.

(** The messages after a sweep: each is the blend of the message before the
    sweep, weighing the damping factor, and the message the sweep computed,
    weighing the rest. *)
Lemma updateAllMessages_blend s raw i j :
  shapedMessages (List.length (nodes (graph s))) (nextMessages s) ->
  factorPhase (variablePhase s) = Done raw ->
  i < List.length (nodes (graph s)) -> j < List.length (nodes (graph s)) ->
  exists s', updateAllMessages s = Done s' /\
    messageAt (messages s') i j
    = dampPair (dampingFactor s) (messageAt (messages s) i j)
               (messageAt (nextMessages raw) i j).
Proof.
  intros Hs Hraw Hi Hj. unfold updateAllMessages. rewrite Hraw.
  eexists; split; [reflexivity|].
  change (messages (swapMessages (applyDamping raw)))
    with (nextMessages (applyDamping raw)).
  pose proof (@shaped_factorPhase _ _ (@shaped_variablePhase _ s Hs)) as Hs'.
  rewrite Hraw in Hs'. unfold shapedNext in Hs'. simpl in Hs'.
  destruct (GaussianFrame.gaussian_factorPhase_frame (variablePhase s))
    as (G1 & M1 & D1 & _).
  destruct (GaussianFrame.gaussian_variablePhase_frame s) as (G0 & M0 & D0 & _).
  rewrite Hraw in G1, M1, D1. simpl in G1, M1, D1.
  assert (G : graph raw = graph s) by congruence.
  assert (M : messages raw = messages s) by congruence.
  assert (D : dampingFactor raw = dampingFactor s) by congruence.
  rewrite <- G in Hs', Hi, Hj.
  rewrite (@applyDamping_messageAt raw i j Hs' Hi Hj), M, D. reflexivity.
Qed.

End GaussianDamping.

(* ================================================================= *)
(** ** The damping loop of the Gaussian sweep at an example *)

Lemma clampedGaussian_raw :
  exists raw,
    Gaussian.factorPhase (Gaussian.variablePhase clampedGaussian)
    = Gaussian.Done raw /\
    messageAt (Gaussian.nextMessages raw) 1 0 = (Fin 3, Fin 2).
Proof.
  evaluate. eexists. split; [reflexivity|].
  cbv -[Rplus Rmult Rminus Rdiv Rinv Ropp IZR].
  apply f_equal2; [apply f_equal; lra | reflexivity].
Qed.

Lemma clampedGaussian_shaped :
  shapedMessages
    (List.length (Gaussian.nodes (Gaussian.graph clampedGaussian)))
    (Gaussian.nextMessages clampedGaussian).
Proof.
  evaluate. split; split; try reflexivity; repeat constructor.
Qed.

Lemma clampedGaussian_damping : Gaussian.dampingFactor clampedGaussian = Fin 1.
Proof. evaluate. reflexivity. Qed.

Lemma clampedGaussian_old :
  messageAt (Gaussian.messages clampedGaussian) 1 0 = (Fin 0, Fin 0).
Proof. evaluate. reflexivity. Qed.

Lemma clampedGaussian_swept :
  exists s',
    Gaussian.updateAllMessages clampedGaussian = Gaussian.Done s' /\
    messageAt (Gaussian.messages s') 1 0 = (Fin 0, Fin 0).
Proof.
  destruct clampedGaussian_raw as (raw & Eraw & Hraw).
  assert (H1 : 1 < List.length (Gaussian.nodes (Gaussian.graph clampedGaussian)))
    by (evaluate; lia).
  assert (H0 : 0 < List.length (Gaussian.nodes (Gaussian.graph clampedGaussian)))
    by lia.
  destruct (@GaussianDamping.updateAllMessages_blend clampedGaussian raw 1 0
              clampedGaussian_shaped Eraw H1 H0) as (s' & Es & Hm).
  exists s'. split; [exact Es|].
  rewrite Hm, Hraw, clampedGaussian_damping, clampedGaussian_old.
  unfold dampPair, blend. simpl.
  apply f_equal2; apply f_equal; lra.
Qed.

(* ================================================================= *)
(** ** Sums, maxima and the two normalizations *)

Section Normalizations.

Open Scope R_scope.

Lemma expval_exp (a : num) : expval (Num.exp a).
Proof.
  destruct a; simpl; unfold expval; auto.
  - right; right. eexists; split; eauto. left. apply exp_pos.
  - right; right. exists 0; split; auto; lra.
Qed.

Lemma Rsum_nonneg (rs : list R) : Forall (fun r => 0 <= r) rs -> 0 <= Rsum rs.
Proof.
  induction 1; simpl; lra.
Qed.

Lemma Rsum_bounds (rs : list R) (r : R) :
  Forall (fun r => 0 <= r) rs -> In r rs -> r <= Rsum rs.
Proof.
  induction 1 as [|x t Hx Ht IH]; intros Hin; simpl in *; [tauto|].
  pose proof (Rsum_nonneg Ht).
  destruct Hin as [->|Hin]; [lra|]. specialize (IH Hin). lra.
Qed.

Lemma fold_add_NaN (l : list num) : fold_left add l NaN = NaN.
Proof. induction l; simpl; auto. Qed.

Lemma fold_add_PInf (l : list num) :
  Forall expval l -> fold_left add l PInf = NaN \/ fold_left add l PInf = PInf.
Proof.
  induction 1 as [|y t Hy Ht IH]; simpl; auto.
  destruct Hy as [->|[->|(r & -> & Hr)]]; simpl; auto.
  left. apply fold_add_NaN.
Qed.

(** The sum of values of [Math.exp] is NaN, or infinite, or the finite sum
    of finite terms. *)
Lemma fold_add_expvals (ys : list num) :
  Forall expval ys ->
  forall a, 0 <= a ->
    fold_left add ys (Fin a) = NaN \/
    fold_left add ys (Fin a) = PInf \/
    exists rs, ys = map Fin rs /\ Forall (fun r => 0 <= r) rs /\
               fold_left add ys (Fin a) = Fin (a + Rsum rs).
Proof.
  induction 1 as [|y t Hy Ht IH]; intros a Ha; simpl.
  - right; right. exists []. simpl. repeat split; auto. f_equal; lra.
  - destruct Hy as [->|[->|(r & -> & Hr)]].
    + left. apply fold_add_NaN.
    + simpl. destruct (fold_add_PInf Ht) as [E|E]; rewrite E; auto.
    + simpl. destruct (IH (a + r)) as [E|[E|(rs & -> & Hrs & E)]];
        try lra; auto.
      right; right. exists (r :: rs). simpl. repeat split; auto.
      rewrite E. f_equal; lra.
Qed.

Lemma okmsg_div (y s : num) (rs : list R) :
  expval y ->
  s = NaN \/ s = PInf \/
    (exists r, y = Fin r /\ 0 <= r <= Rsum rs) /\ s = Fin (Rsum rs) ->
  okmsg (div y s).
Proof.
  intros Hy [->|[->|[(r & -> & Hr) ->]]].
  - left. destruct y; reflexivity.
  - destruct Hy as [->|[->|(r & -> & Hr)]]; simpl; unfold okmsg; auto.
    right. exists 0. split; auto; lra.
  - unfold div. destruct (Req_dec_T (Rsum rs) 0) as [E|E].
    + left. assert (r = 0) by lra. subst. unfold sgn.
      destruct (Rlt_dec 0 0); [lra|]. reflexivity.
    + right. eexists; split; eauto.
      apply Rmult_le_pos; [lra|]. left. apply Rinv_0_lt_compat. lra.
Qed.

(** [normalize] after [Math.exp]: every component is NaN or a finite
    number that is not negative. *)
Lemma normalize_exp_ok (l : list num) :
  Forall okmsg (BeliefUtils.normalize (map Num.exp l)).
Proof.
  unfold BeliefUtils.normalize, sum.
  assert (He : Forall expval (map Num.exp l)).
  { apply Forall_forall. intros y Hy. apply in_map_iff in Hy.
    destruct Hy as [x [<- _]]. apply expval_exp. }
  apply Forall_forall. intros z Hz. apply in_map_iff in Hz.
  destruct Hz as [y [<- Hy]].
  destruct (fold_add_expvals He (Rle_refl 0)) as [E|[E|(rs & Ers & Hrs & E)]];
    rewrite E.
  - apply (@okmsg_div y NaN []); auto.
    rewrite Forall_forall in He. auto.
  - apply (@okmsg_div y PInf []); auto.
    rewrite Forall_forall in He. auto.
  - replace (0 + Rsum rs) with (Rsum rs) by lra.
    rewrite Forall_forall in He.
    apply (@okmsg_div y _ rs); auto.
    right; right. split; auto.
    rewrite Ers in Hy. apply in_map_iff in Hy. destruct Hy as [r [<- Hr]].
    exists r. split; auto. split.
    + rewrite Forall_forall in Hrs. auto.
    + now apply Rsum_bounds.
Qed.

Lemma fold_max2_Fin (l : list num) (a : R) :
  forall acc, fold_left max2 l acc = Fin a ->
    below a acc /\ Forall (below a) l /\ (acc = Fin a \/ In (Fin a) l).
Proof.
  induction l as [|x t IH]; intros acc H; simpl in *.
  - subst. repeat split; auto. right. exists a. split; auto; lra.
  - destruct (IH _ H) as (Hb & Ht & Hin).
    assert (Hx : below a acc /\ below a x /\
                 (max2 acc x = acc \/ max2 acc x = x)).
    { destruct Hb as [E|(b & E & Hb)].
      - destruct acc, x; simpl in E; try discriminate;
          try (destruct (Rlt_dec _ _); discriminate);
          unfold below; simpl; auto.
      - destruct acc as [c| | |], x as [d| | |]; simpl in E; try discriminate;
          unfold below; simpl;
          try (destruct (Rlt_dec c d)); inversion E; subst;
          repeat split; auto;
          try (right; eexists; split; [reflexivity | lra]). }
    destruct Hx as (Ha & Hx & Hm). repeat split; auto.
    destruct Hin as [Hin|Hin]; auto.
    destruct Hm as [Hm|Hm]; rewrite Hm in Hin; auto.
Qed.

Lemma max_Fin (l : list num) (a : R) :
  Num.max l = Fin a -> Forall (below a) l /\ In (Fin a) l.
Proof.
  intros H. destruct (@fold_max2_Fin l a NInf H) as (_ & Ht & [E|Hin]); auto.
  discriminate.
Qed.

Lemma max_PInf_or_NaN (l : list num) :
  In PInf l -> Num.max l = PInf \/ Num.max l = NaN.
Proof.
  intros Hin. destruct (Num.max l) as [a| | |] eqn:E; auto.
  - apply max_Fin in E. destruct E as [Hb _].
    rewrite Forall_forall in Hb. destruct (Hb _ Hin) as [H|(b & H & _)];
      discriminate.
  - apply max_NInf_iff in E. rewrite Forall_forall in E.
    specialize (E _ Hin). discriminate.
Qed.

(** The terms [exp(v - max)] for a finite maximum. *)
Lemma shifted_exp_terms (l : list num) (a : R) :
  Forall (below a) l ->
  exists rs, map (fun v => Num.exp (sub v (Fin a))) l = map Fin rs /\
             Forall (fun r => 0 <= r) rs /\
             (In (Fin a) l -> In 1 rs).
Proof.
  induction 1 as [|v t Hv Ht (rs & E & Hrs & H1)]; simpl.
  - exists []. simpl. repeat split; auto.
  - destruct Hv as [->|(b & -> & Hb)].
    + exists (0 :: rs). simpl. rewrite E. repeat split; auto.
      * constructor; auto; lra.
      * intros [H|H]; [discriminate | auto].
    + exists (Rtrigo_def.exp (b + - a) :: rs). simpl. rewrite E.
      repeat split; auto.
      * constructor; auto. left. apply exp_pos.
      * intros [H|H]; auto. left. inversion H; subst.
        replace (a + - a) with 0 by lra. apply exp_0.
Qed.

Lemma logSumExp_not_NInf (l : list num) : BeliefUtils.logSumExp l <> NInf.
Proof.
  unfold BeliefUtils.logSumExp.
  destruct (Nat.eqb (List.length l) 0); [discriminate|].
  destruct (Num.eqb (Num.max l) NInf) eqn:E; [discriminate|].
  cbv zeta. rewrite fold_add_map.
  destruct (Num.max l) as [a| | |] eqn:M; simpl in E; try discriminate.
  - destruct (@max_Fin l a M) as [Hb Hin].
    destruct (shifted_exp_terms Hb) as (rs & Ers & Hrs & H1).
    rewrite Ers, fold_add_Fin.
    assert (Hpos : 0 < 0 + Rsum rs).
    { pose proof (@Rsum_bounds rs 1 Hrs (H1 Hin)). lra. }
    unfold Num.log. destruct (Rlt_dec (0 + Rsum rs) 0); [lra|].
    destruct (Req_dec_T (0 + Rsum rs) 0); [lra|]. discriminate.
  - destruct (Num.log _); discriminate.
Qed.

Lemma logSumExp_with_PInf (l : list num) :
  In PInf l ->
  BeliefUtils.logSumExp l = NaN \/ BeliefUtils.logSumExp l = PInf.
Proof.
  intros Hin. unfold BeliefUtils.logSumExp.
  destruct l as [|x t]; [destruct Hin|]. simpl List.length. simpl Nat.eqb.
  destruct (@max_PInf_or_NaN _ Hin) as [E|E]; rewrite E; simpl Num.eqb;
    cbv iota zeta.
  - destruct (Num.log _); simpl; auto.
  - left. reflexivity.
Qed.

(** [exp(m - logZ)] for the [logZ] of the whole list: every component is
    NaN or a finite number that is not negative. *)
Lemma softmax_ok (l : list num) :
  Forall okmsg
    (map (fun m => Num.exp (sub m (BeliefUtils.logSumExp l))) l).
Proof.
  apply Forall_forall. intros z Hz. apply in_map_iff in Hz.
  destruct Hz as [m [<- Hm]].
  pose proof (logSumExp_not_NInf l) as HZ.
  destruct m as [b| | |].
  - destruct (BeliefUtils.logSumExp l) as [c| | |]; simpl; unfold okmsg;
      auto; try congruence.
    + right. eexists; split; eauto. left. apply exp_pos.
    + right. exists 0. split; auto; lra.
  - destruct (@logSumExp_with_PInf l Hm) as [E|E]; rewrite E; simpl;
      unfold okmsg; auto.
  - destruct (BeliefUtils.logSumExp l) as [c| | |]; simpl; unfold okmsg;
      auto; try congruence; right; exists 0; split; auto; lra.
  - left. reflexivity.
Qed.

End Normalizations.

(* ================================================================= *)
(** ** The log-belief follows the belief *)

Lemma Forall_set_nth (A : Type) (P : A -> Prop) (k : nat) (x : A)
  (l : list A) :
  Forall P l -> P x -> Forall P (set_nth k x l).
Proof.
  intros Hl Hx. apply Forall_forall. intros y Hy.
  apply in_set_nth in Hy. destruct Hy as [->|Hy]; auto.
  rewrite Forall_forall in Hl. auto.
Qed.

Lemma log_one : Num.log (Fin 1) = Fin 0.
Proof.
  unfold Num.log. destruct (Rlt_dec 1 0); [lra|].
  destruct (Req_dec_T 1 0); [lra|]. now rewrite ln_1.
Qed.

Lemma log_zero : Num.log (Fin 0) = NInf.
Proof.
  unfold Num.log. destruct (Rlt_dec 0 0); [lra|].
  destruct (Req_dec_T 0 0); [reflexivity | lra].
Qed.

Lemma log_NInf_iff (x : num) : Num.log x = NInf <-> x = Fin 0.
Proof.
  split.
  - destruct x as [r| | |]; simpl; try discriminate.
    destruct (Rlt_dec r 0); [discriminate|].
    destruct (Req_dec_T r 0); [now subst | discriminate].
  - intros ->. apply log_zero.
Qed.

Lemma exp_log (r : R) : (0 <= r)%R -> Num.exp (Num.log (Fin r)) = Fin r.
Proof.
  intros H. unfold Num.log. destruct (Rlt_dec r 0); [lra|].
  destruct (Req_dec_T r 0); simpl; [now subst|].
  f_equal. apply exp_ln. lra.
Qed.

Module DiscreteLog.

Import Discrete DiscreteInv.

Lemma initNode_consistent n : logConsistent (initNode n).
Proof.
  destruct n as [v|f]; simpl; auto. now rewrite map_repeat.
Qed.

Lemma constructor_logInv g damping s : constructor g damping = Some s -> logInv s.
Proof.
  unfold constructor, initializeMessages. destruct (fold_left _ _ _); [|discriminate].
  intros E; inversion E; subst. unfold logInv. simpl.
  apply Forall_forall. intros n Hn. apply in_map_iff in Hn.
  destruct Hn as [n0 [<- _]]. apply initNode_consistent.
Qed.

Lemma setEvidence_logInv nodeId value s : logInv s -> logInv (setEvidence nodeId value s).
Proof.
  intros H. unfold setEvidence.
  destruct (findNode s nodeId) as [[k [v|f]]|]; auto.
  unfold logInv. simpl. apply Forall_set_nth; auto. simpl.
  rewrite !map_map. apply map_ext. intros x.
  destruct (Num.eqb x value); cbv beta iota.
  - rewrite log_one. unfold Num.eqb.
    destruct (Req_dec_T 1 1); [reflexivity | lra].
  - rewrite log_zero. unfold Num.eqb.
    destruct (Req_dec_T 0 1); [lra | reflexivity].
Qed.

Lemma updateBelief_logInv s k : logInv s -> logInv (updateBelief s k).
Proof.
  intros H. unfold updateBelief.
  destruct (nth_error _ _) as [[v|f]|]; auto.
  destruct (map_has _ _); auto.
  unfold logInv. simpl. apply Forall_set_nth; auto. reflexivity.
Qed.

Lemma sweep_logInv s : logInv s -> logInv (sweep s).
Proof.
  intros H. unfold sweep, updateBeliefs.
  apply fold_left_preserves.
  - intros; now apply updateBelief_logInv.
  - unfold logInv. destruct (DiscreteFrame.updateAllMessages_frame s) as (G & _).
    now rewrite G.
Qed.

Lemma iterate_logInv maxIterations tolerance remaining :
  forall i s, logInv s -> logInv (final (iterate maxIterations tolerance remaining i s)).
Proof.
  induction remaining as [|r IH]; intros i s H; cbn [iterate final]; auto.
  destruct (lt _ _); cbn [final].
  - now apply sweep_logInv.
  - apply IH. now apply sweep_logInv.
Qed.

Lemma reachable_logInv allowed g damping s :
  reachable allowed g damping s -> logInv s.
Proof.
  induction 1.
  - eapply constructor_logInv; eauto.
  - now apply setEvidence_logInv.
  - now apply iterate_logInv.
Qed.

Lemma findNode_In s nodeId k n :
  findNode s nodeId = Some (k, n) -> In n (nodes (graph s)).
Proof.
  unfold findNode, indexed. intros H.
  apply find_some_in_combine in H. tauto.
Qed.

End DiscreteLog.

(** C8.  In every engine reached from the constructor by [setEvidence] and
    [runIterations] calls, the vector returned by [getLogBeliefs] is the
    logarithm of the one returned by [getBeliefs], component by component;
    a component is [-Infinity] exactly where the belief is [0]; and the
    exponential of the log-belief gives the belief back wherever the belief
    is a finite number that is not negative. *)
Theorem log_belief_consistent
  (g : FactorGraph Discrete.BayesNodeInput) (damping : option num)
  (s : Discrete.BeliefPropagation) (nodeId : string) (belief : list num) :
  reachable anyEvidence g damping s ->
  Discrete.getBeliefs nodeId s = Returned belief ->
  Discrete.getLogBeliefs nodeId s = Returned (map Num.log belief) /\
  (forall i, nth_error (map Num.log belief) i = Some NInf <->
             nth_error belief i = Some (Fin 0)) /\
  (forall i r, nth_error belief i = Some (Fin r) -> (0 <= r)%R ->
               option_map Num.exp (nth_error (map Num.log belief) i)
               = Some (Fin r)).
Proof.
  intros Hr Hb. split; [|split].
  - apply DiscreteLog.reachable_logInv in Hr.
    unfold Discrete.getBeliefs, Discrete.getLogBeliefs in *.
    destruct (Discrete.findNode s nodeId) as [[k [v|f]]|] eqn:E;
      try discriminate.
    inversion Hb; subst.
    apply DiscreteLog.findNode_In in E.
    unfold DiscreteInv.logInv in Hr. rewrite Forall_forall in Hr.
    specialize (Hr _ E). simpl in Hr. now rewrite Hr.
  - intros i. rewrite nth_error_map.
    destruct (nth_error belief i) as [x|]; simpl; [|split; discriminate].
    split; intros H; inversion H as [H'].
    + apply log_NInf_iff in H'. now subst.
    + now rewrite log_zero.
  - intros i r Hi H0. rewrite nth_error_map, Hi.
    cbn [option_map]. now rewrite exp_log.
Qed.

(* ================================================================= *)
(** ** Beliefs are probability distributions *)

Section Distributions.

Open Scope R_scope.

Lemma distribution_withinTolerance (l : list num) :
  distribution l -> withinTolerance l.
Proof.
  intros (rs & -> & Hrs & Hs). split.
  - intros x Hx. apply in_map_iff in Hx. destruct Hx as [r [<- Hr]].
    exists r. split; auto. rewrite Forall_forall in Hrs. auto.
  - exists (Rsum rs). split; [apply sum_Fin|].
    rewrite Hs. replace (1 - 1) with 0 by lra. rewrite Rabs_R0. lra.
Qed.

Lemma Rsum_repeat (u : R) (n : nat) : Rsum (repeat u n) = INR n * u.
Proof.
  induction n as [|n IH]; [simpl; lra|].
  cbn [repeat Rsum]. rewrite IH, S_INR. lra.
Qed.

Lemma uniform_Fin (n : nat) :
  (0 < n)%nat -> div (Fin 1) (of_nat n) = Fin (1 / INR n).
Proof.
  intros H. unfold of_nat. apply div_Fin. apply not_0_INR. lia.
Qed.

Lemma uniform_distribution (n : nat) :
  (0 < n)%nat -> distribution (repeat (div (Fin 1) (of_nat n)) n).
Proof.
  intros H. rewrite uniform_Fin by exact H.
  exists (repeat (1 / INR n) n). split; [now rewrite map_repeat|].
  assert (Hn : 0 < INR n) by (apply lt_0_INR; exact H).
  split.
  - apply Forall_forall. intros r Hr. apply repeat_spec in Hr. subst.
    apply Rlt_le, Rdiv_lt_0_compat; lra.
  - rewrite Rsum_repeat. field. lra.
Qed.

Lemma Rsum_indicator (A : Type) (p : A -> bool) (l : list A) :
  Rsum (map (fun x => if p x then 1 else 0) l) = INR (List.length (filter p l)).
Proof.
  induction l as [|x t IH]; [reflexivity|].
  cbn [map Rsum filter]. rewrite IH.
  destruct (p x); [cbn [List.length]; rewrite S_INR|]; lra.
Qed.

Lemma oneHot_distribution (value : num) (l : list num) :
  List.length (filter (fun x => Num.eqb x value) l) = 1%nat ->
  distribution (map (fun x => if Num.eqb x value then Fin 1 else Fin 0) l).
Proof.
  intros H. exists (map (fun x => if Num.eqb x value then 1 else 0) l).
  split; [|split].
  - rewrite map_map. apply map_ext. intros x. now destruct (Num.eqb x value).
  - apply Forall_forall. intros r Hr. apply in_map_iff in Hr.
    destruct Hr as [x [<- _]]. destruct (Num.eqb x value); lra.
  - rewrite Rsum_indicator, H. simpl. lra.
Qed.

Lemma Rsum_positive (xs : list R) :
  xs <> [] -> Forall (fun r => 0 < r) xs -> 0 < Rsum xs.
Proof.
  intros Hne H. destruct H as [|x t Hx Ht]; [congruence|]. simpl.
  assert (0 <= Rsum t).
  { apply Rsum_nonneg. eapply Forall_impl; [|exact Ht]. intros; simpl in *; lra. }
  lra.
Qed.

(** Normalizing positive numbers gives a distribution. *)
Lemma normalized_distribution (xs : list R) :
  xs <> [] -> Forall (fun r => 0 < r) xs ->
  Forall (fun r => 0 <= r) (map (fun x => x / Rsum xs) xs) /\
  Rsum (map (fun x => x / Rsum xs) xs) = 1.
Proof.
  intros Hne Hpos. pose proof (Rsum_positive Hne Hpos) as Hs. split.
  - apply Forall_forall. intros r Hr. apply in_map_iff in Hr.
    destruct Hr as [x [<- Hx]]. rewrite Forall_forall in Hpos.
    specialize (Hpos x Hx). apply Rlt_le, Rdiv_lt_0_compat; lra.
  - rewrite Rsum_scale. field. lra.
Qed.

Lemma Rblend_nonneg (d : R) (xs ys : list R) :
  0 <= d <= 1 -> Forall (fun r => 0 <= r) xs -> Forall (fun r => 0 <= r) ys ->
  Forall (fun r => 0 <= r) (Rblend d xs ys).
Proof.
  intros Hd Hx. revert ys. induction Hx as [|x t Hx0 Ht IH];
    intros ys Hy; [constructor|].
  destruct Hy as [|y ys' Hy0 Hys]; simpl; constructor; auto.
  assert (0 <= d * x) by (apply Rmult_le_pos; lra).
  assert (0 <= (1 - d) * y) by (apply Rmult_le_pos; lra).
  lra.
Qed.

(** Damping a distribution against a distribution of the same length, with
    a factor between 0 and 1, gives a distribution. *)
Lemma dampMessage_distribution (d : R) (xs ys : list R) :
  0 <= d <= 1 -> List.length ys = List.length xs ->
  Forall (fun r => 0 <= r) xs -> Rsum xs = 1 ->
  Forall (fun r => 0 <= r) ys -> Rsum ys = 1 ->
  distribution (BeliefUtils.dampMessage (map Fin xs) (map Fin ys) (Fin d)) /\
  List.length (BeliefUtils.dampMessage (map Fin xs) (map Fin ys) (Fin d))
  = List.length xs.
Proof.
  intros Hd Hl Hx Sx Hy Sy.
  assert (E : Rsum (Rblend d xs ys) = 1)
    by (rewrite Rsum_Rblend by exact Hl; rewrite Sx, Sy; lra).
  rewrite dampMessage_Fin by (try exact Hl; rewrite E; lra).
  rewrite E, map_div_one. split.
  - exists (Rblend d xs ys). repeat split; auto. now apply Rblend_nonneg.
  - now rewrite length_map, length_Rblend.
Qed.

End Distributions.

Module DiscreteValid.

Import Discrete DiscreteInv.

Lemma okMatrix_mset m a b v :
  okMatrix m -> Forall okmsg v -> okMatrix (mset m a b v).
Proof.
  intros Hm Hv. unfold mset, okMatrix.
  apply Forall_set_nth; auto. apply Forall_set_nth; auto.
  destruct (nth_in_or_default a m []) as [H|H].
  - unfold okMatrix in Hm. rewrite Forall_forall in Hm. auto.
  - rewrite H. constructor.
Qed.

Lemma okMatrix_mget m a b : okMatrix m -> Forall okmsg (mget [] m a b).
Proof.
  intros Hm. unfold mget.
  assert (Hrow : Forall (Forall okmsg) (nth a m [])).
  { destruct (nth_in_or_default a m []) as [H|H].
    - unfold okMatrix in Hm. rewrite Forall_forall in Hm. auto.
    - rewrite H. constructor. }
  destruct (nth_in_or_default b (nth a m []) []) as [H|H].
  - rewrite Forall_forall in Hrow. auto.
  - rewrite H. constructor.
Qed.

Lemma okMatrix_empty n : okMatrix (emptyMessages n).
Proof.
  unfold okMatrix, emptyMessages. apply Forall_forall. intros row Hrow.
  apply repeat_spec in Hrow. subst. apply Forall_forall. intros l Hl.
  apply repeat_spec in Hl. subst. constructor.
Qed.

Lemma okmsg_Fin r : (0 <= r)%R -> okmsg (Fin r).
Proof. intros H. right. eauto. Qed.

Lemma distribution_okmsg l : distribution l -> Forall okmsg l.
Proof.
  intros (rs & -> & Hrs & _). apply Forall_forall. intros x Hx.
  apply in_map_iff in Hx. destruct Hx as [r [<- Hr]].
  rewrite Forall_forall in Hrs. apply okmsg_Fin. auto.
Qed.

(** *** The constructor *)

Lemma hasDomain_push to n : hasDomain n -> hasDomain (push to n).
Proof. destruct n; simpl; auto. Qed.

Lemma buildAdjacency_hasDomain nodesIn edgesIn :
  Forall hasDomain nodesIn ->
  Forall hasDomain (fst (buildAdjacency type push nodesIn edgesIn)).
Proof.
  intros H. unfold buildAdjacency.
  apply (@fold_left_preserves _ _ (addEdge type push)
           (fun acc => Forall hasDomain (fst acc))); [|exact H].
  intros [nodesOut errors] [from to] Ha. simpl in Ha. unfold addEdge.
  assert (Hp : Forall hasDomain (pushNeighbor push nodesOut from to)).
  { unfold pushNeighbor. destruct (nth_error nodesOut from) as [a|] eqn:E; auto.
    apply Forall_set_nth; auto. apply hasDomain_push.
    rewrite Forall_forall in Ha. apply Ha. eapply nth_error_In; eauto. }
  destruct (edgeTest _ _ _ _ _); [exact Hp|].
  destruct (edgeTest _ _ _ _ _); [exact Hp | exact Ha].
Qed.

Lemma processGraph_hasDomain g :
  nonEmptyDomains g -> Forall hasDomain (nodes (fst (processGraph g))).
Proof.
  intros H. unfold processGraph.
  pose proof (@buildAdjacency_hasDomain (map internalNode (fg_nodes g))
                (normalizeEdges (map fst (fg_nodes g)) (fg_edges g))) as B.
  destruct (buildAdjacency _ _ _ _) as [nodesOut errors]. simpl in *.
  apply B. apply Forall_forall. intros n Hn. apply in_map_iff in Hn.
  destruct Hn as [[name [v|f]] [<- Hin]]; simpl; auto.
  eapply H; eauto.
Qed.

Lemma initNode_valid n : hasDomain n -> validNode (initNode n).
Proof.
  destruct n as [v|f]; simpl; auto. intros H.
  assert (Hn : 0 < List.length (possibleValues v))
    by (destruct (possibleValues v); [congruence | simpl; lia]).
  repeat split; auto.
  - now apply uniform_distribution.
  - apply repeat_length.
Qed.

Lemma initMarginal_okmsg n : Forall okmsg (initMarginal n).
Proof.
  destruct n as [v|f]; simpl; [|constructor].
  destruct (possibleValues v) as [|x t] eqn:E; [constructor|].
  apply distribution_okmsg, uniform_distribution. simpl. lia.
Qed.

Lemma initEdges_ok nodes' marginals edgesIn :
  (forall to, Forall okmsg (nth to marginals [])) ->
  forall start m,
    (forall m0, start = Some m0 -> okMatrix m0) ->
    fold_left (initEdge nodes' marginals) edgesIn start = Some m -> okMatrix m.
Proof.
  intros Hmarg. induction edgesIn as [|[from to] t IH]; intros start m Hs H;
    simpl in *; [now apply Hs|].
  apply (IH (initEdge nodes' marginals start (from, to)) m); [|exact H].
  intros m0 E.
  destruct start as [m1|]; simpl in E; [|discriminate].
  destruct (Nat.ltb from (List.length m1)); [|discriminate].
  specialize (Hs m1 eq_refl).
  destruct (nth_error nodes' to) as [[v|f]|]; inversion E; subst;
    apply okMatrix_mset; auto;
    constructor; auto; apply okmsg_Fin; lra.
Qed.

Lemma or_else_damping damping :
  dampingInRange damping ->
  exists d, or_else damping (Fin 0) = Fin d /\ (0 <= d <= 1)%R.
Proof.
  intros [->|(d & -> & Hd)]; simpl.
  - exists 0%R. split; auto; lra.
  - destruct (Req_dec_T d 0); [exists 0%R | exists d]; split; auto; lra.
Qed.

Lemma constructor_inv g damping s :
  nonEmptyDomains g -> dampingInRange damping ->
  constructor g damping = Some s -> validInv s.
Proof.
  intros Hg Hd. unfold constructor, initializeMessages.
  destruct (fold_left _ _ _) as [m|] eqn:E; [|discriminate].
  intros H; inversion H; subst. clear H. unfold validInv. simpl.
  split; [|split; [|split]].
  - apply Forall_forall. intros n Hn. apply in_map_iff in Hn.
    destruct Hn as [n0 [<- Hn0]]. apply initNode_valid.
    pose proof (processGraph_hasDomain Hg) as Hdom.
    rewrite Forall_forall in Hdom. auto.
  - eapply initEdges_ok; [| |exact E].
    + intros to.
      destruct (nth_in_or_default to
                  (map initMarginal (nodes (fst (processGraph g)))) [])
        as [Hin|Hdef].
      * apply in_map_iff in Hin. destruct Hin as [n [<- _]].
        apply initMarginal_okmsg.
      * rewrite Hdef. constructor.
    + intros m0 E0; inversion E0; subst. apply okMatrix_empty.
  - apply okMatrix_empty.
  - now apply or_else_damping.
Qed.

(** *** [setEvidence] *)

Lemma put_ok belief k nbrs :
  Forall okmsg belief ->
  forall m, okMatrix m ->
    okMatrix (fold_left (fun m factor => mset m k factor belief) nbrs m).
Proof.
  intros Hb. induction nbrs as [|f t IH]; intros m Hm; simpl; auto.
  apply IH. now apply okMatrix_mset.
Qed.

Lemma findNode_nth s nodeId k n :
  findNode s nodeId = Some (k, n) -> nth_error (nodes (graph s)) k = Some n.
Proof.
  unfold findNode, indexed. intros H.
  destruct (@find_by_name _ name nodeId (nodes (graph s)) (nodes (graph s))
              eq_refl 0 _ _ H) as (_ & Hk & _).
  now rewrite Nat.sub_0_r in Hk.
Qed.

Lemma setEvidence_inv nodeId value s :
  evidenceInDomain s nodeId value -> validInv s ->
  validInv (setEvidence nodeId value s).
Proof.
  intros Hev (Hn & Hm & Hx & Hd). unfold setEvidence.
  destruct (findNode s nodeId) as [[k [v|f]]|] eqn:E;
    try (repeat split; assumption).
  specialize (Hev k v E).
  pose proof (@oneHot_distribution value (possibleValues v) Hev) as Hone.
  assert (Hv : validNode (Var v)).
  { rewrite Forall_forall in Hn. apply Hn.
    eapply nth_error_In, findNode_nth; eauto. }
  destruct Hv as (Hdom & _ & _).
  unfold validInv. simpl. split; [|split; [|split]]; auto.
  - apply Forall_set_nth; auto. simpl. repeat split; auto.
    apply length_map.
  - apply put_ok; auto. now apply distribution_okmsg.
  - apply put_ok; auto. now apply distribution_okmsg.
Qed.

(** *** The sweep *)

Lemma updateVariableToFactorMessage_step s0 s v f :
  okMatrix (messages s0) -> step s0 s ->
  step s0 (updateVariableToFactorMessage s v f).
Proof.
  intros Hm [F Hn]. split.
  - now apply DiscreteFrame.updateVariableToFactorMessage_frame.
  - unfold updateVariableToFactorMessage.
    destruct (map_has _ _); simpl; apply okMatrix_mset; auto.
    + destruct F as (_ & M & _). rewrite M. now apply okMatrix_mget.
    + apply normalize_exp_ok.
Qed.

Lemma updateFactorToVariableMessage_step s0 s fid f v :
  step s0 s -> step s0 (updateFactorToVariableMessage s fid f v).
Proof.
  intros [F Hn]. split; [exact F|].
  unfold updateFactorToVariableMessage. cbv zeta.
  unfold withNext. cbn [nextMessages].
  apply okMatrix_mset; auto. apply softmax_ok.
Qed.

Lemma updateAllMessages_inv s : validInv s -> validInv (updateAllMessages s).
Proof.
  intros (Hn & Hm & Hx & Hd).
  assert (H1 : step s (variablePhase s)).
  { unfold variablePhase.
    apply (@fold_left_preserves _ _ _ (step s));
      [|split; [apply DiscreteFrame.sameButNext_refl | exact Hx]].
    intros a [k [v|f]] Ha; simpl; auto.
    apply (@fold_left_preserves _ _ _ (step s)); auto.
    intros; now apply updateVariableToFactorMessage_step. }
  assert (H2 : step s (factorPhase (variablePhase s))).
  { unfold factorPhase.
    destruct H1 as [F1 N1]. pose proof F1 as (G1 & _).
    apply (@fold_left_preserves _ _ _ (step s)); [|split; assumption].
    intros a [k [v|f]] Ha; simpl; auto.
    apply (@fold_left_preserves _ _ _ (step s)); auto.
    intros; now apply updateFactorToVariableMessage_step. }
  destruct H2 as [(G & M & V & D & E) N2].
  unfold updateAllMessages, swapMessages, validInv. simpl.
  rewrite G, M, D. auto.
Qed.

Lemma or_else_positive (x : option num) :
  (forall y, x = Some y -> okmsg y) ->
  exists r, or_else x (Fin 1) = Fin r /\ (0 < r)%R.
Proof.
  intros H. destruct x as [y|]; simpl; [|exists 1%R; split; auto; lra].
  destruct (H y eq_refl) as [->|(r & -> & Hr)]; simpl.
  - exists 1%R; split; auto; lra.
  - destruct (Req_dec_T r 0); [exists 1%R | exists r]; split; auto; lra.
Qed.

Lemma log_positive (r : R) : (0 < r)%R -> Num.log (Fin r) = Fin (ln r).
Proof.
  intros H. unfold Num.log. destruct (Rlt_dec r 0); [lra|].
  destruct (Req_dec_T r 0); [lra | reflexivity].
Qed.

Lemma fold_add_finite (l : list num) :
  Forall (fun y => exists t, y = Fin t) l ->
  forall a, exists t, fold_left add l (Fin a) = Fin t.
Proof.
  induction 1 as [|y t (u & ->) Ht IH]; intros a; simpl; eauto.
Qed.

Lemma newMarginal_entry s k nbrs i :
  okMatrix (messages s) ->
  exists r,
    Num.exp
      (fold_left add
         (map (fun neighbor =>
                 Num.log
                   (or_else (nth_error (mget [] (messages s) neighbor k) i)
                            (Fin 1)))
              nbrs)
         (Fin 0)) = Fin r /\ (0 < r)%R.
Proof.
  intros Hm.
  destruct (@fold_add_finite
              (map (fun neighbor =>
                      Num.log
                        (or_else (nth_error (mget [] (messages s) neighbor k) i)
                                 (Fin 1)))
                   nbrs)) with (a := 0%R) as [t Ht].
  - apply Forall_forall. intros y Hy. apply in_map_iff in Hy.
    destruct Hy as [nb [<- _]].
    destruct (@or_else_positive (nth_error (mget [] (messages s) nb k) i))
      as (r & -> & Hr).
    + intros y Hy. apply nth_error_In in Hy.
      pose proof (okMatrix_mget nb k Hm) as Hrow.
      rewrite Forall_forall in Hrow. auto.
    + rewrite log_positive by exact Hr. eauto.
  - rewrite Ht. simpl. eexists; split; eauto. apply exp_pos.
Qed.

Lemma mapi_from_positive (A : Type) (f : nat -> A -> num) (l : list A) :
  (forall i x, exists r, f i x = Fin r /\ (0 < r)%R) ->
  forall a, exists xs, mapi_from f a l = map Fin xs /\
                       Forall (fun r => (0 < r)%R) xs /\
                       List.length xs = List.length l.
Proof.
  intros Hf. induction l as [|x t IH]; intros a; simpl.
  - exists []. repeat split; auto.
  - destruct (Hf a x) as (r & -> & Hr). destruct (IH (S a)) as (xs & -> & Hxs & Hl).
    exists (r :: xs). simpl. repeat split; auto.
Qed.

Lemma updateBelief_inv s k : validInv s -> validInv (updateBelief s k).
Proof.
  intros (Hn & Hm & Hx & d & Hd & Hd01). unfold updateBelief.
  destruct (nth_error (nodes (graph s)) k) as [[v|f]|] eqn:E;
    try (repeat split; eauto; fail).
  destruct (map_has (evidence s) k); [repeat split; eauto|].
  assert (Hv : validNode (Var v)).
  { rewrite Forall_forall in Hn. apply Hn. eapply nth_error_In; eauto. }
  destruct Hv as (Hdom & (os & Eos & Hos & Sos) & Hlen).
  destruct (@mapi_from_positive _
              (fun i (_ : num) =>
                 Num.exp
                   (fold_left add
                      (map (fun neighbor =>
                              Num.log
                                (or_else
                                   (nth_error (mget [] (messages s) neighbor k) i)
                                   (Fin 1)))
                           (var_neighbors v))
                      (Fin 0)))
              (possibleValues v)
              (fun i _ => @newMarginal_entry s k (var_neighbors v) i Hm) 0)
    as (xs & Exs & Hxs & Lxs).
  assert (Hne : xs <> []).
  { intros ->. destruct (possibleValues v); [congruence | discriminate]. }
  destruct (normalized_distribution Hne Hxs) as [Hnn Hns].
  assert (Enew : BeliefUtils.normalize (newMarginal s k v)
                 = map Fin (map (fun x => (x / Rsum xs)%R) xs)).
  { unfold newMarginal, mapi. rewrite Exs. apply normalize_Fin.
    pose proof (Rsum_positive Hne Hxs). lra. }
  assert (Lold : List.length os = List.length (map (fun x => (x / Rsum xs)%R) xs)).
  { rewrite length_map, Lxs, <- Hlen, Eos, length_map. reflexivity. }
  destruct (@dampMessage_distribution d _ os Hd01 Lold Hnn Hns Hos Sos)
    as [Hdist Hlend].
  unfold validInv. simpl. split; [|split; [|split]]; eauto.
  apply Forall_set_nth; auto. simpl.
  rewrite Enew, Eos, Hd. repeat split; auto.
  rewrite Hlend, length_map. exact Lxs.
Qed.

Lemma sweep_inv s : validInv s -> validInv (sweep s).
Proof.
  intros H. unfold sweep, updateBeliefs.
  apply fold_left_preserves.
  - intros; now apply updateBelief_inv.
  - now apply updateAllMessages_inv.
Qed.

Lemma iterate_inv maxIterations tolerance remaining :
  forall i s, validInv s -> validInv (final (iterate maxIterations tolerance remaining i s)).
Proof.
  induction remaining as [|r IH]; intros i s H; cbn [iterate final]; auto.
  destruct (lt _ _); cbn [final].
  - now apply sweep_inv.
  - apply IH. now apply sweep_inv.
Qed.

Lemma reachable_inv g damping s :
  nonEmptyDomains g -> dampingInRange damping ->
  reachable evidenceInDomain g damping s -> validInv s.
Proof.
  intros Hg Hd. induction 1.
  - eapply constructor_inv; eauto.
  - now apply setEvidence_inv.
  - now apply iterate_inv.
Qed.

End DiscreteValid.

(* ================================================================= *)
(** ** The beliefs the constructor stores *)

Lemma initNode_uniform (n : Discrete.BayesNode) (v : Discrete.BayesVariable) :
  DiscreteInv.hasDomain n -> Discrete.initNode n = Discrete.Var v ->
  Discrete.currentBelief v = uniform (List.length (Discrete.possibleValues v)).
Proof.
  destruct n as [v0|f]; [|discriminate]. intros H E.
  unfold Discrete.initNode, Discrete.setBeliefs in E. inversion E; subst.
  cbn [Discrete.currentBelief Discrete.possibleValues]. unfold uniform.
  destruct (Req_dec_T _ 0) as [e|_]; [|reflexivity].
  exfalso. revert e. apply not_0_INR. simpl in H.
  destruct (Discrete.possibleValues v0); [congruence | simpl; lia].
Qed.

Lemma constructor_uniform (g : FactorGraph Discrete.BayesNodeInput)
  (damping : option num) (s : Discrete.BeliefPropagation)
  (v : Discrete.BayesVariable) :
  nonEmptyDomains g -> Discrete.constructor g damping = Some s ->
  In (Discrete.Var v) (Discrete.nodes (Discrete.graph s)) ->
  Discrete.currentBelief v = uniform (List.length (Discrete.possibleValues v)).
Proof.
  intros Hg Hc Hv.
  unfold Discrete.constructor, Discrete.initializeMessages in Hc.
  destruct (fold_left _ _ _); [|discriminate].
  inversion Hc; subst. clear Hc. simpl in Hv. apply in_map_iff in Hv.
  destruct Hv as [n [En Hn0]].
  pose proof (DiscreteValid.processGraph_hasDomain Hg) as Hdom.
  rewrite Forall_forall in Hdom.
  eapply initNode_uniform; eauto.
Qed.

(* ================================================================= *)
(** ** The utilities of graphs/util.ts *)

Section CartesianProduct.

Variable T : Type.

Let step (acc : list (list T)) (arr : list T) : list (list T) :=
  flat_map (fun c => map (fun v => c ++ [v]) arr) acc.

Lemma in_step (acc : list (list T)) (arr : list T) (c : list T) :
  In c (step acc arr) <-> exists p v, c = p ++ [v] /\ In p acc /\ In v arr.
Proof.
  unfold step. rewrite in_flat_map. split.
  - intros (p & Hp & Hc). apply in_map_iff in Hc. destruct Hc as (v & <- & Hv).
    eauto.
  - intros (p & v & -> & Hp & Hv). exists p. split; auto.
    apply in_map_iff. eauto.
Qed.

Lemma in_fold_step (arrays : list (list T)) :
  forall acc c,
    In c (fold_left step arrays acc) <->
    exists p q, c = p ++ q /\ In p acc /\
                Forall2 (fun x arr => In x arr) q arrays.
Proof.
  induction arrays as [|arr rest IH]; intros acc c; simpl.
  - split.
    + intros H. exists c, []. rewrite app_nil_r. auto.
    + intros (p & q & -> & Hp & Hq). inversion Hq. now rewrite app_nil_r.
  - rewrite IH. split.
    + intros (p' & q' & -> & Hp' & Hq'). apply in_step in Hp'.
      destruct Hp' as (p & v & -> & Hp & Hv).
      exists p, (v :: q'). rewrite <- app_assoc. simpl. auto.
    + intros (p & q & -> & Hp & Hq). inversion Hq as [|v arr' q' rest' Hv Hq']; subst.
      exists (p ++ [v]), q'. rewrite <- app_assoc. simpl.
      repeat split; auto. apply in_step. eauto.
Qed.

Lemma length_step (acc : list (list T)) (arr : list T) :
  List.length (step acc arr) = List.length acc * List.length arr.
Proof.
  unfold step. induction acc as [|c t IH]; simpl; auto.
  rewrite length_app, length_map, IH. reflexivity.
Qed.

Lemma length_fold_step (arrays : list (list T)) :
  forall acc,
    List.length (fold_left step arrays acc)
    = List.length acc * productOfLengths arrays.
Proof.
  induction arrays as [|arr rest IH]; intros acc; simpl; [lia|].
  rewrite IH, length_step. lia.
Qed.

Lemma in_combinations (arrays : list (list T)) (c : list T) :
  In c (fold_left
          (fun acc arr => flat_map (fun c => map (fun v => c ++ [v]) arr) acc)
          arrays [[]]) <->
  Forall2 (fun x arr => In x arr) c arrays.
Proof.
  fold step. rewrite in_fold_step. split.
  - intros (p & q & -> & [<-|[]] & Hq). exact Hq.
  - intros H. exists [], c. simpl. auto.
Qed.

Lemma length_combinations (arrays : list (list T)) :
  List.length
    (fold_left
       (fun acc arr => flat_map (fun c => map (fun v => c ++ [v]) arr) acc)
       arrays [[]])
  = productOfLengths arrays.
Proof. fold step. rewrite length_fold_step. simpl. lia. Qed.

(** X1.  [cartesianProduct] lists exactly the combinations that take one
    element from each array, in the order of the arrays, and there are as
    many of them as the product of the lengths of the arrays: one (the
    empty combination) for no array, none when an array is empty. *)
Theorem cartesianProduct_spec (arrays : list (list T)) :
  (forall c, In c (BeliefUtils.cartesianProduct arrays) <->
             Forall2 (fun x arr => In x arr) c arrays) /\
  List.length (BeliefUtils.cartesianProduct arrays) = productOfLengths arrays.
Proof.
  unfold BeliefUtils.cartesianProduct. split.
  - intros c. apply in_combinations.
  - apply length_combinations.
Qed.

End CartesianProduct.

Section LogSumExp.

Open Scope R_scope.

Lemma max2_Fin (x y : R) : max2 (Fin x) (Fin y) = Fin (Rmax x y).
Proof.
  unfold max2, lt, Rmax. destruct (Rlt_dec x y), (Rle_dec x y);
    try reflexivity; try lra. f_equal; lra.
Qed.

Lemma fold_max2_Fins (xs : list R) :
  forall x, fold_left max2 (map Fin xs) (Fin x) = Fin (fold_left Rmax xs x).
Proof.
  induction xs as [|y t IH]; intros x; simpl; auto.
  rewrite <- IH. f_equal. apply max2_Fin.
Qed.

Lemma max_Fins (x : R) (xs : list R) :
  Num.max (map Fin (x :: xs)) = Fin (Rmaximum x xs).
Proof.
  unfold Num.max, Rmaximum. cbn [map fold_left]. rewrite max2_NInf_l.
  apply fold_max2_Fins.
Qed.

Lemma Rsum_shifted_exp (m : R) (xs : list R) :
  Rsum (map (fun x => Rtrigo_def.exp (x - m)) xs)
  = Rtrigo_def.exp (- m) * Rsum (map Rtrigo_def.exp xs).
Proof.
  induction xs as [|x t IH]; simpl; [lra|].
  rewrite IH. unfold Rminus. rewrite exp_plus. lra.
Qed.

Lemma Rsum_exp_positive (xs : list R) :
  xs <> [] -> 0 < Rsum (map Rtrigo_def.exp xs).
Proof.
  intros H. apply Rsum_positive.
  - destruct xs; [congruence | discriminate].
  - apply Forall_forall. intros r Hr. apply in_map_iff in Hr.
    destruct Hr as [x [<- _]]. apply exp_pos.
Qed.

Lemma logSumExp_of_reals (xs : list R) :
  xs <> [] ->
  BeliefUtils.logSumExp (map Fin xs)
  = Fin (ln (Rsum (map Rtrigo_def.exp xs))).
Proof.
  intros Hne. pose proof (Rsum_exp_positive Hne) as Hpos.
  destruct xs as [|x t]; [congruence|].
  unfold BeliefUtils.logSumExp. cbn [map List.length Nat.eqb].
  change (Fin x :: map Fin t) with (map Fin (x :: t)).
  rewrite max_Fins. set (m := Rmaximum x t). cbn [Num.eqb]. cbv zeta.
  rewrite fold_add_map, map_map.
  change (map (fun v => Num.exp (sub (Fin v) (Fin m))) (x :: t))
    with (map (fun v => Fin (Rtrigo_def.exp (v + - m))) (x :: t)).
  rewrite <- (map_map (fun v => Rtrigo_def.exp (v + - m)) Fin).
  rewrite fold_add_Fin.
  change (fun v => Rtrigo_def.exp (v + - m))
    with (fun v => Rtrigo_def.exp (v - m)).
  rewrite Rsum_shifted_exp.
  set (S := Rsum (map Rtrigo_def.exp (x :: t))) in *.
  assert (He : 0 < Rtrigo_def.exp (- m)) by apply exp_pos.
  assert (Hp : 0 < 0 + Rtrigo_def.exp (- m) * S)
    by (rewrite Rplus_0_l; now apply Rmult_lt_0_compat).
  rewrite DiscreteValid.log_positive by exact Hp. cbn [add]. f_equal.
  rewrite Rplus_0_l, ln_mult, ln_exp by assumption. subst S. cbn [map]. lra.
Qed.

(** X2.  On a non-empty list of finite log-values [logSumExp] is the
    logarithm of the sum of their exponentials: subtracting the maximum
    before exponentiating does not change the result. *)
Theorem logSumExp_finite (x : R) (t : list R) :
  BeliefUtils.logSumExp (map Fin (x :: t))
  = Fin (ln (Rsum (map Rtrigo_def.exp (x :: t)))).
Proof. apply logSumExp_of_reals. discriminate. Qed.

(** The exponentials of [m - logSumExp] over a non-empty list of finite
    log-values. *)
Lemma softmax_of_reals (xs : list R) :
  xs <> [] ->
  map (fun m => Num.exp (sub m (BeliefUtils.logSumExp (map Fin xs)))) (map Fin xs)
  = map Fin (map (fun v => Rtrigo_def.exp v / Rsum (map Rtrigo_def.exp xs)) xs)
  /\ distribution
       (map (fun m => Num.exp (sub m (BeliefUtils.logSumExp (map Fin xs))))
            (map Fin xs)).
Proof.
  intros Hne. pose proof (Rsum_exp_positive Hne) as Hpos.
  set (S := Rsum (map Rtrigo_def.exp xs)) in *.
  assert (E : map (fun m => Num.exp (sub m (BeliefUtils.logSumExp (map Fin xs))))
                  (map Fin xs)
              = map Fin (map (fun x => Rtrigo_def.exp x / S) xs)).
  { rewrite logSumExp_of_reals by exact Hne.
    fold S. rewrite !map_map. apply map_ext. intros y. cbn [sub neg add Num.exp].
    f_equal. rewrite exp_plus, exp_Ropp, exp_ln by exact Hpos. reflexivity. }
  split; [exact E|]. rewrite E.
  exists (map (fun x => Rtrigo_def.exp x / S) xs). split; [reflexivity|]. split.
  - apply Forall_forall. intros r Hr. apply in_map_iff in Hr.
    destruct Hr as [y [<- _]]. apply Rlt_le, Rdiv_lt_0_compat; auto.
    apply exp_pos.
  - rewrite <- (map_map Rtrigo_def.exp (fun y => y / S)), Rsum_scale.
    fold S. field. lra.
Qed.

(** X3.  [logNormalize] of a non-empty list of finite log-values subtracts
    the logarithm of the sum of their exponentials from each, so the
    exponentials of its results are the weights [exp(x) / sum of exp]: they
    form a probability distribution. *)
Theorem logNormalize_finite (x : R) (t : list R) :
  let xs := x :: t in
  map Num.exp (BeliefUtils.logNormalize (map Fin xs))
  = map Fin (map (fun v => Rtrigo_def.exp v / Rsum (map Rtrigo_def.exp xs)) xs)
  /\ distribution (map Num.exp (BeliefUtils.logNormalize (map Fin xs))).
Proof.
  intros xs. unfold BeliefUtils.logNormalize. rewrite map_map.
  apply softmax_of_reals. discriminate.
Qed.

End LogSumExp.

Section NormalizeAndDamp.

Open Scope R_scope.

Lemma fold_add_with_NaN (l : list num) :
  In NaN l -> forall a, fold_left add l a = NaN.
Proof.
  induction l as [|x t IH]; intros Hin a; [destruct Hin|].
  simpl. destruct Hin as [->|Hin]; [|now apply IH].
  replace (add a NaN) with NaN by (destruct a; reflexivity).
  apply fold_add_NaN.
Qed.

Lemma div_by_NaN (x : num) : div x NaN = NaN.
Proof. destruct x; reflexivity. Qed.

Lemma mul_by_NaN (x : num) : mul x NaN = NaN.
Proof. destruct x; reflexivity. Qed.

Lemma add_NaN (x : num) : add x NaN = NaN.
Proof. destruct x; reflexivity. Qed.

Lemma nth_error_mapi_from (A B : Type) (f : nat -> A -> B) (l : list A) :
  forall a k,
    nth_error (mapi_from f a l) k = option_map (f (a + k)%nat) (nth_error l k).
Proof.
  induction l as [|x t IH]; intros a [|k]; simpl; auto.
  - now rewrite Nat.add_0_r.
  - rewrite IH. now rewrite Nat.add_succ_comm.
Qed.

Lemma length_mapi_from (A B : Type) (f : nat -> A -> B) (l : list A) :
  forall a, List.length (mapi_from f a l) = List.length l.
Proof. induction l as [|x t IH]; intros a; simpl; auto. Qed.

Lemma mapi_from_ext (A B : Type) (f g : nat -> A -> B) (l : list A) :
  forall a,
    (forall k x, nth_error l k = Some x -> f (a + k)%nat x = g (a + k)%nat x) ->
    mapi_from f a l = mapi_from g a l.
Proof.
  induction l as [|x t IH]; intros a H; simpl; auto. f_equal.
  - specialize (H 0%nat x eq_refl). now rewrite Nat.add_0_r in H.
  - apply IH. intros k y Hk. specialize (H (S k) y Hk).
    now rewrite Nat.add_succ_comm.
Qed.



(** X5.  [dampMessage] reads the previous message at the indices of the new
    one only: entries of a longer previous message are ignored, and the
    result is as long as the new message; a previous message that is too
    short makes every entry of the result NaN, whatever the damping
    factor. *)
Theorem dampMessage_lengths (newMsg prevMsg : list num) (dampingFactor : num) :
  List.length (BeliefUtils.dampMessage newMsg prevMsg dampingFactor)
  = List.length newMsg /\
  BeliefUtils.dampMessage newMsg prevMsg dampingFactor
  = BeliefUtils.dampMessage newMsg (firstn (List.length newMsg) prevMsg)
      dampingFactor /\
  ((List.length prevMsg < List.length newMsg)%nat ->
   Forall (fun x => x = NaN)
          (BeliefUtils.dampMessage newMsg prevMsg dampingFactor)).
Proof.
  unfold BeliefUtils.dampMessage, mapi. split; [|split].
  - now rewrite length_map, length_mapi_from.
  - assert (E : mapi_from
                  (fun idx val =>
                     add (mul dampingFactor val)
                         (mul (sub (Fin 1) dampingFactor)
                              (to_number (nth_error prevMsg idx)))) 0 newMsg
                = mapi_from
                    (fun idx val =>
                       add (mul dampingFactor val)
                           (mul (sub (Fin 1) dampingFactor)
                                (to_number
                                   (nth_error
                                      (firstn (List.length newMsg) prevMsg) idx))))
                    0 newMsg).
    { apply mapi_from_ext. intros k x Hk. simpl.
      assert (Hlt : (k < List.length newMsg)%nat)
        by (apply nth_error_Some; congruence).
      now rewrite nth_error_firstn, (proj2 (Nat.ltb_lt _ _) Hlt). }
    now rewrite <- E.
  - intros Hlt.
    set (damped := mapi_from _ 0%nat newMsg).
    assert (Hin : In NaN damped).
    { destruct (nth_error newMsg (List.length prevMsg)) as [x|] eqn:Hx;
        [|apply nth_error_None in Hx; lia].
      apply (@nth_error_In _ damped (List.length prevMsg)).
      unfold damped. rewrite nth_error_mapi_from, Hx. cbn [option_map Nat.add].
      replace (nth_error prevMsg (List.length prevMsg)) with (@None num)
        by (symmetry; apply nth_error_None; lia).
      cbn [to_number]. now rewrite mul_by_NaN, add_NaN. }
    unfold sum. rewrite (fold_add_with_NaN _ Hin).
    apply Forall_forall. intros y Hy. apply in_map_iff in Hy.
    destruct Hy as [x [<- _]]. apply div_by_NaN.
Qed.

End NormalizeAndDamp.

(* ================================================================= *)
(** ** The adjacency built by [processGraph] *)

Section AdjacencyLists.

Variable Node : Type.
Variable type_of : Node -> GraphType.
Variable push : nat -> Node -> Node.
Variable nbrs : Node -> list nat.
Variable name_of : Node -> NodeID.

Hypothesis push_type : forall to n, type_of (push to n) = type_of n.
Hypothesis push_name : forall to n, name_of (push to n) = name_of n.
Hypothesis push_nbrs : forall to n, nbrs (push to n) = nbrs n ++ [to].

Lemma addEdge_decided (nodesOut : list Node) (errors : list string)
  (from to : nat) :
  addEdge type_of push (nodesOut, errors) (from, to)
  = if kindsDiffer (map type_of nodesOut) from to
    then (pushNeighbor push nodesOut from to, errors)
    else (nodesOut, errors ++ [invalidEdge from to]).
Proof.
  unfold addEdge, edgeTest, kindsDiffer. rewrite !nth_error_map.
  destruct (nth_error nodesOut from) as [a|]; simpl; auto.
  destruct (nth_error nodesOut to) as [b|]; simpl; auto.
  destruct (type_of a), (type_of b); reflexivity.
Qed.

Lemma pushNeighbor_kinds (nodesOut : list Node) (from to : nat) :
  map type_of (pushNeighbor push nodesOut from to) = map type_of nodesOut /\
  map name_of (pushNeighbor push nodesOut from to) = map name_of nodesOut.
Proof.
  unfold pushNeighbor.
  destruct (nth_error nodesOut from) as [a|] eqn:Ea; auto.
  split; eapply DiscreteFrame.map_set_nth; eauto.
Qed.

Lemma pushNeighbor_nth (nodesOut : list Node) (from to a : nat) :
  nth_error (pushNeighbor push nodesOut from to) a
  = if Nat.eqb a from then option_map (push to) (nth_error nodesOut a)
    else nth_error nodesOut a.
Proof.
  unfold pushNeighbor. destruct (Nat.eqb a from) eqn:E.
  - apply Nat.eqb_eq in E. subst a.
    destruct (nth_error nodesOut from) as [x|] eqn:Ex; simpl; auto.
    apply nth_error_set_nth_same. apply nth_error_Some. congruence.
  - apply Nat.eqb_neq in E.
    destruct (nth_error nodesOut from) as [x|]; auto.
    apply nth_error_set_nth_other. congruence.
Qed.

(** The node list after the edges: kinds and names as before, each
    neighbor list extended by the accepted targets, one console line per
    rejected edge. *)
Lemma buildAdjacency_lists (edges : list (nat * nat)) :
  forall (nodesIn : list Node) (errors : list string),
    let out := fold_left (addEdge type_of push) edges (nodesIn, errors) in
    map type_of (fst out) = map type_of nodesIn /\
    map name_of (fst out) = map name_of nodesIn /\
    (forall a n0, nth_error nodesIn a = Some n0 ->
       exists n, nth_error (fst out) a = Some n /\
                 nbrs n = nbrs n0 ++ acceptedTargets (map type_of nodesIn) edges a) /\
    snd out = errors ++ rejectedEdges (map type_of nodesIn) edges.
Proof.
  induction edges as [|[from to] rest IH]; intros nodesIn errors; cbn zeta.
  - simpl. repeat split; auto.
    + intros a n0 H. exists n0. split; auto.
      unfold acceptedTargets. simpl. now rewrite app_nil_r.
    + unfold rejectedEdges. simpl. now rewrite app_nil_r.
  - cbn [fold_left]. rewrite addEdge_decided.
    unfold acceptedTargets, rejectedEdges. cbn [filter fst snd].
    destruct (kindsDiffer (map type_of nodesIn) from to) eqn:K.
    + destruct (pushNeighbor_kinds nodesIn from to) as [Kt Kn].
      specialize (IH (pushNeighbor push nodesIn from to) errors).
      cbn zeta in IH. rewrite Kt, Kn in IH.
      destruct IH as (T & N & Nb & Er). repeat split; auto.
      intros a n0 Ha.
      destruct (Nat.eqb a from) eqn:E.
      * destruct (Nb a (push to n0)) as (n & Hn & Hnb).
        { rewrite pushNeighbor_nth, E, Ha. reflexivity. }
        exists n. split; auto. rewrite Hnb, push_nbrs.
        apply Nat.eqb_eq in E. subst a. rewrite Nat.eqb_refl. cbn [andb map snd].
        rewrite <- app_assoc. reflexivity.
      * destruct (Nb a n0) as (n & Hn & Hnb).
        { rewrite pushNeighbor_nth, E. exact Ha. }
        exists n. split; auto. rewrite Hnb.
        rewrite Nat.eqb_sym in E. rewrite E. reflexivity.
    + specialize (IH nodesIn (errors ++ [invalidEdge from to])).
      cbn zeta in IH. destruct IH as (T & N & Nb & Er). repeat split; auto.
      * intros a n0 Ha. destruct (Nb a n0 Ha) as (n & Hn & Hnb).
        exists n. split; auto. rewrite Hnb. now rewrite andb_false_r.
      * rewrite Er. cbn [negb map fst snd]. now rewrite <- app_assoc.
Qed.

End AdjacencyLists.

Lemma in_acceptedTargets (kinds : list GraphType) (edges : list (nat * nat))
  (a b : nat) :
  In b (acceptedTargets kinds edges a) <->
  In (a, b) edges /\ kindsDiffer kinds a b = true.
Proof.
  unfold acceptedTargets. rewrite in_map_iff. split.
  - intros [[x y] [E H]]. apply filter_In in H. destruct H as [Hin Hf].
    simpl in *. subst y. apply andb_true_iff in Hf. destruct Hf as [Hx Hk].
    apply Nat.eqb_eq in Hx. subst x. auto.
  - intros [Hin Hk]. exists (a, b). split; auto. apply filter_In.
    simpl. now rewrite Nat.eqb_refl, Hk.
Qed.

Lemma kindsDiffer_sym (kinds : list GraphType) (a b : nat) :
  kindsDiffer kinds a b = kindsDiffer kinds b a.
Proof.
  unfold kindsDiffer.
  destruct (nth_error kinds a) as [[|]|], (nth_error kinds b) as [[|]|];
    reflexivity.
Qed.

Lemma kindsDiffer_true (kinds : list GraphType) (a b : nat) :
  kindsDiffer kinds a b = true ->
  exists x y, nth_error kinds a = Some x /\ nth_error kinds b = Some y /\ x <> y.
Proof.
  unfold kindsDiffer.
  destruct (nth_error kinds a) as [x|], (nth_error kinds b) as [y|];
    try discriminate.
  intros H. exists x, y. repeat split; auto. intros ->.
  destruct y; discriminate.
Qed.

Lemma normalizeEdges_sym (names : list string) (edges : list (NodeID * NodeID))
  (a b : nat) :
  In (a, b) (normalizeEdges names edges) ->
  In (b, a) (normalizeEdges names edges).
Proof.
  rewrite !normalizeEdges_spec. intros (x & y & Hin & Hx & Hy & H).
  exists x, y. repeat split; auto.
  destruct H as [H|H]; inversion H; subst; auto.
Qed.

Lemma discrete_internal_kinds (g : FactorGraph Discrete.BayesNodeInput) :
  map Discrete.type (map Discrete.internalNode (fg_nodes g)) = discreteKinds g /\
  map Discrete.name (map Discrete.internalNode (fg_nodes g))
  = map fst (fg_nodes g) /\
  Forall (fun n => Discrete.neighbors n = [])
         (map Discrete.internalNode (fg_nodes g)).
Proof.
  unfold discreteKinds. rewrite !map_map. repeat split.
  - apply map_ext. intros [x [v|f]]; reflexivity.
  - apply map_ext. intros [x [v|f]]; reflexivity.
  - apply Forall_forall. intros n Hn. apply in_map_iff in Hn.
    destruct Hn as [[x [v|f]] [<- _]]; reflexivity.
Qed.

Lemma gaussian_internal_kinds (g : FactorGraph Gaussian.GaussianNodeInput) :
  map Gaussian.type (map Gaussian.internalNode (fg_nodes g)) = gaussianKinds g /\
  map Gaussian.name (map Gaussian.internalNode (fg_nodes g))
  = map fst (fg_nodes g) /\
  Forall (fun n => Gaussian.neighbors n = [])
         (map Gaussian.internalNode (fg_nodes g)).
Proof.
  unfold gaussianKinds. rewrite !map_map. repeat split.
  - apply map_ext. intros [x [v|f]]; reflexivity.
  - apply map_ext. intros [x [v|f]]; reflexivity.
  - apply Forall_forall. intros n Hn. apply in_map_iff in Hn.
    destruct Hn as [[x [v|f]] [<- _]]; reflexivity.
Qed.

(** What [processGraph] of the discrete engine returns and reports. *)
Lemma discrete_processGraph_lists (g : FactorGraph Discrete.BayesNodeInput) :
  let es := normalizeEdges (map fst (fg_nodes g)) (fg_edges g) in
  let out := Discrete.processGraph g in
  Discrete.edges (fst out) = es /\
  map Discrete.name (Discrete.nodes (fst out)) = map fst (fg_nodes g) /\
  map Discrete.type (Discrete.nodes (fst out)) = discreteKinds g /\
  (forall a n, nth_error (Discrete.nodes (fst out)) a = Some n ->
     Discrete.neighbors n = acceptedTargets (discreteKinds g) es a) /\
  snd out = rejectedEdges (discreteKinds g) es.
Proof.
  cbn zeta. unfold Discrete.processGraph, buildAdjacency.
  destruct (discrete_internal_kinds g) as (K & N & E).
  pose proof (@buildAdjacency_lists _ Discrete.type Discrete.push
                Discrete.neighbors Discrete.name
                ltac:(intros to [v|f]; reflexivity)
                ltac:(intros to [v|f]; reflexivity)
                ltac:(intros to [v|f]; reflexivity)
                (normalizeEdges (map fst (fg_nodes g)) (fg_edges g))
                (map Discrete.internalNode (fg_nodes g)) []) as H.
  cbn zeta in H. rewrite K, N in H.
  destruct (fold_left _ _ _) as [nodesOut errors]. simpl in *.
  destruct H as (T & Nm & Nb & Er). repeat split; auto.
  intros a n Ha.
  assert (La : a < List.length (map Discrete.internalNode (fg_nodes g))).
  { pose proof (f_equal (@List.length _) T) as LT.
    pose proof (f_equal (@List.length _) K) as LK.
    assert (La : a < List.length nodesOut)
      by (apply nth_error_Some; congruence).
    repeat rewrite length_map in LT. repeat rewrite length_map in LK.
    rewrite length_map. lia. }
  destruct (nth_error (map Discrete.internalNode (fg_nodes g)) a) as [n0|] eqn:H0;
    [|apply nth_error_None in H0; lia].
  destruct (Nb a n0 H0) as (n' & Hn' & Hnb).
  rewrite Ha in Hn'. inversion Hn'; subst n'. rewrite Hnb.
  rewrite Forall_forall in E. rewrite (E n0 (nth_error_In _ _ H0)). reflexivity.
Qed.

(** What [processGraph] of the Gaussian engine returns and reports. *)
Lemma gaussian_processGraph_lists (g : FactorGraph Gaussian.GaussianNodeInput) :
  let es := normalizeEdges (map fst (fg_nodes g)) (fg_edges g) in
  let out := Gaussian.processGraph g in
  Gaussian.edges (fst out) = es /\
  map Gaussian.name (Gaussian.nodes (fst out)) = map fst (fg_nodes g) /\
  map Gaussian.type (Gaussian.nodes (fst out)) = gaussianKinds g /\
  (forall a n, nth_error (Gaussian.nodes (fst out)) a = Some n ->
     Gaussian.neighbors n = acceptedTargets (gaussianKinds g) es a) /\
  snd out = rejectedEdges (gaussianKinds g) es.
Proof.
  cbn zeta. unfold Gaussian.processGraph, buildAdjacency.
  destruct (gaussian_internal_kinds g) as (K & N & E).
  pose proof (@buildAdjacency_lists _ Gaussian.type Gaussian.push
                Gaussian.neighbors Gaussian.name
                ltac:(intros to [v|f]; reflexivity)
                ltac:(intros to [v|f]; reflexivity)
                ltac:(intros to [v|f]; reflexivity)
                (normalizeEdges (map fst (fg_nodes g)) (fg_edges g))
                (map Gaussian.internalNode (fg_nodes g)) []) as H.
  cbn zeta in H. rewrite K, N in H.
  destruct (fold_left _ _ _) as [nodesOut errors]. simpl in *.
  destruct H as (T & Nm & Nb & Er). repeat split; auto.
  intros a n Ha.
  assert (La : a < List.length (map Gaussian.internalNode (fg_nodes g))).
  { pose proof (f_equal (@List.length _) T) as LT.
    pose proof (f_equal (@List.length _) K) as LK.
    assert (La : a < List.length nodesOut)
      by (apply nth_error_Some; congruence).
    repeat rewrite length_map in LT. repeat rewrite length_map in LK.
    rewrite length_map. lia. }
  destruct (nth_error (map Gaussian.internalNode (fg_nodes g)) a) as [n0|] eqn:H0;
    [|apply nth_error_None in H0; lia].
  destruct (Nb a n0 H0) as (n' & Hn' & Hnb).
  rewrite Ha in Hn'. inversion Hn'; subst n'. rewrite Hnb.
  rewrite Forall_forall in E. rewrite (E n0 (nth_error_In _ _ H0)). reflexivity.
Qed.

(** The neighbors [processGraph] records are positions of nodes. *)
Lemma discrete_neighbor_bound (g : FactorGraph Discrete.BayesNodeInput)
  (a b : nat) (na : Discrete.BayesNode) :
  nth_error (Discrete.nodes (fst (Discrete.processGraph g))) a = Some na ->
  In b (Discrete.neighbors na) ->
  b < List.length (Discrete.nodes (fst (Discrete.processGraph g))).
Proof.
  intros Ha Hb.
  destruct (discrete_processGraph_lists g) as (_ & _ & T & Nb & _).
  cbn zeta in *. rewrite (Nb a na Ha) in Hb.
  apply in_acceptedTargets in Hb. destruct Hb as [_ Hk].
  destruct (kindsDiffer_true _ _ _ Hk) as (x & y & _ & Hy & _).
  rewrite <- (length_map Discrete.type), T.
  apply nth_error_Some. congruence.
Qed.

Lemma gaussian_neighbor_bound (g : FactorGraph Gaussian.GaussianNodeInput)
  (a b : nat) (na : Gaussian.GaussianNode) :
  nth_error (Gaussian.nodes (fst (Gaussian.processGraph g))) a = Some na ->
  In b (Gaussian.neighbors na) ->
  b < List.length (Gaussian.nodes (fst (Gaussian.processGraph g))).
Proof.
  intros Ha Hb.
  destruct (gaussian_processGraph_lists g) as (_ & _ & T & Nb & _).
  cbn zeta in *. rewrite (Nb a na Ha) in Hb.
  apply in_acceptedTargets in Hb. destruct Hb as [_ Hk].
  destruct (kindsDiffer_true _ _ _ Hk) as (x & y & _ & Hy & _).
  rewrite <- (length_map Gaussian.type), T.
  apply nth_error_Some. congruence.
Qed.

(** X6.  What [processGraph] builds, in both engines.  The nodes keep the
    order, names and kinds of the entries of the input graph; the neighbor
    list of the node at position [a] holds, in the order of the normalized
    edge list and with repetitions, the targets of the directed edges
    leaving [a] whose two ends exist and are of different kinds; every
    other directed edge is reported on the console as an invalid edge, and
    stays in the edge list returned. *)
Theorem processGraph_adjacency :
  (forall g : FactorGraph Discrete.BayesNodeInput,
     let es := normalizeEdges (map fst (fg_nodes g)) (fg_edges g) in
     let out := Discrete.processGraph g in
     Discrete.edges (fst out) = es /\
     map Discrete.name (Discrete.nodes (fst out)) = map fst (fg_nodes g) /\
     map Discrete.type (Discrete.nodes (fst out)) = discreteKinds g /\
     (forall a n, nth_error (Discrete.nodes (fst out)) a = Some n ->
        Discrete.neighbors n = acceptedTargets (discreteKinds g) es a) /\
     snd out = rejectedEdges (discreteKinds g) es) /\
  (forall g : FactorGraph Gaussian.GaussianNodeInput,
     let es := normalizeEdges (map fst (fg_nodes g)) (fg_edges g) in
     let out := Gaussian.processGraph g in
     Gaussian.edges (fst out) = es /\
     map Gaussian.name (Gaussian.nodes (fst out)) = map fst (fg_nodes g) /\
     map Gaussian.type (Gaussian.nodes (fst out)) = gaussianKinds g /\
     (forall a n, nth_error (Gaussian.nodes (fst out)) a = Some n ->
        Gaussian.neighbors n = acceptedTargets (gaussianKinds g) es a) /\
     snd out = rejectedEdges (gaussianKinds g) es).
Proof.
  split; intros g.
  - apply discrete_processGraph_lists.
  - apply gaussian_processGraph_lists.
Qed.

(** X7.  The adjacency is bipartite and symmetric, in both engines: a
    neighbor of a node is always an existing node of the other kind, and
    the node is in turn a neighbor of its neighbor. *)
Theorem processGraph_bipartite :
  (forall (g : FactorGraph Discrete.BayesNodeInput) a na b,
     nth_error (Discrete.nodes (fst (Discrete.processGraph g))) a = Some na ->
     In b (Discrete.neighbors na) ->
     exists nb,
       nth_error (Discrete.nodes (fst (Discrete.processGraph g))) b = Some nb /\
       Discrete.type nb <> Discrete.type na /\
       In a (Discrete.neighbors nb)) /\
  (forall (g : FactorGraph Gaussian.GaussianNodeInput) a na b,
     nth_error (Gaussian.nodes (fst (Gaussian.processGraph g))) a = Some na ->
     In b (Gaussian.neighbors na) ->
     exists nb,
       nth_error (Gaussian.nodes (fst (Gaussian.processGraph g))) b = Some nb /\
       Gaussian.type nb <> Gaussian.type na /\
       In a (Gaussian.neighbors nb)).
Proof.
  split; intros g a na b Ha Hb.
  - destruct (discrete_processGraph_lists g) as (_ & _ & T & Nb & _).
    cbn zeta in *. rewrite (Nb a na Ha) in Hb.
    apply in_acceptedTargets in Hb. destruct Hb as [Hin Hk].
    destruct (kindsDiffer_true _ _ _ Hk) as (x & y & Hx & Hy & Hxy).
    rewrite <- T, nth_error_map in Hx, Hy. rewrite Ha in Hx.
    destruct (nth_error _ b) as [nb|] eqn:Hnb; [|discriminate].
    simpl in Hx, Hy. inversion Hx; inversion Hy; subst.
    exists nb. repeat split; auto.
    rewrite (Nb b nb Hnb). apply in_acceptedTargets. split.
    + now apply normalizeEdges_sym.
    + now rewrite kindsDiffer_sym.
  - destruct (gaussian_processGraph_lists g) as (_ & _ & T & Nb & _).
    cbn zeta in *. rewrite (Nb a na Ha) in Hb.
    apply in_acceptedTargets in Hb. destruct Hb as [Hin Hk].
    destruct (kindsDiffer_true _ _ _ Hk) as (x & y & Hx & Hy & Hxy).
    rewrite <- T, nth_error_map in Hx, Hy. rewrite Ha in Hx.
    destruct (nth_error _ b) as [nb|] eqn:Hnb; [|discriminate].
    simpl in Hx, Hy. inversion Hx; inversion Hy; subst.
    exists nb. repeat split; auto.
    rewrite (Nb b nb Hnb). apply in_acceptedTargets. split.
    + now apply normalizeEdges_sym.
    + now rewrite kindsDiffer_sym.
Qed.

(* ================================================================= *)
(** ** The engines as the constructors leave them *)

Lemma ownIndex_from_bound (name : string) (names : list string) :
  forall i k, ownIndex_from name i names = Some k ->
              i <= k < i + List.length names.
Proof.
  induction names as [|x t IH]; intros i k H; simpl in *; [discriminate|].
  destruct (ownIndex_from name (S i) t) as [k'|] eqn:E.
  - inversion H; subst. apply IH in E. lia.
  - destruct (String.eqb x name); inversion H; subst. lia.
Qed.

Lemma id_or_0_bound (names : list string) (x : string) :
  names <> [] -> id_or_0 names x < List.length names.
Proof.
  intros Hne. unfold id_or_0, ownIndex.
  destruct (ownIndex_from x 0 names) as [k|] eqn:E.
  - apply ownIndex_from_bound in E. lia.
  - destruct names; [congruence | simpl; lia].
Qed.

(** The ends of the normalized edges are positions of nodes, as soon as
    there is a node. *)
Lemma normalizeEdges_bound (names : list string)
  (edges : list (NodeID * NodeID)) (a b : nat) :
  names <> [] -> In (a, b) (normalizeEdges names edges) ->
  a < List.length names /\ b < List.length names.
Proof.
  intros Hne H. apply normalizeEdges_spec in H.
  destruct H as (x & y & _ & _ & _ & [E|E]); inversion E; subst;
    split; now apply id_or_0_bound.
Qed.

Lemma shaped_emptyMessages (n : nat) : shaped n (Discrete.emptyMessages n).
Proof.
  unfold shaped, Discrete.emptyMessages. split; [apply repeat_length|].
  apply Forall_forall. intros row H. apply repeat_spec in H. subst.
  apply repeat_length.
Qed.

Lemma mget_emptyMessages (n a b : nat) :
  mget [] (Discrete.emptyMessages n) a b = [].
Proof.
  unfold mget, Discrete.emptyMessages.
  destruct (Nat.lt_ge_cases a n) as [Ha|Ha].
  - rewrite nth_repeat_lt by exact Ha.
    destruct (Nat.lt_ge_cases b n) as [Hb|Hb].
    + now rewrite nth_repeat_lt.
    + apply nth_overflow. now rewrite repeat_length.
  - replace (nth a (repeat (repeat (@nil num) n) n) [])
      with (@nil (list num))
      by (symmetry; apply nth_overflow; rewrite repeat_length; lia).
    now destruct b.
Qed.

Section InitialMessages.

Variable nodes' : list Discrete.BayesNode.
Variable marginals : list (list num).
Variable n : nat.

Let value (to : nat) : list num :=
  match nth_error nodes' to with
  | Some (Discrete.Var _) => nth to marginals []
  | _ => [Fin 1]
  end.

Lemma initEdge_value (m : list (list (list num))) (from to : nat) :
  Discrete.initEdge nodes' marginals (Some m) (from, to)
  = if Nat.ltb from (List.length m) then Some (mset m from to (value to))
    else None.
Proof.
  unfold Discrete.initEdge, value.
  destruct (Nat.ltb from (List.length m)); auto.
  destruct (nth_error nodes' to) as [[v|f]|]; reflexivity.
Qed.

Lemma initEdges_None (edgesIn : list (nat * nat)) :
  fold_left (Discrete.initEdge nodes' marginals) edgesIn None = None.
Proof. induction edgesIn as [|e t IH]; simpl; auto. Qed.

(** The second loop of [initializeMessages]: it throws exactly when an
    edge leaves a position without a row, and otherwise stores the value
    of the target at every edge and leaves the other entries alone. *)
Lemma initEdges_messages (edgesIn : list (nat * nat)) :
  forall start,
    shaped n start ->
    (forall a b, In (a, b) edgesIn -> b < n) ->
    ((exists a b, In (a, b) edgesIn /\ n <= a) /\
     fold_left (Discrete.initEdge nodes' marginals) edgesIn (Some start) = None)
    \/
    ((forall a b, In (a, b) edgesIn -> a < n) /\
     exists m,
       fold_left (Discrete.initEdge nodes' marginals) edgesIn (Some start)
       = Some m /\ shaped n m /\
       forall a b,
         (In (a, b) edgesIn -> mget [] m a b = value b) /\
         (~ In (a, b) edgesIn -> mget [] m a b = mget [] start a b)).
Proof.
  induction edgesIn as [|[from to] rest IH]; intros start Hs Hb.
  - right. split; [intros a b []|]. exists start.
    split; [reflexivity|]. split; [exact Hs|].
    intros a b. split; [intros [] | reflexivity].
  - cbn [fold_left]. rewrite initEdge_value.
    destruct Hs as [Hl Hr]. rewrite Hl.
    destruct (Nat.ltb from n) eqn:Hf.
    + apply Nat.ltb_lt in Hf.
      assert (Hs' : shaped n (mset start from to (value to)))
        by (apply shaped_mset; split; auto).
      destruct (IH _ Hs' (fun a b H => Hb a b (or_intror H)))
        as [[(a & b & Hin & Ha) E]|[Hlt (m & E & Hm & Hv)]].
      * left. split; auto. exists a, b. split; auto. now right.
      * right. split.
        { intros a b [H|H]; [injection H as <- <-; auto | eauto]. }
        exists m. split; [exact E|]. split; [exact Hm|].
        intros a b. split.
        -- intros Hin.
           assert (Hdec : forall x y : nat * nat, {x = y} + {x <> y})
             by (decide equality; apply Nat.eq_dec).
           destruct (in_dec Hdec (a, b) rest) as [Hi|Hi]; [now apply Hv|].
           destruct Hin as [H|H]; [|contradiction]. injection H as <- <-.
           rewrite (proj2 (Hv from to) Hi).
           apply (@mget_mset_same _ [] (value to) start from to n); auto.
           ++ split; auto.
           ++ apply (Hb from to). now left.
        -- intros Hn.
           rewrite (proj2 (Hv a b)) by (intros H; apply Hn; now right).
           apply mget_mset_other. intros H. apply Hn. left. congruence.
    + apply Nat.ltb_ge in Hf. left. split.
      * exists from, to. split; auto. now left.
      * apply initEdges_None.
Qed.

End InitialMessages.

Lemma initMarginal_nth (nodes : list Discrete.BayesNode) (b : nat) :
  match nth_error (map Discrete.initNode nodes) b with
  | Some (Discrete.Var _) => nth b (map Discrete.initMarginal nodes) []
  | _ => [Fin 1]
  end = initialMessage nodes b.
Proof.
  unfold initialMessage. rewrite nth_error_map.
  destruct (nth_error nodes b) as [nd|] eqn:E; simpl; auto.
  assert (Hn : nth b (map Discrete.initMarginal nodes) []
               = Discrete.initMarginal nd)
    by (apply nth_error_nth; rewrite nth_error_map, E; reflexivity).
  destruct nd as [v|f]; simpl; auto.
Qed.

Lemma discrete_processGraph_length (g : FactorGraph Discrete.BayesNodeInput) :
  List.length (Discrete.nodes (fst (Discrete.processGraph g)))
  = List.length (fg_nodes g).
Proof.
  destruct (discrete_processGraph_lists g) as (_ & N & _). cbn zeta in N.
  apply (f_equal (@List.length _)) in N. now rewrite !length_map in N.
Qed.

(** What the discrete constructor returns, and when it throws. *)
Lemma discrete_constructor_result
  (g : FactorGraph Discrete.BayesNodeInput) (damping : option num) :
  let pg := fst (Discrete.processGraph g) in
  (Discrete.constructor g damping = None <->
   fg_nodes g = [] /\ Discrete.edges pg <> []) /\
  (forall s, Discrete.constructor g damping = Some s ->
     Discrete.graph s
     = Discrete.mkBayesGraph (map Discrete.initNode (Discrete.nodes pg))
         (Discrete.edges pg) /\
     Discrete.dampingFactor s = or_else damping (Fin 0) /\
     Discrete.evidence s = [] /\
     shaped (List.length (Discrete.nodes pg)) (Discrete.messages s) /\
     shaped (List.length (Discrete.nodes pg)) (Discrete.nextMessages s) /\
     Discrete.variableMarginals s
     = map Discrete.initMarginal (Discrete.nodes pg) /\
     forall a b,
       mget [] (Discrete.nextMessages s) a b = [] /\
       (In (a, b) (Discrete.edges pg) ->
        mget [] (Discrete.messages s) a b
        = initialMessage (Discrete.nodes pg) b) /\
       (~ In (a, b) (Discrete.edges pg) ->
        mget [] (Discrete.messages s) a b = [])).
Proof.
  cbn zeta. unfold Discrete.constructor, Discrete.initializeMessages.
  pose proof (discrete_processGraph_length g) as Hlen.
  destruct (discrete_processGraph_lists g) as (He & _). cbn zeta in He.
  set (pg := fst (Discrete.processGraph g)) in *.
  set (n := List.length (Discrete.nodes pg)) in *.
  destruct (fg_nodes g) as [|entry entries] eqn:Hnodes.
  - (* no node *)
    assert (Hn : n = 0) by exact Hlen.
    destruct (Discrete.edges pg) as [|[from to] rest] eqn:Hedges.
    + cbn [fold_left]. split.
      * split; [discriminate | intros [_ H]; congruence].
      * intros s Hs. injection Hs as <-.
      cbn [Discrete.graph Discrete.messages Discrete.nextMessages
           Discrete.variableMarginals Discrete.dampingFactor Discrete.evidence].
        repeat split; auto; try apply shaped_emptyMessages.
        -- apply mget_emptyMessages.
        -- intros [].
        -- intros _. apply mget_emptyMessages.
    + cbn [fold_left]. rewrite initEdge_value.
      replace (List.length (Discrete.emptyMessages n)) with 0
        by (unfold Discrete.emptyMessages; rewrite repeat_length; lia).
      cbn [Nat.ltb Nat.leb]. rewrite initEdges_None. split.
      * split; [intros _; split; [reflexivity | discriminate] | reflexivity].
      * intros s Hs. discriminate.
  - (* at least one node *)
    assert (Hne : map fst (entry :: entries) <> []) by discriminate.
    assert (Hn : n = List.length (map fst (entry :: entries)))
      by (rewrite length_map; exact Hlen).
    assert (Hb : forall a b, In (a, b) (Discrete.edges pg) -> a < n /\ b < n).
    { intros a b Hin. rewrite He in Hin. rewrite Hn.
      exact (@normalizeEdges_bound _ _ a b Hne Hin). }
    destruct (@initEdges_messages
                (map Discrete.initNode (Discrete.nodes pg))
                (map Discrete.initMarginal (Discrete.nodes pg)) n
                (Discrete.edges pg) (Discrete.emptyMessages n)
                (shaped_emptyMessages n)
                (fun a b H => proj2 (Hb a b H)))
      as [[(a & b & Hin & Ha) _]|[_ (m & E & Hm & Hv)]].
    { destruct (Hb a b Hin). lia. }
    rewrite E. split.
    + split; [discriminate | intros [H _]; discriminate].
    + intros s Hs. injection Hs as <-.
      cbn [Discrete.graph Discrete.messages Discrete.nextMessages
           Discrete.variableMarginals Discrete.dampingFactor Discrete.evidence].
      repeat split; auto; try apply shaped_emptyMessages; try apply Hm.
      * apply mget_emptyMessages.
      * intros Hin. rewrite (proj1 (Hv a b) Hin). apply initMarginal_nth.
      * intros Hin. rewrite (proj2 (Hv a b) Hin). apply mget_emptyMessages.
Qed.

(** X8.  The discrete constructor.  It throws only for a graph without
    nodes whose edge list survives the [in] test (both names inherited
    from [Object.prototype]); on every other graph it returns an engine
    with no evidence, the damping factor [damping || 0], uniform beliefs
    and marginals, an empty next-message buffer, and one message per
    directed edge: uniform over the values of the target when the target
    is a variable, the array [[1]] when it is a factor.  Entries off the
    edges are empty. *)
Theorem discrete_constructor_spec
  (g : FactorGraph Discrete.BayesNodeInput) (damping : option num) :
  let pg := fst (Discrete.processGraph g) in
  (Discrete.constructor g damping = None <->
   fg_nodes g = [] /\ Discrete.edges pg <> []) /\
  (forall s, Discrete.constructor g damping = Some s ->
     Discrete.graph s
     = Discrete.mkBayesGraph (map Discrete.initNode (Discrete.nodes pg))
         (Discrete.edges pg) /\
     Discrete.dampingFactor s = or_else damping (Fin 0) /\
     Discrete.evidence s = [] /\
     Discrete.variableMarginals s
     = map Discrete.initMarginal (Discrete.nodes pg) /\
     forall a b,
       mget [] (Discrete.nextMessages s) a b = [] /\
       (In (a, b) (Discrete.edges pg) ->
        mget [] (Discrete.messages s) a b
        = initialMessage (Discrete.nodes pg) b) /\
       (~ In (a, b) (Discrete.edges pg) ->
        mget [] (Discrete.messages s) a b = [])).
Proof.
  destruct (discrete_constructor_result g damping) as [Hnone Hsome].
  cbn zeta in *. split; [exact Hnone|].
  intros s Hs. destruct (Hsome s Hs) as (G & D & E & _ & _ & V & M).
  repeat split; auto; apply M.
Qed.

(* ================================================================= *)
(** ** The discrete engine without damping option *)

Lemma set_nth_same_value (A : Type) (k : nat) (x : A) (l : list A) :
  nth_error l k = Some x -> set_nth k x l = l.
Proof.
  revert k; induction l as [|y t IH]; intros [|k] H; simpl in *;
    try discriminate; auto.
  - now inversion H.
  - f_equal. now apply IH.
Qed.

Lemma indexed_nth (A : Type) (l : list A) :
  forall a k x, In (k, x) (combine (seq a (List.length l)) l) ->
                a <= k /\ nth_error l (k - a) = Some x.
Proof.
  induction l as [|y t IH]; intros a k x H; simpl in *; [destruct H|].
  destruct H as [H|H].
  - inversion H; subst. rewrite Nat.sub_diag. auto.
  - apply IH in H. destruct H as [Hle Hn]. split; [lia|].
    replace (k - a) with (S (k - S a)) by lia. exact Hn.
Qed.

Lemma dampMessage_zero (xs ys : list R) :
  List.length ys = List.length xs -> Rsum ys = 1%R ->
  BeliefUtils.dampMessage (map Fin xs) (map Fin ys) (Fin 0) = map Fin ys.
Proof.
  intros Hl Hs.
  rewrite (@dampMessage_Fin 0%R xs ys Hl)
    by (rewrite (@Rblend_zero xs ys Hl), Hs; lra).
  rewrite (@Rblend_zero xs ys Hl), Hs. now rewrite map_div_one.
Qed.

Section Undamped.

Import Discrete.

Lemma constructor_marginalsMatch g damping s :
  constructor g damping = Some s -> marginalsMatch s.
Proof.
  unfold constructor, initializeMessages.
  destruct (fold_left _ _ _) as [m|]; [|discriminate].
  intros H. injection H as <-. intros k v. cbn [graph nodes variableMarginals].
  rewrite !nth_error_map.
  destruct (nth_error _ k) as [[v0|f0]|]; simpl; try discriminate.
  intros H. injection H as <-. reflexivity.
Qed.

Lemma setEvidence_marginalsMatch nodeId value s :
  marginalsMatch s -> marginalsMatch (setEvidence nodeId value s).
Proof.
  intros Hm. unfold setEvidence.
  destruct (findNode s nodeId) as [[k [v|f]]|] eqn:E; auto.
  pose proof (DiscreteValid.findNode_nth _ _ E) as Hk.
  pose proof (Hm k v Hk) as Hmk.
  intros j w. cbn [graph nodes variableMarginals].
  destruct (Nat.eq_dec k j) as [<-|Hne].
  - rewrite !nth_error_set_nth_same
      by (apply nth_error_Some; congruence).
    intros H. injection H as <-. reflexivity.
  - rewrite !nth_error_set_nth_other by exact Hne. apply Hm.
Qed.

Lemma setEvidence_damping nodeId value s :
  dampingFactor (setEvidence nodeId value s) = dampingFactor s.
Proof.
  unfold setEvidence. destruct (findNode s nodeId) as [[k [v|f]]|]; reflexivity.
Qed.

(** Without damping a belief update changes nothing. *)
Lemma updateBelief_undamped s k : undamped s -> updateBelief s k = s.
Proof.
  intros ((Hn & Hm & Hx & _) & Hlog & Hd & Hmar). unfold updateBelief.
  destruct (nth_error (nodes (graph s)) k) as [[v|f]|] eqn:E; auto.
  destruct (map_has (evidence s) k); auto.
  assert (Hv : validNode (Var v)).
  { rewrite Forall_forall in Hn. apply Hn. eapply nth_error_In; eauto. }
  destruct Hv as (Hdom & (os & Eos & Hos & Sos) & Hlen).
  assert (Hl : logConsistent (Var v)).
  { unfold DiscreteInv.logInv in Hlog. rewrite Forall_forall in Hlog.
    apply Hlog. eapply nth_error_In; eauto. }
  destruct (@DiscreteValid.mapi_from_positive _
              (fun i (_ : num) =>
                 Num.exp
                   (fold_left add
                      (map (fun neighbor =>
                              Num.log
                                (or_else
                                   (nth_error (mget [] (messages s) neighbor k) i)
                                   (Fin 1)))
                           (var_neighbors v))
                      (Fin 0)))
              (possibleValues v)
              (fun i _ => @DiscreteValid.newMarginal_entry s k (var_neighbors v) i Hm) 0)
    as (xs & Exs & Hxs & Lxs).
  assert (Hne : xs <> []).
  { intros ->. destruct (possibleValues v); [congruence | discriminate]. }
  assert (Enew : BeliefUtils.normalize (newMarginal s k v)
                 = map Fin (map (fun x => (x / Rsum xs)%R) xs)).
  { unfold newMarginal, mapi. rewrite Exs. apply normalize_Fin.
    pose proof (Rsum_positive Hne Hxs). lra. }
  assert (Lold : List.length os = List.length (map (fun x => (x / Rsum xs)%R) xs)).
  { rewrite length_map, Lxs, <- Hlen, Eos, length_map. reflexivity. }
  cbv zeta. rewrite Enew, Hd. rewrite Eos at 1 2 3.
  rewrite (dampMessage_zero _ _ Lold Sos), <- Eos.
  simpl in Hl. rewrite <- Hl.
  replace (setBeliefs (Var v) (currentBelief v) (logBelief v)) with (Var v)
    by (destruct v; reflexivity).
  rewrite (set_nth_same_value _ _ E), (set_nth_same_value _ _ (Hmar k v E)).
  rewrite <- Hd. destruct s as [[ns es] ms nx vm d ev]. reflexivity.
Qed.

Lemma updateBeliefs_undamped s : undamped s -> updateBeliefs s = s.
Proof.
  intros H. unfold updateBeliefs.
  generalize (seq 0 (List.length (nodes (graph s)))).
  intros l. induction l as [|k t IH]; simpl; auto.
  now rewrite updateBelief_undamped.
Qed.

Lemma updateAllMessages_undamped s :
  undamped s -> undamped (updateAllMessages s).
Proof.
  intros (Hv & Hlog & Hd & Hmar).
  destruct (DiscreteFrame.updateAllMessages_frame s) as (G & _ & M & D & _).
  split; [now apply DiscreteValid.updateAllMessages_inv|].
  split; [unfold DiscreteInv.logInv; now rewrite G|].
  split; [congruence|].
  unfold marginalsMatch. now rewrite G, M.
Qed.

(** Without damping a sweep changes the messages only. *)
Lemma sweep_undamped s :
  undamped s -> undamped (sweep s) /\ graph (sweep s) = graph s.
Proof.
  intros H. unfold sweep.
  rewrite updateBeliefs_undamped by (now apply updateAllMessages_undamped).
  split; [now apply updateAllMessages_undamped|].
  apply DiscreteFrame.updateAllMessages_frame.
Qed.

Lemma max_of_zeros (l : list num) :
  (forall x, In x l -> x = Fin 0) ->
  forall acc, acc = NInf \/ acc = Fin 0 ->
    fold_left max2 l acc = NInf \/ fold_left max2 l acc = Fin 0.
Proof.
  induction l as [|x t IH]; intros Hl acc Hacc; simpl; auto.
  apply IH; [intros y Hy; apply Hl; now right|].
  rewrite (Hl x (or_introl eq_refl)). right.
  destruct Hacc as [->| ->]; [reflexivity|].
  unfold max2, lt. destruct (Rlt_dec 0 0); [lra | reflexivity].
Qed.

Lemma unchanged_entries (rs : list R) :
  forall x,
    In x (mapi (fun i b =>
                  Num.abs (sub b (to_number (nth_error (map Fin rs) i))))
               (map Fin rs)) ->
    x = Fin 0.
Proof.
  intros x Hx. apply In_nth_error in Hx. destruct Hx as [i Hi].
  unfold mapi in Hi. rewrite nth_error_mapi_from in Hi. cbn [Nat.add] in Hi.
  rewrite nth_error_map in Hi.
  destruct (nth_error rs i) as [r|]; simpl in Hi; [|discriminate].
  injection Hi as <-. f_equal.
  replace (r + - r)%R with 0%R by lra. apply Rabs_R0.
Qed.

Lemma max2_zero (x : num) :
  x = NInf \/ x = Fin 0 -> max2 (Fin 0) x = Fin 0.
Proof.
  intros [->| ->]; [reflexivity|].
  unfold max2, lt. destruct (Rlt_dec 0 0); [lra | reflexivity].
Qed.

Lemma fold_max2_zero (A : Type) (diff : A -> num) (items : list A) :
  (forall x, In x items -> diff x = NInf \/ diff x = Fin 0) ->
  fold_left (fun m x => max2 m (diff x)) items (Fin 0) = Fin 0.
Proof.
  induction items as [|x t IH]; intros H; cbn [fold_left]; auto.
  rewrite max2_zero by (apply H; now left).
  apply IH. intros; apply H; now right.
Qed.

(** Beliefs that did not change differ by 0. *)
Lemma maxDiff_unchanged s :
  Forall validNode (nodes (graph s)) ->
  maxDiff (variableBeliefs s) s = Fin 0.
Proof.
  intros Hn. unfold maxDiff.
  apply (@fold_max2_zero _
           (fun ib : nat * list num =>
              Num.max
                (mapi (fun i b =>
                         Num.abs
                           (sub b (to_number
                                     (match nth_error (variableBeliefs s) (fst ib) with
                                      | Some old => nth_error old i
                                      | None => None
                                      end))))
                      (snd ib)))).
  intros [j bel] Hin. cbn [fst snd].
  apply indexed_nth in Hin. destruct Hin as [_ Hj].
  rewrite Nat.sub_0_r in Hj. rewrite Hj.
  apply nth_error_In in Hj. unfold variableBeliefs in Hj.
  apply in_flat_map in Hj. destruct Hj as [[v|f] [Hv Hin]]; [|destruct Hin].
  destruct Hin as [<-|[]].
  rewrite Forall_forall in Hn. destruct (Hn _ Hv) as (_ & (rs & E & _) & _).
  simpl in E. rewrite E.
  exact (@max_of_zeros _ (@unchanged_entries rs) NInf (or_introl eq_refl)).
Qed.

Lemma iterate_undamped maxIterations tolerance remaining :
  forall i s,
    undamped s ->
    let o := iterate maxIterations tolerance remaining i s in
    undamped (final o) /\ graph (final o) = graph s /\
    (lt (Fin 0) tolerance = true -> remaining <> 0 ->
     console o
     = [("Converged after " ++ show_nat (i + 1) ++ " iterations")%string]).
Proof.
  induction remaining as [|r IH]; intros i s H; cbn [iterate].
  - cbn [final console]. split; [exact H|]. split; [reflexivity|].
    intros _ Hr. congruence.
  - destruct (sweep_undamped H) as [H' G'].
    assert (Hd : maxDiff (variableBeliefs s) (sweep s) = Fin 0).
    { replace (variableBeliefs s) with (variableBeliefs (sweep s))
        by (unfold variableBeliefs; now rewrite G').
      apply maxDiff_unchanged. apply H'. }
    rewrite Hd. destruct (lt (Fin 0) tolerance) eqn:Et.
    + cbn [final console]. split; [exact H'|]. split; [exact G'|].
      reflexivity.
    + destruct (IH (S i) _ H') as (U & G & _). cbv zeta.
      split; [exact U|]. split; [congruence | discriminate].
Qed.

Lemma reachable_undamped g s :
  nonEmptyDomains g -> reachable evidenceInDomain g None s -> undamped s.
Proof.
  intros Hg Hr. induction Hr as [s Hc|s nodeId value Hr IH Hal|s m t Hr IH].
  - split; [eapply DiscreteValid.constructor_inv; eauto; now left|].
    split; [eapply DiscreteLog.constructor_logInv; eauto|].
    split; [|eapply constructor_marginalsMatch; eauto].
    unfold constructor, initializeMessages in Hc.
    destruct (fold_left _ _ _); [|discriminate]. injection Hc as <-.
    reflexivity.
  - destruct IH as (Hv & Hl & Hd & Hm).
    split; [now apply DiscreteValid.setEvidence_inv|].
    split; [now apply DiscreteLog.setEvidence_logInv|].
    split; [now rewrite setEvidence_damping|].
    now apply setEvidence_marginalsMatch.
  - unfold runIterations. now apply iterate_undamped.
Qed.

End Undamped.

(* ================================================================= *)
(** ** Messages and beliefs of the Gaussian engine *)

Lemma add_zero_l (x : num) : add (Fin 0) x = x.
Proof. destruct x; simpl; auto. f_equal. lra. Qed.

(** [reduce] without initial value adds up a non-empty array. *)
Lemma reduce1_add (l : list num) :
  l <> [] -> reduce1 add l = Some (sum l).
Proof.
  destruct l as [|x t]; [congruence|]. intros _. unfold reduce1, sum.
  cbn [fold_left]. now rewrite add_zero_l.
Qed.

Lemma fold_pair_sums (A : Type) (f g : A -> num) (l : list A) :
  forall a b,
    fold_left (fun acc x => (add (fst acc) (f x), add (snd acc) (g x))) l (a, b)
    = (fold_left add (map f l) a, fold_left add (map g l) b).
Proof. induction l as [|x t IH]; intros a b; simpl; auto. Qed.

Section GaussianBeliefs.

Import Gaussian.

Lemma updateBelief_at s k :
  updateBelief s k
  = match nth_error (nodes (graph s)) k with
    | Some n =>
        mkGaussianBeliefPropagation
          (mkGaussianGraph (set_nth k (gaussianBeliefAt s k n) (nodes (graph s)))
             (edges (graph s)))
          (messages s) (nextMessages s) (dampingFactor s) (evidence s)
    | None => s
    end.
Proof.
  unfold updateBelief, gaussianBeliefAt, posterior, totalPrecision, weightedMean.
  destruct (nth_error (nodes (graph s)) k) as [[v|f]|] eqn:E; auto.
  - destruct (map_has (evidence s) k).
    + rewrite (set_nth_same_value _ _ E).
      destruct s as [[ns es] ms nx d ev]. reflexivity.
    + rewrite (@fold_pair_sums _
                 (fun neighbor => entry (m_precision (messages s)) neighbor k)
                 (fun neighbor =>
                    mul (entry (m_precision (messages s)) neighbor k)
                        (entry (m_mean (messages s)) neighbor k))).
      unfold sum. cbv zeta. destruct (gt _ _); reflexivity.
  - rewrite (set_nth_same_value _ _ E).
    destruct s as [[ns es] ms nx d ev]. reflexivity.
Qed.

(** The loop of [updateBeliefs] over the positions [ks]: it rewrites the
    nodes at these positions and nothing else. *)
Lemma updateBeliefs_fold (s0 : GaussianBeliefPropagation) (ks : list nat) :
  NoDup ks ->
  forall s,
    messages s = messages s0 -> evidence s = evidence s0 ->
    nextMessages s = nextMessages s0 -> dampingFactor s = dampingFactor s0 ->
    edges (graph s) = edges (graph s0) ->
    List.length (nodes (graph s)) = List.length (nodes (graph s0)) ->
    (forall k, In k ks ->
       nth_error (nodes (graph s)) k = nth_error (nodes (graph s0)) k) ->
    let s' := fold_left updateBelief ks s in
    messages s' = messages s0 /\ evidence s' = evidence s0 /\
    nextMessages s' = nextMessages s0 /\ dampingFactor s' = dampingFactor s0 /\
    edges (graph s') = edges (graph s0) /\
    List.length (nodes (graph s')) = List.length (nodes (graph s0)) /\
    forall k,
      nth_error (nodes (graph s')) k
      = if existsb (Nat.eqb k) ks
        then option_map (gaussianBeliefAt s0 k) (nth_error (nodes (graph s0)) k)
        else nth_error (nodes (graph s)) k.
Proof.
  induction 1 as [|j t Hj Hnd IH]; intros s Hm He Hx Hd Hg Hl Hk; cbn zeta.
  - simpl. repeat split; auto.
  - cbn [fold_left].
    assert (Hs1 : messages (updateBelief s j) = messages s0 /\
                  evidence (updateBelief s j) = evidence s0 /\
                  nextMessages (updateBelief s j) = nextMessages s0 /\
                  dampingFactor (updateBelief s j) = dampingFactor s0 /\
                  edges (graph (updateBelief s j)) = edges (graph s0) /\
                  List.length (nodes (graph (updateBelief s j)))
                  = List.length (nodes (graph s0)) /\
                  forall k,
                    nth_error (nodes (graph (updateBelief s j))) k
                    = if Nat.eqb k j
                      then option_map (gaussianBeliefAt s0 k)
                             (nth_error (nodes (graph s0)) k)
                      else nth_error (nodes (graph s)) k).
    { rewrite updateBelief_at.
      pose proof (Hk j (or_introl eq_refl)) as Hjj.
      destruct (nth_error (nodes (graph s)) j) as [n|] eqn:E.
      - cbn [messages evidence nextMessages dampingFactor graph edges nodes].
        rewrite length_set_nth. repeat split; auto.
        intros k. destruct (Nat.eqb k j) eqn:Ekj.
        + apply Nat.eqb_eq in Ekj. subst k.
          rewrite nth_error_set_nth_same by (apply nth_error_Some; congruence).
          rewrite <- Hjj. cbn [option_map]. f_equal.
          unfold gaussianBeliefAt, posterior, totalPrecision, weightedMean.
          now rewrite Hm, He.
        + apply Nat.eqb_neq in Ekj.
          apply nth_error_set_nth_other. congruence.
      - repeat split; auto. intros k. destruct (Nat.eqb k j) eqn:Ekj; auto.
        apply Nat.eqb_eq in Ekj. subst k. now rewrite <- Hjj, E. }
    destruct Hs1 as (Hm1 & He1 & Hx1 & Hd1 & Hg1 & Hl1 & Hn1).
    destruct (IH (updateBelief s j) Hm1 He1 Hx1 Hd1 Hg1 Hl1) as
      (Hm2 & He2 & Hx2 & Hd2 & Hg2 & Hl2 & Hn2).
    { intros k Hin. rewrite Hn1.
      destruct (Nat.eqb k j) eqn:Ekj.
      - apply Nat.eqb_eq in Ekj. subst k. contradiction.
      - apply Hk. now right. }
    repeat split; auto. intros k. rewrite Hn2. cbn [existsb].
    destruct (existsb (Nat.eqb k) t) eqn:Et.
    + now rewrite orb_true_r.
    + rewrite orb_false_r, Hn1. reflexivity.
Qed.

End GaussianBeliefs.

(** X11.  [updateBeliefs] of the Gaussian engine.  Every variable without
    evidence receives the product of the current messages of its
    neighbors: with [P] the sum of their precisions and [W] the sum of
    their precision-weighted means, the variance [1 / (P + 1e-10)] and the
    mean [W / (P + 1e-10)] when [P > 0], and its prior mean and variance
    otherwise (no neighbor, or no information).  Observed variables and
    factors are left alone, and so are the messages, the evidence and the
    number of nodes. *)
Theorem gaussian_updateBeliefs_posterior
  (s : Gaussian.GaussianBeliefPropagation) :
  let s' := Gaussian.updateBeliefs s in
  Gaussian.messages s' = Gaussian.messages s /\
  Gaussian.evidence s' = Gaussian.evidence s /\
  map (fun n => (Gaussian.name n, Gaussian.neighbors n))
      (Gaussian.nodes (Gaussian.graph s'))
  = map (fun n => (Gaussian.name n, Gaussian.neighbors n))
        (Gaussian.nodes (Gaussian.graph s)) /\
  forall k,
    nth_error (Gaussian.nodes (Gaussian.graph s')) k
    = option_map (gaussianBeliefAt s k)
        (nth_error (Gaussian.nodes (Gaussian.graph s)) k).
Proof.
  cbv zeta. unfold Gaussian.updateBeliefs.
  destruct (@updateBeliefs_fold s
              (seq 0 (List.length (Gaussian.nodes (Gaussian.graph s))))
              (seq_NoDup _ _) s eq_refl eq_refl eq_refl eq_refl eq_refl eq_refl
              (fun k _ => eq_refl))
    as (Hm & He & _ & _ & _ & Hl & Hn).
  assert (Hk : forall k,
             nth_error
               (Gaussian.nodes
                  (Gaussian.graph
                     (fold_left Gaussian.updateBelief
                        (seq 0 (List.length (Gaussian.nodes (Gaussian.graph s))))
                        s))) k
             = option_map (gaussianBeliefAt s k)
                 (nth_error (Gaussian.nodes (Gaussian.graph s)) k)).
  { intros k. rewrite Hn.
    destruct (Nat.lt_ge_cases k (List.length (Gaussian.nodes (Gaussian.graph s))))
      as [Hlt|Hge].
    - now rewrite GaussianDamping.existsb_seq.
    - destruct (existsb _ _); auto.
      replace (nth_error (Gaussian.nodes (Gaussian.graph s)) k)
        with (@None Gaussian.GaussianNode)
        by (symmetry; now apply nth_error_None).
      reflexivity. }
  repeat split; auto.
  apply nth_error_ext. intros k. rewrite !nth_error_map, Hk.
  destruct (nth_error (Gaussian.nodes (Gaussian.graph s)) k) as [[v|f]|];
    cbn [option_map gaussianBeliefAt]; auto.
  destruct (map_has _ _); auto. unfold posterior. cbv zeta.
  destruct (gt _ _); reflexivity.
Qed.

(* ================================================================= *)
(** ** Messages and beliefs of the discrete engine *)

Section DiscreteMessages.

Import Discrete.

Open Scope R_scope.

Lemma mapi_from_index (A B : Type) (g : nat -> B) (l : list A) :
  forall a, mapi_from (fun i _ => g i) a l = map g (seq a (List.length l)).
Proof. induction l as [|x t IH]; intros a; simpl; auto. now rewrite IH. Qed.

Lemma or_else_incomingWeight (x : option num) :
  (forall y, x = Some y -> okmsg y) ->
  or_else x (Fin 1) = Fin (incomingWeight x) /\ 0 < incomingWeight x.
Proof.
  intros H. destruct x as [y|]; [|simpl; split; [reflexivity | lra]].
  destruct (H y eq_refl) as [->|(r & -> & Hr)]; [simpl; split; [reflexivity|lra]|].
  unfold or_else, truthy, incomingWeight.
  destruct (Req_dec_T r 0); split; auto; lra.
Qed.

Lemma or_else_divisorWeight (x : option num) :
  (forall y, x = Some y -> okmsg y) ->
  or_else x BeliefUtils.LOG_EPSILON = Fin (divisorWeight x) /\
  0 < divisorWeight x.
Proof.
  intros H. unfold BeliefUtils.LOG_EPSILON.
  destruct x as [y|]; [|simpl; split; [reflexivity | lra]].
  destruct (H y eq_refl) as [->|(r & -> & Hr)]; [simpl; split; [reflexivity|lra]|].
  unfold or_else, truthy, divisorWeight.
  destruct (Req_dec_T r 0); split; auto; lra.
Qed.

Lemma okMatrix_entry s f k i y :
  okMatrix (messages s) ->
  nth_error (mget [] (messages s) f k) i = Some y -> okmsg y.
Proof.
  intros Hm Hy. apply nth_error_In in Hy.
  pose proof (DiscreteValid.okMatrix_mget f k Hm) as Hrow.
  rewrite Forall_forall in Hrow. auto.
Qed.

Lemma exp_sum_of_logs (ws : list R) :
  Forall (fun w => 0 < w) ws ->
  Rtrigo_def.exp (Rsum (map ln ws)) = Rprod ws.
Proof.
  induction 1 as [|w t Hw Ht IH]; simpl; [apply exp_0|].
  now rewrite exp_plus, exp_ln, IH.
Qed.

Lemma newMarginal_products s k v :
  okMatrix (messages s) ->
  newMarginal s k v
  = map Fin (map (incomingProduct s k (var_neighbors v))
                 (seq 0 (List.length (possibleValues v)))).
Proof.
  intros Hm. unfold newMarginal, mapi. rewrite mapi_from_index, map_map.
  apply map_ext. intros i. unfold incomingProduct.
  set (ws := map (fun f => incomingWeight (nth_error (mget [] (messages s) f k) i))
                 (var_neighbors v)).
  assert (Hws : Forall (fun w => 0 < w) ws).
  { apply Forall_forall. intros w Hw. apply in_map_iff in Hw.
    destruct Hw as [f [<- _]]. apply or_else_incomingWeight.
    intros y. now apply okMatrix_entry. }
  assert (E : map (fun neighbor =>
                     Num.log (or_else (nth_error (mget [] (messages s) neighbor k) i)
                                      (Fin 1)))
                  (var_neighbors v)
              = map Fin (map ln ws)).
  { unfold ws. rewrite !map_map. apply map_ext. intros f.
    destruct (@or_else_incomingWeight (nth_error (mget [] (messages s) f k) i))
      as [-> Hpos]; [intros y; now apply okMatrix_entry|].
    now apply DiscreteValid.log_positive. }
  rewrite E, fold_add_Fin. cbn [Num.exp]. f_equal.
  rewrite Rplus_0_l. now apply exp_sum_of_logs.
Qed.

Lemma dividedOut_entries s variable factor (ms : list R) :
  okMatrix (messages s) -> Forall (fun m => 0 <= m) ms ->
  forall a,
    map Num.exp
      (mapi_from
         (fun i m =>
            sub (Num.log m)
                (Num.log (or_else (nth_error (mget [] (messages s) factor variable) i)
                                  BeliefUtils.LOG_EPSILON)))
         a (map Fin ms))
    = map Fin
        (mapi_from
           (fun i m =>
              m / divisorWeight (nth_error (mget [] (messages s) factor variable) i))
           a ms).
Proof.
  intros Hm. induction 1 as [|m t H0 Ht IH]; intros a; cbn [map mapi_from]; auto.
  rewrite IH. f_equal.
  destruct (@or_else_divisorWeight
              (nth_error (mget [] (messages s) factor variable) a))
    as [-> Hd]; [intros y; now apply okMatrix_entry|].
  rewrite (DiscreteValid.log_positive Hd).
  destruct (Req_dec_T m 0) as [->|Hne].
  - rewrite log_zero. cbn [sub neg add Num.exp]. f_equal.
    unfold Rdiv. now rewrite Rmult_0_l.
  - assert (Hpos : 0 < m) by lra.
    rewrite (DiscreteValid.log_positive Hpos). cbn [sub neg add Num.exp].
    f_equal. rewrite exp_plus, exp_Ropp, !exp_ln by lra. reflexivity.
Qed.

End DiscreteMessages.

(* ================================================================= *)
(** ** The factor-to-variable message of the discrete engine *)

Section FactorToVariable.

Import Discrete.

Open Scope R_scope.

Lemma finiteOrNInf_add (x y : num) :
  finiteOrNInf x -> finiteOrNInf y -> finiteOrNInf (add x y).
Proof.
  intros [->|[a ->]] [->|[b ->]]; simpl; unfold finiteOrNInf; eauto.
Qed.

Lemma finiteOrNInf_fold_add (l : list num) :
  Forall finiteOrNInf l ->
  forall a, finiteOrNInf a -> finiteOrNInf (fold_left add l a).
Proof.
  induction 1 as [|x t Hx Ht IH]; intros a Ha; simpl; auto.
  apply IH. now apply finiteOrNInf_add.
Qed.

Lemma finiteOrNInf_max2 (x y : num) :
  finiteOrNInf x -> finiteOrNInf y -> finiteOrNInf (max2 x y).
Proof.
  intros [->|[a ->]] [->|[b ->]]; unfold max2, lt, finiteOrNInf; eauto.
  destruct (Rlt_dec a b); eauto.
Qed.

Lemma finiteOrNInf_max (l : list num) :
  Forall finiteOrNInf l -> finiteOrNInf (Num.max l).
Proof.
  intros H. unfold Num.max.
  assert (G : forall a, finiteOrNInf a -> finiteOrNInf (fold_left max2 l a)).
  { induction H as [|x t Hx Ht IH]; intros a Ha; simpl; auto.
    apply IH. now apply finiteOrNInf_max2. }
  apply G. now left.
Qed.

(** [logSumExp] of log-values that are finite or [-Infinity] is finite. *)
Lemma logSumExp_is_finite (l : list num) :
  Forall finiteOrNInf l -> exists r, BeliefUtils.logSumExp l = Fin r.
Proof.
  intros H. unfold BeliefUtils.logSumExp, BeliefUtils.LOG_EPSILON.
  destruct (Nat.eqb (List.length l) 0); [eauto|].
  destruct (finiteOrNInf_max H) as [E|[a E]]; rewrite E; cbn [Num.eqb]; [eauto|].
  cbv zeta. rewrite fold_add_map.
  destruct (@max_Fin l a E) as [Hb Hin].
  destruct (shifted_exp_terms Hb) as (rs & Ers & Hrs & H1).
  rewrite Ers, fold_add_Fin.
  assert (Hpos : 0 < 0 + Rsum rs).
  { pose proof (@Rsum_bounds rs 1 Hrs (H1 Hin)). lra. }
  rewrite (DiscreteValid.log_positive Hpos). simpl. eauto.
Qed.

Lemma fold_add_over (A : Type) (f : A -> num) (l : list A) :
  forall a,
    fold_left (fun sum x => add sum (f x)) l a = fold_left add (map f l) a.
Proof. induction l as [|x t IH]; intros a; simpl; auto. Qed.

Lemma map_to_reals (A : Type) (f : A -> num) (l : list A) :
  (forall x, In x l -> exists r, f x = Fin r) ->
  exists rs, map f l = map Fin rs /\ List.length rs = List.length l.
Proof.
  induction l as [|x t IH]; intros H; simpl.
  - exists []. auto.
  - destruct (H x (or_introl eq_refl)) as [r Hr].
    destruct IH as (rs & E & L); [intros; apply H; now right|].
    exists (r :: rs). simpl. rewrite Hr, E, L. auto.
Qed.

Lemma Forall2_nth_error (A B : Type) (P : A -> B -> Prop) (l : list A)
  (l' : list B) :
  Forall2 P l l' ->
  forall i x, nth_error l i = Some x ->
    exists y, nth_error l' i = Some y /\ P x y.
Proof.
  induction 1 as [|a b t t' Hab Ht IH]; intros [|i] x Hx; simpl in *;
    try discriminate.
  - inversion Hx; subst. eauto.
  - eauto.
Qed.

Variable s : BeliefPropagation.
Hypothesis Hn : Forall validNode (nodes (graph s)).
Hypothesis Hmar : marginalsMatch s.
Hypothesis Hm : okMatrix (messages s).

(** An entry of the table of log-terms, at a value index of the variable
    [w]. *)
Lemma logTerm_entry (fid w v : nat) :
  (v < List.length (possibleValuesOf s w))%nat ->
  exists x,
    nth_error
      (mapi (fun i b =>
               sub (Num.log b)
                   (Num.log (or_else (nth_error (mget [] (messages s) w fid) i)
                                     BeliefUtils.LOG_EPSILON)))
            (nth w (variableMarginals s) []))
      v = Some x /\ finiteOrNInf x.
Proof.
  intros Hv. unfold possibleValuesOf in Hv.
  destruct (nth_error (nodes (graph s)) w) as [[vw|fw]|] eqn:E;
    try (simpl in Hv; lia).
  pose proof (Hmar _ E) as Hw.
  rewrite (nth_error_nth _ _ _ Hw).
  assert (Hvalid : validNode (Var vw)).
  { rewrite Forall_forall in Hn. apply Hn. eapply nth_error_In; eauto. }
  destruct Hvalid as (_ & (bs & Ebs & Hbs & _) & Hlen).
  rewrite Ebs in *. rewrite length_map in Hlen.
  destruct (nth_error bs v) as [b|] eqn:Eb;
    [|apply nth_error_None in Eb; lia].
  unfold mapi. rewrite nth_error_mapi_from, nth_error_map, Eb.
  cbn [option_map Nat.add]. eexists. split; [reflexivity|].
  destruct (@or_else_divisorWeight (nth_error (mget [] (messages s) w fid) v))
    as [-> Hd]; [intros y; now apply okMatrix_entry|].
  rewrite (DiscreteValid.log_positive Hd).
  assert (Hb : 0 <= b).
  { rewrite Forall_forall in Hbs. apply Hbs. eapply nth_error_In; eauto. }
  destruct (Req_dec_T b 0) as [->|Hne].
  - rewrite log_zero. now left.
  - assert (Hpos : 0 < b) by lra.
    rewrite (DiscreteValid.log_positive Hpos). right. simpl. eauto.
Qed.

(** The factor-to-variable message is a probability distribution. *)
Lemma factorMessage_distribution (fid : nat) (factor : BayesFactor)
  (variable : nat) :
  finiteLogPotential factor ->
  possibleValuesOf s variable <> [] ->
  exists msg,
    updateFactorToVariableMessage s fid factor variable
    = withNext s (mset (nextMessages s) fid variable msg) /\
    distribution msg /\
    List.length msg = List.length (possibleValuesOf s variable).
Proof.
  intros Hf Hv. unfold updateFactorToVariableMessage. cbv zeta.
  eexists. split; [reflexivity|].
  match goal with
  | |- distribution (map _ (map ?f ?l)) /\ _ =>
      destruct (@map_to_reals _ f l) as (ls & E & L)
  end.
  - intros valIndex _. apply logSumExp_is_finite.
    apply Forall_forall. intros t Ht. apply in_map_iff in Ht.
    destruct Ht as [combo [<- Hcombo]].
    apply in_combinations in Hcombo.
    destruct (Hf (fold_left
                    (fun values iv =>
                       assign
                         (match
                            nth_error
                              (filter (fun v => negb (Nat.eqb v variable))
                                      (fac_neighbors factor)) (fst iv)
                          with
                          | Some w => indexOf w (fac_neighbors factor)
                          | None => None
                          end) (snd iv) values)
                    (indexed combo)
                    (assign (indexOf variable (fac_neighbors factor)) valIndex
                       (repeat None (List.length (fac_neighbors factor))))))
      as [p ->].
    apply finiteOrNInf_add; [right; eauto|].
    rewrite (@fold_add_over _
               (fun iv : nat * nat =>
                  to_number
                    (match
                       nth_error
                         (map (fun w =>
                                 mapi (fun i b =>
                                         sub (Num.log b)
                                             (Num.log
                                                (or_else
                                                   (nth_error
                                                      (mget [] (messages s) w fid) i)
                                                   BeliefUtils.LOG_EPSILON)))
                                      (nth w (variableMarginals s) []))
                              (filter (fun v => negb (Nat.eqb v variable))
                                      (fac_neighbors factor)))
                         (fst iv)
                     with
                     | Some row => nth_error row (snd iv)
                     | None => None
                     end))).
    apply finiteOrNInf_fold_add; [|right; eauto].
    apply Forall_forall. intros x Hx. apply in_map_iff in Hx.
    destruct Hx as [[i v] [<- Hiv]]. cbn [fst snd].
    apply indexed_nth in Hiv. destruct Hiv as [_ Hiv].
    rewrite Nat.sub_0_r in Hiv.
    destruct (Forall2_nth_error Hcombo _ Hiv) as (arr & Harr & Hin).
    rewrite nth_error_map in Harr.
    destruct (nth_error (filter _ _) i) as [w|] eqn:Ew; [|discriminate].
    cbn [option_map] in Harr. inversion Harr; subst arr. apply in_seq in Hin.
    rewrite nth_error_map, Ew. cbn [option_map].
    destruct (@logTerm_entry fid w v) as (x & -> & Hx); [lia|].
    exact Hx.
  - rewrite E. split; [|now rewrite !length_map, L, length_seq].
    apply softmax_of_reals. intros ->. simpl in L.
    symmetry in L. rewrite length_seq in L.
    apply length_zero_iff_nil in L. contradiction.
Qed.

End FactorToVariable.

(** X14.  The factor-to-variable message of the discrete engine is a
    probability distribution over the values of the target variable:
    finite entries, none negative, adding up to 1.  This holds whenever the
    factor's log-potential is finite, the variables are valid (a belief
    that is a distribution over their non-empty domain, stored as their
    marginal) and the current messages hold NaN or non-negative finite
    entries only. *)
Theorem discrete_factor_message_is_distribution
  (s : Discrete.BeliefPropagation) (fid : nat) (factor : Discrete.BayesFactor)
  (variable : nat) :
  Forall validNode (Discrete.nodes (Discrete.graph s)) ->
  marginalsMatch s ->
  okMatrix (Discrete.messages s) ->
  finiteLogPotential factor ->
  Discrete.possibleValuesOf s variable <> [] ->
  exists msg,
    Discrete.updateFactorToVariableMessage s fid factor variable
    = Discrete.withNext s (mset (Discrete.nextMessages s) fid variable msg) /\
    distribution msg /\
    List.length msg = List.length (Discrete.possibleValuesOf s variable).
Proof.
  intros Hn Hmar Hm Hf Hv. now apply factorMessage_distribution.
Qed.

(* ================================================================= *)
(** ** Evidence freezes the outgoing messages: the discrete engine *)

Lemma fold_left_preserves_in (A B : Type) (f : A -> B -> A) (P : A -> Prop)
  (l : list B) :
  (forall a b, In b l -> P a -> P (f a b)) ->
  forall a, P a -> P (fold_left f l a).
Proof.
  induction l as [|x t IH]; intros H a Ha; simpl; auto.
  apply IH; [intros; apply H; auto; now right|].
  apply H; auto. now left.
Qed.

(** A loop one of whose steps establishes [G], the others keeping it. *)
Lemma fold_left_establishes (A B : Type) (f : A -> B -> A) (J G : A -> Prop)
  (l : list B) (b0 : B) :
  In b0 l ->
  (forall a b, In b l -> J a -> J (f a b)) ->
  (forall a b, In b l -> J a -> G a -> G (f a b)) ->
  (forall a, J a -> G (f a b0)) ->
  forall a, J a -> J (fold_left f l a) /\ G (fold_left f l a).
Proof.
  induction l as [|x t IH]; intros Hin HJ HG H0 a Ha; [destruct Hin|].
  cbn [fold_left].
  assert (HJt : forall a b, In b t -> J a -> J (f a b))
    by (intros; apply HJ; auto; now right).
  assert (HGt : forall a b, In b t -> J a -> G a -> G (f a b))
    by (intros; apply HG; auto; now right).
  assert (Hx : J (f a x)) by (apply HJ; auto; now left).
  destruct Hin as [->|Hin].
  - apply (@fold_left_preserves_in _ _ f (fun a => J a /\ G a) t).
    + intros a' b Hb [Ja Ga]. split; auto.
    + split; auto.
  - now apply IH.
Qed.

Module DiscreteClamp.

Import Discrete.

Lemma during_variable s0 s a b :
  during s0 s -> during s0 (updateVariableToFactorMessage s a b).
Proof.
  intros [F S]. split.
  - now apply DiscreteFrame.updateVariableToFactorMessage_frame.
  - unfold updateVariableToFactorMessage.
    destruct (map_has _ _); cbv zeta; cbn [withNext nextMessages];
      now apply shaped_mset.
Qed.

Lemma during_factor s0 s fid fac b :
  during s0 s -> during s0 (updateFactorToVariableMessage s fid fac b).
Proof.
  intros [F S]. split.
  - now apply DiscreteFrame.updateFactorToVariableMessage_frame.
  - unfold updateFactorToVariableMessage. cbv zeta.
    cbn [withNext nextMessages]. now apply shaped_mset.
Qed.

Lemma during_variablePhase s :
  structured s -> during s (variablePhase s).
Proof.
  intros (_ & Sx & _). unfold variablePhase.
  apply (@fold_left_preserves _ _ _ (during s));
    [|split; [apply DiscreteFrame.sameButNext_refl | exact Sx]].
  intros a [k [v|f]] Ha; simpl; auto.
  apply (@fold_left_preserves _ _ _ (during s)); auto.
  intros; now apply during_variable.
Qed.

Lemma during_factorPhase s0 s :
  during s0 s -> during s0 (factorPhase s).
Proof.
  intros H. unfold factorPhase.
  apply (@fold_left_preserves _ _ _ (during s0)); auto.
  intros a [k [v|f]] Ha; simpl; auto.
  apply (@fold_left_preserves _ _ _ (during s0)); auto.
  intros; now apply during_factor.
Qed.

(** *** The shape is an invariant *)

Lemma neighbors_initNode n : neighbors (initNode n) = neighbors n.
Proof. destruct n; reflexivity. Qed.

Lemma neighbors_setBeliefs n b l : neighbors (setBeliefs n b l) = neighbors n.
Proof. destruct n; reflexivity. Qed.

Lemma constructor_structured g damping s :
  constructor g damping = Some s -> structured s.
Proof.
  intros Hs.
  destruct (discrete_constructor_result g damping) as [_ H].
  destruct (H s Hs) as (G & _ & _ & Sm & Sx & _). cbn zeta in *.
  unfold structured. rewrite G. cbn [graph nodes]. rewrite length_map.
  split; [exact Sm|]. split; [exact Sx|].
  intros k nd f Hk Hf. rewrite nth_error_map in Hk.
  destruct (nth_error _ k) as [n0|] eqn:E; [|discriminate].
  injection Hk as <-. rewrite neighbors_initNode in Hf.
  eapply discrete_neighbor_bound; eauto.
Qed.

Lemma shaped_put (n k : nat) (belief : list num) (nbrs : list nat) :
  forall m, shaped n m ->
    shaped n (fold_left (fun m factor => mset m k factor belief) nbrs m).
Proof.
  induction nbrs as [|f t IH]; intros m H; simpl; auto.
  apply IH. now apply shaped_mset.
Qed.

Lemma neighbors_set_nth (l : list BayesNode) (j : nat) (n0 n1 : BayesNode) :
  nth_error l j = Some n0 -> neighbors n1 = neighbors n0 ->
  forall k nd, nth_error (set_nth j n1 l) k = Some nd ->
    exists nd0, nth_error l k = Some nd0 /\ neighbors nd = neighbors nd0.
Proof.
  intros Hj Hn k nd Hk. destruct (Nat.eq_dec j k) as [<-|Hne].
  - rewrite nth_error_set_nth_same in Hk
      by (apply nth_error_Some; congruence).
    injection Hk as <-. eauto.
  - rewrite nth_error_set_nth_other in Hk by exact Hne. eauto.
Qed.

Lemma setEvidence_structured nodeId value s :
  structured s -> structured (setEvidence nodeId value s).
Proof.
  intros Hs. pose proof Hs as (Sm & Sx & Hnb). unfold setEvidence.
  destruct (findNode s nodeId) as [[k [v|f]]|] eqn:E; try exact Hs.
  pose proof (DiscreteValid.findNode_nth _ _ E) as Hk.
  unfold structured. cbn [graph nodes messages nextMessages].
  rewrite length_set_nth. split; [|split].
  - apply shaped_put. exact Sm.
  - apply shaped_put. exact Sx.
  - intros j nd f Hj Hf.
    destruct (@neighbors_set_nth _ k (Var v) _ Hk
                (neighbors_setBeliefs (Var v) _ _) j nd Hj) as (nd0 & H0 & En).
    rewrite En in Hf. eauto.
Qed.

Lemma updateAllMessages_structured s :
  structured s -> structured (updateAllMessages s).
Proof.
  intros H. pose proof H as (Sm & Sx & Hnb).
  destruct (during_factorPhase (during_variablePhase H))
    as [(G & M & _) S].
  unfold structured, updateAllMessages, swapMessages.
  cbn [graph messages nextMessages]. rewrite G, M. auto.
Qed.

Lemma updateBelief_structured s j :
  structured s -> structured (updateBelief s j).
Proof.
  intros Hs. pose proof Hs as (Sm & Sx & Hnb). unfold updateBelief.
  destruct (nth_error (nodes (graph s)) j) as [[v|f]|] eqn:E; try exact Hs.
  destruct (map_has (evidence s) j); [exact Hs|].
  unfold structured. cbn [graph nodes messages nextMessages].
  rewrite length_set_nth. split; [exact Sm|]. split; [exact Sx|].
  intros k nd f Hk Hf.
  destruct (@neighbors_set_nth _ j (Var v) _ E
              (neighbors_setBeliefs (Var v) _ _) k nd Hk) as (nd0 & H0 & En).
  rewrite En in Hf. eauto.
Qed.

(** A property of the engines a caller can hold: it is enough that the
    constructor establishes it and that [setEvidence], the message update
    and the belief update of one node keep it. *)
Lemma reachable_preserved (P : BeliefPropagation -> Prop)
  (allowed : BeliefPropagation -> string -> num -> Prop) g damping :
  (forall s, constructor g damping = Some s -> P s) ->
  (forall s nodeId value,
     P s -> allowed s nodeId value -> P (setEvidence nodeId value s)) ->
  (forall s, P s -> P (updateAllMessages s)) ->
  (forall s k, P s -> P (updateBelief s k)) ->
  forall s, reachable allowed g damping s -> P s.
Proof.
  intros Hc He Hm Hb s Hr.
  assert (Hsweep : forall s, P s -> P (sweep s)).
  { intros s0 H0. unfold sweep, updateBeliefs.
    apply fold_left_preserves; auto. }
  induction Hr as [s Hs|s nodeId value Hr IH Hal|s m t Hr IH]; auto.
  unfold runIterations. generalize 0.
  generalize m at 1.
  revert IH. generalize s. clear Hr s.
  induction m as [|r IHr]; intros s IH m0 i; cbn [iterate final]; auto.
  destruct (lt _ _); cbn [final]; auto.
Qed.

Lemma reachable_structured allowed g damping s :
  reachable allowed g damping s -> structured s.
Proof.
  apply reachable_preserved.
  - intros s0. apply constructor_structured.
  - intros s0 nodeId value H _. now apply setEvidence_structured.
  - apply updateAllMessages_structured.
  - intros s0 k. apply updateBelief_structured.
Qed.

(** *** The message of an observed variable *)

Section Clamped.

Variables k f : nat.
Variable nbrs : list nat.
Variable msg : list num.
Hypothesis Hf : In f nbrs.

Let G0 (s : BeliefPropagation) : Prop := mget [] (nextMessages s) k f = msg.

Lemma clamped_variablePhase s :
  clampedMessage k f nbrs msg s ->
  during s (variablePhase s) /\
  mget [] (nextMessages (variablePhase s)) k f = msg.
Proof.
  intros (Hst & Hev & (v & Hk & Hn) & Hmsg).
  pose proof Hst as (Sm & Sx & Hnb).
  assert (Hkn : k < List.length (nodes (graph s)))
    by (apply nth_error_Some; congruence).
  assert (Hfn : f < List.length (nodes (graph s))).
  { apply (Hnb k (Var v) f Hk). simpl. now rewrite Hn. }
  assert (Keep : forall s' a b,
             during s s' -> G0 s' -> G0 (updateVariableToFactorMessage s' a b)).
  { intros s' a b [(_ & M & _ & _ & E) S] H0. unfold G0 in *.
    unfold updateVariableToFactorMessage.
    destruct (Nat.eq_dec a k) as [->|Ha].
    - rewrite E, Hev. cbn [withNext nextMessages].
      destruct (Nat.eq_dec b f) as [->|Hb].
      + rewrite (@mget_mset_same _ [] _ _ k f _ S Hkn Hfn). now rewrite M.
      + rewrite mget_mset_other by congruence. exact H0.
    - destruct (map_has (evidence s') a); cbv zeta;
        cbn [withNext nextMessages];
        rewrite mget_mset_other by congruence; exact H0. }
  assert (Make : forall s', during s s' ->
                            G0 (updateVariableToFactorMessage s' k f)).
  { intros s' [(_ & M & _ & _ & E) S]. unfold G0.
    unfold updateVariableToFactorMessage. rewrite E, Hev.
    cbn [withNext nextMessages].
    rewrite (@mget_mset_same _ [] _ _ k f _ S Hkn Hfn). now rewrite M. }
  unfold variablePhase.
  apply (@fold_left_establishes _ _ _ (during s) G0
           (indexed (nodes (graph s))) (k, Var v)).
  - apply (@in_indexed _ (nodes (graph s)) 0 k (Var v) Hk).
  - intros s' [a [va|fa]] _ Hd; cbn [snd fst]; auto.
    apply (@fold_left_preserves _ _ _ (during s)); auto.
    intros; now apply during_variable.
  - intros s' [a [va|fa]] _ Hd H0; cbn [snd fst]; auto.
    apply (@fold_left_preserves_in _ _ _
             (fun x => during s x /\ G0 x) (var_neighbors va));
      [|split; auto].
    intros x b _ [Hx Gx]. split; [now apply during_variable | now apply Keep].
  - intros s' Hd. cbn [snd fst]. rewrite Hn.
    apply (@fold_left_establishes _ _ _ (during s) G0 nbrs f);
      [exact Hf | intros; now apply during_variable
       | intros; now apply Keep | exact Make | exact Hd].
  - split; [apply DiscreteFrame.sameButNext_refl | exact Sx].
Qed.

Lemma clamped_factorPhase s s' :
  clampedMessage k f nbrs msg s -> during s s' -> G0 s' ->
  G0 (factorPhase s').
Proof.
  intros (Hst & Hev & (v & Hk & Hn) & Hmsg) Hd H0.
  pose proof Hd as [(Gr & _) _].
  unfold factorPhase.
  apply (@fold_left_preserves_in _ _ _ (fun x => during s x /\ G0 x)
           (indexed (nodes (graph s')))); [|split; auto].
  intros x [a [va|fa]] Hin [Hx Gx]; cbn [snd fst]; auto.
  apply indexed_nth in Hin. destruct Hin as [_ Ha].
  rewrite Nat.sub_0_r, Gr in Ha.
  assert (Hak : a <> k) by (intros ->; congruence).
  apply (@fold_left_preserves _ _ _ (fun x => during s x /\ G0 x));
    [|split; auto].
  intros y b [Hy Gy]. split; [now apply during_factor|].
  unfold G0, updateFactorToVariableMessage. cbv zeta.
  cbn [withNext nextMessages]. rewrite mget_mset_other by congruence.
  exact Gy.
Qed.

Lemma clamped_updateAllMessages s :
  clampedMessage k f nbrs msg s ->
  clampedMessage k f nbrs msg (updateAllMessages s).
Proof.
  intros H. pose proof H as (Hst & Hev & (v & Hk & Hn) & Hmsg).
  destruct (clamped_variablePhase H) as [Hd H0].
  pose proof (clamped_factorPhase H Hd H0) as H1.
  destruct (DiscreteFrame.updateAllMessages_frame s) as (G & E & _).
  split; [now apply updateAllMessages_structured|].
  split; [now rewrite E|]. split; [exists v; now rewrite G|].
  exact H1.
Qed.

Lemma clamped_updateBelief s j :
  clampedMessage k f nbrs msg s ->
  clampedMessage k f nbrs msg (updateBelief s j).
Proof.
  intros (Hst & Hev & (v & Hk & Hn) & Hmsg).
  split; [now apply updateBelief_structured|].
  unfold updateBelief.
  destruct (nth_error (nodes (graph s)) j) as [[vj|fj]|] eqn:E;
    try (repeat split; eauto; fail).
  destruct (map_has (evidence s) j) eqn:Ej; [repeat split; eauto|].
  cbn [graph nodes evidence messages].
  assert (j <> k) by (intros ->; congruence).
  repeat split; auto. exists v.
  now rewrite nth_error_set_nth_other.
Qed.

Lemma clamped_iterate maxIterations tolerance remaining :
  forall i s,
    clampedMessage k f nbrs msg s ->
    clampedMessage k f nbrs msg
      (final (iterate maxIterations tolerance remaining i s)).
Proof.
  assert (Hsweep : forall s, clampedMessage k f nbrs msg s ->
                             clampedMessage k f nbrs msg (sweep s)).
  { intros s H. unfold sweep, updateBeliefs.
    apply fold_left_preserves; [intros; now apply clamped_updateBelief|].
    now apply clamped_updateAllMessages. }
  induction remaining as [|r IH]; intros i s H; cbn [iterate final]; auto.
  destruct (lt _ _); cbn [final]; auto.
Qed.

Lemma clamped_runs calls :
  forall s, clampedMessage k f nbrs msg s ->
            clampedMessage k f nbrs msg (discreteRuns calls s).
Proof.
  unfold discreteRuns. induction calls as [|c t IH]; intros s H; simpl; auto.
  apply IH. unfold runIterations. now apply clamped_iterate.
Qed.

End Clamped.

Lemma mget_put (n k f : nat) (belief : list num) (nbrs : list nat) :
  k < n -> f < n -> In f nbrs ->
  forall m, shaped n m ->
    mget [] (fold_left (fun m factor => mset m k factor belief) nbrs m) k f
    = belief.
Proof.
  intros Hk Hfn Hin m Hm.
  apply (@fold_left_establishes _ _ (fun m factor => mset m k factor belief)
           (shaped n)
           (fun m => mget [] m k f = belief) nbrs f);
    [exact Hin | intros; now apply shaped_mset | | | exact Hm].
  - intros a b _ Ha Hg. destruct (Nat.eq_dec b f) as [->|Hb].
    + now apply (@mget_mset_same _ [] belief a k f n).
    + rewrite mget_mset_other by congruence. exact Hg.
  - intros a Ha. now apply (@mget_mset_same _ [] belief a k f n).
Qed.

Lemma setEvidence_clamps nodeId value s k v f :
  structured s ->
  findNode s nodeId = Some (k, Var v) -> In f (var_neighbors v) ->
  clampedMessage k f (var_neighbors v) (oneHot value (possibleValues v))
    (setEvidence nodeId value s).
Proof.
  intros Hst Hfind Hf.
  pose proof (setEvidence_structured nodeId value Hst) as Hst'.
  pose proof Hst as (Sm & Sx & Hnb).
  pose proof (DiscreteValid.findNode_nth _ _ Hfind) as Hk.
  assert (Hkn : k < List.length (nodes (graph s)))
    by (apply nth_error_Some; congruence).
  assert (Hfn : f < List.length (nodes (graph s)))
    by (apply (Hnb k (Var v) f Hk); exact Hf).
  split; [exact Hst'|]. unfold setEvidence. rewrite Hfind.
  cbn [graph nodes evidence messages]. split; [apply map_has_map_set|].
  split.
  - eexists. rewrite nth_error_set_nth_same by exact Hkn.
    split; reflexivity.
  - now apply (@mget_put (List.length (nodes (graph s)))).
Qed.

End DiscreteClamp.

(** X15.  Evidence freezes the outgoing messages of the discrete engine.
    Once [setEvidence] has been called on a variable of an engine built by
    the constructor, the message from that variable to each of its
    neighboring factors is the one-hot vector of the observed value, and
    it stays so through any number of [runIterations] calls. *)
Theorem discrete_evidence_message_frozen
  (g : FactorGraph Discrete.BayesNodeInput) (damping : option num)
  (s : Discrete.BeliefPropagation) (nodeId : string) (value : num)
  (k f : nat) (v : Discrete.BayesVariable) (calls : list (nat * option num)) :
  reachable anyEvidence g damping s ->
  Discrete.findNode s nodeId = Some (k, Discrete.Var v) ->
  In f (Discrete.var_neighbors v) ->
  mget [] (Discrete.messages
             (discreteRuns calls (Discrete.setEvidence nodeId value s))) k f
  = oneHot value (Discrete.possibleValues v).
Proof.
  intros Hr Hfind Hf.
  pose proof (DiscreteClamp.reachable_structured Hr) as Hst.
  pose proof (@DiscreteClamp.setEvidence_clamps nodeId value s k v f
                Hst Hfind Hf) as Hc.
  apply (@DiscreteClamp.clamped_runs k f _ _ Hf calls) in Hc. apply Hc.
Qed.

(* ================================================================= *)
(** ** The Gaussian engine: construction, shape, evidence *)

Module GaussianClamp.

Import Gaussian GaussianInv.

Lemma shaped_zeros n : shaped n (zeros n).
Proof.
  unfold shaped, zeros. split; [apply repeat_length|].
  apply Forall_forall. intros row H. apply repeat_spec in H. subst.
  apply repeat_length.
Qed.

Lemma entry_zeros n a b : a < n -> b < n -> entry (zeros n) a b = Fin 0.
Proof.
  intros Ha Hb. unfold entry, mget, zeros.
  rewrite nth_repeat_lt by exact Ha. now rewrite nth_repeat_lt.
Qed.

(** The writes of one variable: the row [k], at the columns [fs]. *)
Lemma row_writes n k mu p (Hk : k < n) (fs : list nat) :
  (forall f, In f fs -> f < n) ->
  forall m, shapedMessages n m ->
    let r := fold_left (fun m f => setMessage m k f mu p) fs m in
    shapedMessages n r /\
    forall a b,
      messageAt r a b
      = if Nat.eqb a k && existsb (Nat.eqb b) fs then (mu, p)
        else messageAt m a b.
Proof.
  induction fs as [|f t IH]; intros Hfs m Hm; cbn zeta.
  - simpl. split; auto. intros a b. now rewrite andb_false_r.
  - cbn [fold_left].
    destruct (IH (fun x H => Hfs x (or_intror H))
                 (setMessage m k f mu p)
                 (GaussianDamping.shaped_setMessage k f mu p Hm)) as [Hs Hr].
    split; auto. intros a b. rewrite Hr. cbn [existsb].
    destruct (Nat.eqb a k) eqn:Ea; cbn [andb]; [apply Nat.eqb_eq in Ea; subst a|].
    + destruct (existsb (Nat.eqb b) t); [now rewrite orb_true_r|].
      rewrite orb_false_r. destruct (Nat.eqb b f) eqn:Eb.
      * apply Nat.eqb_eq in Eb. subst b.
        apply (@GaussianDamping.messageAt_setMessage_same n); auto.
        apply Hfs. now left.
      * apply GaussianDamping.messageAt_setMessage_other.
        apply Nat.eqb_neq in Eb. congruence.
    + apply GaussianDamping.messageAt_setMessage_other.
      apply Nat.eqb_neq in Ea. congruence.
Qed.

(** The first loop of [initializeMessages], over the nodes from position
    [a] on. *)
Lemma initial_writes n (l : list GaussianNode) :
  forall a m,
    a + List.length l <= n ->
    (forall nd f, In nd l -> In f (neighbors nd) -> f < n) ->
    shapedMessages n m ->
    let r :=
      fold_left
        (fun m kn =>
           match snd kn with
           | Var v =>
               fold_left
                 (fun m factor =>
                    setMessage m (fst kn) factor (mean v)
                      (div (Fin 1) (variance v)))
                 (var_neighbors v) m
           | Fac _ => m
           end)
        (combine (seq a (List.length l)) l) m in
    shapedMessages n r /\
    forall i b,
      messageAt r i b
      = match (if Nat.leb a i then nth_error l (i - a) else None) with
        | Some (Var v) =>
            if existsb (Nat.eqb b) (var_neighbors v)
            then (mean v, div (Fin 1) (variance v))
            else messageAt m i b
        | _ => messageAt m i b
        end.
Proof.
  induction l as [|nd t IH]; intros a m Ha Hnb Hm; cbn zeta.
  - simpl. split; auto. intros i b.
    destruct (Nat.leb a i); [destruct (i - a)|]; reflexivity.
  - cbn [List.length seq combine fold_left fst snd].
    set (m1 := match nd with
               | Var v =>
                   fold_left
                     (fun m factor =>
                        setMessage m a factor (mean v) (div (Fin 1) (variance v)))
                     (var_neighbors v) m
               | Fac _ => m
               end).
    assert (H1 : shapedMessages n m1 /\
                 forall i b,
                   messageAt m1 i b
                   = match nd with
                     | Var v =>
                         if Nat.eqb i a && existsb (Nat.eqb b) (var_neighbors v)
                         then (mean v, div (Fin 1) (variance v))
                         else messageAt m i b
                     | Fac _ => messageAt m i b
                     end).
    { unfold m1. destruct nd as [v|f]; [|split; auto].
      apply row_writes; auto.
      - simpl in Ha. lia.
      - intros f Hf. apply (Hnb (Var v) f); auto. now left. }
    destruct H1 as [Hs1 Hr1].
    destruct (IH (S a) m1) as [Hs Hr]; auto.
    { simpl in Ha. lia. }
    { intros x f Hx. apply Hnb. now right. }
    split; auto. intros i b. rewrite Hr.
    destruct (Nat.leb (S a) i) eqn:E1.
    + apply Nat.leb_le in E1.
      replace (Nat.leb a i) with true by (symmetry; apply Nat.leb_le; lia).
      replace (i - a) with (S (i - S a)) by lia. cbn [nth_error].
      assert (Hia : Nat.eqb i a = false) by (apply Nat.eqb_neq; lia).
      destruct (nth_error t (i - S a)) as [[v|f]|];
        try (destruct (existsb _ _); auto);
        rewrite Hr1; destruct nd; auto; now rewrite Hia.
    + apply Nat.leb_gt in E1. rewrite Hr1.
      destruct (Nat.leb a i) eqn:E0.
      * apply Nat.leb_le in E0. assert (i = a) by lia. subst i.
        rewrite Nat.sub_diag, Nat.eqb_refl. cbn [nth_error andb].
        destruct nd; reflexivity.
      * apply Nat.leb_gt in E0.
        assert (Hia : Nat.eqb i a = false) by (apply Nat.eqb_neq; lia).
        destruct nd; auto; now rewrite Hia.
Qed.

(** What the Gaussian constructor returns. *)
Lemma constructor_result (g : FactorGraph GaussianNodeInput)
  (damping : option num) :
  let pg := fst (processGraph g) in
  let n := List.length (nodes pg) in
  let s := constructor g damping in
  graph s = pg /\ dampingFactor s = or_else damping (Fin 0) /\
  evidence s = [] /\
  gaussianStructured s /\
  forall a b, a < n -> b < n ->
    messageAt (nextMessages s) a b = (Fin 0, Fin 0) /\
    messageAt (messages s) a b = gaussianInitialMessage (nodes pg) a b.
Proof.
  cbn zeta. unfold constructor, initializeMessages.
  set (pg := fst (processGraph g)). set (n := List.length (nodes pg)).
  cbn [graph dampingFactor evidence messages nextMessages].
  assert (Hz : shapedMessages n (mkMessages (zeros n) (zeros n)))
    by (split; apply shaped_zeros).
  assert (Hnb : forall k nd f,
             nth_error (nodes pg) k = Some nd -> In f (neighbors nd) -> f < n)
    by (intros k nd f Hk Hf; eapply gaussian_neighbor_bound; eauto).
  destruct (@initial_writes n (nodes pg) 0 (mkMessages (zeros n) (zeros n)))
    as [Hs Hr]; auto.
  { intros nd f Hin. apply In_nth_error in Hin. destruct Hin as [k Hk]. eauto. }
  repeat split; try apply Hs; try apply Hz; auto.
  - unfold messageAt. cbn [m_mean m_precision]. now rewrite !entry_zeros.
  - rewrite Hr. cbn [Nat.leb]. rewrite Nat.sub_0_r.
    unfold gaussianInitialMessage.
    assert (Z : messageAt (mkMessages (zeros n) (zeros n)) a b = (Fin 0, Fin 0)).
    { unfold messageAt. cbn [m_mean m_precision]. now rewrite !entry_zeros. }
    rewrite Z. destruct (nth_error (nodes pg) a) as [[v|f]|]; reflexivity.
Qed.

End GaussianClamp.

(** X16.  The Gaussian constructor.  It returns an engine with no
    evidence and the damping factor [damping || 0], whose message matrices
    are [n] by [n] for the [n] nodes; the next-message buffer is zero, and
    the current message from a variable to each of its neighbors carries
    the prior of the variable, mean [mean] and precision [1 / variance].
    Every other message is zero, in particular every message from a
    factor. *)
Theorem gaussian_constructor_spec
  (g : FactorGraph Gaussian.GaussianNodeInput) (damping : option num) :
  let pg := fst (Gaussian.processGraph g) in
  let n := List.length (Gaussian.nodes pg) in
  let s := Gaussian.constructor g damping in
  Gaussian.graph s = pg /\
  Gaussian.dampingFactor s = or_else damping (Fin 0) /\
  Gaussian.evidence s = [] /\
  shapedMessages n (Gaussian.messages s) /\
  shapedMessages n (Gaussian.nextMessages s) /\
  forall a b, a < n -> b < n ->
    messageAt (Gaussian.nextMessages s) a b = (Fin 0, Fin 0) /\
    messageAt (Gaussian.messages s) a b
    = gaussianInitialMessage (Gaussian.nodes pg) a b.
Proof.
  destruct (GaussianClamp.constructor_result g damping)
    as (G & D & E & (Sm & Sx & _) & M).
  cbn zeta in *. rewrite G in Sm, Sx.
  split; [exact G|]. split; [exact D|]. split; [exact E|].
  split; [exact Sm|]. split; [exact Sx|]. exact M.
Qed.

(* ================================================================= *)
(** ** Evidence freezes the outgoing messages: the Gaussian engine *)

Module GaussianFrozen.

Import Gaussian GaussianInv.

(** A property kept by the message update, thrown or not, and by the
    belief update is kept by [runIterations]. *)
Lemma iterate_preserved (P : GaussianBeliefPropagation -> Prop) :
  (forall s, P s -> P (stateOf (updateAllMessages s))) ->
  (forall s, P s -> P (updateBeliefs s)) ->
  forall maxIterations tolerance remaining i s,
    P s -> P (final (iterate maxIterations tolerance remaining i s)).
Proof.
  intros Hm Hb maxIterations tolerance.
  induction remaining as [|r IH]; intros i s H; cbn [iterate final]; auto.
  pose proof (Hm s H) as H1.
  destruct (updateAllMessages s) as [s1|e s1]; cbn [stateOf final] in *; auto.
  destruct (lt _ _); cbn [final]; auto.
Qed.

Lemma runs_preserved (P : GaussianBeliefPropagation -> Prop) :
  (forall s, P s -> P (stateOf (updateAllMessages s))) ->
  (forall s, P s -> P (updateBeliefs s)) ->
  forall calls s, P s -> P (gaussianRuns calls s).
Proof.
  intros Hm Hb. unfold gaussianRuns.
  induction calls as [|c t IH]; intros s H; simpl; auto.
  apply IH. unfold runIterations. now apply iterate_preserved.
Qed.

(** *** The shape is an invariant *)

Lemma gaussian_shaped_put n k mu p (nbrs : list nat) :
  forall m, shapedMessages n m ->
    shapedMessages n (fold_left (fun m f => setMessage m k f mu p) nbrs m).
Proof.
  induction nbrs as [|f t IH]; intros m H; simpl; auto.
  apply IH. now apply GaussianDamping.shaped_setMessage.
Qed.

Lemma gaussian_neighbors_set_nth (l : list GaussianNode) (j : nat)
  (n0 n1 : GaussianNode) :
  nth_error l j = Some n0 -> neighbors n1 = neighbors n0 ->
  forall k nd, nth_error (set_nth j n1 l) k = Some nd ->
    exists nd0, nth_error l k = Some nd0 /\ neighbors nd = neighbors nd0.
Proof.
  intros Hj Hn k nd Hk. destruct (Nat.eq_dec j k) as [<-|Hne].
  - rewrite nth_error_set_nth_same in Hk
      by (apply nth_error_Some; congruence).
    injection Hk as <-. eauto.
  - rewrite nth_error_set_nth_other in Hk by exact Hne. eauto.
Qed.

Lemma gaussian_findNode_nth s nodeId k n :
  findNode s nodeId = Some (k, n) -> nth_error (nodes (graph s)) k = Some n.
Proof.
  unfold findNode. intros H. apply find_some in H. destruct H as [Hin _].
  apply indexed_nth in Hin. destruct Hin as [_ H].
  now rewrite Nat.sub_0_r in H.
Qed.

Lemma gaussian_setEvidence_structured nodeId mu var s :
  gaussianStructured s -> gaussianStructured (setEvidence nodeId mu var s).
Proof.
  intros Hs. pose proof Hs as (Sm & Sx & Hnb). unfold setEvidence.
  destruct (findNode s nodeId) as [[k [v|f]]|] eqn:E; try exact Hs.
  pose proof (gaussian_findNode_nth _ _ E) as Hk.
  unfold gaussianStructured. cbn [graph nodes messages nextMessages].
  rewrite length_set_nth. split; [|split].
  - apply gaussian_shaped_put. exact Sm.
  - apply gaussian_shaped_put. exact Sx.
  - intros j nd f Hj Hf.
    destruct (@gaussian_neighbors_set_nth _ k (Var v) (setCurrent v mu var) Hk
                eq_refl j nd Hj) as (nd0 & H0 & En).
    rewrite En in Hf. eauto.
Qed.

Lemma shaped_applyDamping s :
  shapedMessages (List.length (nodes (graph s))) (nextMessages s) ->
  shapedMessages (List.length (nodes (graph s)))
                 (nextMessages (applyDamping s)).
Proof.
  intros Hs. unfold applyDamping. cbn [withNext nextMessages].
  set (n := List.length (nodes (graph s))) in *.
  apply (@GaussianDamping.dampRows n (dampingFactor s) (messages s) (seq 0 n)
           (seq_NoDup n 0) (fun j H => proj2 (proj1 (in_seq n 0 j) H))
           (seq 0 n) (nextMessages s)
           (seq_NoDup n 0) (fun j H => proj2 (proj1 (in_seq n 0 j) H)) Hs).
Qed.

(** The two message loops change the next-message buffer only, and keep
    its shape. *)
Lemma phases_frame s :
  gaussianStructured s ->
  sameButNext s (stateOf (factorPhase (variablePhase s))) /\
  shapedNext (List.length (nodes (graph s))) (factorPhase (variablePhase s)).
Proof.
  intros (_ & Sx & _). split.
  - destruct (GaussianFrame.gaussian_factorPhase_frame (variablePhase s))
      as (G1 & M1 & D1 & E1).
    destruct (GaussianFrame.gaussian_variablePhase_frame s)
      as (G0 & M0 & D0 & E0).
    repeat split; congruence.
  - apply GaussianDamping.shaped_factorPhase.
    now apply GaussianDamping.shaped_variablePhase.
Qed.

Lemma gaussian_updateAllMessages_structured s :
  gaussianStructured s -> gaussianStructured (stateOf (updateAllMessages s)).
Proof.
  intros H. pose proof H as (Sm & Sx & Hnb).
  destruct (phases_frame H) as [(G & M & D & E) S].
  unfold updateAllMessages. unfold shapedNext in S.
  destruct (factorPhase (variablePhase s)) as [raw|e raw];
    cbn [stateOf] in *.
  - assert (GA : graph (swapMessages (applyDamping raw)) = graph s)
      by exact G.
    assert (MA : nextMessages (swapMessages (applyDamping raw)) = messages s)
      by exact M.
    unfold gaussianStructured. rewrite GA, MA.
    split; [|split; auto].
    change (messages (swapMessages (applyDamping raw)))
      with (nextMessages (applyDamping raw)).
    rewrite <- G in S |- *. now apply shaped_applyDamping.
  - unfold gaussianStructured. rewrite G, M. auto.
Qed.

Lemma neighbors_gaussianBeliefAt s k n :
  neighbors (gaussianBeliefAt s k n) = neighbors n.
Proof.
  destruct n as [v|f]; simpl; auto.
  destruct (map_has _ _); auto. unfold posterior. cbv zeta.
  destruct (gt _ _); reflexivity.
Qed.

Lemma updateBeliefs_nodes s :
  messages (updateBeliefs s) = messages s /\
  evidence (updateBeliefs s) = evidence s /\
  nextMessages (updateBeliefs s) = nextMessages s /\
  dampingFactor (updateBeliefs s) = dampingFactor s /\
  List.length (nodes (graph (updateBeliefs s))) = List.length (nodes (graph s)) /\
  forall k,
    nth_error (nodes (graph (updateBeliefs s))) k
    = option_map (gaussianBeliefAt s k) (nth_error (nodes (graph s)) k).
Proof.
  unfold updateBeliefs.
  destruct (@updateBeliefs_fold s (seq 0 (List.length (nodes (graph s))))
              (seq_NoDup _ _) s eq_refl eq_refl eq_refl eq_refl eq_refl eq_refl
              (fun k _ => eq_refl))
    as (Hm & He & Hx & Hd & _ & Hl & Hn).
  repeat split; auto. intros k. rewrite Hn.
  destruct (Nat.lt_ge_cases k (List.length (nodes (graph s)))) as [Hlt|Hge].
  - now rewrite GaussianDamping.existsb_seq.
  - destruct (existsb _ _); auto.
    replace (nth_error (nodes (graph s)) k) with (@None GaussianNode)
      by (symmetry; now apply nth_error_None).
    reflexivity.
Qed.

Lemma updateBeliefs_structured s :
  gaussianStructured s -> gaussianStructured (updateBeliefs s).
Proof.
  intros (Sm & Sx & Hnb).
  destruct (updateBeliefs_nodes s) as (M & _ & X & _ & L & N).
  unfold gaussianStructured. rewrite M, X, L.
  split; [exact Sm|]. split; [exact Sx|].
  intros k nd f Hk Hf. rewrite N in Hk.
  destruct (nth_error (nodes (graph s)) k) as [nd0|] eqn:E; [|discriminate].
  injection Hk as <-. rewrite neighbors_gaussianBeliefAt in Hf. eauto.
Qed.

Lemma gaussian_reachable_structured g damping s :
  gaussianReachable g damping s -> gaussianStructured s.
Proof.
  induction 1 as [|s nodeId mu var Hr IH|s m t Hr IH].
  - apply GaussianClamp.constructor_result.
  - now apply gaussian_setEvidence_structured.
  - unfold runIterations. apply iterate_preserved; auto.
    + apply gaussian_updateAllMessages_structured.
    + apply updateBeliefs_structured.
Qed.

(** *** The message of an observed variable *)

Lemma variableUpdate_form s a b s' :
  updateVariableToFactorMessage s a b = Some s' ->
  exists x y,
    s' = withNext s (setMessage (nextMessages s) a b x y) /\
    forall ev, map_get (evidence s) a = Some ev ->
               x = mv_mean ev /\ y = div (Fin 1) (mv_variance ev).
Proof.
  unfold updateVariableToFactorMessage.
  destruct (map_get (evidence s) a) as [ev|].
  - intros H. injection H as <-. do 2 eexists. split; [reflexivity|].
    intros ev' H. injection H as <-. auto.
  - destruct (reduce1 _ _); [|discriminate].
    destruct (reduce1 _ _); [|discriminate].
    intros H. injection H as <-. do 2 eexists. split; [reflexivity|].
    intros ev H. discriminate.
Qed.

Lemma factorUpdate_form s fid fac b s' :
  updateFactorToVariableMessage s fid fac b = Some s' ->
  exists x y, s' = withNext s (setMessage (nextMessages s) fid b x y).
Proof.
  unfold updateFactorToVariableMessage.
  destruct (MathJS.multiply _ _); [|discriminate].
  destruct (findIndex _ _); [|discriminate].
  destruct (precSumLoop _ _ _ _); [|discriminate].
  destruct (MathJS.get2 _ _ _); [|discriminate].
  destruct (MathJS.get1 _ _); [|discriminate].
  intros H. injection H as <-. eauto.
Qed.

Section Clamped.

Variables k f : nat.
Variable nbrs : list nat.
Variables mu var : num.
Variables m p : R.
Hypothesis Hmu : mu = Fin m.
Hypothesis Hp : div (Fin 1) var = Fin p.
Hypothesis Hf : In f nbrs.

Let Q := gaussianClamped k f nbrs (mkMeanVariance mu var) m p.

Let J (s : GaussianBeliefPropagation) (r : Step) : Prop :=
  sameButNext s (stateOf r) /\
  shapedNext (List.length (nodes (graph s))) r.

Let G (r : Step) : Prop :=
  forall raw, r = Done raw ->
    messageAt (nextMessages raw) k f = (Fin m, Fin p).

Lemma J_variable s r a b :
  J s r ->
  J s (andThen reduceError r (fun s' => updateVariableToFactorMessage s' a b)).
Proof.
  intros [F S]. split.
  - apply GaussianFrame.andThen_preserves; auto.
    intros; eapply GaussianFrame.gaussian_updateVariableToFactorMessage_frame;
      eauto.
  - unfold shapedNext. apply GaussianFrame.andThen_preserves; auto.
    intros; eapply GaussianDamping.shaped_updateVariableToFactorMessage; eauto.
Qed.

Lemma J_factor s r fid fac b :
  J s r ->
  J s (andThen matrixError r
         (fun s' => updateFactorToVariableMessage s' fid fac b)).
Proof.
  intros [F S]. split.
  - apply GaussianFrame.andThen_preserves; auto.
    intros; eapply GaussianFrame.gaussian_updateFactorToVariableMessage_frame;
      eauto.
  - unfold shapedNext. apply GaussianFrame.andThen_preserves; auto.
    intros; eapply GaussianDamping.shaped_updateFactorToVariableMessage; eauto.
Qed.

Lemma clamped_phases s raw :
  Q s -> factorPhase (variablePhase s) = Done raw ->
  messageAt (nextMessages raw) k f = (Fin m, Fin p).
Proof.
  intros (Hst & Hev & (v & Hk & Hn) & _ & _) Hraw.
  pose proof Hst as (Sm & Sx & Hnb).
  set (n := List.length (nodes (graph s))) in *.
  assert (Hkn : k < n) by (apply nth_error_Some; congruence).
  assert (Hfn : f < n).
  { apply (Hnb k (Var v) f Hk). simpl. now rewrite Hn. }
  assert (Keep : forall r a b,
             J s r -> G r ->
             G (andThen reduceError r
                  (fun s' => updateVariableToFactorMessage s' a b))).
  { intros r a b [(_ & _ & _ & E) S] Hg raw' Hr'.
    destruct r as [s0|e s0]; cbn [andThen] in Hr'; [|discriminate].
    destruct (updateVariableToFactorMessage s0 a b) as [s1|] eqn:U;
      [|discriminate].
    injection Hr' as <-.
    destruct (variableUpdate_form _ _ _ U) as (x & y & -> & Hxy).
    cbn [withNext nextMessages]. cbn [stateOf] in E, S.
    destruct (Nat.eq_dec a k) as [->|Ha]; [destruct (Nat.eq_dec b f) as [->|Hb]|].
    - rewrite E in Hxy. destruct (Hxy _ Hev) as [-> ->]. cbn [mv_mean mv_variance].
      rewrite (@GaussianDamping.messageAt_setMessage_same n); auto.
      now rewrite Hmu, Hp.
    - rewrite GaussianDamping.messageAt_setMessage_other by congruence.
      now apply Hg.
    - rewrite GaussianDamping.messageAt_setMessage_other by congruence.
      now apply Hg. }
  assert (Make : forall r,
             J s r ->
             G (andThen reduceError r
                  (fun s' => updateVariableToFactorMessage s' k f))).
  { intros r [(_ & _ & _ & E) S] raw' Hr'.
    destruct r as [s0|e s0]; cbn [andThen] in Hr'; [|discriminate].
    destruct (updateVariableToFactorMessage s0 k f) as [s1|] eqn:U;
      [|discriminate].
    injection Hr' as <-.
    destruct (variableUpdate_form _ _ _ U) as (x & y & -> & Hxy).
    cbn [withNext nextMessages]. cbn [stateOf] in E, S.
    rewrite E in Hxy. destruct (Hxy _ Hev) as [-> ->]. cbn [mv_mean mv_variance].
    rewrite (@GaussianDamping.messageAt_setMessage_same n); auto.
    now rewrite Hmu, Hp. }
  assert (J0 : J s (Done s)).
  { split; [apply GaussianFrame.gaussian_sameButNext_refl | exact Sx]. }
  assert (V : J s (variablePhase s) /\ G (variablePhase s)).
  { unfold variablePhase.
    apply (@fold_left_establishes _ _ _ (J s) G
             (combine (seq 0 (List.length (nodes (graph s)))) (nodes (graph s)))
             (k, Var v)).
    - apply (@in_indexed _ (nodes (graph s)) 0 k (Var v) Hk).
    - intros r [a [va|fa]] _ Hr; cbn [snd fst]; auto.
      apply (@fold_left_preserves _ _ _ (J s)); auto.
      intros; now apply J_variable.
    - intros r [a [va|fa]] _ Hr Hg; cbn [snd fst]; auto.
      apply (@fold_left_preserves_in _ _ _ (fun x => J s x /\ G x)
               (var_neighbors va)); [|split; auto].
      intros x b _ [Hx Gx]. split; [now apply J_variable | now apply Keep].
    - intros r Hr. cbn [snd fst]. rewrite Hn.
      apply (@fold_left_establishes _ _ _ (J s) G nbrs f);
        [exact Hf | intros; now apply J_variable
         | intros; now apply Keep | exact Make | exact Hr].
    - exact J0. }
  destruct V as [JV GV].
  assert (F : J s (factorPhase (variablePhase s)) /\
              G (factorPhase (variablePhase s))).
  { unfold factorPhase.
    pose proof JV as [(Gr & _) _].
    apply (@fold_left_preserves_in _ _ _ (fun x => J s x /\ G x)
             (combine (seq 0 (List.length (nodes (graph (stateOf (variablePhase s))))))
                      (nodes (graph (stateOf (variablePhase s))))));
      [|split; auto].
    intros x [a [va|fa]] Hin [Hx Gx]; cbn [snd fst]; auto.
    apply indexed_nth in Hin. destruct Hin as [_ Ha].
    rewrite Nat.sub_0_r, Gr in Ha.
    assert (Hak : a <> k) by (intros ->; congruence).
    apply (@fold_left_preserves _ _ _ (fun x => J s x /\ G x)); [|split; auto].
    intros y b [Hy Gy]. split; [now apply J_factor|].
    intros raw' Hr'.
    destruct y as [s0|e s0]; cbn [andThen] in Hr'; [|discriminate].
    destruct (updateFactorToVariableMessage s0 a fa b) as [s1|] eqn:U;
      [|discriminate].
    injection Hr' as <-.
    destruct (factorUpdate_form _ _ _ _ U) as (x0 & y0 & ->).
    cbn [withNext nextMessages].
    rewrite GaussianDamping.messageAt_setMessage_other by congruence.
    now apply Gy. }
  destruct F as [_ GF]. now apply GF.
Qed.

(** With the factor 0 or 1 the blend returns one of its arguments. *)
Lemma blend_zero_one (d : num) (x : R) :
  d = Fin 0 \/ d = Fin 1 -> blend d (Fin x) (Fin x) = Fin x.
Proof. intros [->| ->]; unfold blend; simpl; f_equal; lra. Qed.

Lemma gaussian_clamped_updateAllMessages s :
  Q s -> Q (stateOf (updateAllMessages s)).
Proof.
  intros H. pose proof H as (Hst & Hev & (v & Hk & Hn) & Hd & Hmsg).
  pose proof Hst as (Sm & Sx & Hnb).
  assert (Hkn : k < List.length (nodes (graph s)))
    by (apply nth_error_Some; congruence).
  assert (Hfn : f < List.length (nodes (graph s))).
  { apply (Hnb k (Var v) f Hk). simpl. now rewrite Hn. }
  pose proof (gaussian_updateAllMessages_structured Hst) as Hst'.
  destruct (GaussianFrame.gaussian_updateAllMessages_frame s) as (Gr & Ev & Dm).
  split; [exact Hst'|]. split; [now rewrite Ev|].
  split; [exists v; now rewrite Gr|]. split; [now rewrite Dm|].
  destruct (factorPhase (variablePhase s)) as [raw|e raw] eqn:Hraw.
  - destruct (GaussianDamping.updateAllMessages_blend s Sx Hraw Hkn Hfn)
      as (s' & -> & Hb).
    cbn [stateOf]. rewrite Hb, Hmsg, (clamped_phases H Hraw).
    unfold dampPair. cbn [fst snd isNaN negb].
    now rewrite !(blend_zero_one _ Hd).
  - destruct (phases_frame Hst) as [(_ & M & _) _]. rewrite Hraw in M.
    unfold updateAllMessages. rewrite Hraw. cbn [stateOf] in *.
    now rewrite M.
Qed.

Lemma clamped_updateBeliefs s : Q s -> Q (updateBeliefs s).
Proof.
  intros (Hst & Hev & (v & Hk & Hn) & Hd & Hmsg).
  destruct (updateBeliefs_nodes s) as (M & E & _ & D & _ & N).
  split; [now apply updateBeliefs_structured|].
  split; [now rewrite E|]. split.
  - exists v. rewrite N, Hk. cbn [option_map gaussianBeliefAt].
    assert (Hh : map_has (evidence s) k = true).
    { destruct (map_has (evidence s) k) eqn:Eh; auto.
      apply map_get_None_iff in Eh. congruence. }
    now rewrite Hh.
  - split; [now rewrite D | now rewrite M].
Qed.

Lemma gaussian_clamped_runs calls s : Q s -> Q (gaussianRuns calls s).
Proof.
  apply runs_preserved.
  - apply gaussian_clamped_updateAllMessages.
  - apply clamped_updateBeliefs.
Qed.

End Clamped.

Lemma map_get_map_set (V : Type) (l : list (nat * V)) (k : nat) (v : V) :
  map_get (map_set l k v) k = Some v.
Proof.
  unfold map_get, map_set. destruct (map_has l k) eqn:H.
  - unfold map_has in H. induction l as [|[a x] t IH]; [discriminate|].
    simpl in *. destruct (Nat.eqb a k) eqn:E.
    + simpl. now rewrite Nat.eqb_refl.
    + simpl. rewrite E. apply IH. exact H.
  - unfold map_has in H. induction l as [|[a x] t IH].
    + simpl. now rewrite Nat.eqb_refl.
    + simpl in *. destruct (Nat.eqb a k) eqn:E; [discriminate|].
      apply IH. exact H.
Qed.

Lemma gaussian_setEvidence_clamps nodeId (mu var : num) (m p : R) s k v f :
  gaussianStructured s ->
  dampingFactor s = Fin 0 \/ dampingFactor s = Fin 1 ->
  findNode s nodeId = Some (k, Var v) -> In f (var_neighbors v) ->
  mu = Fin m -> div (Fin 1) var = Fin p ->
  gaussianClamped k f (var_neighbors v) (mkMeanVariance mu var) m p
    (setEvidence nodeId mu var s).
Proof.
  intros Hst Hd Hfind Hf Hmu Hp.
  pose proof (gaussian_setEvidence_structured nodeId mu var Hst) as Hst'.
  pose proof Hst as (Sm & Sx & Hnb).
  pose proof (gaussian_findNode_nth _ _ Hfind) as Hk.
  assert (Hkn : k < List.length (nodes (graph s)))
    by (apply nth_error_Some; congruence).
  assert (Hfs : forall x, In x (var_neighbors v) ->
                          x < List.length (nodes (graph s)))
    by (intros x Hx; apply (Hnb k (Var v) x Hk); exact Hx).
  split; [exact Hst'|]. unfold setEvidence. rewrite Hfind.
  cbn [graph nodes evidence messages dampingFactor].
  split; [apply map_get_map_set|]. split.
  - eexists. rewrite nth_error_set_nth_same by exact Hkn.
    split; reflexivity.
  - split; [exact Hd|].
    destruct (@GaussianClamp.row_writes _ k mu (div (Fin 1) var) Hkn
                (var_neighbors v) Hfs (messages s) Sm) as [_ Hr].
    rewrite Hr, Nat.eqb_refl. cbn [andb].
    replace (existsb (Nat.eqb f) (var_neighbors v)) with true.
    + now rewrite Hmu, Hp.
    + symmetry. apply existsb_exists. exists f. split; auto.
      apply Nat.eqb_refl.
Qed.

End GaussianFrozen.

(** X17.  Evidence freezes the outgoing messages of the Gaussian engine
    when the damping factor is 0, the default, or 1.  On an engine reached
    from the constructor, once [setEvidence] has given a variable a finite
    mean and a variance whose inverse a double can hold, the message from
    that variable to each of its neighboring factors carries this mean and
    the precision [1 / variance], and it stays so through any number of
    [runIterations] calls, those that throw included. *)
Theorem gaussian_evidence_message_frozen
  (g : FactorGraph Gaussian.GaussianNodeInput) (damping : option num)
  (s : Gaussian.GaussianBeliefPropagation) (nodeId : string)
  (mu var : num) (m p : R) (k f : nat) (v : Gaussian.GaussianVariable)
  (calls : list (nat * option num)) :
  gaussianReachable g damping s ->
  Gaussian.dampingFactor s = Fin 0 \/ Gaussian.dampingFactor s = Fin 1 ->
  Gaussian.findNode s nodeId = Some (k, Gaussian.Var v) ->
  In f (Gaussian.var_neighbors v) ->
  mu = Fin m -> div (Fin 1) var = Fin p -> (Rabs p <= hugeDouble)%R ->
  messageAt (Gaussian.messages
               (gaussianRuns calls (Gaussian.setEvidence nodeId mu var s))) k f
  = (Fin m, Fin p).
Proof.
  intros Hr Hd Hfind Hf Hmu Hp _.
  pose proof (GaussianFrozen.gaussian_reachable_structured Hr) as Hst.
  pose proof (@GaussianFrozen.gaussian_setEvidence_clamps nodeId mu var m p s k v f
                Hst Hd Hfind Hf Hmu Hp) as Hc.
  apply (@GaussianFrozen.gaussian_clamped_runs k f _ mu var m p Hmu Hp Hf calls) in Hc.
  apply Hc.
Qed.

(* ================================================================= *)
(** ** The edge list, and the tolerance of [runIterations] *)

(** X18.  The edge list [processGraph] returns, in both engines.  It holds
    the two directions of every input edge both of whose names pass the
    [in] test against the node dictionary, each name replaced by the
    position of the node it names (0 for a name that is only inherited);
    it is therefore symmetric, and as soon as the graph has a node its
    entries are positions of nodes. *)
Theorem processGraph_edges :
  (forall (g : FactorGraph Discrete.BayesNodeInput) a b,
     let names := map fst (fg_nodes g) in
     let es := Discrete.edges (fst (Discrete.processGraph g)) in
     (In (a, b) es <->
      exists x y, In (x, y) (fg_edges g) /\
        in_nodeDict names x = true /\ in_nodeDict names y = true /\
        ((a, b) = (id_or_0 names x, id_or_0 names y) \/
         (a, b) = (id_or_0 names y, id_or_0 names x))) /\
     (In (a, b) es -> In (b, a) es) /\
     (In (a, b) es -> fg_nodes g <> [] ->
      a < List.length (Discrete.nodes (fst (Discrete.processGraph g))) /\
      b < List.length (Discrete.nodes (fst (Discrete.processGraph g))))) /\
  (forall (g : FactorGraph Gaussian.GaussianNodeInput) a b,
     let names := map fst (fg_nodes g) in
     let es := Gaussian.edges (fst (Gaussian.processGraph g)) in
     (In (a, b) es <->
      exists x y, In (x, y) (fg_edges g) /\
        in_nodeDict names x = true /\ in_nodeDict names y = true /\
        ((a, b) = (id_or_0 names x, id_or_0 names y) \/
         (a, b) = (id_or_0 names y, id_or_0 names x))) /\
     (In (a, b) es -> In (b, a) es) /\
     (In (a, b) es -> fg_nodes g <> [] ->
      a < List.length (Gaussian.nodes (fst (Gaussian.processGraph g))) /\
      b < List.length (Gaussian.nodes (fst (Gaussian.processGraph g))))).
Proof.
  split; intros g a b; cbn zeta.
  - destruct (discrete_processGraph_lists g) as (E & N & _). cbn zeta in *.
    rewrite E. split; [apply normalizeEdges_spec|].
    split; [apply normalizeEdges_sym|].
    intros Hin Hne.
    replace (List.length (Discrete.nodes (fst (Discrete.processGraph g))))
      with (List.length (map fst (fg_nodes g)))
      by (rewrite <- N; now rewrite !length_map).
    apply (@normalizeEdges_bound _ (fg_edges g)); auto.
    destruct (fg_nodes g); [congruence | discriminate].
  - destruct (gaussian_processGraph_lists g) as (E & N & _). cbn zeta in *.
    rewrite E. split; [apply normalizeEdges_spec|].
    split; [apply normalizeEdges_sym|].
    intros Hin Hne.
    replace (List.length (Gaussian.nodes (fst (Gaussian.processGraph g))))
      with (List.length (map fst (fg_nodes g)))
      by (rewrite <- N; now rewrite !length_map).
    apply (@normalizeEdges_bound _ (fg_edges g)); auto.
    destruct (fg_nodes g); [congruence | discriminate].
Qed.

Section Tolerance.

Open Scope R_scope.

Lemma nonNegative_max2 (a b : num) : nonNegative a -> nonNegative (max2 a b).
Proof.
  intros [->|[->|(r & -> & Hr)]].
  - left. reflexivity.
  - destruct b; unfold max2, lt, nonNegative; auto.
  - destruct b as [y| | |]; unfold max2, lt, nonNegative; auto.
    + destruct (Rlt_dec r y); right; right; eexists; split; eauto; lra.
    + right; right. eauto.
Qed.

Lemma nonNegative_fold (A : Type) (diff : num -> A -> num) (l : list A) :
  (forall a x, nonNegative a -> nonNegative (diff a x)) ->
  forall a, nonNegative a -> nonNegative (fold_left diff l a).
Proof.
  intros H. induction l as [|x t IH]; intros a Ha; simpl; auto.
Qed.

Lemma lt_neverBelow (x tolerance : num) :
  nonNegative x -> neverBelow tolerance -> lt x tolerance = false.
Proof.
  intros [->|[->|(r & -> & Hr)]] [->|[->|(t & -> & Ht)]];
    unfold lt; auto.
  destruct (Rlt_dec r t); [lra | reflexivity].
Qed.

Lemma zero_nonNegative : nonNegative (Fin 0).
Proof. right; right. exists 0. split; auto; lra. Qed.

Lemma discrete_maxDiff_nonNegative old s :
  nonNegative (Discrete.maxDiff old s).
Proof.
  unfold Discrete.maxDiff. apply nonNegative_fold.
  - intros a x Ha. now apply nonNegative_max2.
  - apply zero_nonNegative.
Qed.

Lemma gaussian_maxDiff_nonNegative old s :
  nonNegative (Gaussian.maxDiff old s).
Proof.
  unfold Gaussian.maxDiff. apply nonNegative_fold.
  - intros a x Ha. cbv zeta. now apply nonNegative_max2, nonNegative_max2.
  - apply zero_nonNegative.
Qed.

Lemma discrete_iterate_exhausts maxIterations tolerance remaining :
  neverBelow tolerance ->
  forall i s,
    Discrete.iterate maxIterations tolerance remaining i s
    = mkOutcome (Returned tt) [statusLine maxIterations Exhausted]
        (Nat.iter remaining Discrete.sweep s).
Proof.
  intros Ht. induction remaining as [|r IH]; intros i s; cbn [Discrete.iterate].
  - reflexivity.
  - rewrite (lt_neverBelow (discrete_maxDiff_nonNegative _ _) Ht).
    rewrite IH. now rewrite Nat.iter_succ_r.
Qed.

Lemma gaussian_iterate_exhausts maxIterations tolerance remaining :
  neverBelow tolerance ->
  forall i s,
    let o := Gaussian.iterate maxIterations tolerance remaining i s in
    completion o = Returned tt ->
    console o = [statusLine maxIterations Exhausted].
Proof.
  intros Ht. induction remaining as [|r IH]; intros i s; cbn [Gaussian.iterate].
  - reflexivity.
  - cbv zeta. destruct (Gaussian.updateAllMessages s) as [s1|e s1].
    + rewrite (lt_neverBelow (gaussian_maxDiff_nonNegative _ _) Ht).
      apply IH.
    + cbn [completion]. discriminate.
Qed.

End Tolerance.

(** X19.  A tolerance of zero (or negative, [-Infinity], NaN) switches the
    convergence test off.  The discrete [runIterations] then performs all
    [maxIterations] sweeps and reports that it did not converge; the
    Gaussian one, unless a sweep throws, reports the same. *)
Theorem tolerance_zero_never_converges
  (maxIterations : nat) (tolerance : num)
  (d : Discrete.BeliefPropagation) (g : Gaussian.GaussianBeliefPropagation) :
  neverBelow tolerance ->
  Discrete.runIterations maxIterations (Some tolerance) d
  = mkOutcome (Returned tt) [statusLine maxIterations Exhausted]
      (Nat.iter maxIterations Discrete.sweep d) /\
  (completion (Gaussian.runIterations maxIterations (Some tolerance) g)
   = Returned tt ->
   console (Gaussian.runIterations maxIterations (Some tolerance) g)
   = [statusLine maxIterations Exhausted]).
Proof.
  intros Ht. split.
  - unfold Discrete.runIterations. now apply discrete_iterate_exhausts.
  - unfold Gaussian.runIterations. now apply gaussian_iterate_exhausts.
Qed.

(* ================================================================= *)
(** ** What a sweep of the discrete engine leaves in the messages *)

Module DiscreteSweep.

Import Discrete.

Lemma variableUpdate_stores s variable factor :
  updateVariableToFactorMessage s variable factor
  = withNext s (mset (nextMessages s) variable factor
                  (discreteVariableMessage s variable factor)).
Proof.
  unfold updateVariableToFactorMessage, discreteVariableMessage.
  now destruct (map_has _ _).
Qed.

Lemma factorUpdate_stores s fid factor variable :
  updateFactorToVariableMessage s fid factor variable
  = withNext s (mset (nextMessages s) fid variable
                  (discreteFactorMessage s fid factor variable)).
Proof. reflexivity. Qed.

(** The computed messages read the graph, the current messages, the
    marginals and the evidence, and not the next-message buffer. *)
Lemma variableMessage_frame s0 s variable factor :
  DiscreteInv.sameButNext s0 s ->
  discreteVariableMessage s variable factor
  = discreteVariableMessage s0 variable factor.
Proof.
  intros (G & M & V & D & E). unfold discreteVariableMessage.
  now rewrite E, M, V.
Qed.

Lemma factorMessage_frame s0 s fid factor variable :
  DiscreteInv.sameButNext s0 s ->
  discreteFactorMessage s fid factor variable
  = discreteFactorMessage s0 fid factor variable.
Proof.
  intros (G & M & V & D & E).
  unfold discreteFactorMessage, possibleValuesOf. now rewrite G, M, V.
Qed.

Section VariableEntry.

Variables (s : BeliefPropagation) (k f : nat) (v : BayesVariable).
Hypothesis Hst : structured s.
Hypothesis Hk : nth_error (nodes (graph s)) k = Some (Var v).
Hypothesis Hf : In f (var_neighbors v).

Let G0 (x : BeliefPropagation) : Prop :=
  mget [] (nextMessages x) k f = discreteVariableMessage s k f.

Lemma variableEntry_bounds :
  k < List.length (nodes (graph s)) /\ f < List.length (nodes (graph s)).
Proof.
  destruct Hst as (_ & _ & Hnb). split.
  - apply nth_error_Some. congruence.
  - apply (Hnb k (Var v) f Hk). exact Hf.
Qed.

Lemma variableEntry_keep x a b :
  during s x -> G0 x -> G0 (updateVariableToFactorMessage x a b).
Proof.
  intros [F S] H0. destruct variableEntry_bounds as [Hkn Hfn].
  unfold G0 in *. rewrite variableUpdate_stores. cbn [withNext nextMessages].
  destruct (Nat.eq_dec a k) as [->|Ha]; [destruct (Nat.eq_dec b f) as [->|Hb]|].
  - rewrite (@mget_mset_same _ [] _ _ k f _ S Hkn Hfn).
    now apply variableMessage_frame.
  - rewrite mget_mset_other by congruence. exact H0.
  - rewrite mget_mset_other by congruence. exact H0.
Qed.

Lemma variableEntry_make x :
  during s x -> G0 (updateVariableToFactorMessage x k f).
Proof.
  intros [F S]. destruct variableEntry_bounds as [Hkn Hfn].
  unfold G0. rewrite variableUpdate_stores. cbn [withNext nextMessages].
  rewrite (@mget_mset_same _ [] _ _ k f _ S Hkn Hfn).
  now apply variableMessage_frame.
Qed.

Lemma variableEntry_variablePhase :
  during s (variablePhase s) /\ G0 (variablePhase s).
Proof.
  pose proof Hst as (Sm & Sx & Hnb). unfold variablePhase.
  apply (@fold_left_establishes _ _ _ (during s) G0
           (indexed (nodes (graph s))) (k, Var v)).
  - apply (@in_indexed _ (nodes (graph s)) 0 k (Var v) Hk).
  - intros x [a [va|fa]] _ Hd; cbn [snd fst]; auto.
    apply (@fold_left_preserves _ _ _ (during s)); auto.
    intros; now apply DiscreteClamp.during_variable.
  - intros x [a [va|fa]] _ Hd H0; cbn [snd fst]; auto.
    apply (@fold_left_preserves_in _ _ _
             (fun y => during s y /\ G0 y) (var_neighbors va));
      [|split; auto].
    intros y b _ [Hy Gy].
    split; [now apply DiscreteClamp.during_variable
           | now apply variableEntry_keep].
  - intros x Hd. cbn [snd fst].
    apply (@fold_left_establishes _ _ _ (during s) G0 (var_neighbors v) f);
      [exact Hf | intros; now apply DiscreteClamp.during_variable
       | intros; now apply variableEntry_keep
       | exact variableEntry_make | exact Hd].
  - split; [apply DiscreteFrame.sameButNext_refl | exact Sx].
Qed.

(** The factor loop writes the rows of the factors, and [k] is the position
    of a variable. *)
Lemma variableEntry_factorPhase x :
  during s x -> G0 x -> G0 (factorPhase x).
Proof.
  intros Hd H0. pose proof Hd as [(Gr & _) _]. unfold factorPhase.
  apply (@fold_left_preserves_in _ _ _ (fun y => during s y /\ G0 y)
           (indexed (nodes (graph x)))); [|split; auto].
  intros y [a [va|fa]] Hin [Hy Gy]; cbn [snd fst]; auto.
  apply indexed_nth in Hin. destruct Hin as [_ Ha].
  rewrite Nat.sub_0_r, Gr in Ha.
  assert (Hak : a <> k) by (intros ->; congruence).
  apply (@fold_left_preserves _ _ _ (fun z => during s z /\ G0 z));
    [|split; auto].
  intros z b [Hz Gz]. split; [now apply DiscreteClamp.during_factor|].
  unfold G0. rewrite factorUpdate_stores. cbn [withNext nextMessages].
  rewrite mget_mset_other by congruence. exact Gz.
Qed.

Lemma variableEntry_after_sweep :
  mget [] (messages (updateAllMessages s)) k f
  = discreteVariableMessage s k f.
Proof.
  destruct variableEntry_variablePhase as [Hd H0].
  exact (variableEntry_factorPhase Hd H0).
Qed.

End VariableEntry.

Section FactorEntry.

Variables (s : BeliefPropagation) (fid b : nat) (fac : BayesFactor).
Hypothesis Hst : structured s.
Hypothesis Hfid : nth_error (nodes (graph s)) fid = Some (Fac fac).
Hypothesis Hb : In b (fac_neighbors fac).

Let G1 (x : BeliefPropagation) : Prop :=
  mget [] (nextMessages x) fid b = discreteFactorMessage s fid fac b.

Lemma factorEntry_bounds :
  fid < List.length (nodes (graph s)) /\ b < List.length (nodes (graph s)).
Proof.
  destruct Hst as (_ & _ & Hnb). split.
  - apply nth_error_Some. congruence.
  - apply (Hnb fid (Fac fac) b Hfid). exact Hb.
Qed.

Lemma factorEntry_keep x a fa c :
  nth_error (nodes (graph s)) a = Some (Fac fa) ->
  during s x -> G1 x -> G1 (updateFactorToVariableMessage x a fa c).
Proof.
  intros Ha [F S] H0. destruct factorEntry_bounds as [Hfn Hbn].
  unfold G1 in *. rewrite factorUpdate_stores. cbn [withNext nextMessages].
  destruct (Nat.eq_dec a fid) as [->|Hne];
    [destruct (Nat.eq_dec c b) as [->|Hc]|].
  - rewrite (@mget_mset_same _ [] _ _ fid b _ S Hfn Hbn).
    assert (fa = fac) by congruence. subst fa.
    now apply factorMessage_frame.
  - rewrite mget_mset_other by congruence. exact H0.
  - rewrite mget_mset_other by congruence. exact H0.
Qed.

Lemma factorEntry_make x :
  during s x -> G1 (updateFactorToVariableMessage x fid fac b).
Proof.
  intros [F S]. destruct factorEntry_bounds as [Hfn Hbn].
  unfold G1. rewrite factorUpdate_stores. cbn [withNext nextMessages].
  rewrite (@mget_mset_same _ [] _ _ fid b _ S Hfn Hbn).
  now apply factorMessage_frame.
Qed.

Lemma factorEntry_factorPhase x :
  during s x -> during s (factorPhase x) /\ G1 (factorPhase x).
Proof.
  intros Hd. pose proof Hd as [(Gr & _) _]. unfold factorPhase. rewrite Gr.
  apply (@fold_left_establishes _ _ _ (during s) G1
           (indexed (nodes (graph s))) (fid, Fac fac)).
  - apply (@in_indexed _ (nodes (graph s)) 0 fid (Fac fac) Hfid).
  - intros y [a [va|fa]] _ Hy; cbn [snd fst]; auto.
    apply (@fold_left_preserves _ _ _ (during s)); auto.
    intros; now apply DiscreteClamp.during_factor.
  - intros y [a [va|fa]] Hin Hy Gy; cbn [snd fst]; auto.
    apply indexed_nth in Hin. destruct Hin as [_ Ha].
    rewrite Nat.sub_0_r in Ha.
    apply (@fold_left_preserves _ _ _ (fun z => during s z /\ G1 z));
      [|split; auto].
    intros z c [Hz Gz].
    split; [now apply DiscreteClamp.during_factor
           | now apply factorEntry_keep].
  - intros y Hy. cbn [snd fst].
    apply (@fold_left_establishes _ _ _ (during s) G1 (fac_neighbors fac) b);
      [exact Hb | intros; now apply DiscreteClamp.during_factor
       | | exact factorEntry_make | exact Hy].
    intros z c _ Hz Gz. now apply factorEntry_keep.
  - exact Hd.
Qed.

Lemma factorEntry_after_sweep :
  mget [] (messages (updateAllMessages s)) fid b
  = discreteFactorMessage s fid fac b.
Proof.
  destruct (factorEntry_factorPhase (DiscreteClamp.during_variablePhase Hst))
    as [_ H].
  exact H.
Qed.

End FactorEntry.

End DiscreteSweep.

(* ================================================================= *)
(** ** What the message loops of a Gaussian sweep leave in the buffer *)

Module GaussianSweep.

Import Gaussian GaussianInv.

(** The invariant of the two message loops, seen from the engine [s] at
    the start of the sweep. *)
Lemma sweep_start s :
  gaussianStructured s ->
  sameButNext s (stateOf (Done s)) /\
  shapedNext (List.length (nodes (graph s))) (Done s).
Proof.
  intros (_ & Sx & _).
  split; [apply GaussianFrame.gaussian_sameButNext_refl | exact Sx].
Qed.

Section Entry.

Variables (s : GaussianBeliefPropagation) (a b : nat) (val : num * num).
Hypothesis Hst : gaussianStructured s.
Hypothesis Ha : a < List.length (nodes (graph s)).
Hypothesis Hb : b < List.length (nodes (graph s)).

Let J (r : Step) : Prop :=
  sameButNext s (stateOf r) /\
  shapedNext (List.length (nodes (graph s))) r.

Let G (r : Step) : Prop :=
  forall raw, r = Done raw -> messageAt (nextMessages raw) a b = val.

(** A write at another entry keeps the entry [(a, b)]. *)
Lemma entry_kept_by_variable r c d :
  (c, d) <> (a, b) -> J r -> G r ->
  G (andThen reduceError r (fun x => updateVariableToFactorMessage x c d)).
Proof.
  intros Hne _ Hg raw Hr.
  destruct r as [s0|e s0]; cbn [andThen] in Hr; [|discriminate].
  destruct (updateVariableToFactorMessage s0 c d) as [s1|] eqn:U;
    [|discriminate].
  injection Hr as <-.
  destruct (GaussianFrozen.variableUpdate_form _ _ _ U) as (x & y & -> & _).
  cbn [withNext nextMessages].
  rewrite GaussianDamping.messageAt_setMessage_other by exact Hne.
  now apply Hg.
Qed.

Lemma entry_kept_by_factor r c fc d :
  (c, d) <> (a, b) -> J r -> G r ->
  G (andThen matrixError r (fun x => updateFactorToVariableMessage x c fc d)).
Proof.
  intros Hne _ Hg raw Hr.
  destruct r as [s0|e s0]; cbn [andThen] in Hr; [|discriminate].
  destruct (updateFactorToVariableMessage s0 c fc d) as [s1|] eqn:U;
    [|discriminate].
  injection Hr as <-.
  destruct (GaussianFrozen.factorUpdate_form _ _ _ _ U) as (x & y & ->).
  cbn [withNext nextMessages].
  rewrite GaussianDamping.messageAt_setMessage_other by exact Hne.
  now apply Hg.
Qed.

(** *** The entry of a variable-to-factor message *)

Section FromVariable.

Variable v : GaussianVariable.
Hypothesis Hk : nth_error (nodes (graph s)) a = Some (Var v).
Hypothesis Hf : In b (var_neighbors v).
Hypothesis Hval :
  forall x x', sameButNext s x ->
    updateVariableToFactorMessage x a b = Some x' ->
    x' = withNext x (setMessage (nextMessages x) a b (fst val) (snd val)).

Lemma variable_write r :
  J r ->
  G (andThen reduceError r (fun x => updateVariableToFactorMessage x a b)).
Proof.
  intros [F S] raw Hr.
  destruct r as [s0|e s0]; cbn [andThen] in Hr; [|discriminate].
  destruct (updateVariableToFactorMessage s0 a b) as [s1|] eqn:U;
    [|discriminate].
  injection Hr as <-. cbn [stateOf] in F, S.
  rewrite (Hval F U). cbn [withNext nextMessages].
  rewrite (@GaussianDamping.messageAt_setMessage_same
             (List.length (nodes (graph s)))); auto.
  now destruct val.
Qed.

Lemma variable_keep r c d :
  J r -> G r ->
  G (andThen reduceError r (fun x => updateVariableToFactorMessage x c d)).
Proof.
  intros Hj Hg.
  destruct (Nat.eq_dec c a) as [->|Hc]; [destruct (Nat.eq_dec d b) as [->|Hd]|].
  - now apply variable_write.
  - apply entry_kept_by_variable; auto. congruence.
  - apply entry_kept_by_variable; auto. congruence.
Qed.

Lemma variable_entry_after_phases raw :
  factorPhase (variablePhase s) = Done raw ->
  messageAt (nextMessages raw) a b = val.
Proof.
  intros Hraw.
  assert (V : J (variablePhase s) /\ G (variablePhase s)).
  { unfold variablePhase.
    apply (@fold_left_establishes _ _ _ J G
             (combine (seq 0 (List.length (nodes (graph s)))) (nodes (graph s)))
             (a, Var v)).
    - apply (@in_indexed _ (nodes (graph s)) 0 a (Var v) Hk).
    - intros r [c [vc|fc]] _ Hr; cbn [snd fst]; auto.
      apply (@fold_left_preserves _ _ _ J); auto.
      intros; now apply GaussianFrozen.J_variable.
    - intros r [c [vc|fc]] _ Hr Hg; cbn [snd fst]; auto.
      apply (@fold_left_preserves_in _ _ _ (fun x => J x /\ G x)
               (var_neighbors vc)); [|split; auto].
      intros x d _ [Hx Gx].
      split; [now apply GaussianFrozen.J_variable | now apply variable_keep].
    - intros r Hr. cbn [snd fst].
      apply (@fold_left_establishes _ _ _ J G (var_neighbors v) b);
        [exact Hf | intros; now apply GaussianFrozen.J_variable
         | intros; now apply variable_keep | exact variable_write | exact Hr].
    - now apply sweep_start. }
  destruct V as [JV GV].
  assert (F : J (factorPhase (variablePhase s)) /\
              G (factorPhase (variablePhase s))).
  { unfold factorPhase. pose proof JV as [(Gr & _) _].
    apply (@fold_left_preserves_in _ _ _ (fun x => J x /\ G x)
             (combine (seq 0 (List.length (nodes (graph (stateOf (variablePhase s))))))
                      (nodes (graph (stateOf (variablePhase s))))));
      [|split; auto].
    intros x [c [vc|fc]] Hin [Hx Gx]; cbn [snd fst]; auto.
    apply indexed_nth in Hin. destruct Hin as [_ Hc].
    rewrite Nat.sub_0_r, Gr in Hc.
    assert (Hca : c <> a) by (intros ->; congruence).
    apply (@fold_left_preserves _ _ _ (fun x => J x /\ G x)); [|split; auto].
    intros y d [Hy Gy]. split; [now apply GaussianFrozen.J_factor|].
    apply entry_kept_by_factor; auto. congruence. }
  destruct F as [_ GF]. now apply GF.
Qed.

End FromVariable.

(** *** The entry of a factor-to-variable message *)

Section FromFactor.

Variable fac : GaussianFactor.
Hypothesis Hk : nth_error (nodes (graph s)) a = Some (Fac fac).
Hypothesis Hf : In b (fac_neighbors fac).
Hypothesis Hval :
  forall x x', sameButNext s x ->
    updateFactorToVariableMessage x a fac b = Some x' ->
    x' = withNext x (setMessage (nextMessages x) a b (fst val) (snd val)).

Lemma factor_write r :
  J r ->
  G (andThen matrixError r (fun x => updateFactorToVariableMessage x a fac b)).
Proof.
  intros [F S] raw Hr.
  destruct r as [s0|e s0]; cbn [andThen] in Hr; [|discriminate].
  destruct (updateFactorToVariableMessage s0 a fac b) as [s1|] eqn:U;
    [|discriminate].
  injection Hr as <-. cbn [stateOf] in F, S.
  rewrite (Hval F U). cbn [withNext nextMessages].
  rewrite (@GaussianDamping.messageAt_setMessage_same
             (List.length (nodes (graph s)))); auto.
  now destruct val.
Qed.

Lemma factor_keep r c fc d :
  nth_error (nodes (graph s)) c = Some (Fac fc) ->
  J r -> G r ->
  G (andThen matrixError r (fun x => updateFactorToVariableMessage x c fc d)).
Proof.
  intros Hc Hj Hg.
  destruct (Nat.eq_dec c a) as [->|Hne]; [destruct (Nat.eq_dec d b) as [->|Hd]|].
  - assert (fc = fac) by congruence. subst fc. now apply factor_write.
  - apply entry_kept_by_factor; auto. congruence.
  - apply entry_kept_by_factor; auto. congruence.
Qed.

Lemma factor_entry_after_phases raw :
  factorPhase (variablePhase s) = Done raw ->
  messageAt (nextMessages raw) a b = val.
Proof.
  intros Hraw.
  assert (JV : J (variablePhase s)).
  { unfold variablePhase.
    apply (@fold_left_preserves _ _ _ J); [|now apply sweep_start].
    intros r [c [vc|fc]] Hr; cbn [snd fst]; auto.
    apply (@fold_left_preserves _ _ _ J); auto.
    intros; now apply GaussianFrozen.J_variable. }
  assert (F : J (factorPhase (variablePhase s)) /\
              G (factorPhase (variablePhase s))).
  { unfold factorPhase. pose proof JV as [(Gr & _) _]. rewrite Gr.
    apply (@fold_left_establishes _ _ _ J G
             (combine (seq 0 (List.length (nodes (graph s)))) (nodes (graph s)))
             (a, Fac fac)).
    - apply (@in_indexed _ (nodes (graph s)) 0 a (Fac fac) Hk).
    - intros r [c [vc|fc]] _ Hr; cbn [snd fst]; auto.
      apply (@fold_left_preserves _ _ _ J); auto.
      intros; now apply GaussianFrozen.J_factor.
    - intros r [c [vc|fc]] Hin Hr Hg; cbn [snd fst]; auto.
      apply indexed_nth in Hin. destruct Hin as [_ Hc].
      rewrite Nat.sub_0_r in Hc.
      apply (@fold_left_preserves _ _ _ (fun x => J x /\ G x)); [|split; auto].
      intros x d [Hx Gx].
      split; [now apply GaussianFrozen.J_factor | now apply factor_keep].
    - intros r Hr. cbn [snd fst].
      apply (@fold_left_establishes _ _ _ J G (fac_neighbors fac) b);
        [exact Hf | intros; now apply GaussianFrozen.J_factor
         | | exact factor_write | exact Hr].
      intros x d _ Hx Gx. now apply factor_keep.
    - exact JV. }
  destruct F as [_ GF]. now apply GF.
Qed.

End FromFactor.

End Entry.

(** *** The two computed messages *)

Lemma variableUpdate_call s variable factor s' :
  updateVariableToFactorMessage s variable factor = Some s' ->
  s' = withNext s
         (setMessage (nextMessages s) variable factor
            (fst (gaussianVariableMessage s variable factor))
            (snd (gaussianVariableMessage s variable factor))).
Proof.
  unfold updateVariableToFactorMessage, gaussianVariableMessage,
    totalPrecision, weightedMean.
  destruct (map_get (evidence s) variable) as [ev|].
  - intros H. injection H as <-. reflexivity.
  - cbv zeta. destruct (filter _ _) as [|x t]; [discriminate|].
    rewrite !reduce1_add by discriminate.
    intros H. injection H as <-. reflexivity.
Qed.

Lemma gaussianVariableMessage_frame s x variable factor :
  sameButNext s x ->
  gaussianVariableMessage x variable factor
  = gaussianVariableMessage s variable factor.
Proof.
  intros (Gr & M & _ & E).
  unfold gaussianVariableMessage, totalPrecision, weightedMean, neighborsOf.
  now rewrite Gr, M, E.
Qed.

Lemma outMean_frame s x fid f i :
  sameButNext s x ->
  FactorMessageSpec.outMean x fid f i = FactorMessageSpec.outMean s fid f i.
Proof.
  intros (_ & M & _).
  unfold FactorMessageSpec.outMean, FactorMessageSpec.others,
    FactorMessageSpec.incomingMean.
  now rewrite M.
Qed.

(** The damping loop and the swap, applied to an entry the message loops
    have computed. *)
Lemma entry_after_sweep s a b val s' :
  gaussianStructured s ->
  a < List.length (nodes (graph s)) -> b < List.length (nodes (graph s)) ->
  (forall raw, factorPhase (variablePhase s) = Done raw ->
               messageAt (nextMessages raw) a b = val) ->
  updateAllMessages s = Done s' ->
  messageAt (messages s') a b
  = dampPair (dampingFactor s) (messageAt (messages s) a b) val.
Proof.
  intros (_ & Sx & _) Ha Hb Hraw Hs'.
  destruct (factorPhase (variablePhase s)) as [raw|e raw] eqn:P.
  - destruct (GaussianDamping.updateAllMessages_blend s Sx P Ha Hb)
      as (s'' & E & Hm).
    assert (s'' = s') by congruence. subst s''.
    rewrite Hm. now rewrite (Hraw raw eq_refl).
  - unfold updateAllMessages in Hs'. rewrite P in Hs'. discriminate.
Qed.

End GaussianSweep.

(** C5.  For a factor [f] of the Gaussian engine with an [n] by [n]
    precision matrix and a mean vector of length [n], and a target variable
    found at neighbor index [i], the factor-to-variable message has
    precision [Lambda[i,i]] and mean
    [(eta[i] - sum over j <> i of Lambda[i,j] * incomingMean[j]) / Lambda[i,i]]
    when [Lambda[i,i] > 0] and mean [0] otherwise, the incoming means being
    read from the current messages.  This is the message read back from the
    next-message buffer after the call [updateFactorToVariableMessage],
    which changes no other entry and leaves the current messages alone;
    it is the message found there when the two message loops of a sweep
    have completed; and it is the message the damping loop then blends with
    the previous one. *)
Theorem factor_to_variable_message
  (s : Gaussian.GaussianBeliefPropagation) (fid : nat)
  (f : Gaussian.GaussianFactor) (variable i : nat) :
  gaussianStructured s ->
  nth_error (Gaussian.nodes (Gaussian.graph s)) fid = Some (Gaussian.Fac f) ->
  FactorMessageSpec.wellShaped f ->
  findIndex (fun v => Nat.eqb v variable) (Gaussian.fac_neighbors f) = Some i ->
  let computed :=
    (FactorMessageSpec.outMean s fid f i, FactorMessageSpec.outPrecision f i) in
  (exists s',
      Gaussian.updateFactorToVariableMessage s fid f variable = Some s' /\
      messageAt (Gaussian.nextMessages s') fid variable = computed /\
      (forall a b, (fid, variable) <> (a, b) ->
         messageAt (Gaussian.nextMessages s') a b
         = messageAt (Gaussian.nextMessages s) a b) /\
      Gaussian.messages s' = Gaussian.messages s) /\
  (forall raw,
      Gaussian.factorPhase (Gaussian.variablePhase s) = Gaussian.Done raw ->
      messageAt (Gaussian.nextMessages raw) fid variable = computed) /\
  (forall s',
      Gaussian.updateAllMessages s = Gaussian.Done s' ->
      messageAt (Gaussian.messages s') fid variable
      = dampPair (Gaussian.dampingFactor s)
                 (messageAt (Gaussian.messages s) fid variable) computed).
Proof.
  intros Hst Hfid Hs Hidx. cbv zeta.
  pose proof Hst as (Sm & Sx & Hnb).
  assert (Hin : In variable (Gaussian.fac_neighbors f)).
  { unfold findIndex in Hidx.
    destruct (FactorMessage.findIndex_from_found _ _ _ Hidx) as (x & Hx & Px).
    apply Nat.eqb_eq in Px. subst x. eapply nth_error_In; eauto. }
  assert (Hfn : fid < List.length (Gaussian.nodes (Gaussian.graph s)))
    by (apply nth_error_Some; congruence).
  assert (Hvn : variable < List.length (Gaussian.nodes (Gaussian.graph s)))
    by (apply (Hnb fid (Gaussian.Fac f) variable Hfid); exact Hin).
  assert (Hraw : forall raw,
             Gaussian.factorPhase (Gaussian.variablePhase s) = Gaussian.Done raw ->
             messageAt (Gaussian.nextMessages raw) fid variable
             = (FactorMessageSpec.outMean s fid f i,
                FactorMessageSpec.outPrecision f i)).
  { intros raw.
    apply (@GaussianSweep.factor_entry_after_phases s fid variable
             (FactorMessageSpec.outMean s fid f i,
              FactorMessageSpec.outPrecision f i) Hst Hfn Hvn f Hfid Hin).
    intros x x' Hx Hu. cbn [fst snd].
    rewrite (@factorUpdate_call x fid f variable i Hs Hidx) in Hu.
    injection Hu as <-. now rewrite (GaussianSweep.outMean_frame fid f i Hx). }
  split; [|split].
  - eexists. split; [exact (@factorUpdate_call s fid f variable i Hs Hidx)|].
    cbn [Gaussian.withNext Gaussian.nextMessages Gaussian.messages].
    split; [|split; [|reflexivity]].
    + now apply (@GaussianDamping.messageAt_setMessage_same
                   (List.length (Gaussian.nodes (Gaussian.graph s)))).
    + intros a b Hne.
      now apply GaussianDamping.messageAt_setMessage_other.
  - exact Hraw.
  - intros s' Hs'.
    now apply (@GaussianSweep.entry_after_sweep s fid variable _ s').
Qed.

(** X10.  The Gaussian variable-to-factor message.  For an observed
    variable it is the observation: mean [mu], precision [1 / variance].
    Otherwise the current messages of the other neighbors are multiplied:
    the precision is the sum of their precisions, the mean their
    precision-weighted average, or 0 when that sum is not positive; with no
    other neighbor the call throws, the reduction of the empty array having
    no initial value.  This is the message read back from the next-message
    buffer after the call, which leaves the current messages alone; it is
    the message found there when the two message loops of a sweep have
    completed; and it is the message the damping loop then blends with the
    previous one. *)
Theorem gaussian_variable_to_factor_message
  (s : Gaussian.GaussianBeliefPropagation) (variable factor : nat)
  (v : Gaussian.GaussianVariable) :
  gaussianStructured s ->
  nth_error (Gaussian.nodes (Gaussian.graph s)) variable = Some (Gaussian.Var v) ->
  In factor (Gaussian.var_neighbors v) ->
  let computed := gaussianVariableMessage s variable factor in
  (Gaussian.updateVariableToFactorMessage s variable factor = None <->
   map_get (Gaussian.evidence s) variable = None /\
   filter (fun n => negb (Nat.eqb n factor)) (Gaussian.neighborsOf s variable)
   = []) /\
  (forall s',
      Gaussian.updateVariableToFactorMessage s variable factor = Some s' ->
      messageAt (Gaussian.nextMessages s') variable factor = computed /\
      Gaussian.messages s' = Gaussian.messages s) /\
  (forall raw,
      Gaussian.factorPhase (Gaussian.variablePhase s) = Gaussian.Done raw ->
      messageAt (Gaussian.nextMessages raw) variable factor = computed) /\
  (forall s',
      Gaussian.updateAllMessages s = Gaussian.Done s' ->
      messageAt (Gaussian.messages s') variable factor
      = dampPair (Gaussian.dampingFactor s)
                 (messageAt (Gaussian.messages s) variable factor) computed).
Proof.
  intros Hst Hk Hf. cbv zeta.
  pose proof Hst as (Sm & Sx & Hnb).
  assert (Hvn : variable < List.length (Gaussian.nodes (Gaussian.graph s)))
    by (apply nth_error_Some; congruence).
  assert (Hfn : factor < List.length (Gaussian.nodes (Gaussian.graph s)))
    by (apply (Hnb variable (Gaussian.Var v) factor Hk); exact Hf).
  assert (Hraw : forall raw,
             Gaussian.factorPhase (Gaussian.variablePhase s) = Gaussian.Done raw ->
             messageAt (Gaussian.nextMessages raw) variable factor
             = gaussianVariableMessage s variable factor).
  { intros raw.
    apply (@GaussianSweep.variable_entry_after_phases s variable factor
             (gaussianVariableMessage s variable factor) Hst Hvn Hfn v Hk Hf).
    intros x x' Hx Hu.
    rewrite <- (GaussianSweep.gaussianVariableMessage_frame variable factor Hx).
    now apply GaussianSweep.variableUpdate_call. }
  split; [|split; [|split]].
  - apply GaussianThrow.update_None_iff.
  - intros s' Hu. rewrite (GaussianSweep.variableUpdate_call _ _ _ Hu).
    cbn [Gaussian.withNext Gaussian.nextMessages Gaussian.messages].
    split; [|reflexivity].
    rewrite (@GaussianDamping.messageAt_setMessage_same
               (List.length (Gaussian.nodes (Gaussian.graph s)))); auto.
    now destruct (gaussianVariableMessage s variable factor).
  - exact Hraw.
  - intros s' Hs'.
    now apply (@GaussianSweep.entry_after_sweep s variable factor _ s').
Qed.

(* ================================================================= *)
(** ** The belief update leaves the range of the exponential *)

Section Underflow.

Import Discrete.

Open Scope R_scope.

Lemma tiny_positive : 0 < tiny.
Proof. unfold tiny. apply Rinv_0_lt_compat, pow_lt. lra. Qed.

Lemma ln_10_above_2 : 2 < ln 10.
Proof.
  assert (H : Rtrigo_def.exp 2 < 10).
  { replace 2 with (1 + 1) by lra. rewrite exp_plus.
    pose proof exp_le_3 as H3. pose proof (exp_pos 1) as Hp. nra. }
  rewrite <- (ln_exp 2). apply ln_increasing; [apply exp_pos | exact H].
Qed.

Lemma ln_tiny : ln tiny < -400.
Proof.
  unfold tiny. rewrite ln_Rinv by (apply pow_lt; lra).
  rewrite ln_pow by lra. pose proof ln_10_above_2.
  change (INR 200) with (INR (100 + 100)). rewrite plus_INR.
  change (INR 100) with (INR (50 + 50)). rewrite plus_INR.
  change (INR 50) with (INR (25 + 25)). rewrite plus_INR.
  assert (H25 : INR 25 = 25) by (simpl; lra).
  rewrite H25. nra.
Qed.

(** The message a factor with one neighbor sends: its potential,
    normalized in log space. *)
Lemma unary_factor_message s fid fac b n :
  fac_neighbors fac = [b] ->
  List.length (possibleValuesOf s b) = n ->
  discreteFactorMessage s fid fac b
  = let logMessages :=
      map (fun i =>
             BeliefUtils.logSumExp [add (logPotential fac [Some i]) (Fin 0)])
          (seq 0 n) in
    map (fun m => Num.exp (sub m (BeliefUtils.logSumExp logMessages)))
        logMessages.
Proof.
  intros Hb Hn. unfold discreteFactorMessage. cbv zeta.
  rewrite Hb, Hn. unfold indexOf, findIndex.
  cbn [filter findIndex_from List.length]. rewrite Nat.eqb_refl.
  cbn [negb map fold_left indexed List.length seq combine repeat assign set_nth].
  reflexivity.
Qed.

Lemma opposedFactor_logPotential name a i :
  logPotential (opposedFactor name a) [Some i]
  = Fin (ln (if Nat.eqb i a then tiny else 1)).
Proof.
  cbn [opposedFactor logPotential against]. cbv zeta.
  pose proof tiny_positive as Ht.
  destruct (Nat.eqb i a).
  - replace (gt (Fin tiny) (Fin 0)) with true
      by (unfold gt, lt; destruct (Rlt_dec 0 tiny); [reflexivity | lra]).
    now apply DiscreteValid.log_positive.
  - replace (gt (Fin 1) (Fin 0)) with true
      by (unfold gt, lt; destruct (Rlt_dec 0 1); [reflexivity | lra]).
    apply DiscreteValid.log_positive. lra.
Qed.

Lemma opposed_message s fid name a :
  (a < 2)%nat ->
  List.length (possibleValuesOf s 0) = 2%nat ->
  discreteFactorMessage s fid (opposedFactor name a) 0
  = [Fin (opposedWeight a 0); Fin (opposedWeight a 1)].
Proof.
  intros Ha Hn. rewrite (@unary_factor_message s fid (opposedFactor name a) 0%nat 2%nat
             eq_refl Hn).
  cbv zeta. cbn [seq map]. rewrite !opposedFactor_logPotential.
  pose proof tiny_positive as Ht.
  set (p0 := if Nat.eqb 0 a then tiny else 1).
  set (p1 := if Nat.eqb 1 a then tiny else 1).
  assert (H0 : 0 < p0) by (unfold p0; destruct (Nat.eqb 0 a); lra).
  assert (H1 : 0 < p1) by (unfold p1; destruct (Nat.eqb 1 a); lra).
  assert (Hs : p0 + p1 = tiny + 1).
  { unfold p0, p1. destruct a as [|[|a]]; cbn [Nat.eqb]; lra || lia. }
  cbn [add].
  change [Fin (ln p0 + 0)] with (map Fin [ln p0 + 0]).
  change [Fin (ln p1 + 0)] with (map Fin [ln p1 + 0]).
  rewrite !logSumExp_of_reals by discriminate.
  cbn [map Rsum].
  assert (E0 : ln (Rtrigo_def.exp (ln p0 + 0) + 0) = ln p0).
  { rewrite Rplus_0_r, Rplus_0_r, exp_ln; auto. }
  assert (E1 : ln (Rtrigo_def.exp (ln p1 + 0) + 0) = ln p1).
  { rewrite Rplus_0_r, Rplus_0_r, exp_ln; auto. }
  rewrite E0, E1.
  destruct (@softmax_of_reals [ln p0; ln p1]) as [E _]; [discriminate|].
  cbn [map Rsum] in E. rewrite E. unfold opposedWeight. fold p0 p1.
  rewrite !exp_ln by assumption.
  replace (p0 + (p1 + 0)) with (tiny + 1) by lra. reflexivity.
Qed.

Lemma opposedWeight_log a i :
  (a < 2)%nat ->
  Num.log (or_else (Some (Fin (opposedWeight a i))) (Fin 1))
  = Fin (ln (opposedWeight a i)) /\
  ln (opposedWeight a i) < 0 /\
  (i = a -> ln (opposedWeight a i) < -400).
Proof.
  intros Ha. pose proof tiny_positive as Ht. pose proof ln_tiny as Hl.
  assert (Hpos : 0 < opposedWeight a i).
  { unfold opposedWeight. apply Rdiv_lt_0_compat; [|lra].
    destruct (Nat.eqb i a); lra. }
  split; [|split].
  - unfold or_else, truthy.
    destruct (Req_dec_T (opposedWeight a i) 0) as [E|_]; [lra|].
    now apply DiscreteValid.log_positive.
  - rewrite <- ln_1. apply ln_increasing; [exact Hpos|].
    unfold opposedWeight. apply Rmult_lt_reg_r with (tiny + 1); [lra|].
    unfold Rdiv. rewrite Rmult_assoc, Rinv_l by lra.
    destruct (Nat.eqb i a); lra.
  - intros ->. unfold opposedWeight.
    rewrite Nat.eqb_refl.
    apply Rlt_trans with (ln tiny); [|exact Hl].
    apply ln_increasing; [apply Rdiv_lt_0_compat; lra|].
    apply Rmult_lt_reg_r with (tiny + 1); [lra|].
    unfold Rdiv. rewrite Rmult_assoc, Rinv_l by lra. nra.
Qed.

Close Scope R_scope.

Lemma opposed_constructed :
  constructor opposed None = Some (built opposed None).
Proof. reflexivity. Qed.

Lemma opposed_structured : structured (built opposed None).
Proof. exact (DiscreteClamp.constructor_structured _ _ opposed_constructed). Qed.

(** After one message update on the engine of [opposed], the message of
    each factor to [X] is its normalized potential. *)
Lemma opposed_sweep_message j name a :
  nth_error (nodes (graph (built opposed None))) j
  = Some (Fac (opposedFactor name a)) ->
  a < 2 ->
  mget [] (messages (updateAllMessages (built opposed None))) j 0
  = [Fin (opposedWeight a 0); Fin (opposedWeight a 1)].
Proof.
  intros Hj Ha.
  rewrite (@DiscreteSweep.factorEntry_after_sweep (built opposed None) j 0
             (opposedFactor name a) opposed_structured Hj
             (or_introl eq_refl)).
  apply opposed_message; [exact Ha | reflexivity].
Qed.

End Underflow.

(** C1, where the code leaves it.  On the engine of [opposed], one binary
    variable [X] between two factors with the potential [1e-200] on its
    first value and two with [1e-200] on its second, the message update of
    the first sweep leaves [X] without evidence and with four messages
    whose logarithms add up to less than -800 at both values.
    [updateBeliefs] hands these sums to [Math.exp] before it normalizes:
    both are below -745.14, where the exponential of a double is 0, so the
    unnormalized marginal of [X] is [0, 0] and its normalization divides 0
    by 0. *)
Theorem belief_update_underflows :
  let s := Discrete.updateAllMessages (built opposed None) in
  nth_error (Discrete.nodes (Discrete.graph s)) 0
  = Some (Discrete.Var opposedX) /\
  map_has (Discrete.evidence s) 0 = false /\
  Discrete.newMarginal s 0 opposedX
  = [Num.exp (logMarginal s 0 [1; 2; 3; 4] 0);
     Num.exp (logMarginal s 0 [1; 2; 3; 4] 1)] /\
  forall i, i < 2 ->
    exists x, logMarginal s 0 [1; 2; 3; 4] i = Fin x /\ (x < -800)%R.
Proof.
  cbv zeta.
  destruct (DiscreteFrame.updateAllMessages_frame (built opposed None))
    as (G & E & _).
  split; [rewrite G; reflexivity|]. split; [rewrite E; reflexivity|].
  split; [unfold Discrete.newMarginal, logMarginal, mapi;
          cbn [mapi_from Discrete.possibleValues Discrete.var_neighbors
               opposedX]; reflexivity|].
  intros i Hi. unfold logMarginal. cbn [map fold_left].
  rewrite (@opposed_sweep_message 1 "F1"%string 0 eq_refl) by lia.
  rewrite (@opposed_sweep_message 2 "F2"%string 0 eq_refl) by lia.
  rewrite (@opposed_sweep_message 3 "F3"%string 1 eq_refl) by lia.
  rewrite (@opposed_sweep_message 4 "F4"%string 1 eq_refl) by lia.
  assert (H0 : 0 < 2) by lia. assert (H1 : 1 < 2) by lia.
  destruct i as [|[|i]]; [| |lia]; cbn [nth_error].
  - destruct (@opposedWeight_log 0 0 H0) as (-> & _ & L0).
    destruct (@opposedWeight_log 1 0 H1) as (-> & L1 & _).
    cbn [add]. eexists. split; [reflexivity|].
    specialize (L0 eq_refl). lra.
  - destruct (@opposedWeight_log 0 1 H0) as (-> & L0 & _).
    destruct (@opposedWeight_log 1 1 H1) as (-> & _ & L1).
    cbn [add]. eexists. split; [reflexivity|].
    specialize (L1 eq_refl). lra.
Qed.

(* ================================================================= *)
(** ** The theorems at concrete inputs *)

Open Scope string_scope.

Lemma lookup_errors_witness :
  (exists prefix,
      Discrete.getBeliefs "F" (built agreement None)
      = Thrown (prefix ++ "F") /\
      Discrete.getLogBeliefs "F" (built agreement None)
      = Thrown (prefix ++ "F") /\
      Gaussian.getBeliefs "F" (Gaussian.constructor observedGaussian None)
      = Thrown (prefix ++ "F")) /\
  Discrete.setEvidence "F" (Fin 1) (built agreement None)
  = built agreement None /\
  Gaussian.setEvidence "F" (Fin 5) (Fin 1)
    (Gaussian.constructor observedGaussian None)
  = Gaussian.constructor observedGaussian None.
Proof.
  apply (@lookup_errors (built agreement None)
           (Gaussian.constructor observedGaussian None) "F"
           (Fin 1) (Fin 5) (Fin 1)).
  - intros n [<-|[<-|[<-|[]]]] H; try discriminate H; reflexivity.
  - intros n [<-|[<-|[]]] H; try discriminate H; reflexivity.
Defined.


Lemma gaussian_sweep_partial_witness :
  nth_error
    (Gaussian.nodes (Gaussian.graph (Gaussian.constructor observedGaussian None)))
    0 = Some (Gaussian.Var observedA) /\
  map_has (Gaussian.evidence (Gaussian.constructor observedGaussian None)) 0
  = false /\
  In 1 (Gaussian.var_neighbors observedA) /\
  completion
    (Gaussian.runIterations 1 None (Gaussian.constructor observedGaussian None))
  = Thrown Gaussian.reduceError.
Proof.
  split; [reflexivity|]. split; [reflexivity|]. split; [now left|].
  apply (proj1 (gaussian_sweep_partial
                  (Gaussian.constructor observedGaussian None))
           0 observedA 1 0 None).
  - reflexivity.
  - reflexivity.
  - now left.
  - intros n [<-|[]]. reflexivity.
Defined.

Close Scope string_scope.

Lemma logSumExp_cases_witness :
  Num.max [NInf; NInf] = NInf /\
  BeliefUtils.logSumExp [NInf; NInf] = BeliefUtils.LOG_EPSILON /\
  [Fin 0; NInf] <> [] /\ Num.max [Fin 0; NInf] <> NInf /\
  BeliefUtils.logSumExp [Fin 0; NInf] = logSumExp_formula [Fin 0; NInf].
Proof.
  assert (M : Num.max [Fin 0; NInf] <> NInf) by (simpl; discriminate).
  split; [reflexivity|]. split.
  - apply (proj1 (proj2 (proj2 (logSumExp_cases [NInf; NInf]))) eq_refl).
  - split; [discriminate|]. split; [exact M|].
    apply (proj2 (proj2 (proj2 (logSumExp_cases [Fin 0; NInf])))).
    + discriminate.
    + exact M.
Defined.

Open Scope string_scope.

Lemma agreement_nonEmptyDomains : nonEmptyDomains agreement.
Proof.
  intros name v [H|[H|[H|[]]]]; inversion H; subst; discriminate.
Qed.

Lemma agreement_evidence_allowed :
  evidenceInDomain (built agreement None) "A" (Fin 1).
Proof.
  intros k v H.
  change (Some (0, Discrete.Var agreementA) = Some (k, Discrete.Var v)) in H.
  inversion H; subst.
  cbv [agreementA Discrete.possibleValues filter Num.eqb List.length].
  settle_reals. reflexivity.
Qed.

Lemma agreementClamped_reachable (allowed : _ -> _ -> _ -> Prop) :
  allowed (built agreement None) "A" (Fin 1) ->
  reachable allowed agreement None agreementClamped.
Proof.
  intros H. unfold agreementClamped, discreteRuns. cbn [fold_left fst snd].
  apply reach_runIterations, reach_setEvidence; [|exact H].
  apply reach_constructor. reflexivity.
Qed.

Lemma agreementClamped_belief :
  Discrete.getBeliefs "A" agreementClamped
  = Returned (oneHot (Fin 1) [Fin 0; Fin 1]).
Proof.
  unfold agreementClamped, oneHot.
  apply (@discrete_evidence_fixed (built agreement None) "A" (Fin 1) 0
           agreementA [(3, None)]).
  reflexivity.
Qed.

Lemma log_belief_consistent_witness :
  reachable anyEvidence agreement None agreementClamped /\
  Discrete.getBeliefs "A" agreementClamped
  = Returned (oneHot (Fin 1) [Fin 0; Fin 1]) /\
  Discrete.getLogBeliefs "A" agreementClamped
  = Returned (map Num.log (oneHot (Fin 1) [Fin 0; Fin 1])).
Proof.
  split; [exact (agreementClamped_reachable anyEvidence I)|].
  split; [exact agreementClamped_belief|].
  apply (proj1 (@log_belief_consistent agreement None agreementClamped "A"
                  (oneHot (Fin 1) [Fin 0; Fin 1])
                  (agreementClamped_reachable anyEvidence I)
                  agreementClamped_belief)).
Defined.

Close Scope string_scope.

(* ================================================================= *)
(** ** Numbers within the range of the doubles *)

Open Scope R_scope.

Lemma hugeDouble_above_4 : 4 <= hugeDouble.
Proof.
  unfold hugeDouble. replace 4 with (2 ^ 2) by (simpl; lra).
  apply Rle_pow; [lra | lia].
Qed.

Lemma smallDouble_below_quarter : smallDouble <= / 4.
Proof.
  unfold smallDouble. apply Rinv_le_contravar; [lra|].
  replace 4 with (2 ^ 2) by (simpl; lra).
  apply Rle_pow; [lra | lia].
Qed.

Lemma smallDouble_positive : 0 < smallDouble.
Proof. unfold smallDouble. apply Rinv_0_lt_compat, pow_lt. lra. Qed.

Lemma within_positive (xs : list R) :
  Forall withinDoubles xs -> Forall (fun x => 0 < x) xs.
Proof.
  apply Forall_impl. intros x [H _]. pose proof smallDouble_positive. lra.
Qed.

Lemma withinDoubles_moderate (x : R) : / 4 <= x <= 4 -> withinDoubles x.
Proof.
  intros [H0 H1]. pose proof hugeDouble_above_4.
  pose proof smallDouble_below_quarter. split; lra.
Qed.

Close Scope R_scope.

(* ================================================================= *)
(** ** The default damping factor of the discrete engine *)

Section DefaultDamping.

Import Discrete.

(** With the factor 0 the blend of [dampMessage] is the previous entry,
    whatever the new entry is, as long as it is finite. *)
Lemma blend_zero_keeps (n : R) (p : num) :
  add (mul (Fin 0) (Fin n)) (mul (sub (Fin 1) (Fin 0)) p) = p.
Proof.
  destruct p as [r| | |]; cbn [sub neg mul add sign_of sign_mul].
  - f_equal. lra.
  - unfold sgn. destruct (Rlt_dec 0 (1 + - 0)); [reflexivity | lra].
  - unfold sgn. destruct (Rlt_dec 0 (1 + - 0)); [reflexivity | lra].
  - reflexivity.
Qed.

Lemma damped_zero (prev : list num) (ns : list R) :
  forall a,
    a + List.length ns = List.length prev ->
    mapi_from
      (fun idx val =>
         add (mul (Fin 0) val)
             (mul (sub (Fin 1) (Fin 0)) (to_number (nth_error prev idx))))
      a (map Fin ns)
    = skipn a prev.
Proof.
  induction ns as [|n t IH]; intros a Ha; cbn [map mapi_from].
  - symmetry. apply skipn_all2. simpl in Ha. lia.
  - simpl in Ha.
    destruct (nth_error prev a) as [p|] eqn:Ep;
      [|apply nth_error_None in Ep; lia].
    rewrite IH by lia. cbn [to_number]. rewrite blend_zero_keeps.
    clear IH Ha. revert a Ep.
    induction prev as [|x l IHl]; intros [|a] Ep; simpl in *;
      try discriminate.
    + now injection Ep as <-.
    + now apply IHl.
Qed.

(** With the factor 0 [dampMessage] returns the previous message,
    normalized: the new message has no influence. *)
Lemma dampMessage_zero_finite (prev : list num) (ns : list R) :
  List.length prev = List.length ns ->
  BeliefUtils.dampMessage (map Fin ns) prev (Fin 0)
  = BeliefUtils.normalize prev.
Proof.
  intros Hl. unfold BeliefUtils.dampMessage, BeliefUtils.normalize, mapi.
  cbv zeta. rewrite (@damped_zero prev ns 0) by (simpl; lia). reflexivity.
Qed.

Lemma length_newMarginal s k v :
  List.length (newMarginal s k v) = List.length (possibleValues v).
Proof. unfold newMarginal, mapi. apply length_mapi_from. Qed.

Lemma constructor_beliefsSized g damping s :
  constructor g damping = Some s -> beliefsSized s.
Proof.
  unfold constructor, initializeMessages.
  destruct (fold_left _ _ _) as [m|]; [|discriminate].
  intros H. injection H as <-. intros k v. cbn [graph nodes].
  rewrite nth_error_map.
  destruct (nth_error _ k) as [[v0|f0]|]; simpl; try discriminate.
  intros H. injection H as <-. cbn [currentBelief possibleValues].
  apply repeat_length.
Qed.

Lemma setEvidence_beliefsSized nodeId value s :
  beliefsSized s -> beliefsSized (setEvidence nodeId value s).
Proof.
  intros Hs. unfold setEvidence.
  destruct (findNode s nodeId) as [[k [v|f]]|] eqn:E; auto.
  pose proof (DiscreteValid.findNode_nth _ _ E) as Hk.
  intros j w. cbn [graph nodes].
  destruct (Nat.eq_dec k j) as [<-|Hne].
  - rewrite nth_error_set_nth_same by (apply nth_error_Some; congruence).
    intros H. injection H as <-. cbn [currentBelief possibleValues].
    apply length_map.
  - rewrite nth_error_set_nth_other by exact Hne. apply Hs.
Qed.

Lemma updateBelief_beliefsSized s k :
  beliefsSized s -> beliefsSized (updateBelief s k).
Proof.
  intros Hs. unfold updateBelief.
  destruct (nth_error (nodes (graph s)) k) as [[v|f]|] eqn:E; auto.
  destruct (map_has (evidence s) k); auto.
  intros j w. cbn [graph nodes].
  destruct (Nat.eq_dec k j) as [<-|Hne].
  - rewrite nth_error_set_nth_same by (apply nth_error_Some; congruence).
    intros H. injection H as <-. cbn [currentBelief possibleValues].
    unfold BeliefUtils.dampMessage, BeliefUtils.normalize, mapi.
    now rewrite length_map, length_mapi_from, length_map, length_newMarginal.
  - rewrite nth_error_set_nth_other by exact Hne. apply Hs.
Qed.

Lemma updateBelief_damping s k :
  dampingFactor (updateBelief s k) = dampingFactor s.
Proof.
  unfold updateBelief.
  destruct (nth_error (nodes (graph s)) k) as [[v|f]|]; auto.
  now destruct (map_has (evidence s) k).
Qed.

(** An engine built without damping option keeps the damping factor 0 and
    beliefs as long as the lists of values. *)
Lemma reachable_default g s :
  reachable anyEvidence g None s ->
  dampingFactor s = Fin 0 /\ beliefsSized s.
Proof.
  apply (@DiscreteClamp.reachable_preserved
           (fun s => dampingFactor s = Fin 0 /\ beliefsSized s)).
  - intros s0 Hc. split; [|now apply (constructor_beliefsSized _ _ Hc)].
    unfold constructor, initializeMessages in Hc.
    destruct (fold_left _ _ _); [|discriminate]. now injection Hc as <-.
  - intros s0 nodeId value [Hd Hb] _.
    split; [now rewrite setEvidence_damping
           | now apply setEvidence_beliefsSized].
  - intros s0 [Hd Hb].
    destruct (DiscreteFrame.updateAllMessages_frame s0) as (G & _ & _ & D & _).
    split; [congruence|]. unfold beliefsSized. now rewrite G.
  - intros s0 k [Hd Hb].
    split; [now rewrite updateBelief_damping
           | now apply updateBelief_beliefsSized].
Qed.

End DefaultDamping.

(** The normalized product of the incoming messages is finite when the
    products are within the range of the doubles. *)
Lemma normalized_marginal_finite s k v :
  okMatrix (Discrete.messages s) ->
  Forall withinDoubles
    (map (incomingProduct s k (Discrete.var_neighbors v))
         (seq 0 (List.length (Discrete.possibleValues v)))) ->
  exists ns,
    BeliefUtils.normalize (Discrete.newMarginal s k v) = map Fin ns.
Proof.
  intros Hm Hw. rewrite (@newMarginal_products s k v Hm).
  destruct (map (incomingProduct s k (Discrete.var_neighbors v))
                (seq 0 (List.length (Discrete.possibleValues v))))
    as [|x t] eqn:E; [exists []; reflexivity|].
  eexists. apply normalize_Fin.
  assert (Hne : x :: t <> []) by discriminate.
  pose proof (Rsum_positive Hne (within_positive Hw)).
  lra.
Qed.

(** X9.  With the default damping factor the belief update of the discrete
    engine ignores the messages.  On an engine built without damping
    option the damping factor is 0; the belief update of a variable
    without evidence, as long as the products of its incoming messages
    stay within the range of the doubles, stores the previous belief of
    the variable, normalized once more, as its belief and as its marginal,
    and the logarithm of that as its log-belief. *)
Theorem default_damping_freezes_beliefs
  (g : FactorGraph Discrete.BayesNodeInput) (s : Discrete.BeliefPropagation)
  (k : nat) (v : Discrete.BayesVariable) :
  reachable anyEvidence g None s ->
  nth_error (Discrete.nodes (Discrete.graph s)) k = Some (Discrete.Var v) ->
  map_has (Discrete.evidence s) k = false ->
  okMatrix (Discrete.messages s) ->
  Forall withinDoubles
    (map (incomingProduct s k (Discrete.var_neighbors v))
         (seq 0 (List.length (Discrete.possibleValues v)))) ->
  (Rsum (map (incomingProduct s k (Discrete.var_neighbors v))
             (seq 0 (List.length (Discrete.possibleValues v))))
   <= hugeDouble)%R ->
  let belief := BeliefUtils.normalize (Discrete.currentBelief v) in
  Discrete.dampingFactor s = Fin 0 /\
  nth_error (Discrete.nodes (Discrete.graph (Discrete.updateBelief s k))) k
  = Some (Discrete.setBeliefs (Discrete.Var v) belief (map Num.log belief)) /\
  Discrete.variableMarginals (Discrete.updateBelief s k)
  = set_nth k belief (Discrete.variableMarginals s).
Proof.
  intros Hr Hk He Hm Hw _. cbv zeta.
  destruct (reachable_default Hr) as [Hd Hb].
  destruct (@normalized_marginal_finite s k v Hm Hw) as [ns Hn].
  split; [exact Hd|].
  assert (Hl : List.length (Discrete.currentBelief v) = List.length ns).
  { rewrite (Hb k v Hk), <- (length_newMarginal s k v).
    rewrite <- (length_map Fin ns), <- Hn.
    unfold BeliefUtils.normalize. now rewrite length_map. }
  unfold Discrete.updateBelief. rewrite Hk, He. cbv zeta.
  rewrite Hn, Hd, (dampMessage_zero_finite _ _ Hl).
  cbn [Discrete.graph Discrete.nodes Discrete.variableMarginals].
  split; [|reflexivity].
  apply nth_error_set_nth_same. apply nth_error_Some. congruence.
Qed.

(* ================================================================= *)
(** ** Products and quotients of messages within the range of the doubles *)

(** X12.  The belief update of the discrete engine multiplies the incoming
    messages.  For a variable without evidence, as long as the products
    stay within the range of the doubles, the unnormalized marginal of the
    value of index [i] is the product over the neighbors of the entry [i]
    of their current message, an entry that is missing, NaN or 0 being
    read as 1; the new belief is this vector normalized and damped against
    the old belief, the log-belief is its logarithm, and the stored
    marginal is the new belief. *)
Theorem discrete_belief_is_product
  (s : Discrete.BeliefPropagation) (k : nat) (v : Discrete.BayesVariable) :
  okMatrix (Discrete.messages s) ->
  nth_error (Discrete.nodes (Discrete.graph s)) k = Some (Discrete.Var v) ->
  map_has (Discrete.evidence s) k = false ->
  Forall withinDoubles
    (map (incomingProduct s k (Discrete.var_neighbors v))
         (seq 0 (List.length (Discrete.possibleValues v)))) ->
  let products :=
    map (incomingProduct s k (Discrete.var_neighbors v))
        (seq 0 (List.length (Discrete.possibleValues v))) in
  let belief :=
    BeliefUtils.dampMessage (BeliefUtils.normalize (map Fin products))
      (Discrete.currentBelief v) (Discrete.dampingFactor s) in
  Discrete.newMarginal s k v = map Fin products /\
  nth_error (Discrete.nodes (Discrete.graph (Discrete.updateBelief s k))) k
  = Some (Discrete.setBeliefs (Discrete.Var v) belief (map Num.log belief)) /\
  Discrete.variableMarginals (Discrete.updateBelief s k)
  = set_nth k belief (Discrete.variableMarginals s) /\
  Discrete.messages (Discrete.updateBelief s k) = Discrete.messages s.
Proof.
  intros Hm Hk He _. cbv zeta.
  pose proof (@newMarginal_products s k v Hm) as E.
  split; [exact E|]. unfold Discrete.updateBelief. rewrite Hk, He, E.
  cbn [Discrete.graph Discrete.nodes Discrete.variableMarginals Discrete.messages].
  repeat split.
  apply nth_error_set_nth_same. apply nth_error_Some. congruence.
Qed.

(** X13.  The variable-to-factor message of the discrete engine.  For an
    observed variable the current message is copied.  Otherwise the stored
    marginal of the variable is divided, entry by entry, by the current
    message of the factor (an entry that is missing, NaN or 0 counting as
    [1e-10]) and the result is normalized, as long as the quotients and
    their sum stay within the range of the doubles.  This is the message
    the call stores in the next-message buffer, and the message from the
    variable to the factor once the sweep has swapped the buffers. *)
Theorem discrete_variable_to_factor_message
  (s : Discrete.BeliefPropagation) (variable factor : nat)
  (v : Discrete.BayesVariable) (ms : list R) :
  structured s ->
  nth_error (Discrete.nodes (Discrete.graph s)) variable
  = Some (Discrete.Var v) ->
  In factor (Discrete.var_neighbors v) ->
  okMatrix (Discrete.messages s) ->
  nth variable (Discrete.variableMarginals s) [] = map Fin ms ->
  Forall (fun m => (0 <= m)%R) ms ->
  Forall zeroOrWithinDoubles (dividedOut s variable factor ms) ->
  (Rsum (dividedOut s variable factor ms) <= hugeDouble)%R ->
  let computed :=
    if map_has (Discrete.evidence s) variable
    then mget [] (Discrete.messages s) variable factor
    else BeliefUtils.normalize (map Fin (dividedOut s variable factor ms)) in
  Discrete.updateVariableToFactorMessage s variable factor
  = Discrete.withNext s
      (mset (Discrete.nextMessages s) variable factor computed) /\
  mget [] (Discrete.nextMessages
             (Discrete.updateVariableToFactorMessage s variable factor))
       variable factor
  = computed /\
  mget [] (Discrete.messages (Discrete.updateAllMessages s)) variable factor
  = computed.
Proof.
  intros Hst Hk Hf Hm Hmar Hms _ _. cbv zeta.
  assert (E : discreteVariableMessage s variable factor
              = if map_has (Discrete.evidence s) variable
                then mget [] (Discrete.messages s) variable factor
                else BeliefUtils.normalize
                       (map Fin (dividedOut s variable factor ms))).
  { unfold discreteVariableMessage.
    destruct (map_has _ _); [reflexivity|]. cbv zeta.
    rewrite Hmar. unfold mapi, dividedOut, mapi.
    now rewrite (@dividedOut_entries s variable factor ms Hm Hms). }
  destruct (@DiscreteSweep.variableEntry_bounds s variable factor v Hst Hk Hf)
    as [Hvn Hfn].
  pose proof Hst as (_ & Sx & _).
  rewrite DiscreteSweep.variableUpdate_stores, E.
  split; [reflexivity|]. split.
  - cbn [Discrete.withNext Discrete.nextMessages].
    now apply (@mget_mset_same _ [] _ _ variable factor
                 (List.length (Discrete.nodes (Discrete.graph s)))).
  - rewrite (@DiscreteSweep.variableEntry_after_sweep s variable factor v
               Hst Hk Hf).
    exact E.
Qed.

(* ================================================================= *)
(** ** The two damping conventions of the code *)

Open Scope string_scope.

Lemma agreementObserved_undamped :
  undamped (Discrete.setEvidence "A" (Fin 1) (built agreement None)).
Proof.
  apply (@reachable_undamped agreement _ agreement_nonEmptyDomains).
  apply reach_setEvidence; [|exact agreement_evidence_allowed].
  apply reach_constructor. reflexivity.
Qed.

Lemma agreementObserved_B :
  Discrete.getBeliefs "B"
    (Discrete.setEvidence "A" (Fin 1) (built agreement None))
  = Returned (uniform 2).
Proof.
  change (Returned (repeat (div (Fin 1) (of_nat 2)) 2) = Returned (uniform 2)).
  rewrite uniform_Fin by lia. reflexivity.
Qed.

(** C4, where the code leaves it.  The sweep of the Gaussian engine blends
    the other way round than [dampMessage] and [gaussianDampMessage] do.
    On the engine of [observedGaussian] with damping factor 1, after the
    evidence [A = 5], the message from [F] to [A] is [(0, 0)] before the
    sweep and the sweep computes [(3, 2)]; after the sweep the message is
    still [(0, 0)], where [gaussianDampMessage] with the same factor
    returns the new message [(3, 2)].  And in the discrete engine, which
    follows [dampMessage], the default damping factor 0 accepts nothing:
    on the engine of [agreement] built without damping option, after the
    evidence [A = 1], five sweeps leave the belief of [B] uniform. *)
Theorem gaussian_sweep_damping_reversed :
  Gaussian.dampingFactor clampedGaussian = Fin 1 /\
  messageAt (Gaussian.messages clampedGaussian) 1 0 = (Fin 0, Fin 0) /\
  (exists raw,
     Gaussian.factorPhase (Gaussian.variablePhase clampedGaussian)
     = Gaussian.Done raw /\
     messageAt (Gaussian.nextMessages raw) 1 0 = (Fin 3, Fin 2)) /\
  (exists s',
     Gaussian.updateAllMessages clampedGaussian = Gaussian.Done s' /\
     messageAt (Gaussian.messages s') 1 0 = (Fin 0, Fin 0)) /\
  BeliefUtils.gaussianDampMessage
    (mkGaussianMessage (Fin 3) (Fin 2)) (mkGaussianMessage (Fin 0) (Fin 0))
    (Fin 1)
  = mkGaussianMessage (Fin 3) (Fin 2) /\
  Discrete.dampingFactor (built agreement None) = Fin 0 /\
  Discrete.getBeliefs "B"
    (final (Discrete.runIterations 5 None
              (Discrete.setEvidence "A" (Fin 1) (built agreement None))))
  = Returned (uniform 2).
Proof.
  split; [exact clampedGaussian_damping|]. split; [exact clampedGaussian_old|].
  split; [exact clampedGaussian_raw|]. split; [exact clampedGaussian_swept|].
  split; [|split; [reflexivity|]].
  - unfold BeliefUtils.gaussianDampMessage. simpl.
    apply f_equal2; apply f_equal; lra.
  - rewrite <- agreementObserved_B.
    destruct (@iterate_undamped 5 Discrete.defaultTolerance 5 0 _
                agreementObserved_undamped) as (_ & G & _).
    unfold Discrete.runIterations, Discrete.getBeliefs, Discrete.findNode.
    now rewrite G.
Qed.

Close Scope string_scope.

(* ================================================================= *)
(** ** More theorems at concrete inputs *)

Open Scope string_scope.

Lemma agreement_constructed :
  Discrete.constructor agreement None = Some (built agreement None).
Proof. reflexivity. Qed.

Lemma agreement_built_valid : DiscreteInv.validInv (built agreement None).
Proof.
  apply (@DiscreteValid.constructor_inv agreement None).
  - exact agreement_nonEmptyDomains.
  - now left.
  - exact agreement_constructed.
Qed.

Lemma agreement_built_marginals : marginalsMatch (built agreement None).
Proof. exact (constructor_marginalsMatch _ _ agreement_constructed). Qed.

Lemma agreementF_finite : finiteLogPotential agreementF.
Proof.
  intros values. unfold agreementF. cbn [Discrete.logPotential].
  assert (H : forall p, p = Fin (99 / 100) \/ p = Fin (1 / 100) \/ p = Fin 0 ->
              exists r, (if gt p (Fin 0) then Num.log p
                         else BeliefUtils.LOG_EPSILON) = Fin r).
  { intros p [->|[->| ->]];
      unfold gt, lt, Num.log, BeliefUtils.LOG_EPSILON; settle_reals; eauto. }
  apply H.
  destruct values as [|[a|] [|[b|] [|c t]]]; auto.
  destruct (Nat.eqb a b); auto.
Qed.

Lemma discrete_factor_message_is_distribution_witness :
  nth_error (Discrete.nodes (Discrete.graph (built agreement None))) 2
  = Some (Discrete.Fac agreementF) /\
  Forall validNode (Discrete.nodes (Discrete.graph (built agreement None))) /\
  marginalsMatch (built agreement None) /\
  okMatrix (Discrete.messages (built agreement None)) /\
  finiteLogPotential agreementF /\
  Discrete.possibleValuesOf (built agreement None) 0 <> [] /\
  exists msg,
    Discrete.updateFactorToVariableMessage (built agreement None) 2 agreementF 0
    = Discrete.withNext (built agreement None)
        (mset (Discrete.nextMessages (built agreement None)) 2 0 msg) /\
    distribution msg /\
    List.length msg
    = List.length (Discrete.possibleValuesOf (built agreement None) 0).
Proof.
  destruct agreement_built_valid as (Hn & Hm & _).
  assert (Hv : Discrete.possibleValuesOf (built agreement None) 0 <> [])
    by discriminate.
  split; [reflexivity|]. split; [exact Hn|].
  split; [exact agreement_built_marginals|]. split; [exact Hm|].
  split; [exact agreementF_finite|]. split; [exact Hv|].
  apply (@discrete_factor_message_is_distribution (built agreement None) 2
           agreementF 0 Hn agreement_built_marginals Hm agreementF_finite Hv).
Defined.

Lemma discrete_evidence_message_frozen_witness :
  reachable anyEvidence agreement None (built agreement None) /\
  Discrete.findNode (built agreement None) "A"
  = Some (0, Discrete.Var agreementA) /\
  In 2 (Discrete.var_neighbors agreementA) /\
  mget [] (Discrete.messages
             (discreteRuns [(3, None)]
                (Discrete.setEvidence "A" (Fin 1) (built agreement None)))) 0 2
  = oneHot (Fin 1) [Fin 0; Fin 1].
Proof.
  assert (Hr : reachable anyEvidence agreement None (built agreement None))
    by (apply reach_constructor; reflexivity).
  assert (Hin : In 2 (Discrete.var_neighbors agreementA)) by (left; reflexivity).
  split; [exact Hr|]. split; [reflexivity|]. split; [exact Hin|].
  apply (@discrete_evidence_message_frozen agreement None
           (built agreement None) "A" (Fin 1) 0 2 agreementA [(3, None)]
           Hr eq_refl Hin).
Defined.

Lemma pairF_wellShaped : FactorMessageSpec.wellShaped pairF.
Proof.
  split; [reflexivity|]. split; [|reflexivity].
  intros row [<-|[<-|[]]]; reflexivity.
Qed.

Lemma pairClamped_structured : gaussianStructured pairClamped.
Proof.
  unfold pairClamped.
  do 2 apply GaussianFrozen.gaussian_setEvidence_structured.
  apply GaussianClamp.constructor_result.
Qed.

Lemma pairClamped_others :
  FactorMessageSpec.others pairClamped 2 pairF 0 = Fin (0 + 1 * 6).
Proof. evaluate. reflexivity. Qed.

Lemma pairClamped_computed :
  exists mu,
    FactorMessageSpec.outMean pairClamped 2 pairF 0 = Fin mu /\ mu = (-1)%R /\
    FactorMessageSpec.outPrecision pairF 0 = Fin 2.
Proof.
  evaluate. eexists. split; [reflexivity|]. split; [lra | reflexivity].
Qed.

Lemma pairClamped_phases :
  exists raw,
    Gaussian.factorPhase (Gaussian.variablePhase pairClamped)
    = Gaussian.Done raw.
Proof. evaluate. eexists. reflexivity. Qed.

Lemma factor_to_variable_message_witness :
  gaussianStructured pairClamped /\
  nth_error (Gaussian.nodes (Gaussian.graph pairClamped)) 2
  = Some (Gaussian.Fac pairF) /\
  FactorMessageSpec.wellShaped pairF /\
  findIndex (fun v => Nat.eqb v 0) (Gaussian.fac_neighbors pairF) = Some 0 /\
  FactorMessageSpec.others pairClamped 2 pairF 0 = Fin (0 + 1 * 6) /\
  (exists mu,
      FactorMessageSpec.outMean pairClamped 2 pairF 0 = Fin mu /\ mu = (-1)%R /\
      FactorMessageSpec.outPrecision pairF 0 = Fin 2) /\
  (exists raw,
      Gaussian.factorPhase (Gaussian.variablePhase pairClamped)
      = Gaussian.Done raw) /\
  let computed :=
    (FactorMessageSpec.outMean pairClamped 2 pairF 0,
     FactorMessageSpec.outPrecision pairF 0) in
  (exists s',
      Gaussian.updateFactorToVariableMessage pairClamped 2 pairF 0 = Some s' /\
      messageAt (Gaussian.nextMessages s') 2 0 = computed /\
      (forall a b, (2, 0) <> (a, b) ->
         messageAt (Gaussian.nextMessages s') a b
         = messageAt (Gaussian.nextMessages pairClamped) a b) /\
      Gaussian.messages s' = Gaussian.messages pairClamped) /\
  (forall raw,
      Gaussian.factorPhase (Gaussian.variablePhase pairClamped)
      = Gaussian.Done raw ->
      messageAt (Gaussian.nextMessages raw) 2 0 = computed) /\
  (forall s',
      Gaussian.updateAllMessages pairClamped = Gaussian.Done s' ->
      messageAt (Gaussian.messages s') 2 0
      = dampPair (Gaussian.dampingFactor pairClamped)
                 (messageAt (Gaussian.messages pairClamped) 2 0) computed).
Proof.
  split; [exact pairClamped_structured|]. split; [reflexivity|].
  split; [exact pairF_wellShaped|]. split; [reflexivity|].
  split; [exact pairClamped_others|]. split; [exact pairClamped_computed|].
  split; [exact pairClamped_phases|].
  exact (@factor_to_variable_message pairClamped 2 pairF 0 0
           pairClamped_structured eq_refl pairF_wellShaped eq_refl).
Defined.

Lemma forkGaussian_structured :
  gaussianStructured (Gaussian.constructor forkGaussian None).
Proof. apply GaussianClamp.constructor_result. Qed.

Lemma forkGaussian_phases :
  exists raw,
    Gaussian.factorPhase
      (Gaussian.variablePhase (Gaussian.constructor forkGaussian None))
    = Gaussian.Done raw.
Proof. evaluate. eexists. reflexivity. Qed.

Lemma gaussian_variable_to_factor_message_witness :
  gaussianStructured (Gaussian.constructor forkGaussian None) /\
  nth_error
    (Gaussian.nodes (Gaussian.graph (Gaussian.constructor forkGaussian None))) 0
  = Some (Gaussian.Var forkA) /\
  In 1 (Gaussian.var_neighbors forkA) /\
  map_get (Gaussian.evidence (Gaussian.constructor forkGaussian None)) 0 = None /\
  filter (fun n => negb (Nat.eqb n 1))
         (Gaussian.neighborsOf (Gaussian.constructor forkGaussian None) 0)
  = [2] /\
  (exists raw,
      Gaussian.factorPhase
        (Gaussian.variablePhase (Gaussian.constructor forkGaussian None))
      = Gaussian.Done raw) /\
  let s := Gaussian.constructor forkGaussian None in
  let computed := gaussianVariableMessage s 0 1 in
  (Gaussian.updateVariableToFactorMessage s 0 1 = None <->
   map_get (Gaussian.evidence s) 0 = None /\
   filter (fun n => negb (Nat.eqb n 1)) (Gaussian.neighborsOf s 0) = []) /\
  (forall s',
      Gaussian.updateVariableToFactorMessage s 0 1 = Some s' ->
      messageAt (Gaussian.nextMessages s') 0 1 = computed /\
      Gaussian.messages s' = Gaussian.messages s) /\
  (forall raw,
      Gaussian.factorPhase (Gaussian.variablePhase s) = Gaussian.Done raw ->
      messageAt (Gaussian.nextMessages raw) 0 1 = computed) /\
  (forall s',
      Gaussian.updateAllMessages s = Gaussian.Done s' ->
      messageAt (Gaussian.messages s') 0 1
      = dampPair (Gaussian.dampingFactor s)
                 (messageAt (Gaussian.messages s) 0 1) computed).
Proof.
  assert (Hin : In 1 (Gaussian.var_neighbors forkA)) by (left; reflexivity).
  split; [exact forkGaussian_structured|]. split; [reflexivity|].
  split; [exact Hin|]. split; [reflexivity|]. split; [reflexivity|].
  split; [exact forkGaussian_phases|].
  exact (@gaussian_variable_to_factor_message
           (Gaussian.constructor forkGaussian None) 0 1 forkA
           forkGaussian_structured eq_refl Hin).
Defined.


Lemma agreement_built_reachable :
  reachable anyEvidence agreement None (built agreement None).
Proof. apply reach_constructor. reflexivity. Qed.

Lemma agreement_products :
  map (incomingProduct (built agreement None) 0 [2]) (seq 0 2)
  = [(1 / (1 + 1) * 1)%R; (1 / (1 + 1) * 1)%R].
Proof. evaluate. reflexivity. Qed.

Lemma agreement_quotients :
  dividedOut (built agreement None) 0 2 [(1 / INR 2)%R; (1 / INR 2)%R]
  = [(1 / (1 + 1) / (1 / (1 + 1)))%R; (1 / (1 + 1) / (1 / (1 + 1)))%R].
Proof. evaluate. reflexivity. Qed.

Lemma agreement_products_within :
  Forall withinDoubles
    (map (incomingProduct (built agreement None) 0
            (Discrete.var_neighbors agreementA))
         (seq 0 (List.length (Discrete.possibleValues agreementA)))).
Proof.
  change (Discrete.var_neighbors agreementA) with [2].
  change (List.length (Discrete.possibleValues agreementA)) with 2.
  rewrite agreement_products.
  assert (H : withinDoubles (1 / (1 + 1) * 1))
    by (apply withinDoubles_moderate; lra).
  constructor; [exact H|]. constructor; [exact H | constructor].
Qed.

Lemma agreement_products_sum :
  (Rsum (map (incomingProduct (built agreement None) 0
                (Discrete.var_neighbors agreementA))
             (seq 0 (List.length (Discrete.possibleValues agreementA))))
   <= hugeDouble)%R.
Proof.
  change (Discrete.var_neighbors agreementA) with [2].
  change (List.length (Discrete.possibleValues agreementA)) with 2.
  rewrite agreement_products. pose proof hugeDouble_above_4.
  cbn [Rsum]. lra.
Qed.

Lemma default_damping_freezes_beliefs_witness :
  reachable anyEvidence agreement None (built agreement None) /\
  nth_error (Discrete.nodes (Discrete.graph (built agreement None))) 0
  = Some (Discrete.Var agreementA) /\
  map_has (Discrete.evidence (built agreement None)) 0 = false /\
  okMatrix (Discrete.messages (built agreement None)) /\
  Forall withinDoubles
    (map (incomingProduct (built agreement None) 0
            (Discrete.var_neighbors agreementA))
         (seq 0 (List.length (Discrete.possibleValues agreementA)))) /\
  (Rsum (map (incomingProduct (built agreement None) 0
                (Discrete.var_neighbors agreementA))
             (seq 0 (List.length (Discrete.possibleValues agreementA))))
   <= hugeDouble)%R /\
  let belief := BeliefUtils.normalize (Discrete.currentBelief agreementA) in
  Discrete.dampingFactor (built agreement None) = Fin 0 /\
  nth_error
    (Discrete.nodes
       (Discrete.graph (Discrete.updateBelief (built agreement None) 0))) 0
  = Some (Discrete.setBeliefs (Discrete.Var agreementA) belief
            (map Num.log belief)) /\
  Discrete.variableMarginals (Discrete.updateBelief (built agreement None) 0)
  = set_nth 0 belief (Discrete.variableMarginals (built agreement None)).
Proof.
  assert (Hm : okMatrix (Discrete.messages (built agreement None)))
    by apply agreement_built_valid.
  split; [exact agreement_built_reachable|]. split; [reflexivity|].
  split; [reflexivity|]. split; [exact Hm|].
  split; [exact agreement_products_within|].
  split; [exact agreement_products_sum|].
  exact (@default_damping_freezes_beliefs agreement (built agreement None) 0
           agreementA agreement_built_reachable eq_refl eq_refl Hm
           agreement_products_within agreement_products_sum).
Defined.

Lemma discrete_belief_is_product_witness :
  okMatrix (Discrete.messages (built agreement None)) /\
  nth_error (Discrete.nodes (Discrete.graph (built agreement None))) 0
  = Some (Discrete.Var agreementA) /\
  map_has (Discrete.evidence (built agreement None)) 0 = false /\
  Forall withinDoubles
    (map (incomingProduct (built agreement None) 0
            (Discrete.var_neighbors agreementA))
         (seq 0 (List.length (Discrete.possibleValues agreementA)))) /\
  let products :=
    map (incomingProduct (built agreement None) 0
           (Discrete.var_neighbors agreementA))
        (seq 0 (List.length (Discrete.possibleValues agreementA))) in
  let belief :=
    BeliefUtils.dampMessage (BeliefUtils.normalize (map Fin products))
      (Discrete.currentBelief agreementA)
      (Discrete.dampingFactor (built agreement None)) in
  Discrete.newMarginal (built agreement None) 0 agreementA = map Fin products /\
  nth_error
    (Discrete.nodes
       (Discrete.graph (Discrete.updateBelief (built agreement None) 0))) 0
  = Some (Discrete.setBeliefs (Discrete.Var agreementA) belief
            (map Num.log belief)) /\
  Discrete.variableMarginals (Discrete.updateBelief (built agreement None) 0)
  = set_nth 0 belief (Discrete.variableMarginals (built agreement None)) /\
  Discrete.messages (Discrete.updateBelief (built agreement None) 0)
  = Discrete.messages (built agreement None).
Proof.
  assert (Hm : okMatrix (Discrete.messages (built agreement None)))
    by apply agreement_built_valid.
  split; [exact Hm|]. split; [reflexivity|]. split; [reflexivity|].
  split; [exact agreement_products_within|].
  exact (@discrete_belief_is_product (built agreement None) 0 agreementA
           Hm eq_refl eq_refl agreement_products_within).
Defined.

Lemma agreement_built_structured : structured (built agreement None).
Proof.
  exact (DiscreteClamp.constructor_structured _ _ agreement_constructed).
Qed.

Lemma discrete_variable_to_factor_message_witness :
  structured (built agreement None) /\
  nth_error (Discrete.nodes (Discrete.graph (built agreement None))) 0
  = Some (Discrete.Var agreementA) /\
  In 2 (Discrete.var_neighbors agreementA) /\
  okMatrix (Discrete.messages (built agreement None)) /\
  nth 0 (Discrete.variableMarginals (built agreement None)) []
  = map Fin [(1 / INR 2)%R; (1 / INR 2)%R] /\
  Forall (fun m => (0 <= m)%R) [(1 / INR 2)%R; (1 / INR 2)%R] /\
  Forall zeroOrWithinDoubles
    (dividedOut (built agreement None) 0 2 [(1 / INR 2)%R; (1 / INR 2)%R]) /\
  (Rsum (dividedOut (built agreement None) 0 2 [(1 / INR 2)%R; (1 / INR 2)%R])
   <= hugeDouble)%R /\
  let computed :=
    if map_has (Discrete.evidence (built agreement None)) 0
    then mget [] (Discrete.messages (built agreement None)) 0 2
    else BeliefUtils.normalize
           (map Fin
              (dividedOut (built agreement None) 0 2
                 [(1 / INR 2)%R; (1 / INR 2)%R])) in
  Discrete.updateVariableToFactorMessage (built agreement None) 0 2
  = Discrete.withNext (built agreement None)
      (mset (Discrete.nextMessages (built agreement None)) 0 2 computed) /\
  mget [] (Discrete.nextMessages
             (Discrete.updateVariableToFactorMessage (built agreement None) 0 2))
       0 2
  = computed /\
  mget [] (Discrete.messages (Discrete.updateAllMessages (built agreement None)))
       0 2
  = computed.
Proof.
  assert (Hin : In 2 (Discrete.var_neighbors agreementA)) by (left; reflexivity).
  assert (Hm : okMatrix (Discrete.messages (built agreement None)))
    by apply agreement_built_valid.
  assert (Hmar : nth 0 (Discrete.variableMarginals (built agreement None)) []
                 = map Fin [(1 / INR 2)%R; (1 / INR 2)%R]).
  { change (nth 0 (Discrete.variableMarginals (built agreement None)) [])
      with (repeat (div (Fin 1) (of_nat 2)) 2).
    rewrite uniform_Fin by lia. reflexivity. }
  assert (Hpos : Forall (fun m => (0 <= m)%R) [(1 / INR 2)%R; (1 / INR 2)%R]).
  { assert (H : (0 <= 1 / INR 2)%R) by (simpl; lra).
    constructor; [exact H|]. constructor; [exact H | constructor]. }
  assert (Hq : Forall zeroOrWithinDoubles
                 (dividedOut (built agreement None) 0 2
                    [(1 / INR 2)%R; (1 / INR 2)%R])).
  { rewrite agreement_quotients.
    assert (H : zeroOrWithinDoubles (1 / (1 + 1) / (1 / (1 + 1))))
      by (right; apply withinDoubles_moderate; lra).
    constructor; [exact H|]. constructor; [exact H | constructor]. }
  assert (Hs : (Rsum (dividedOut (built agreement None) 0 2
                        [(1 / INR 2)%R; (1 / INR 2)%R]) <= hugeDouble)%R).
  { rewrite agreement_quotients. pose proof hugeDouble_above_4.
    cbn [Rsum]. lra. }
  split; [exact agreement_built_structured|]. split; [reflexivity|].
  split; [exact Hin|]. split; [exact Hm|]. split; [exact Hmar|].
  split; [exact Hpos|]. split; [exact Hq|]. split; [exact Hs|].
  exact (@discrete_variable_to_factor_message (built agreement None) 0 2
           agreementA [(1 / INR 2)%R; (1 / INR 2)%R]
           agreement_built_structured eq_refl Hin Hm Hmar Hpos Hq Hs).
Defined.

Lemma gaussian_evidence_message_frozen_witness :
  gaussianReachable observedGaussian None
    (Gaussian.constructor observedGaussian None) /\
  (Gaussian.dampingFactor (Gaussian.constructor observedGaussian None) = Fin 0 \/
   Gaussian.dampingFactor (Gaussian.constructor observedGaussian None) = Fin 1) /\
  Gaussian.findNode (Gaussian.constructor observedGaussian None) "A"
  = Some (0, Gaussian.Var observedA) /\
  In 1 (Gaussian.var_neighbors observedA) /\
  div (Fin 1) (Fin 1) = Fin (1 / 1) /\
  (Rabs (1 / 1) <= hugeDouble)%R /\
  messageAt
    (Gaussian.messages
       (gaussianRuns [(3, None)]
          (Gaussian.setEvidence "A" (Fin 5) (Fin 1)
             (Gaussian.constructor observedGaussian None)))) 0 1
  = (Fin 5, Fin (1 / 1)).
Proof.
  assert (Hin : In 1 (Gaussian.var_neighbors observedA)) by (left; reflexivity).
  assert (Hp : div (Fin 1) (Fin 1) = Fin (1 / 1))
    by (unfold div; destruct (Req_dec_T 1 0); [lra | reflexivity]).
  assert (Hd : Gaussian.dampingFactor (Gaussian.constructor observedGaussian None)
               = Fin 0 \/
               Gaussian.dampingFactor (Gaussian.constructor observedGaussian None)
               = Fin 1) by (left; reflexivity).
  assert (Hb : (Rabs (1 / 1) <= hugeDouble)%R).
  { pose proof hugeDouble_above_4. rewrite Rabs_right; lra. }
  split; [apply greach_constructor|]. split; [exact Hd|].
  split; [reflexivity|]. split; [exact Hin|]. split; [exact Hp|].
  split; [exact Hb|].
  exact (@gaussian_evidence_message_frozen observedGaussian None
           (Gaussian.constructor observedGaussian None) "A" (Fin 5) (Fin 1)
           5%R (1 / 1)%R 0 1 observedA [(3, None)]
           (greach_constructor observedGaussian None) Hd eq_refl Hin
           eq_refl Hp Hb).
Defined.

Lemma tolerance_zero_never_converges_witness :
  neverBelow (Fin 0) /\
  Discrete.runIterations 2 (Some (Fin 0)) (built agreement None)
  = mkOutcome (Returned tt) [statusLine 2 Exhausted]
      (Nat.iter 2 Discrete.sweep (built agreement None)).
Proof.
  assert (H : neverBelow (Fin 0)).
  { right; right. exists 0%R. split; [reflexivity | lra]. }
  split; [exact H|].
  exact (proj1
           (@tolerance_zero_never_converges 2 (Fin 0) (built agreement None)
              (Gaussian.constructor observedGaussian None) H)).
Defined.

Close Scope string_scope.

